(** * drizzle-seeder: the deferred-reference resolution and batched insertion engine

    A shallow embedding of [SqliteSeeder] (src/sqlite-core/seed.ts) and
    [PgSeeder] (its Postgres twin): the two classes are the same program up to
    the parameter ceiling and one guard in [flush], so a single model indexed
    by a [Dialect] covers both. *)

From Stdlib Require Import ZArith String List Lia.
From stdpp Require Import base list strings gmap pretty.

Set Warnings "-register-all,-clear-no-such-hyp".

Local Open Scope string_scope.
Local Open Scope list_scope.
Local Open Scope Z_scope.

(** ** Values, references, placeholders (src/placeholders.ts) *)

(** Plain JavaScript data, as far as a column value needs it. *)
Inductive jsdata :=
| DUndefined
| DNull
| DNum (z : Z)
| DStr (s : string)
| DObj (fields : list (string * jsdata)).

Record ColumnValueReference := columnValueReference {
  refColumnName : string;
  refTableName : string;
  refRowIndex : Z;
  transformFn : jsdata → jsdata;
}.

(** A column value of a generated chunk is classified by its [_tag]. *)
Inductive cell :=
| Plain (d : jsdata)
| Reference (r : ColumnValueReference)
| GeneratedAsPlaceholder.

Definition isColumnValueReference (v : cell) : bool :=
  match v with Reference _ => true | _ => false end.

Definition isGeneratedAsPlaceholder (v : cell) : bool :=
  match v with GeneratedAsPlaceholder => true | _ => false end.

(** The object literal [{ _tag: "GeneratedAsPlaceholder" }] seen as data. *)
Definition placeholder_object : jsdata :=
  DObj [("_tag", DStr "GeneratedAsPlaceholder")].

(** [Record<string, unknown>], in [Object.entries] order. *)
Definition Chunk := list (string * cell).
(** A row as handed to the bulk insert. *)
Definition Row := list (string * jsdata).

(** One element of the generator stream: [{ _tag, ...chunkData }]. *)
Record StreamChunk := { tag : string; chunkData : Chunk }.

(** Property access on an object kept as an entry list. *)
Fixpoint assoc {A} (k : string) (l : list (string * A)) : option A :=
  match l with
  | [] => None
  | (k', v) :: l' => if decide (k' = k) then Some v else assoc k l'
  end.

(** [chunk[col]]: a missing property reads as [undefined]. *)
Definition chunk_get (chunk : Chunk) (col : string) : cell :=
  default (Plain DUndefined) (assoc col chunk).

(** ** Outcomes of a computation *)

(** For [SqliteError] the message is the one SQLite gives for the failure;
    the driver hands it on as the message of its error (better-sqlite3) or
    inside a longer one (@libsql/client). *)
Inductive Error :=
| JsError (message : string)        (* [throw new Error(message)] *)
| SqliteError (message : string)    (* raised by the scratch database *)
| DevalueError                      (* devalue: cannot stringify a function *)
| TypeError (message : string)      (* property access on null / undefined *)
| PersistenceFailure (table : string). (* the target rejected a bulk insert *)

Inductive outcome (A : Type) :=
| Done (a : A)
| Throw (e : Error)
| OutOfFuel.
Arguments Done {A} a.
Arguments Throw {A} e.
Arguments OutOfFuel {A}.

Definition obind {A B} (m : outcome A) (k : A → outcome B) : outcome B :=
  match m with
  | Done a => k a
  | Throw e => Throw e
  | OutOfFuel => OutOfFuel
  end.

Notation "'try' x ':=' m 'in' k" := (obind m (fun x => k))
  (at level 10, x name, m at level 100, k at level 200, only parsing).

Fixpoint omapM {A B} (f : A → outcome B) (l : list A) : outcome (list B) :=
  match l with
  | [] => Done []
  | x :: l' => try y := f x in try ys := omapM f l' in Done (y :: ys)
  end.

(** ** devalue *)

(** The text devalue produces, kept as the datum it encodes: [parse] gives
    it back, whatever its type. *)
Inductive devalue := Encoded (d : jsdata).

Definition parse (s : devalue) : jsdata := let 'Encoded d := s in d.

(** [stringify] takes any value: a reference object carries a function and
    is refused, the placeholder is a plain object. *)
Definition stringify (v : cell) : outcome devalue :=
  match v with
  | Plain d => Done (Encoded d)
  | GeneratedAsPlaceholder => Done (Encoded placeholder_object)
  | Reference _ => Throw DevalueError
  end.

(** ** The scratch database holding referenceable columns *)

(** The scratch database is an SQLite file, reached through five
    statements that splice the names of tables and columns between double
    quotes. What follows is SQLite's reading of these statements for names
    that hold no double quote: identifiers are compared without regard to
    the case of the letters A to Z; a table has its key [_rowIndex] and its
    declared columns, all of them distinct; tables and indexes share their
    names; the key of a row is unique, and SQLite chooses it when it is
    given NULL. SQLite's own tables ([sqlite_master] and the like) and its
    limits on the number of columns and of bound values are left out. *)

Definition lower (a : Ascii.ascii) : Ascii.ascii :=
  let n := Ascii.nat_of_ascii a in
  if (65 <=? n)%nat && (n <=? 90)%nat then Ascii.ascii_of_nat (n + 32) else a.

(** The spelling under which SQLite knows an identifier. *)
Fixpoint sql_name (s : string) : string :=
  match s with
  | EmptyString => EmptyString
  | String a s' => String (lower a) (sql_name s')
  end.

(** One SQL table [(_rowIndex INTEGER PRIMARY KEY, "c1" TEXT, ...)]: the
    name it was created under, its declared columns, and its rows by
    [_rowIndex]. A row holds the texts of the columns that were given one,
    under the names of the columns as declared; the other columns are
    NULL. The database maps [sql_name t] to the table [t]. *)
Record RefTable := {
  created_as : string;
  columns : list string;
  rows : gmap Z (list (string * devalue));
}.

(** The first of [cols] whose name the table has already. *)
Fixpoint duplicate_column (seen cols : list string) : option string :=
  match cols with
  | [] => None
  | c :: cols' =>
      if bool_decide (sql_name c ∈ seen) then Some c
      else duplicate_column (sql_name c :: seen) cols'
  end.

Definition index_name (tableName : string) : string :=
  "idx_" +:+ tableName +:+ "_rowIndex".

(** SQLite keeps the names that begin with [sqlite_] for itself. *)
Definition reserved (name : string) : bool :=
  String.prefix "sqlite_" (sql_name name).

(** [CREATE TABLE IF NOT EXISTS "t" (_rowIndex INTEGER PRIMARY KEY,
    "c1" TEXT, ...)], then [CREATE INDEX IF NOT EXISTS "idx_t_rowIndex" ON
    "t"(_rowIndex)]. Every table of the database has its index. *)
Definition create_table (db : gmap string RefTable) (tableName : string)
  (cols : list string) : outcome (gmap string RefTable) :=
  if reserved tableName then
    Throw (SqliteError ("object name reserved for internal use: "
                        +:+ tableName))
  else
    match db !! sql_name tableName with
    | Some _ => Done db (* IF NOT EXISTS, for the table and for its index *)
    | None =>
        if existsb (fun x => bool_decide
                      (sql_name (index_name (created_as x.2))
                       = sql_name tableName))
                   (map_to_list db)
        then Throw (SqliteError ("there is already an index named "
                                 +:+ tableName))
        else
          match duplicate_column [sql_name "_rowIndex"] cols with
          | Some c => Throw (SqliteError ("duplicate column name: " +:+ c))
          | None =>
              if bool_decide (is_Some (db !! sql_name (index_name tableName)))
              then Throw (SqliteError ("there is already a table named "
                                       +:+ index_name tableName))
              else
                Done (<[sql_name tableName :=
                        {| created_as := tableName; columns := cols;
                           rows := ∅ |}]> db)
          end
    end.

Fixpoint create_tables (db : gmap string RefTable)
  (refsConfig : list (string * list string))
  : outcome (gmap string RefTable) :=
  match refsConfig with
  | [] => Done db
  | (tableName, cols) :: rest =>
      try db' := create_table db tableName cols in create_tables db' rest
  end.

(** The database is a new file: the file is named after the seeder and
    removed at the end of a run, and [execute] is taken to run once for a
    seeder. *)
Definition createRefDatabase (refsConfig : list (string * list string))
  : outcome (gmap string RefTable) :=
  create_tables ∅ refsConfig.

Definition extractRefs (chunk : Chunk) : list ColumnValueReference :=
  omap (fun '(_, value) =>
          match value with Reference r => Some r | _ => None end) chunk.

(** [SELECT 1 FROM "t" WHERE _rowIndex = ?] *)
Definition refExists (ref : ColumnValueReference) (db : gmap string RefTable)
  : outcome bool :=
  match db !! sql_name (refTableName ref) with
  | None => Throw (SqliteError ("no such table: " +:+ refTableName ref))
  | Some t => Done (bool_decide (is_Some (rows t !! refRowIndex ref)))
  end.

(** The column of a table that a name stands for: the key or a declared
    column. *)
Inductive column_ref := KeyColumn | DataColumn (name : string).

(** The names SQLite has for the key of a row when no column bears them. *)
Definition key_names : list string := ["rowid"; "oid"; "_rowid_"].

(** A declared column is found under its name, in any case of letters, and
    so is the key (no two columns of a table differ in case only, so the
    order of the tests is of no account). *)
Definition find_column (t : RefTable) (c : string) : option column_ref :=
  if bool_decide (c ∈ columns t) then Some (DataColumn c)
  else if bool_decide (sql_name c = sql_name "_rowIndex") then Some KeyColumn
  else
    match find (fun d => bool_decide (sql_name d = sql_name c)) (columns t)
    with
    | Some d => Some (DataColumn d)
    | None =>
        if bool_decide (sql_name c ∈ key_names) then Some KeyColumn else None
    end.

(** [parse] of a value that is no text. devalue reads the number [-1] as
    [undefined] and refuses every other integer, as it refuses [null]. (It
    reads [-3] to [-6] as NaN, the infinities and [-0], which [jsdata] has
    not: no row gets such an index.) *)
Definition parse_number (i : Z) : outcome jsdata :=
  if decide (i = -1) then Done DUndefined else Throw (JsError "Invalid input").

Definition parse_null : outcome jsdata := Throw (JsError "Invalid input").

(** [SELECT "c" FROM "t" WHERE _rowIndex = ?], then [row[c]]: the row
    object has one property, under the name of the column as the table
    has it. *)
Definition resolveRef (ref : ColumnValueReference) (db : gmap string RefTable)
  : outcome jsdata :=
  match db !! sql_name (refTableName ref) with
  | None => Throw (SqliteError ("no such table: " +:+ refTableName ref))
  | Some t =>
      match find_column t (refColumnName ref) with
      | None =>
          Throw (SqliteError ("no such column: " +:+ refColumnName ref))
      | Some column =>
          match rows t !! refRowIndex ref with
          | None => Done DUndefined
          | Some row =>
              match column with
              | KeyColumn =>
                  if decide (refColumnName ref = "_rowIndex") then
                    try value := parse_number (refRowIndex ref) in
                    Done (transformFn ref value)
                  else Done DUndefined
              | DataColumn name =>
                  if decide (refColumnName ref = name) then
                    match assoc name row with
                    | Some rawValue => Done (transformFn ref (parse rawValue))
                    | None =>
                        try value := parse_null in
                        Done (transformFn ref value)
                    end
                  else Done DUndefined
              end
          end
      end
  end.

(** What SQLite checks of [INSERT INTO "t" (_rowIndex, "c1", ...) VALUES
    (?, ?, ...)] when the statement is prepared: the table, and the column
    each name stands for. *)
Definition prepare_insert (db : gmap string RefTable) (tableName : string)
  (columnsList : list string) : outcome (RefTable * list column_ref) :=
  match db !! sql_name tableName with
  | None => Throw (SqliteError ("no such table: " +:+ tableName))
  | Some t =>
      try cols :=
        omapM (fun c =>
                 match find_column t c with
                 | Some column => Done column
                 | None =>
                     Throw (SqliteError ("table " +:+ tableName
                                         +:+ " has no column named " +:+ c))
                 end) columnsList in
      Done (t, cols)
  end.

Definition is_key (x : column_ref * devalue) : bool :=
  match x.1 with KeyColumn => true | DataColumn _ => false end.

(** A text bound to the key must read as an integer: of the texts devalue
    writes, only that of [undefined] does ([-1]). *)
Definition as_integer (v : devalue) : option Z :=
  match v with
  | Encoded DUndefined => Some (-1)
  | Encoded _ => None
  end.

(** The key of the row to insert: the last value the statement gives for
    it, which is the bound row index unless a name of [columnsList] stands
    for the key too; [None] is NULL. *)
Definition key_value (rowIndex : option Z)
  (assigned : list (column_ref * devalue)) : outcome (option Z) :=
  match last (filter (fun x => is_key x = true) assigned) with
  | None => Done rowIndex
  | Some (_, v) =>
      match as_integer v with
      | Some i => Done (Some i)
      | None => Throw (SqliteError "datatype mismatch")
      end
  end.

(** The key SQLite gives a row inserted with a NULL key. *)
Definition next_rowid (rows : gmap Z (list (string * devalue))) : Z :=
  match (map_to_list rows).*1 with
  | [] => 1
  | i :: l => foldr Z.max i l + 1
  end.

(** The declared columns and their values, in the order of the statement:
    of two values for one column, SQLite takes the first, as [assoc]
    does. *)
Definition data_row (assigned : list (column_ref * devalue))
  : list (string * devalue) :=
  omap (fun '(column, v) =>
          match column with
          | DataColumn name => Some (name, v)
          | KeyColumn => None
          end) assigned.

Fixpoint areAllRefsResolved (refs : list ColumnValueReference)
  (db : gmap string RefTable) : outcome bool :=
  match refs with
  | [] => Done true
  | ref :: refs' =>
      try found := refExists ref db in
      if found then areAllRefsResolved refs' db else Done false
  end.

Definition ref_path (r : ColumnValueReference) : string :=
  refTableName r +:+ "[" +:+ pretty (refRowIndex r) +:+ "]." +:+ refColumnName r.

Fixpoint resolveChunk (chunk : Chunk) (sqliteDb : option (gmap string RefTable))
  : outcome Row :=
  match chunk with
  | [] => Done []
  | (key, value) :: rest =>
      match value with
      | Reference r =>
          match sqliteDb with
          | None =>
              Throw (JsError ("Cannot resolve ref without SQLite database: "
                              +:+ ref_path r))
          | Some db =>
              try v := resolveRef r db in
              try resolved := resolveChunk rest sqliteDb in
              Done ((key, v) :: resolved)
          end
      | GeneratedAsPlaceholder => resolveChunk rest sqliteDb
      | Plain d =>
          try resolved := resolveChunk rest sqliteDb in
          Done ((key, d) :: resolved)
      end
  end.

(** ** Seeder configuration and mutable state *)

Inductive Dialect := Sqlite | Postgres.

(** [SQLITE_MAX_PARAMETERS] and [PG_MAX_PARAMETERS]. *)
Definition MAX_PARAMETERS (d : Dialect) : Z :=
  match d with Sqlite => 999 | Postgres => 65535 end.

(** A JavaScript number that may be [Infinity] (a division by zero). *)
Inductive limit := Finite (n : Z) | Infinity.

Definition getBatchSizeForTable (d : Dialect) (columnCount : nat) : limit :=
  match columnCount with
  | O => Infinity
  | _ => Finite (MAX_PARAMETERS d / Z.of_nat columnCount)
  end.

(** [length >= batchSize] *)
Definition reaches (len : nat) (batchSize : limit) : bool :=
  match batchSize with
  | Finite n => bool_decide (n ≤ Z.of_nat len)
  | Infinity => false
  end.

Record QueuedChunk := {
  chunk : Chunk;
  rowIndex : Z;
  pendingRefs : list ColumnValueReference;
}.

Record TableState := {
  batch : list Chunk;
  queue : list QueuedChunk;
  seededCount : Z;
  rowIndices : list Z;
  batchSize : limit;
  columnCount : nat;
}.

(** One call [db.insert(table).values(resolvedBatch)]. Next to the values
    the call receives, the trace keeps the batch they were resolved from and
    the row indices of that batch. *)
Record InsertCall := {
  ic_table : string;
  ic_values : list Row;
  ic_batch : list Chunk;
  ic_rowIndices : list Z;
}.

(** The seeder object: what the constructor leaves in its fields, and the
    persistence target, which may reject a bulk insert given the calls it has
    already served. Of [this.schema], [flush] asks one thing: whether
    [this.schema[tableName]] is truthy. [schema] lists the names for which it
    is: the tables of the schema, and with them whatever else the object
    holds or inherits under a name ([toString], say, for an object
    literal). *)
Record Seeder := {
  dialect : Dialect;
  schema : list string;
  refsConfig : list (string * list string);
  accepts : list InsertCall → string → list Row → bool;
}.

(** Everything [execute] mutates. [tableStates] is a [Map]: entries are
    visited in insertion order. *)
Record World := {
  target : list InsertCall;
  sqliteDb : option (gmap string RefTable);
  tableStates : list (string * TableState);
  rowIndexByTable : gmap string Z;
}.

Definition initial : World :=
  {| target := []; sqliteDb := None; tableStates := [];
     rowIndexByTable := ∅ |}.

Definition set_target (f : list InsertCall → list InsertCall) (w : World) :=
  {| target := f (target w); sqliteDb := sqliteDb w;
     tableStates := tableStates w; rowIndexByTable := rowIndexByTable w |}.

Definition set_sqliteDb (db : option (gmap string RefTable)) (w : World) :=
  {| target := target w; sqliteDb := db;
     tableStates := tableStates w; rowIndexByTable := rowIndexByTable w |}.

Definition set_tableStates
  (f : list (string * TableState) → list (string * TableState)) (w : World) :=
  {| target := target w; sqliteDb := sqliteDb w;
     tableStates := f (tableStates w); rowIndexByTable := rowIndexByTable w |}.

Definition set_rowIndexByTable (f : gmap string Z → gmap string Z) (w : World) :=
  {| target := target w; sqliteDb := sqliteDb w;
     tableStates := tableStates w; rowIndexByTable := f (rowIndexByTable w) |}.

(** Mutating the object stored under a key of a [Map]. *)
Fixpoint alter_assoc {A} (f : A → A) (k : string) (l : list (string * A))
  : list (string * A) :=
  match l with
  | [] => []
  | (k', v) :: l' =>
      if decide (k' = k) then (k', f v) :: l' else (k', v) :: alter_assoc f k l'
  end.

Definition push_batch (c : Chunk) (i : Z) (st : TableState) : TableState :=
  {| batch := batch st ++ [c]; queue := queue st;
     seededCount := seededCount st; rowIndices := rowIndices st ++ [i];
     batchSize := batchSize st; columnCount := columnCount st |}.

Definition push_queue (q : QueuedChunk) (st : TableState) : TableState :=
  {| batch := batch st; queue := queue st ++ [q];
     seededCount := seededCount st; rowIndices := rowIndices st;
     batchSize := batchSize st; columnCount := columnCount st |}.

Definition set_queue (q : list QueuedChunk) (st : TableState) : TableState :=
  {| batch := batch st; queue := q;
     seededCount := seededCount st; rowIndices := rowIndices st;
     batchSize := batchSize st; columnCount := columnCount st |}.

(** The end of [flush]: count the batch, then empty it. *)
Definition clear_batch (st : TableState) : TableState :=
  {| batch := []; queue := queue st;
     seededCount := seededCount st + Z.of_nat (length (batch st));
     rowIndices := [];
     batchSize := batchSize st; columnCount := columnCount st |}.

(** ** The state-and-exception monad of the seeder *)

Definition M (A : Type) := World → outcome A * World.

Definition ret {A} (a : A) : M A := fun w => (Done a, w).

Definition bind {A B} (m : M A) (k : A → M B) : M B :=
  fun w =>
    match m w with
    | (Done a, w') => k a w'
    | (Throw e, w') => (Throw e, w')
    | (OutOfFuel, w') => (OutOfFuel, w')
    end.

Notation "'let*' x ':=' m 'in' k" := (bind m (fun x => k))
  (at level 10, x name, m at level 100, k at level 200, only parsing).
Notation "m ;; k" := (bind m (fun _ => k))
  (at level 100, k at level 200, only parsing).

Definition throw {A} (e : Error) : M A := fun w => (Throw e, w).
Definition out_of_fuel {A} : M A := fun w => (OutOfFuel, w).
Definition gets {A} (f : World → A) : M A := fun w => (Done (f w), w).
Definition modify (f : World → World) : M unit := fun w => (Done tt, f w).

Definition lift {A} (o : outcome A) : M A := fun w => (o, w).

Fixpoint forM_ {A} (l : list A) (f : A → M unit) : M unit :=
  match l with
  | [] => ret tt
  | x :: l' => f x ;; forM_ l' f
  end.

(** [tableStates.get(tableName)!] *)
Definition get_table (tableName : string) : M TableState :=
  fun w =>
    match assoc tableName (tableStates w) with
    | Some st => (Done st, w)
    | None => (Throw (TypeError "tableState is undefined"), w)
    end.

Definition modify_table (tableName : string) (f : TableState → TableState)
  : M unit :=
  modify (set_tableStates (alter_assoc f tableName)).

(** The database handle of a caller that has checked it, or asserted it
    with [sqliteDb!]. *)
Definition the_db : M (gmap string RefTable) :=
  fun w =>
    match sqliteDb w with
    | Some db => (Done db, w)
    | None => (Throw (TypeError "sqliteDb is null"), w)
    end.

(** [for (const [tableName, tableState] of tableStates)]: the keys are fixed
    during the loops below, the states they map to are read when visited. *)
Definition table_names : M (list string) :=
  gets (fun w => (tableStates w).*1).

(** ** The seeder's methods *)

Definition dquote : string := String (Ascii.ascii_of_nat 34) EmptyString.
Definition newline : string := String (Ascii.ascii_of_nat 10) EmptyString.

Section Engine.
Variable this : Seeder.

(** [this.refsConfig.size > 0] *)
Definition hasRefs : bool := bool_decide (refsConfig this ≠ []).

(** [await this.db.insert(table).values(resolvedBatch)] *)
Definition insert_values (tableName : string) (tableState : TableState)
  (resolvedBatch : list Row) : M unit :=
  fun w =>
    if accepts this (target w) tableName resolvedBatch then
      (Done tt,
       set_target (fun calls =>
         calls ++ [{| ic_table := tableName; ic_values := resolvedBatch;
                      ic_batch := batch tableState;
                      ic_rowIndices := rowIndices tableState |}]) w)
    else (Throw (PersistenceFailure tableName), w).

(** [INSERT INTO "t" (_rowIndex, "c1", ...) VALUES (?, ?, ...)], prepared
    and run: the primary key refuses a second row with the same index. An
    [undefined] row index is bound as NULL. *)
Definition store_insert (tableName : string) (columnsList : list string)
  (rowIndex : option Z) (values : list devalue) : M unit :=
  let* db := the_db in
  let* prepared := lift (prepare_insert db tableName columnsList) in
  let t := prepared.1 in
  let assigned := zip prepared.2 values in
  let* key := lift (key_value rowIndex assigned) in
  let i := default (next_rowid (rows t)) key in
  match rows t !! i with
  | Some _ =>
      throw (SqliteError ("UNIQUE constraint failed: " +:+ created_as t
                          +:+ "._rowIndex"))
  | None =>
      modify (set_sqliteDb (Some (<[sql_name tableName :=
        {| created_as := created_as t; columns := columns t;
           rows := <[i := data_row assigned]> (rows t) |}]> db)))
  end.

(** SQLite prepares the insert statement once, before the loop over the
    batch; Postgres sends the statement anew for every row. *)
Definition prepare_store (tableName : string) (columnsList : list string)
  : M unit :=
  match dialect this with
  | Sqlite =>
      let* db := the_db in
      lift (prepare_insert db tableName columnsList) ;; ret tt
  | Postgres => ret tt
  end.

(** Body of the loop of [flush] that stores the referenceable columns of
    the [i]-th chunk of the batch. With no row index at [i], Postgres
    skips the chunk and SQLite binds [undefined]. *)
Definition record_row (tableName : string) (columnsList : list string)
  (tableState : TableState) (i : nat) : M unit :=
  match batch tableState !! i with
  | None => ret tt
  | Some chunk =>
      match rowIndices tableState !! i, dialect this with
      | None, Postgres => ret tt
      | rowIndex, _ =>
          let* values :=
            lift (omapM (fun col => stringify (chunk_get chunk col))
                        columnsList) in
          store_insert tableName columnsList rowIndex values
      end
  end.

Definition flush (tableName : string) : M unit :=
  let* tableState := get_table tableName in
  if bool_decide (length (batch tableState) = 0%nat) then ret tt
  else if bool_decide (tableName ∈ schema this) then
    let* sqliteDb := gets sqliteDb in
    let* resolvedBatch :=
      lift (omapM (fun chunk => resolveChunk chunk sqliteDb)
                  (batch tableState)) in
    insert_values tableName tableState resolvedBatch ;;
    match sqliteDb with
    | Some _ =>
        match assoc tableName (refsConfig this) with
        | Some refColumns =>
            if bool_decide (0 < length refColumns)%nat then
              prepare_store tableName refColumns ;;
              forM_ (seq 0 (length (batch tableState)))
                    (record_row tableName refColumns tableState)
            else ret tt
        | None => ret tt
        end
    | None => ret tt
    end ;;
    modify_table tableName clear_batch
  else
    throw (JsError ("Table " +:+ dquote +:+ tableName +:+ dquote
                    +:+ " not found in schema")).

(** The inner loop of [drainAllQueues] over one table's queue; returns
    [stillQueued] and whether a chunk moved. The batch is pushed to as the
    loop goes, the queue is replaced after it. *)
Fixpoint drain_queue (db : gmap string RefTable) (tableName : string)
  (queued : list QueuedChunk) : M (list QueuedChunk * bool) :=
  match queued with
  | [] => ret ([], false)
  | q :: rest =>
      let* resolved := lift (areAllRefsResolved (pendingRefs q) db) in
      if resolved : bool then
        modify_table tableName (push_batch (chunk q) (rowIndex q)) ;;
        let* r := drain_queue db tableName rest in
        ret (r.1, true)
      else
        let* r := drain_queue db tableName rest in
        ret (q :: r.1, r.2)
  end.

Definition drain_table (db : gmap string RefTable) (tableName : string)
  : M bool :=
  let* tableState := get_table tableName in
  let* r := drain_queue db tableName (queue tableState) in
  modify_table tableName (set_queue r.1) ;;
  ret r.2.

(** One pass of the [while] loop over all tables. *)
Fixpoint drain_pass (db : gmap string RefTable) (names : list string)
  : M bool :=
  match names with
  | [] => ret false
  | tableName :: rest =>
      let* moved := drain_table db tableName in
      let* madeProgress := drain_pass db rest in
      ret (moved || madeProgress)
  end.

Fixpoint drain_loop (db : gmap string RefTable) (fuel : nat)
  (anyProgress : bool) : M bool :=
  match fuel with
  | O => out_of_fuel
  | S fuel' =>
      let* names := table_names in
      let* madeProgress := drain_pass db names in
      if madeProgress : bool then drain_loop db fuel' true
      else ret anyProgress
  end.

(** The scratch database is not written to while queues are drained. *)
Definition drainAllQueues (fuel : nat) : M bool :=
  let* db := the_db in
  drain_loop db fuel false.

Definition flushAllQueuesAfterDrain (fuel : nat) : M unit :=
  let* names := table_names in
  forM_ names (fun tableName =>
    let* tableState := get_table tableName in
    if reaches (length (batch tableState)) (batchSize tableState) then
      flush tableName ;;
      let* sqliteDb := gets sqliteDb in
      match sqliteDb with
      | Some _ => drainAllQueues fuel ;; ret tt
      | None => ret tt
      end
    else ret tt).

(** The arrow of a line of the report, as the source file of each seeder
    has it. *)
Definition arrow : string :=
  match dialect this with Sqlite => "→" | Postgres => "â†’" end.

Definition unresolved_lines (tableStates : list (string * TableState))
  : list string :=
  flat_map (fun '(tableName, tableState) =>
    flat_map (fun queued =>
      map (fun ref =>
             tableName +:+ "[" +:+ pretty (rowIndex queued) +:+ "] "
             +:+ arrow +:+ " " +:+ ref_path ref)
          (pendingRefs queued))
      (queue tableState))
    tableStates.

Definition getUnresolvedRefsError (tableStates : list (string * TableState))
  : string :=
  "Failed to resolve refs (possible circular dependency):" +:+ newline
  +:+ String.concat newline (unresolved_lines tableStates).

(** ** [execute] *)

Definition init_table (tableName : string) (chunkData : Chunk) : M unit :=
  let columnCount := length chunkData in
  modify (set_tableStates (fun ts =>
    ts ++ [(tableName,
            {| batch := []; queue := []; seededCount := 0;
               rowIndices := []; batchSize :=
                 getBatchSizeForTable (dialect this) columnCount;
               columnCount := columnCount |})])) ;;
  modify (set_rowIndexByTable <[tableName := 0]>).

(** [rowIndexByTable.get(tableName)!], then the increment. The entry is
    set together with the table state; its absence is not handled by the
    source. *)
Definition next_row_index (tableName : string) : M Z :=
  fun w =>
    match rowIndexByTable w !! tableName with
    | Some rowIndex =>
        (Done rowIndex,
         set_rowIndexByTable <[tableName := rowIndex + 1]> w)
    | None => (Throw (TypeError "rowIndex is undefined"), w)
    end.

(** First half of the stream loop's body: the chunk goes to the batch or
    to the queue of its table. *)
Definition enqueue (c : StreamChunk) : M unit :=
  let tableName := tag c in
  let* known :=
    gets (fun w => bool_decide (is_Some (assoc tableName (tableStates w)))) in
  (if known : bool then ret tt else init_table tableName (chunkData c)) ;;
  let* tableState := get_table tableName in
  let* rowIndex := next_row_index tableName in
  let refs := extractRefs (chunkData c) in
  if negb hasRefs || bool_decide (length refs = 0%nat) then
    modify_table tableName (push_batch (chunkData c) rowIndex)
  else
    let* db := the_db in
    let* resolved := lift (areAllRefsResolved refs db) in
    if resolved : bool then
      modify_table tableName (push_batch (chunkData c) rowIndex)
    else
      modify_table tableName
        (push_queue {| chunk := chunkData c; rowIndex := rowIndex;
                       pendingRefs := refs |}).

(** Second half: flush the table if its batch is full, then drain. *)
Definition flush_if_full (fuel : nat) (tableName : string) : M unit :=
  let* tableState := get_table tableName in
  if reaches (length (batch tableState)) (batchSize tableState) then
    flush tableName ;;
    let* sqliteDb := gets sqliteDb in
    if hasRefs && bool_decide (is_Some sqliteDb) then
      drainAllQueues fuel ;;
      flushAllQueuesAfterDrain fuel
    else ret tt
  else ret tt.

Definition process_chunk (fuel : nat) (c : StreamChunk) : M unit :=
  enqueue c ;; flush_if_full fuel (tag c).

Definition flush_all : M unit :=
  let* names := table_names in
  forM_ names flush.

(** The finalizer's [while (madeProgress)] loop. *)
Fixpoint final_drain (inner fuel : nat) : M unit :=
  match fuel with
  | O => out_of_fuel
  | S fuel' =>
      let* madeProgress := drainAllQueues inner in
      flush_all ;;
      if madeProgress : bool then final_drain inner fuel' else ret tt
  end.

Definition check_stuck : M unit :=
  let* names := table_names in
  forM_ names (fun tableName =>
    let* tableState := get_table tableName in
    if bool_decide (0 < length (queue tableState))%nat then
      let* tableStates := gets tableStates in
      throw (JsError (getUnresolvedRefsError tableStates))
    else ret tt).

(** After the stream: flush what is left, then drain and flush until a
    drain moves nothing. *)
Definition finalize (fuel : nat) : M unit :=
  flush_all ;;
  let* sqliteDb := gets sqliteDb in
  if hasRefs && bool_decide (is_Some sqliteDb) then final_drain fuel fuel
  else ret tt.

(** The [try] block of [execute]. *)
Definition execute_body (fuel : nat) (stream : list StreamChunk) : M unit :=
  forM_ stream (process_chunk fuel) ;;
  finalize fuel ;;
  check_stuck.

(** The scratch database is created when references are declared. *)
Definition open_store : outcome (option (gmap string RefTable)) :=
  if hasRefs then
    try db := createRefDatabase (refsConfig this) in Done (Some db)
  else Done None.

(** [execute]: the scratch database, whose creation may fail; then fresh
    maps, the [try] block, and [cleanup] on every path ([finally]). *)
Definition execute (fuel : nat) (stream : list StreamChunk) : M unit :=
  fun w =>
    match open_store with
    | Done sqliteDb =>
        let w0 :=
          {| target := target w; sqliteDb := sqliteDb;
             tableStates := []; rowIndexByTable := ∅ |} in
        let '(r, w') := execute_body fuel stream w0 in
        (r, set_sqliteDb None w')
    | Throw e => (Throw e, w)
    | OutOfFuel => (OutOfFuel, w)
    end.

End Engine.

(** ** Reasoning about computations *)

(** [wp m Q E w]: run from [w], [m] ends in a state and value satisfying
    [Q], or aborts (with an error, or [None] for an exhausted loop budget) in
    a state satisfying [E]. *)
Definition wp {A} (m : M A) (Q : A → World → Prop)
  (E : option Error → World → Prop) (w : World) : Prop :=
  match m w with
  | (Done a, w') => Q a w'
  | (Throw e, w') => E (Some e) w'
  | (OutOfFuel, w') => E None w'
  end.

Arguments wp : simpl never.

(** Number of chunks waiting in the queues of all tables. *)
Definition total_queued (w : World) : nat :=
  sum_list_with (fun x => length (queue x.2)) (tableStates w).

(** Everything but the table states is untouched, and no table appears or
    disappears. *)
Definition same_frame (w w' : World) : Prop :=
  target w' = target w ∧ sqliteDb w' = sqliteDb w ∧
  rowIndexByTable w' = rowIndexByTable w ∧
  (tableStates w').*1 = (tableStates w).*1.

(** ** Scenarios *)

Definition stored_books : RefTable :=
  {| created_as := "books"; columns := ["id"];
     rows := {[ 0 := [("id", Encoded (DNum 7))] ]} |}.

Definition books_store : gmap string RefTable :=
  {[ "books" := stored_books ]}.

Definition ref_books (i : Z) : ColumnValueReference :=
  columnValueReference "id" "books" i (fun v => v).


(** [line] occurs in [message]. *)
Definition mentions (message line : string) : Prop :=
  ∃ pre post, message = pre +:+ line +:+ post.

(** The line [getUnresolvedRefsError] prints for one pending reference. *)
Definition unresolved_line (cfg : Seeder) (tableName : string)
  (queued : QueuedChunk) (ref : ColumnValueReference) : string :=
  tableName +:+ "[" +:+ pretty (rowIndex queued) +:+ "] " +:+ arrow cfg
  +:+ " " +:+ ref_path ref.

(** Table [n] has a chunk waiting in its queue. *)
Definition waiting (w : World) (n : string) : Prop :=
  ∃ st, assoc n (tableStates w) = Some st ∧ queue st ≠ [].


(** The scenario of a reference to a row that is never produced:
    [notes#0 {bookId: Ref(books, 5, id)}] and no book. *)
Definition notes_seeder : Seeder :=
  {| dialect := Postgres; schema := ["books"; "notes"];
     refsConfig := [("books", ["id"])]; accepts := fun _ _ _ => true |}.

Definition notes_stream : list StreamChunk :=
  [{| tag := "notes";
      chunkData := [("bookId", Reference (ref_books 5))] |}].

(** The state in which [execute], called with an empty trace, enters its
    [try] block (when the scratch database cannot be created, [execute]
    does not get there). *)
Definition start (cfg : Seeder) : World :=
  {| target := [];
     sqliteDb := match open_store cfg with Done db => db | _ => None end;
     tableStates := []; rowIndexByTable := ∅ |}.

(** The scratch database can be created, if the seeder needs one. *)
Definition opens (cfg : Seeder) : Prop := ∃ db, open_store cfg = Done db.

(** The state [execute] starts its [try] block from. *)
Definition initial_with_books : World := start notes_seeder.

Definition notes_stuck_state : TableState :=
  {| batch := [];
     queue := [{| chunk := [("bookId", Reference (ref_books 5))];
                  rowIndex := 0; pendingRefs := [ref_books 5] |}];
     seededCount := 0; rowIndices := []; batchSize := Finite 65535;
     columnCount := 1 |}.

(** The book/review scenario on SQLite with a wide [reviews] table: one
    referencing column and 499 plain ones. *)
Definition column_name (i : nat) : string := "c" +:+ pretty i.

Definition wide_review (book : Z) : Chunk :=
  ("bookId", Reference (ref_books book))
  :: map (fun i => (column_name i, Plain (DNum (Z.of_nat i)))) (seq 1 499).

Definition wide_seeder : Seeder :=
  {| dialect := Sqlite; schema := ["books"; "reviews"];
     refsConfig := [("books", ["id"])]; accepts := fun _ _ _ => true |}.

Definition wide_stream : list StreamChunk :=
  [{| tag := "books"; chunkData := [("id", Plain (DNum 10))] |};
   {| tag := "books"; chunkData := [("id", Plain (DNum 11))] |};
   {| tag := "reviews"; chunkData := wide_review 0 |};
   {| tag := "reviews"; chunkData := wide_review 1 |}].

(** Two tables whose names differ in case only, [Books] and [books], each
    with a referenceable [id]. A row of [Books] comes first; then a row of
    [books] and a review that refers to row 0 of [Books], both 500 columns
    wide, so that their tables are flushed row by row. *)
Definition ref_Books (i : Z) : ColumnValueReference :=
  columnValueReference "id" "Books" i (fun v => v).

Definition twin_seeder : Seeder :=
  {| dialect := Sqlite; schema := ["Books"; "books"; "reviews"];
     refsConfig := [("Books", ["id"]); ("books", ["id"])];
     accepts := fun _ _ _ => true |}.

Definition twin_review : Chunk :=
  ("bookId", Reference (ref_Books 0))
  :: map (fun i => (column_name i, Plain (DNum (Z.of_nat i)))) (seq 1 499).

Definition twin_stream : list StreamChunk :=
  [{| tag := "Books"; chunkData := [("id", Plain (DNum 20))] |};
   {| tag := "books";
      chunkData :=
        ("id", Plain (DNum 10))
        :: map (fun i => (column_name i, Plain (DNum (Z.of_nat i))))
               (seq 1 499) |};
   {| tag := "reviews"; chunkData := twin_review |}].

(** What a trace shows of the rows of each bulk insert: the table and the
    row indices. *)
Definition call_keys (c : InsertCall) : string * list Z :=
  (ic_table c, ic_rowIndices c).

(** What a trace shows of the size of each bulk insert: the table, and the
    number of values of each row. *)
Definition call_shape (c : InsertCall) : string * list nat :=
  (ic_table c, length <$> ic_values c).

(** The book/review scenario: two books whose [id] is generated by the
    target, then a review whose [bookId] refers to the first book. *)
Definition scenario_seeder : Seeder :=
  {| dialect := Postgres; schema := ["books"; "reviews"];
     refsConfig := [("books", ["id"])]; accepts := fun _ _ _ => true |}.

Definition scenario_stream : list StreamChunk :=
  [{| tag := "books"; chunkData := [("id", GeneratedAsPlaceholder)] |};
   {| tag := "books"; chunkData := [("id", GeneratedAsPlaceholder)] |};
   {| tag := "reviews";
      chunkData := [("bookId", Reference (ref_books 0))] |}].

(** The state in which the [try] block of [execute] leaves the scenario,
    scratch database included. *)
Definition scenario_end : World :=
  (execute_body scenario_seeder 5 scenario_stream (start scenario_seeder)).2.

(** The values handed to the target for row [rowIndex] of [table]. *)
Definition inserted_row (w : World) (table : string) (rowIndex : Z)
  : option Row :=
  let find c :=
    if decide (ic_table c = table) then
      (zip (ic_rowIndices c) (ic_values c)) ≫=
        (fun '(i, row) => if decide (i = rowIndex) then [row] else [])
    else [] in
  head (target w ≫= find).

(** What the scratch database holds for column [col] of that row. *)
Definition recorded (w : World) (table : string) (rowIndex : Z) (col : string)
  : option jsdata :=
  db ← sqliteDb w; t ← db !! sql_name table; row ← rows t !! rowIndex;
  parse <$> assoc col row.

(** The value the target ends up holding for a column of an inserted row:
    the one inserted or, for a column the row omits, the one the target
    generates itself. *)
Definition stored_value (generated : jsdata) (row : Row) (col : string)
  : jsdata :=
  default generated (assoc col row).

(** A [books] table state with one plain row in its batch. *)
Definition plain_book_state : TableState :=
  {| batch := [[("id", Plain (DNum 7))]]; queue := []; seededCount := 0;
     rowIndices := [0]; batchSize := Finite 65535; columnCount := 1 |}.

(** ** Rows of the stream and where they are *)

(** A row: its table, its sequence number in that table, its values. *)
Definition RowId : Type := string * Z * Chunk.

Definition row_key (x : RowId) : string * Z := x.1.

(** Number of chunks of table [t] in a piece of the stream. *)
Definition occurrences (t : string) (l : list StreamChunk) : Z :=
  Z.of_nat (length (filter (fun c => tag c = t) l)).

(** The rows of a stream, numbered per table from 0 in generation order;
    [seen] is the part of the stream before them. *)
Fixpoint number_rows (seen stream : list StreamChunk) : list RowId :=
  match stream with
  | [] => []
  | c :: rest =>
      (tag c, occurrences (tag c) seen, chunkData c)
      :: number_rows (seen ++ [c]) rest
  end.

Definition row_ids (stream : list StreamChunk) : list RowId :=
  number_rows [] stream.

Definition batch_rows (name : string) (st : TableState) : list RowId :=
  (fun '(i, ch) => (name, i, ch)) <$> zip (rowIndices st) (batch st).

Definition queued_row (name : string) (q : QueuedChunk) : RowId :=
  (name, rowIndex q, chunk q).

Definition queue_rows (name : string) (st : TableState) : list RowId :=
  queued_row name <$> queue st.

Definition call_rows (c : InsertCall) : list RowId :=
  (fun '(i, ch) => (ic_table c, i, ch)) <$> zip (ic_rowIndices c) (ic_batch c).

(** Rows waiting in a batch, rows waiting in a queue, rows handed to the
    target. *)
Definition batched (w : World) : list RowId :=
  tableStates w ≫= (fun x => batch_rows x.1 x.2).
Definition queued (w : World) : list RowId :=
  tableStates w ≫= (fun x => queue_rows x.1 x.2).
Definition logged (w : World) : list RowId :=
  target w ≫= call_rows.

(** Row [i] of the table that goes by the name [t] is in the scratch
    database. *)
Definition has_row (db : gmap string RefTable) (t : string) (i : Z) : Prop :=
  ∃ tb, db !! sql_name t = Some tb ∧ is_Some (rows tb !! i).

(** Row [i] of table [t] went to the target in call [c]. *)
Definition call_has (c : InsertCall) (t : string) (i : Z) : Prop :=
  ic_table c = t ∧ i ∈ ic_rowIndices c.

(** ** Invariants of a run *)

Section Invariants.
Variable cfg : Seeder.
Variable stream : list StreamChunk.

(** What holds of the trace and of the queues at every moment of a run,
    also when it has just aborted. *)
Record Weak (w : World) : Prop := {
  log_sound : ∀ x, x ∈ logged w → x ∈ row_ids stream;
  log_lengths :
    Forall (fun c => length (ic_rowIndices c) = length (ic_batch c))
           (target w);
  log_resolved :
    Forall (fun c => ∃ db, (is_Some db ↔ hasRefs cfg) ∧
                           omapM (fun ch => resolveChunk ch db) (ic_batch c)
                           = Done (ic_values c))
           (target w);
  queue_refs :
    Forall (fun x => ∀ q, q ∈ queue x.2 →
              pendingRefs q = extractRefs (chunk q) ∧ pendingRefs q ≠ [] ∧
              hasRefs cfg)
           (tableStates w);
}.

(** What holds between two steps of a run that has consumed the part [p]
    of the stream. *)
Record Strong (p : list StreamChunk) (w : World) : Prop := {
  consumed : p `prefix_of` stream;
  names_NoDup : NoDup (tableStates w).*1;
  batch_lengths :
    Forall (fun x => length (rowIndices x.2) = length (batch x.2))
           (tableStates w);
  accounted : row_ids p ≡ₚ logged w ++ batched w ++ queued w;
  counters : ∀ t,
    match assoc t (tableStates w) with
    | Some _ => rowIndexByTable w !! t = Some (occurrences t p)
    | None => occurrences t p = 0
    end;
  db_open : is_Some (sqliteDb w) ↔ hasRefs cfg;
  batch_ready : ∀ db x r,
    sqliteDb w = Some db → x ∈ batched w → r ∈ extractRefs x.2 →
    has_row db (refTableName r) (refRowIndex r);
  weak : Weak w;
}.
End Invariants.

(** A queued chunk all of whose pending references are in the database. *)
Definition eligible (db : gmap string RefTable) (q : QueuedChunk) : bool :=
  match areAllRefsResolved (pendingRefs q) db with
  | Done true => true
  | _ => false
  end.

(** The state of a table after a drain round over its queue. *)
Definition drained (db : gmap string RefTable) (st : TableState) : TableState :=
  {| batch := batch st ++ (chunk <$> filter (eligible db) (queue st));
     queue := filter (fun q => ¬ eligible db q) (queue st);
     seededCount := seededCount st;
     rowIndices :=
       rowIndices st ++ (rowIndex <$> filter (eligible db) (queue st));
     batchSize := batchSize st; columnCount := columnCount st |}.

(** Pushing chunks of a queue onto the batch, one by one. *)
Definition push_all (qs : list QueuedChunk) (st : TableState) : TableState :=
  foldl (fun st q => push_batch (chunk q) (rowIndex q) st) st qs.

(** The references held by the chunks of a stream. *)
Definition stream_refs (stream : list StreamChunk)
  : list ColumnValueReference :=
  stream ≫= (fun c => extractRefs (chunkData c)).

(** The errors a run can end with: a bulk insert the target rejects, a name
    the schema has nothing under, a reference met with no scratch database,
    the report of stuck chunks, and, when references are declared, what the
    scratch database or devalue raises. *)
Inductive Raised (cfg : Seeder) (stream : list StreamChunk) : Error → Prop :=
| raised_persistence t : Raised cfg stream (PersistenceFailure t)
| raised_no_table t :
    t ∉ schema cfg →
    Raised cfg stream
      (JsError ("Table " +:+ dquote +:+ t +:+ dquote
                +:+ " not found in schema"))
| raised_no_database r :
    ¬ hasRefs cfg → r ∈ stream_refs stream →
    Raised cfg stream
      (JsError ("Cannot resolve ref without SQLite database: "
                +:+ ref_path r))
| raised_unresolved tableStates :
    hasRefs cfg →
    Raised cfg stream (JsError (getUnresolvedRefsError cfg tableStates))
| raised_sqlite message : hasRefs cfg → Raised cfg stream (SqliteError message)
| raised_invalid : hasRefs cfg → Raised cfg stream (JsError "Invalid input")
| raised_devalue : hasRefs cfg → Raised cfg stream DevalueError.

(** How a run may abort: with one of these errors, never for want of loop
    budget, in a state where the trace and the queues are still as they
    should be. *)
Definition aborted (cfg : Seeder) (stream : list StreamChunk)
  (e : option Error) (w : World) : Prop :=
  (∃ err, e = Some err ∧ Raised cfg stream err) ∧ Weak cfg stream w.

(** ** What a flush does *)

(** The scratch database after a flush: nothing is lost. *)
Definition store_ext (db0 db1 : option (gmap string RefTable)) : Prop :=
  match db0, db1 with
  | Some a, Some b => ∀ t i, has_row a t i → has_row b t i
  | None, None => True
  | _, _ => False
  end.

(** The call a flush of table [name] in state [st] makes. *)
Definition flush_call (name : string) (st : TableState) (values : list Row)
  : InsertCall :=
  {| ic_table := name; ic_values := values; ic_batch := batch st;
     ic_rowIndices := rowIndices st |}.

(** From [w] to [w1], the batch of [name] went to the target and some of
    its rows to the scratch database; the table states are as they were. *)
Definition inserted_batch (name : string) (st : TableState) (w w1 : World)
  : Prop :=
  ∃ values,
    omapM (fun ch => resolveChunk ch (sqliteDb w)) (batch st) = Done values ∧
    target w1 = target w ++ [flush_call name st values] ∧
    tableStates w1 = tableStates w ∧
    rowIndexByTable w1 = rowIndexByTable w ∧
    store_ext (sqliteDb w) (sqliteDb w1).

(** A completed flush. *)
Definition flushed (name : string) (w w' : World) : Prop :=
  ∃ st, assoc name (tableStates w) = Some st ∧
    (batch st = [] ∧ w' = w ∨
     batch st ≠ [] ∧
     ∃ w1, inserted_batch name st w w1 ∧
           w' = set_tableStates (alter_assoc clear_batch name) w1).

(** What a flush of [name] from state [w] can raise, and why. *)
Definition flush_error (cfg : Seeder) (name : string) (w : World) (e : Error)
  : Prop :=
  assoc name (tableStates w) = None ∨
  ((name ∉ schema cfg) ∧
   e = JsError ("Table " +:+ dquote +:+ name +:+ dquote
                +:+ " not found in schema")) ∨
  (∃ st, assoc name (tableStates w) = Some st ∧
         omapM (fun ch => resolveChunk ch (sqliteDb w)) (batch st) = Throw e) ∨
  e = PersistenceFailure name ∨
  (is_Some (sqliteDb w) ∧ (e = DevalueError ∨ ∃ m, e = SqliteError m)).

(** An aborted flush. *)
Definition flush_aborted (name : string) (w w' : World) : Prop :=
  w' = w ∨ ∃ st, assoc name (tableStates w) = Some st ∧
                 inserted_batch name st w w'.

(** The part of the state a flush leaves alone while it records rows. *)
Definition recording (w0 w : World) : Prop :=
  target w = target w0 ∧ tableStates w = tableStates w0 ∧
  rowIndexByTable w = rowIndexByTable w0 ∧
  store_ext (sqliteDb w0) (sqliteDb w).

(** What a completed flush of [name] changes in the table states: the batch
    of [name] is empty, everything else is as before. *)
Definition flush_effect (name : string) (w w' : World) : Prop :=
  (tableStates w').*1 = (tableStates w).*1 ∧
  ∀ n st', assoc n (tableStates w') = Some st' →
    ∃ st, assoc n (tableStates w) = Some st ∧
          queue st' = queue st ∧
          (if decide (n = name) then batch st' = []
           else batch st' = batch st).

(** Every batch is empty. *)
Definition batches_empty (w : World) : Prop :=
  Forall (fun x => batch x.2 = []) (tableStates w).

(** Every queue is empty. *)
Definition queues_empty (w : World) : Prop :=
  Forall (fun x => queue x.2 = []) (tableStates w).

(** The scenario of a direct cycle: row 0 of [a] refers to row 0 of [b],
    and row 0 of [b] to row 0 of [a]. *)
Definition cycle_seeder : Seeder :=
  {| dialect := Sqlite; schema := ["a"; "b"];
     refsConfig := [("a", ["id"]); ("b", ["id"])];
     accepts := fun _ _ _ => true |}.

Definition cycle_stream : list StreamChunk :=
  [{| tag := "a";
      chunkData :=
        [("id", Plain (DNum 1));
         ("other", Reference (columnValueReference "id" "b" 0 (fun v => v)))]
   |};
   {| tag := "b";
      chunkData :=
        [("id", Plain (DNum 1));
         ("other", Reference (columnValueReference "id" "a" 0 (fun v => v)))]
   |}].

(** The batch of a table, empty if the table has not been seen. *)
Definition batch_of (w : World) (name : string) : list Chunk :=
  default [] (batch <$> assoc name (tableStates w)).

(** The queue of a table, empty if the table has not been seen. *)
Definition queue_of (w : World) (name : string) : list QueuedChunk :=
  default [] (queue <$> assoc name (tableStates w)).

(** The row inserted for a chunk that holds no reference: its values, the
    generated columns left out. *)
Definition plain_row (ch : Chunk) : Row :=
  omap (fun '(key, value) =>
          match value with Plain d => Some (key, d) | _ => None end) ch.

(** A state with no scratch database and nothing in any queue. *)
Definition closed (w : World) : Prop :=
  sqliteDb w = None ∧ total_queued w = 0%nat.

(** No chunk without a reference waits in a queue. *)
Definition queues_hold_references (w : World) : Prop :=
  ∀ name st q, (name, st) ∈ tableStates w → q ∈ queue st →
               extractRefs (chunk q) ≠ [].

(** A state with one plain book in the batch of [books], ready to flush. *)
Definition plain_book_world : World :=
  {| target := []; sqliteDb := None;
     tableStates := [("books", plain_book_state)];
     rowIndexByTable := {[ "books" := 1 ]} |}.

(** A seeder with no referenceable column, and a review that refers to a
    book all the same. *)
Definition no_refs_seeder : Seeder :=
  {| dialect := Sqlite; schema := ["books"; "reviews"];
     refsConfig := []; accepts := fun _ _ _ => true |}.

Definition review_chunk : StreamChunk :=
  {| tag := "reviews";
     chunkData := [("bookId", Reference (ref_books 0))] |}.

Definition review_state : TableState :=
  {| batch := [[("bookId", Reference (ref_books 0))]]; queue := [];
     seededCount := 0; rowIndices := [0]; batchSize := Finite 999;
     columnCount := 1 |}.

(** A state with two reviews waiting: one for book 0, which is in the
    scratch database [books_store], one for book 5, which is not. *)
Definition drain_world : World :=
  {| target := []; sqliteDb := Some books_store;
     tableStates :=
       [("reviews",
         {| batch := [];
            queue :=
              [{| chunk := [("bookId", Reference (ref_books 0))];
                  rowIndex := 0; pendingRefs := [ref_books 0] |};
               {| chunk := [("bookId", Reference (ref_books 5))];
                  rowIndex := 1; pendingRefs := [ref_books 5] |}];
            seededCount := 0; rowIndices := []; batchSize := Finite 999;
            columnCount := 1 |})];
     rowIndexByTable := {[ "reviews" := 2 ]} |}.

(** * The rest of the seeder: construction *)

(** ** The constructor (src/sqlite-core/seed.ts, [PgSeeder] alike) *)

(** [s.split(sep)] for a separator of one character: the pieces between the
    separators, in order; one piece, the string itself, when there is no
    separator. *)
Fixpoint split (sep : Ascii.ascii) (s : string) : list string :=
  match s with
  | EmptyString => [EmptyString]
  | String c s' =>
      if decide (c = sep) then EmptyString :: split sep s'
      else
        match split sep s' with
        | part :: parts => String c part :: parts
        | [] => [String c EmptyString]
        end
  end.

Definition dot : Ascii.ascii := Ascii.ascii_of_nat 46.

(** JavaScript's truth value of a string, or of [undefined] for [None]. *)
Definition truthy (s : option string) : bool :=
  match s with
  | Some s => bool_decide (s ≠ EmptyString)
  | None => false
  end.

(** [set.add(c)] on a [Set] kept in insertion order. *)
Definition set_add (c : string) (s : list string) : list string :=
  if bool_decide (c ∈ s) then s else s ++ [c].

(** Body of the constructor's loop over [refineConfig.refs]. *)
Definition add_ref (refsConfig : list (string * list string)) (ref : string)
  : list (string * list string) :=
  let parts := split dot ref in
  let table := parts !! 0%nat in
  let column := parts !! 1%nat in
  if truthy table && truthy column then
    match table, column with
    | Some table, Some column =>
        let refsConfig :=
          if bool_decide (is_Some (assoc table refsConfig)) then refsConfig
          else refsConfig ++ [(table, [])] in
        alter_assoc (set_add column) table refsConfig
    | _, _ => refsConfig
    end
  else refsConfig.

(** What the constructor reads from the generator: [getSchema()], as the
    names of its tables, and [getRefineConfig()], [None] for [null]. *)
Record GeneratorInfo := {
  gen_schema : list string;
  gen_refs : option (list string);
}.

Definition parse_refs (refineConfig : option (list string))
  : list (string * list string) :=
  match refineConfig with
  | Some refs => foldl add_ref [] refs
  | None => []
  end.

(** [seed(db, generator)], that is [new SqliteSeeder(db, generator)] or
    [new PgSeeder(db, generator)]. *)
Definition seed (d : Dialect)
  (db : list InsertCall → string → list Row → bool) (generator : GeneratorInfo)
  : Seeder :=
  {| dialect := d; schema := gen_schema generator;
     refsConfig := parse_refs (gen_refs generator); accepts := db |}.

(** A reference string [table.column...] declares [column] of [table]. *)
Definition declares (ref table column : string) : Prop :=
  table ≠ EmptyString ∧ column ≠ EmptyString ∧
  ∃ rest, split dot ref = table :: column :: rest.

(** [column] of [table] is among the referenceable columns. *)
Definition referenceable (refsConfig : list (string * list string))
  (table column : string) : Prop :=
  ∃ cols, assoc table refsConfig = Some cols ∧ column ∈ cols.

(** [s.includes(c)] for one character. *)
Fixpoint has_char (c : Ascii.ascii) (s : string) : bool :=
  match s with
  | EmptyString => false
  | String c' s' => bool_decide (c' = c) || has_char c s'
  end.

(** ** Names the scratch database takes as they are *)

Definition double_quote : Ascii.ascii := Ascii.ascii_of_nat 34.

(** A table name that can stand between double quotes, that SQLite does
    not keep for itself, and that is not the name of an index of the
    scratch database (these begin with [idx_]). *)
Definition plain_table (s : string) : bool :=
  negb (has_char double_quote s) && negb (reserved s)
  && negb (String.prefix "idx_" (sql_name s)).

(** The tables and columns declared referenceable can be created as they
    are declared: the names are plain; no two tables are one table to
    SQLite; no two columns of a table are one column, the key [_rowIndex]
    counted with them; and a table has fewer columns than SQLite binds
    values in one statement. *)
Record Tidy (refsConfig : list (string * list string)) : Prop := {
  tidy_tables : NoDup (sql_name <$> refsConfig.*1);
  tidy_names : ∀ t cols,
    (t, cols) ∈ refsConfig →
    plain_table t = true ∧
    ∀ c, c ∈ cols → has_char double_quote c = false;
  tidy_columns : ∀ t cols,
    (t, cols) ∈ refsConfig →
    NoDup (sql_name <$> "_rowIndex" :: cols) ∧ (length cols < 999)%nat;
}.

Definition fresh_table (t : string) (cols : list string) : RefTable :=
  {| created_as := t; columns := cols; rows := ∅ |}.

(** The scratch database with the tables of [refsConfig], all empty. *)
Definition tables_of (refsConfig : list (string * list string))
  : gmap string RefTable :=
  list_to_map ((fun x => (sql_name x.1, fresh_table x.1 x.2)) <$> refsConfig).

(** The map the constructor builds: no table twice, and under every table
    a set of columns with a member. *)
Definition refs_map (refsConfig : list (string * list string)) : Prop :=
  NoDup refsConfig.*1 ∧
  Forall (fun x => x.1 ≠ EmptyString ∧ x.2 ≠ [] ∧ NoDup x.2 ∧
                   EmptyString ∉ x.2) refsConfig.

(** * Effects over any state *)

(** A computation over a state of type [S]: the seeder's monad is the case
    [S := World]. *)
Definition Eff (S A : Type) : Type := S → outcome A * S.

Definition eret {S A} (a : A) : Eff S A := fun s => (Done a, s).

Definition ebind {S A B} (m : Eff S A) (k : A → Eff S B) : Eff S B :=
  fun s =>
    match m s with
    | (Done a, s') => k a s'
    | (Throw e, s') => (Throw e, s')
    | (OutOfFuel, s') => (OutOfFuel, s')
    end.

Notation "'let+' x ':=' m 'in' k" := (ebind m (fun x => k))
  (at level 10, x name, m at level 100, k at level 200, only parsing).
Notation "m ;;; k" := (ebind m (fun _ => k))
  (at level 100, k at level 200, only parsing).

Definition ethrow {S A} (e : Error) : Eff S A := fun s => (Throw e, s).
Definition eout_of_fuel {S A} : Eff S A := fun s => (OutOfFuel, s).
Definition egets {S A} (f : S → A) : Eff S A := fun s => (Done (f s), s).
Definition emodify {S} (f : S → S) : Eff S unit := fun s => (Done tt, f s).

Fixpoint eforM_ {S A} (l : list A) (f : A → Eff S unit) : Eff S unit :=
  match l with
  | [] => eret tt
  | x :: l' => f x ;;; eforM_ l' f
  end.

(** * [reset] *)

(** What a schema module exports, as far as [is(ent, PgTable)] and the
    table's name and schema tell. *)
Inductive SchemaEntity :=
| PgTable (name : string) (pgSchema : option string)
| SQLiteTable (name : string)
| NotATable.

(** A database that runs raw SQL: given the statements it has run, the
    error the next one raises, if any. *)
Definition SqlDb : Type := list string → string → option Error.

(** [await db.run(sql.raw(statement))], [db.execute] alike; the state is
    the list of the statements that ran. *)
Definition db_run (db : SqlDb) (statement : string) : Eff (list string) unit :=
  fun ran =>
    match db ran statement with
    | None => (Done tt, ran ++ [statement])
    | Some e => (Throw e, ran)
    end.

Definition foreign_keys_off : string := "PRAGMA foreign_keys = OFF".
Definition foreign_keys_on : string := "PRAGMA foreign_keys = ON".

(** [reset] of src/sqlite-core: it keeps the entities that are a
    [PgTable]. *)
Definition sqlite_reset (db : SqlDb) (schema : list (string * SchemaEntity))
  : Eff (list string) unit :=
  let tablesToTruncate :=
    omap (fun ent => match ent with
                     | PgTable name _ => Some name
                     | _ => None
                     end) schema.*2 in
  db_run db foreign_keys_off ;;;
  eforM_ tablesToTruncate (fun tableName =>
    db_run db ("delete from `" +:+ tableName +:+ "`;")) ;;;
  db_run db foreign_keys_on.

(** The name [reset] of src/pg-core gives a table: its schema, [public]
    when it has none, and its name, both quoted. *)
Definition qualified_name (name : string) (pgSchema : option string) : string :=
  dquote +:+ default "public" pgSchema +:+ dquote +:+ "."
  +:+ dquote +:+ name +:+ dquote.

Definition pg_reset (db : SqlDb) (schema : list (string * SchemaEntity))
  : Eff (list string) unit :=
  let tablesToTruncate :=
    omap (fun ent => match ent with
                     | PgTable name pgSchema =>
                         Some (qualified_name name pgSchema)
                     | _ => None
                     end) schema.*2 in
  db_run db ("truncate " +:+ String.concat "," tablesToTruncate
             +:+ " cascade;").

(** * Generators *)

(** ** [DuplicateChecker] (src/duplicate-checker.ts) *)

Section DuplicateChecker.
Context {T : Type}.
(** How a [Set] compares two values ([SameValueZero]). *)
Variable sameValueZero : T → T → bool.

(** The private [seen], in insertion order. *)
Record DuplicateChecker := { dc_seen : list T }.

Definition DuplicateChecker_new : DuplicateChecker := {| dc_seen := [] |}.

(** [this.seen.has(value)] *)
Definition seen_has (this : DuplicateChecker) (value : T) : bool :=
  existsb (sameValueZero value) (dc_seen this).

Definition DuplicateChecker_add (value : T) (this : DuplicateChecker)
  : bool * DuplicateChecker :=
  if seen_has this value then (false, this)
  else (true, {| dc_seen := dc_seen this ++ [value] |}).

Definition DuplicateChecker_search (value : T) (this : DuplicateChecker)
  : bool :=
  seen_has this value.

Definition DuplicateChecker_clear (this : DuplicateChecker)
  : DuplicateChecker :=
  {| dc_seen := [] |}.

Definition DuplicateChecker_size (this : DuplicateChecker) : nat :=
  length (dc_seen this).

(** [add] called on each value of a list in turn: the answers, and the
    checker at the end. *)
Fixpoint add_each (values : list T) (this : DuplicateChecker)
  : list bool * DuplicateChecker :=
  match values with
  | [] => ([], this)
  | value :: rest =>
      let '(fresh, this) := DuplicateChecker_add value this in
      let '(answers, this) := add_each rest this in
      (fresh :: answers, this)
  end.
End DuplicateChecker.

Arguments DuplicateChecker : clear implicits.

(** ** The generator classes (src/generators) *)

(** A column of a table, as far as the generators read it. *)
Record Column := {
  colName : string;
  generated : bool;
  isUnique : bool;
  dataType : string;
}.

Section Generators.
(** The state of the [faker] instance. *)
Variable Faker : Type.
(** [SameValueZero] on generated values. *)
Variable sameValueZero : cell → cell → bool.

(** What generating a value can change: the random source and the
    duplicate checkers of the current table. A checker is an object shared
    between the contexts of one column; the state holds these objects,
    under the name of their column. *)
Record GenState := {
  faker : Faker;
  duplicateCheckers : string → DuplicateChecker cell;
}.

Definition set_faker (f : Faker → Faker) (s : GenState) : GenState :=
  {| faker := f (faker s); duplicateCheckers := duplicateCheckers s |}.

Definition set_duplicateCheckers
  (f : (string → DuplicateChecker cell) → string → DuplicateChecker cell)
  (s : GenState) : GenState :=
  {| faker := faker s; duplicateCheckers := f (duplicateCheckers s) |}.

(** [ExtendedGeneratorContext]. For [duplicateChecker] the context holds
    the column whose checker it is, [None] for [undefined]. [faker] is in
    the state, [ref] builds references and has no state. *)
Record ExtendedGeneratorContext := {
  index : Z;
  count : Z;
  columnDef : Column;
  self : list (string * cell);
  duplicateChecker : option string;
  tableKey : string;
  columnKey : string;
  super : Eff GenState cell;
}.

(** [{ ...ctx, super: superFn }] *)
Definition with_super (ctx : ExtendedGeneratorContext)
  (superFn : Eff GenState cell) : ExtendedGeneratorContext :=
  {| index := index ctx; count := count ctx; columnDef := columnDef ctx;
     self := self ctx; duplicateChecker := duplicateChecker ctx;
     tableKey := tableKey ctx; columnKey := columnKey ctx;
     super := superFn |}.

(** [ctx.duplicateChecker.add(value)] *)
Definition checker_add (checker : string) (value : cell)
  : Eff GenState bool :=
  fun s =>
    let '(fresh, this) :=
      DuplicateChecker_add sameValueZero value (duplicateCheckers s checker) in
    (Done fresh,
     set_duplicateCheckers
       (fun checkers key =>
          if decide (key = checker) then this else checkers key) s).

(** The refinements of one table and of a run ([getTableRefineConfig],
    [getRefineConfig] of src/sqlite-core/generate.ts). *)
Record TableRefineConfig := {
  refine_count : option Z;
  refine_columnOrder : option (list string);
  refine_columns :
    option (list (string * (ExtendedGeneratorContext → Eff GenState cell)));
}.

Record RefineConfig := {
  refine_refs : list string;
  refine_tables : list (string * TableRefineConfig);
}.

(** The classes that extend [BaseGenerator]: [FunctionalGenerator] is what
    [createGenerator] returns. *)
Inductive BaseGenerator :=
| FunctionalGenerator (config : ExtendedGeneratorContext → Eff GenState cell)
| ChainedGenerator (base next : BaseGenerator)
| UniqueValueGenerator (maxTries : Z)
| RefinedGenerator (refineConfig : option RefineConfig).

Definition createGenerator
  (config : ExtendedGeneratorContext → Eff GenState cell) : BaseGenerator :=
  FunctionalGenerator config.

(** [base.extend(next)] *)
Definition extend (this next : BaseGenerator) : BaseGenerator :=
  ChainedGenerator this next.

Definition unique_error (ctx : ExtendedGeneratorContext) (tries : Z) : Error :=
  JsError ("Failed to generate unique value for " +:+ colName (columnDef ctx)
           +:+ " column after " +:+ pretty tries +:+ " tries | it was "
           +:+ pretty (index ctx + 1) +:+ " value of " +:+ pretty (count ctx)).

(** The [do ... while] loop of [UniqueValueGenerator.generate], entered
    after [tries] tries. *)
Fixpoint unique_loop (fuel : nat) (maxTries : Z)
  (ctx : ExtendedGeneratorContext) (checker : string) (tries : Z)
  : Eff GenState cell :=
  match fuel with
  | O => eout_of_fuel
  | S fuel' =>
      let+ value := super ctx in
      let tries := tries + 1 in
      if bool_decide (maxTries ≤ tries) then ethrow (unique_error ctx tries)
      else
        let+ fresh := checker_add checker value in
        if fresh : bool then eret value
        else unique_loop fuel' maxTries ctx checker tries
  end.

(** [generate], the method each class implements; [fuel] bounds the loop
    of [UniqueValueGenerator]. *)
Fixpoint generate (fuel : nat) (this : BaseGenerator)
  (ctx : ExtendedGeneratorContext) : Eff GenState cell :=
  match this with
  | FunctionalGenerator config => config ctx
  | ChainedGenerator base next =>
      let superFn := generate fuel base ctx in
      generate fuel next (with_super ctx superFn)
  | UniqueValueGenerator maxTries =>
      match duplicateChecker ctx with
      | None => super ctx
      | Some checker => unique_loop fuel maxTries ctx checker 0
      end
  | RefinedGenerator refineConfig =>
      match refineConfig with
      | None => super ctx
      | Some refineConfig =>
          let tableConfig := assoc (tableKey ctx) (refine_tables refineConfig) in
          let refined :=
            (tableConfig ≫= refine_columns) ≫= assoc (columnKey ctx) in
          match refined with
          | Some refined => refined ctx
          | None => super ctx
          end
      end
  end.

(** A generator that runs [effect] and hands over to [ctx.super()]. *)
Definition delegating (effect : Eff GenState unit) : BaseGenerator :=
  createGenerator (fun ctx => effect ;;; super ctx).

End Generators.

Arguments faker {Faker} _.
Arguments duplicateCheckers {Faker} _.
Arguments index {Faker} _.
Arguments count {Faker} _.
Arguments columnDef {Faker} _.
Arguments self {Faker} _.
Arguments duplicateChecker {Faker} _.
Arguments tableKey {Faker} _.
Arguments columnKey {Faker} _.
Arguments super {Faker} _.
Arguments with_super {Faker} _ _.
Arguments checker_add {Faker} _ _ _.
Arguments FunctionalGenerator {Faker} _.
Arguments ChainedGenerator {Faker} _ _.
Arguments UniqueValueGenerator {Faker} _.
Arguments RefinedGenerator {Faker} _.
Arguments createGenerator {Faker} _.
Arguments extend {Faker} _ _.
Arguments unique_error {Faker} _ _.
Arguments unique_loop {Faker} _ _ _ _ _ _.
Arguments generate {Faker} _ _ _ _.
Arguments delegating {Faker} _.
Arguments set_duplicateCheckers {Faker} _ _.

(** ** The older [Generator] class (src/generator.ts) *)

Section Generator.
Context {St V I : Type}.

(** [ColumnGeneratorContext], which is [RootGeneratorContext] (here [I])
    with [super]; the root function is called without it. *)
Record ColumnGeneratorContext := {
  rootCtx : I;
  ctxSuper : option (Eff St V);
}.

Record Generator := { chain : list (ColumnGeneratorContext → Eff St V) }.

Definition Generator_create (rootFn : ColumnGeneratorContext → Eff St V)
  : Generator :=
  {| chain := [rootFn] |}.

Definition Generator_extend (this : Generator)
  (fn : ColumnGeneratorContext → Eff St V) : Generator :=
  {| chain := chain this ++ [fn] |}.

(** The [for] loop of [resolve], from index [i] on. *)
Fixpoint resolve_loop (i : nat) (fns : list (ColumnGeneratorContext → Eff St V))
  (baseCtx : I) (superFn : option (Eff St V)) : option (Eff St V) :=
  match fns with
  | [] => superFn
  | fn :: rest =>
      let prevSuper := superFn in
      let superFn :=
        if decide (i = 0%nat)
        then Some (fn {| rootCtx := baseCtx; ctxSuper := None |})
        else Some (fn {| rootCtx := baseCtx; ctxSuper := prevSuper |}) in
      resolve_loop (S i) rest baseCtx superFn
  end.

Definition Generator_resolve (this : Generator) (baseCtx : I) : Eff St V :=
  match resolve_loop 0 (chain this) baseCtx None with
  | Some superFn => superFn
  | None => ethrow (TypeError "superFn is not a function")
  end.
End Generator.

Arguments ColumnGeneratorContext : clear implicits.
Arguments Generator : clear implicits.

(** Two states hold the same duplicate checkers. *)
Definition same_checkers {Faker} (s s' : GenState Faker) : Prop :=
  ∀ key, duplicateCheckers s' key = duplicateCheckers s key.

(** A computation that leaves the duplicate checkers alone. *)
Definition spares_checkers {Faker A} (m : Eff (GenState Faker) A) : Prop :=
  ∀ s, same_checkers s (m s).2.

(** A setting to run [UniqueValueGenerator] in: numbers compared by value,
    a source that counts, and the context of a unique column [email] whose
    checker has seen the number 0. *)
Definition same_number (a b : cell) : bool :=
  match a, b with
  | Plain (DNum x), Plain (DNum y) => bool_decide (x = y)
  | _, _ => false
  end.

Definition next_number : Eff (GenState nat) cell :=
  fun s => (Done (Plain (DNum (Z.of_nat (faker s)))), set_faker nat S s).

Definition email_column : Column :=
  {| colName := "email"; generated := false; isUnique := true;
     dataType := "string" |}.

Definition email_ctx (superFn : Eff (GenState nat) cell)
  : ExtendedGeneratorContext nat :=
  {| index := 0; count := 3; columnDef := email_column; self := [];
     duplicateChecker := Some "email"; tableKey := "users";
     columnKey := "email"; super := superFn |}.

Definition seen_zero : GenState nat :=
  {| faker := 0%nat;
     duplicateCheckers := fun _ => {| dc_seen := [Plain (DNum 0)] |} |}.

(** The chain of the test in tests/generators.test.ts: three generators
    that count a call and hand over, and a context whose [super] raises. *)
Definition counted : Eff (GenState nat) unit := emodify (set_faker nat S).

Definition test_chain : BaseGenerator nat :=
  extend (extend (delegating counted) (delegating counted))
         (delegating counted).

Definition test_ctx : ExtendedGeneratorContext nat :=
  email_ctx (ethrow (JsError "Generator chain ended")).

(** * Streams the seeder completes *)

(** What a seeder and a stream must respect for the seeder to have nothing
    to complain of: the scratch database can be created as declared; the
    target takes every bulk insert; every chunk names a table of the
    schema; every reference names a column declared referenceable; and no
    referenceable column holds a reference itself. *)
Record WellFormed (cfg : Seeder) (stream : list StreamChunk) : Prop := {
  wf_tidy : Tidy (refsConfig cfg);
  wf_accepts : ∀ calls tableName values,
    accepts cfg calls tableName values = true;
  wf_schema : ∀ c, c ∈ stream → tag c ∈ schema cfg;
  wf_declared : ∀ r, r ∈ stream_refs stream →
    referenceable (refsConfig cfg) (refTableName r) (refColumnName r);
  wf_plain : ∀ c cols col,
    c ∈ stream → assoc (tag c) (refsConfig cfg) = Some cols → col ∈ cols →
    isColumnValueReference (chunk_get (chunkData c) col) = false;
}.

(** Every reference of the stream points to a row of the stream, of lower
    rank than the row that holds it: no row waits, directly or through
    others, for itself. *)
Definition Ranked (stream : list StreamChunk) (rank : string → Z → nat)
  : Prop :=
  ∀ t i ch r,
    (t, i, ch) ∈ row_ids stream → r ∈ extractRefs ch →
    (∃ ch', (refTableName r, refRowIndex r, ch') ∈ row_ids stream) ∧
    (rank (refTableName r) (refRowIndex r) < rank t i)%nat.

(** The scratch database has the tables that were declared, with their
    columns. *)
Definition as_declared (cfg : Seeder) (db : gmap string RefTable) : Prop :=
  ∀ t cols,
    assoc t (refsConfig cfg) = Some cols →
    ∃ tb, db !! sql_name t = Some tb ∧ columns tb = cols.

(** Every column of every row of the scratch database has a value. *)
Definition full (db : gmap string RefTable) : Prop :=
  ∀ k tb i row c,
    db !! k = Some tb → rows tb !! i = Some row → c ∈ columns tb →
    is_Some (assoc c row).

(** The scratch database has the tables and columns that were declared,
    with a value in every column of every row. It holds the rows that went
    to the target, if their table has a referenceable column, and no
    other. And a chunk went to the target after the rows it refers to. *)
Record Safe (cfg : Seeder) (w : World) : Prop := {
  store_tables : ∀ db, sqliteDb w = Some db → as_declared cfg db;
  store_values : ∀ db, sqliteDb w = Some db → full db;
  store_complete : ∀ db c i cols,
    sqliteDb w = Some db → c ∈ target w → i ∈ ic_rowIndices c →
    assoc (ic_table c) (refsConfig cfg) = Some cols → cols ≠ [] →
    has_row db (ic_table c) i;
  store_logged : ∀ db t i,
    sqliteDb w = Some db → has_row db t i →
    ∃ c, c ∈ target w ∧ sql_name (ic_table c) = sql_name t ∧
         i ∈ ic_rowIndices c ∧
         is_Some (assoc (ic_table c) (refsConfig cfg));
  log_order : ∀ j c ch r,
    target w !! j = Some c → ch ∈ ic_batch c → r ∈ extractRefs ch →
    ∃ i c1, (i < j)%nat ∧ target w !! i = Some c1 ∧
            call_has c1 (refTableName r) (refRowIndex r);
}.

(** Every chunk in a queue has a reference to a row that is not in the
    scratch database. *)
Definition settled (w : World) : Prop :=
  ∀ db name st q,
    sqliteDb w = Some db → (name, st) ∈ tableStates w → q ∈ queue st →
    ∃ r, r ∈ pendingRefs q ∧ ¬ has_row db (refTableName r) (refRowIndex r).

(** While [flush] stores the rows [indices] of table [name], having stored
    the first [k] of them: the scratch database, which was [db0], has these
    rows more, and the rest of the state is as in [w0]. *)
Definition storing (name : string) (indices : list Z)
  (db0 : gmap string RefTable) (w0 : World) (k : nat) (w : World) : Prop :=
  target w = target w0 ∧ tableStates w = tableStates w0 ∧
  rowIndexByTable w = rowIndexByTable w0 ∧
  ∃ db, sqliteDb w = Some db ∧
        (∀ t, columns <$> db !! t = columns <$> db0 !! t) ∧
        full db ∧
        (∀ t i, has_row db t i
                ↔ has_row db0 t i ∨
                  (sql_name t = sql_name name ∧ i ∈ take k indices)).

(** A stream in which the review comes before the book it refers to. *)
Definition late_book_stream : list StreamChunk :=
  [{| tag := "reviews";
      chunkData := [("bookId", Reference (ref_books 0))] |};
   {| tag := "books"; chunkData := [("id", Plain (DNum 10))] |}].

Definition books_first (table : string) (rowIndex : Z) : nat :=
  if decide (table = "books") then 0 else 1.

(** * The parameter ceiling on streams without reference *)

(** The first chunk of a table in a stream: the one [execute] counts the
    columns of. *)
Definition first_chunk (stream : list StreamChunk) (tableName : string)
  : option StreamChunk :=
  List.find (fun c => bool_decide (tag c = tableName)) stream.

(** The batch size [execute] gives a table of the stream. *)
Definition ceiling (cfg : Seeder) (stream : list StreamChunk)
  (tableName : string) : limit :=
  match first_chunk stream tableName with
  | Some c => getBatchSizeForTable (dialect cfg) (length (chunkData c))
  | None => Infinity
  end.

(** A batch of [rows] rows is within the batch size, or is a single row. *)
Definition fits (rows : nat) (batchSize : limit) : Prop :=
  match batchSize with
  | Finite n => Z.of_nat rows ≤ Z.max 1 n
  | Infinity => True
  end.

(** The batch of a table takes one more chunk. *)
Definition has_room (st : TableState) : Prop :=
  batch st = [] ∨ reaches (length (batch st)) (batchSize st) = false.

Definition Calls (cfg : Seeder) (stream : list StreamChunk) (w : World)
  : Prop :=
  ∀ call, call ∈ target w →
    fits (length (ic_values call)) (ceiling cfg stream (ic_table call)).

(** What holds while a stream without reference is consumed, [p] being the
    chunks taken so far and [hot] the table whose batch has just grown. *)
Record Within (cfg : Seeder) (stream p : list StreamChunk)
  (hot : option string) (w : World) : Prop := {
  within_prefix : p `prefix_of` stream;
  within_new : ∀ name,
    assoc name (tableStates w) = None → first_chunk p name = None;
  within_states : ∀ name st,
    assoc name (tableStates w) = Some st →
    batchSize st = ceiling cfg stream name ∧ queue st = [] ∧
    fits (length (batch st)) (batchSize st) ∧
    (hot ≠ Some name → has_room st);
  within_calls : Calls cfg stream w;
}.

(** Three books of 400 columns each. *)
Definition tall_book (i : Z) : StreamChunk :=
  {| tag := "books";
     chunkData := (fun k => (pretty k, Plain (DNum i))) <$> seq 0 400 |}.

Definition tall_stream : list StreamChunk :=
  [tall_book 0; tall_book 1; tall_book 2].

(** * The generator stream (src/sqlite-core/generate.ts) *)

(** [obj[key] = value] on an object kept as an entry list. Keys that are
    array indices, which JavaScript lists first, and the members of
    [Object.prototype] are left out of this picture of an object. *)
Definition set_prop {A} (key : string) (value : A) (obj : list (string * A))
  : list (string * A) :=
  if bool_decide (is_Some (assoc key obj))
  then alter_assoc (fun _ => value) key obj
  else obj ++ [(key, value)].

(** [new Set(values)] *)
Definition new_Set (values : list string) : list string :=
  foldl (fun s c => set_add c s) [] values.

(** A table of the schema: its properties that hold a [Column], in the
    order of [Object.keys], and the columns [getTableConfig] lists. *)
Record Table := {
  tsColumns : list (string * Column);
  configColumns : list Column;
}.

(** [getColumnNameToTsKeyMap] (src/helpers.ts) *)
Definition getColumnNameToTsKeyMap (table : Table) : list (string * string) :=
  foldl (fun acc '(tsKey, col) => set_prop (colName col) tsKey acc) []
        (tsColumns table).

Arguments refine_count {Faker} _.
Arguments refine_columnOrder {Faker} _.
Arguments refine_columns {Faker} _.
Arguments refine_refs {Faker} _.
Arguments refine_tables {Faker} _.

Section Iterator.
Variable Faker : Type.
Variable sameValueZero : cell → cell → bool.
(** The state [faker.seed(seed)] puts the random source in. *)
Variable faker_seed : Z → Faker.
(** [DefaultGenerator] of src/sqlite-core/generators/default.generator.ts *)
Variable DefaultGenerator : BaseGenerator Faker.

(** [getGenerateOptions] *)
Record GenerateOptions := {
  tableOrder : list string;
  opt_seed : option Z;
  opt_generator : option (BaseGenerator Faker);
}.

(** The fields of a [SqliteGenerator]; [inputSchema] holds the tables of
    the schema under the names they are exported by. *)
Record SqliteGenerator := {
  inputSchema : list (string * Table);
  generateOptions : GenerateOptions;
  refineConfig : option (RefineConfig Faker);
}.

(** [generate(schema, generateOptions)] *)
Definition new_SqliteGenerator (inputSchema : list (string * Table))
  (generateOptions : GenerateOptions) : SqliteGenerator :=
  {| inputSchema := inputSchema; generateOptions := generateOptions;
     refineConfig := None |}.

(** [this.refine(config)]: the object is changed and returned. *)
Definition refine (this : SqliteGenerator) (config : RefineConfig Faker)
  : SqliteGenerator :=
  let options := generateOptions this in
  {| inputSchema := inputSchema this;
     generateOptions :=
       {| tableOrder := tableOrder options; opt_seed := opt_seed options;
          opt_generator :=
            Some (extend (default DefaultGenerator (opt_generator options))
                         (RefinedGenerator (Some config))) |};
     refineConfig := Some config |}.

Definition getRefineConfig (this : SqliteGenerator)
  : option (RefineConfig Faker) :=
  refineConfig this.

(** What the iterator changes: the state the generators work on, and the
    chunks it has handed to its consumer. A chunk is the object [self],
    with its [_tag]. *)
Record IterState := {
  gen : GenState Faker;
  yielded : list (list (string * cell));
}.

Definition lift_gen {A} (m : Eff (GenState Faker) A) : Eff IterState A :=
  fun s =>
    let '(r, g) := m (gen s) in (r, {| gen := g; yielded := yielded s |}).

(** [yield self] *)
Definition yield (self : list (string * cell)) : Eff IterState unit :=
  emodify (fun s => {| gen := gen s; yielded := yielded s ++ [self] |}).

(** The names of the columns [tableRefinements.columnOrder] lists:
    [inputSchema[tableKey][columnKey].name]. *)
Definition refined_names (table : Table) (columnOrder : list string)
  : outcome (list string) :=
  omapM (fun columnKey =>
           match assoc columnKey (tsColumns table) with
           | Some col => Done (colName col)
           | None =>
               Throw (TypeError "Cannot read properties of undefined")
           end) columnOrder.

(** Whether [duplicateCheckers[columnName]] is a checker: the record has
    one under the name of every unique column. *)
Definition has_checker (table : Table) (columnName : string) : bool :=
  bool_decide
    (columnName ∈ colName <$> filter (fun col => isUnique col = true)
                                     (configColumns table)).

(** The loop over [columnOrder] that fills [self]. A generator reads the
    [self] of its context while it runs; it is taken not to write to it. *)
Fixpoint fill_columns (fuel : nat) (generator : BaseGenerator Faker)
  (table : Table) (columnNameToTsKey : list (string * string))
  (tableKey : string) (count index : Z) (columnOrder : list string)
  (self : list (string * cell)) : Eff IterState (list (string * cell)) :=
  match columnOrder with
  | [] => eret self
  | columnName :: rest =>
      let columnTsKey :=
        default "undefined" (assoc columnName columnNameToTsKey) in
      let columnConfig :=
        List.find (fun col => bool_decide (colName col = columnName))
                  (configColumns table) in
      match columnConfig with
      | Some columnConfig =>
          if generated columnConfig then
            fill_columns fuel generator table columnNameToTsKey tableKey
              count index rest
              (set_prop columnTsKey GeneratedAsPlaceholder self)
          else
            let ctx :=
              {| index := index; count := count; columnDef := columnConfig;
                 self := self;
                 duplicateChecker :=
                   if has_checker table columnName then Some columnName
                   else None;
                 tableKey := tableKey; columnKey := columnTsKey;
                 super := ethrow (JsError "End of generator chain") |} in
            let+ value := lift_gen (generate sameValueZero fuel generator ctx) in
            fill_columns fuel generator table columnNameToTsKey tableKey
              count index rest (set_prop columnTsKey value self)
      | None =>
          ethrow (JsError ("No column config found for " +:+ columnName))
      end
  end.

(** The body of the loop over [tablesOrder]. The checkers of a table are
    new objects: the state holds them under the names of the columns. *)
Definition iterate_table (fuel : nat) (generator : BaseGenerator Faker)
  (this : SqliteGenerator) (tableKey : string) : Eff IterState unit :=
  match assoc tableKey (inputSchema this) with
  | None => ethrow (TypeError "Cannot convert undefined or null to object")
  | Some table =>
      let columnNameToTsKey := getColumnNameToTsKeyMap table in
      match refineConfig this with
      | None => ethrow (TypeError "Cannot read properties of undefined")
      | Some config =>
          let tableRefinements := assoc tableKey (refine_tables config) in
          let+ refinedOrder :=
            (fun s => (refined_names table
                         (default [] (tableRefinements ≫= refine_columnOrder)),
                       s)) in
          let columnOrder :=
            new_Set (refinedOrder ++ (colName <$> configColumns table)) in
          let count := default 50 (tableRefinements ≫= refine_count) in
          lift_gen (emodify (set_duplicateCheckers
                               (fun _ _ => DuplicateChecker_new))) ;;;
          eforM_ (seqZ 0 count) (fun index =>
            let+ self :=
              fill_columns fuel generator table columnNameToTsKey tableKey
                count index columnOrder [("_tag", Plain (DStr tableKey))] in
            yield self)
      end
  end.

(** [this[Symbol.iterator]()], run to its end. *)
Definition iterator (fuel : nat) (this : SqliteGenerator)
  : Eff IterState unit :=
  let options := generateOptions this in
  let generator := default DefaultGenerator (opt_generator options) in
  lift_gen (emodify (set_faker Faker
                       (fun _ => faker_seed (default 0 (opt_seed options))))) ;;;
  eforM_ (new_Set (tableOrder options)) (iterate_table fuel generator this).
End Iterator.

(** What [execute] makes of a chunk of the stream:
    [const { _tag, ...chunkData } = chunk]. *)
Definition as_chunk (chunk : list (string * cell)) : option StreamChunk :=
  match assoc "_tag" chunk with
  | Some (Plain (DStr tableName)) =>
      Some {| tag := tableName;
              chunkData := filter (fun x => x.1 ≠ "_tag") chunk |}
  | _ => None
  end.

Arguments tableOrder {Faker} _.
Arguments opt_seed {Faker} _.
Arguments opt_generator {Faker} _.
Arguments inputSchema {Faker} _.
Arguments generateOptions {Faker} _.
Arguments refineConfig {Faker} _.
Arguments gen {Faker} _.
Arguments yielded {Faker} _.
Arguments new_SqliteGenerator {Faker} _ _.
Arguments refine {Faker} _ _ _.
Arguments getRefineConfig {Faker} _.
Arguments lift_gen {Faker A} _ _.
Arguments yield {Faker} _ _.
Arguments fill_columns {Faker} _ _ _ _ _ _ _ _ _ _.
Arguments iterate_table {Faker} _ _ _ _ _.
Arguments iterator {Faker} _ _ _ _ _.

(** The number of rows the iterator makes for a table: [count], or 50. *)
Definition row_count {Faker} (this : SqliteGenerator Faker)
  (tableKey : string) : Z :=
  default 50 ((refineConfig this ≫= fun config =>
                 assoc tableKey (refine_tables config)) ≫= refine_count).

(** The value [v] of column [k] is the placeholder of a generated column,
    or comes from the generator, called for row [i] of table [t]; [P] is
    what is known of the values the generator returns. *)
Definition generated_by {Faker}
  (P : ExtendedGeneratorContext Faker → cell → Prop)
  (t : string) (i : Z) (k : string) (v : cell) : Prop :=
  v = GeneratedAsPlaceholder ∨
  ∃ ctx, index ctx = i ∧ tableKey ctx = t ∧ columnKey ctx = k ∧ P ctx v.

Definition row_ok {Faker} (P : ExtendedGeneratorContext Faker → cell → Prop)
  (t : string) (i : Z) (obj : list (string * cell)) : Prop :=
  assoc "_tag" obj = Some (Plain (DStr t)) ∧
  ∀ k v, (k, v) ∈ obj → k ≠ "_tag" → generated_by P t i k v.

(** The chunks [objs] make a stream in which table [t] has [occ t] rows,
    each of them generated under the index the seeder gives it. *)
Definition Numbered {Faker}
  (P : ExtendedGeneratorContext Faker → cell → Prop)
  (occ : string → Z) (objs : list (list (string * cell))) : Prop :=
  ∃ stream,
    Forall2 (fun obj c => as_chunk obj = Some c) objs stream ∧
    (∀ t, occurrences t stream = occ t) ∧
    ∀ t i data k v, (t, i, data) ∈ row_ids stream → (k, v) ∈ data →
                    generated_by P t i k v.

(** The rows per table once the tables [done] are through. *)
Definition occ_after {Faker} (this : SqliteGenerator Faker)
  (done : list string) (t : string) : Z :=
  if decide (t ∈ done) then Z.max 0 (row_count this t) else 0.

(** A setting to run the iterator in: a default generator that answers
    with the index of the row, and a table [books] with a generated [id]
    and a [title], named twice in the table order and refined to two
    rows. *)
Definition index_generator : BaseGenerator nat :=
  createGenerator (fun ctx => eret (Plain (DNum (index ctx)))).

Definition books_table : Table :=
  let id := {| colName := "id"; generated := true; isUnique := true;
               dataType := "number" |} in
  let title := {| colName := "title"; generated := false; isUnique := false;
                  dataType := "string" |} in
  {| tsColumns := [("id", id); ("title", title)];
     configColumns := [id; title] |}.

Definition two_books : RefineConfig nat :=
  {| refine_refs := ["books.id"];
     refine_tables :=
       [("books", {| refine_count := Some 2; refine_columnOrder := None;
                     refine_columns := None |})] |}.

Definition books_options : GenerateOptions nat :=
  {| tableOrder := ["books"; "books"]; opt_seed := None;
     opt_generator := None |}.

Definition books_generator : SqliteGenerator nat :=
  refine index_generator
         (new_SqliteGenerator [("books", books_table)] books_options)
         two_books.

Definition iterator_start : IterState nat :=
  {| gen := {| faker := 0%nat;
               duplicateCheckers := fun _ => DuplicateChecker_new |};
     yielded := [] |}.

(** ** Unique columns *)

(** A computation that leaves the duplicate checker of column [c] alone. *)
Definition keeps {Faker A} (c : string) (m : Eff (GenState Faker) A) : Prop :=
  ∀ s, duplicateCheckers (m s).2 c = duplicateCheckers s c.

(** The key the iterator stores the value of a column under. *)
Definition ts_key (table : Table) (columnName : string) : string :=
  default "undefined" (assoc columnName (getColumnNameToTsKeyMap table)).

(** The object [obj] has an entry for every column [getTableConfig] lists
    for the table it is tagged with. *)
Definition filled {Faker} (this : SqliteGenerator Faker)
  (obj : list (string * cell)) : Prop :=
  ∀ t table col,
    assoc "_tag" obj = Some (Plain (DStr t)) →
    assoc t (inputSchema this) = Some table →
    col ∈ configColumns table →
    is_Some (assoc (ts_key table (colName col)) obj).

(** Column [c] of [table] is unique and not generated by the database, and
    no other column is stored under its key. *)
Record unique_column (table : Table) (c : string) : Prop := {
  uc_unique : has_checker table c = true;
  uc_column : ∃ col,
    List.find (fun col => bool_decide (colName col = c)) (configColumns table)
    = Some col ∧ generated col = false;
  uc_key : ∀ c',
    c' ∈ (colName <$> (tsColumns table).*2)
         ++ (colName <$> configColumns table) →
    ts_key table c' = ts_key table c → c' = c;
}.

(** No value of the list is the same as one before it. *)
Definition all_new (same : cell → cell → bool) (values : list cell) : Prop :=
  ∀ a b va vb, (a < b)%nat → values !! a = Some va → values !! b = Some vb →
               same vb va = false.

(** The chain a refined generator has when the generator it was made with
    ends in a [UniqueValueGenerator]. *)
Definition unique_chain {Faker} (base : BaseGenerator Faker) (maxTries : Z)
  (config : RefineConfig Faker) : BaseGenerator Faker :=
  extend (extend base (UniqueValueGenerator maxTries))
         (RefinedGenerator (Some config)).

(** A setting with a unique column: a table [users] with a unique [email],
    refined to three rows, and under [UniqueValueGenerator] a generator
    whose values come in pairs: 0, 0, 1, 1, 2, ... *)
Definition next_half : Eff (GenState nat) cell :=
  fun s =>
    (Done (Plain (DNum (Z.of_nat (faker s) / 2))), set_faker nat S s).

Definition users_table : Table :=
  let id := {| colName := "id"; generated := true; isUnique := true;
               dataType := "number" |} in
  {| tsColumns := [("id", id); ("email", email_column)];
     configColumns := [id; email_column] |}.

Definition three_users : RefineConfig nat :=
  {| refine_refs := [];
     refine_tables :=
       [("users", {| refine_count := Some 3; refine_columnOrder := None;
                     refine_columns := None |})] |}.

Definition users_generator : SqliteGenerator nat :=
  new_SqliteGenerator [("users", users_table)]
    {| tableOrder := ["users"]; opt_seed := None;
       opt_generator :=
         Some (extend (createGenerator (fun _ => next_half))
                      (UniqueValueGenerator 5)) |}.

(** * Tables that are not in the schema *)

(** Every bulk insert went to a name the schema holds something under. *)
Definition Known (cfg : Seeder) (w : World) : Prop :=
  ∀ call, call ∈ target w → ic_table call ∈ schema cfg.

(** The names under which every object literal holds a value, inherited
    from [Object.prototype]; each of these values is truthy. *)
Definition Object_prototype_names : list string :=
  ["constructor"; "__defineGetter__"; "__defineSetter__"; "hasOwnProperty";
   "__lookupGetter__"; "__lookupSetter__"; "isPrototypeOf";
   "propertyIsEnumerable"; "toString"; "valueOf"; "__proto__";
   "toLocaleString"].

(** A seeder whose schema is an object literal with the one table [books]:
    [this.schema[name]] is truthy for [books] and for the inherited names;
    the target takes rows for [books] and for nothing else. *)
Definition literal_seeder : Seeder :=
  {| dialect := Sqlite; schema := "books" :: Object_prototype_names;
     refsConfig := [];
     accepts := fun _ tableName _ => bool_decide (tableName = "books") |}.

(** A stream with a chunk tagged [toString]. *)
Definition inherited_stream : list StreamChunk :=
  [{| tag := "books"; chunkData := [("id", Plain (DNum 10))] |};
   {| tag := "toString"; chunkData := [("id", Plain (DNum 1))] |}].

(** A stream with a chunk for a table the schema does not have. *)
Definition stray_stream : list StreamChunk :=
  [{| tag := "books"; chunkData := [("id", Plain (DNum 10))] |};
   {| tag := "authors"; chunkData := [("id", Plain (DNum 1))] |}].

(** * [RuntimeConfigAwareGenerator]
    (src/sqlite-core/generators/runtime-config-aware.generator.ts, and the
    same class of src/pg-core) *)

(** [{ ...a, ...b }] on objects kept as entry lists. *)
Definition spread {A} (a b : list (string * A)) : list (string * A) :=
  foldl (fun acc x => set_prop x.1 x.2 acc) [] (a ++ b).

Section RuntimeConfigAware.
Variable Faker : Type.
(** The names [columnClassMap] has a class for. *)
Variable columnClassMap : list string.
(** [is(columnDef, columnClassMap[className])] *)
Variable is_class : Column → string → bool.

(** [RuntimeConfigHandlersMap]: a handler may be given as [undefined]. *)
Definition RuntimeConfigHandlersMap : Type :=
  list (string *
        option (ExtendedGeneratorContext Faker → Eff (GenState Faker) cell)).

(** The loop of [generate] over [Object.entries(this.handlersMap)]. *)
Fixpoint runtime_handlers (entries : RuntimeConfigHandlersMap)
  (ctx : ExtendedGeneratorContext Faker) : Eff (GenState Faker) cell :=
  match entries with
  | [] => super ctx
  | (className, handler) :: rest =>
      match handler with
      | Some handler =>
          if bool_decide (className ∈ columnClassMap)
             && is_class (columnDef ctx) className
          then
            let+ result := handler ctx in
            match result with
            | Plain DUndefined => runtime_handlers rest ctx
            | _ => eret result
            end
          else runtime_handlers rest ctx
      | None => runtime_handlers rest ctx
      end
  end.

(** [new RuntimeConfigAwareGenerator(handlersMap)], by its [generate]. *)
Definition RuntimeConfigAwareGenerator (handlersMap : RuntimeConfigHandlersMap)
  : BaseGenerator Faker :=
  FunctionalGenerator (runtime_handlers handlersMap).

(** [this.refine(refinements)], for a generator made with [handlersMap]. *)
Definition RuntimeConfigAwareGenerator_refine
  (handlersMap refinements : RuntimeConfigHandlersMap) : BaseGenerator Faker :=
  RuntimeConfigAwareGenerator (spread handlersMap refinements).
End RuntimeConfigAware.

Arguments runtime_handlers {Faker} _ _ _ _.
Arguments RuntimeConfigAwareGenerator {Faker} _ _ _.
Arguments RuntimeConfigAwareGenerator_refine {Faker} _ _ _ _.

(** A handler's value, or what [ctx.super()] gives when the handler
    returns [undefined]. *)
Definition or_super {Faker}
  (handler : ExtendedGeneratorContext Faker → Eff (GenState Faker) cell)
  (ctx : ExtendedGeneratorContext Faker) : Eff (GenState Faker) cell :=
  let+ result := handler ctx in
  match result with
  | Plain DUndefined => super ctx
  | _ => eret result
  end.

(** A setting for [RuntimeConfigAwareGenerator]: the classes of
    src/sqlite-core, every column being a [SQLiteText]. *)
Definition sqlite_classes : list string :=
  ["SQLiteText"; "SQLiteTimestamp"; "SQLiteBoolean"].

Definition is_text (columnDef : Column) (className : string) : bool :=
  bool_decide (className = "SQLiteText").
(** * Properties *)

Section Wp.
Context {A : Type}.
Implicit Types (m : M A) (Q : A → World → Prop)
  (E : option Error → World → Prop) (w : World).

Lemma wp_bind {B} m (k : A → M B) (Q : B → World → Prop) E w :
  wp (bind m k) Q E w ↔ wp m (fun a w' => wp (k a) Q E w') E w.
Proof. unfold wp, bind. by destruct (m w) as [[a|e|] w']. Qed.

Lemma wp_ret (a : A) Q E w : wp (ret a) Q E w ↔ Q a w.
Proof. done. Qed.

Lemma wp_throw e Q E w : wp (throw e) Q E w ↔ E (Some e) w.
Proof. done. Qed.

Lemma wp_out_of_fuel Q E w : wp out_of_fuel Q E w ↔ E None w.
Proof. done. Qed.

Lemma wp_gets (f : World → A) Q E w : wp (gets f) Q E w ↔ Q (f w) w.
Proof. done. Qed.

Lemma wp_mono m Q Q' E E' w :
  wp m Q E w →
  (∀ a w', Q a w' → Q' a w') → (∀ e w', E e w' → E' e w') →
  wp m Q' E' w.
Proof. unfold wp. destruct (m w) as [[a|e|] w']; eauto. Qed.

Lemma wp_run m Q E w :
  wp m Q E w ↔
  (∀ a w', m w = (Done a, w') → Q a w') ∧
  (∀ e w', m w = (Throw e, w') → E (Some e) w') ∧
  (∀ w', m w = (OutOfFuel, w') → E None w').
Proof.
  unfold wp. destruct (m w) as [[a|e|] w']; split.
  all: try (intros H; repeat split; intros; by simplify_eq).
  all: intros (H1 & H2 & H3); eauto.
Qed.
End Wp.

Lemma wp_modify f (Q : unit → World → Prop) E w :
  wp (modify f) Q E w ↔ Q tt (f w).
Proof. done. Qed.

Lemma wp_forM_ {A} (I : World → Prop) E (f : A → M unit) l w :
  (∀ x w', x ∈ l → I w' → wp (f x) (fun _ => I) E w') →
  I w → wp (forM_ l f) (fun _ => I) E w.
Proof.
  revert w. induction l as [|x l IH]; intros w Hf HI; [done|].
  cbn [forM_]. apply wp_bind.
  eapply wp_mono; [apply Hf; [left|done]| |done].
  intros [] w' HI'. apply IH; [|done].
  intros y w'' Hy. apply Hf. by right.
Qed.

(** ** Resolution of one reference *)

Lemma resolveRef_found ref db t row rawValue :
  db !! sql_name (refTableName ref) = Some t →
  refColumnName ref ∈ columns t →
  rows t !! refRowIndex ref = Some row →
  assoc (refColumnName ref) row = Some rawValue →
  resolveRef ref db = Done (transformFn ref (parse rawValue)).
Proof.
  intros Ht Hc Hr Hv. unfold resolveRef, find_column.
  rewrite Ht, bool_decide_eq_true_2, Hr by done.
  by rewrite decide_True, Hv.
Qed.

Lemma resolveRef_missing ref db t :
  db !! sql_name (refTableName ref) = Some t →
  refColumnName ref ∈ columns t →
  rows t !! refRowIndex ref = None →
  resolveRef ref db = Done DUndefined.
Proof.
  intros Ht Hc Hr. unfold resolveRef, find_column.
  by rewrite Ht, bool_decide_eq_true_2, Hr.
Qed.

(** C6, as amended: a reference whose row is not in the store resolves to
    [undefined] without any error; a reference whose row is there resolves to
    the transform applied to the parsed stored value. The table is the one
    the store knows under the name of the reference, whatever the case of
    its letters. *)
Theorem C6_resolveRef_undefined_or_transformed ref db t :
  db !! sql_name (refTableName ref) = Some t →
  refColumnName ref ∈ columns t →
  (rows t !! refRowIndex ref = None → resolveRef ref db = Done DUndefined) ∧
  (∀ row rawValue,
     rows t !! refRowIndex ref = Some row →
     assoc (refColumnName ref) row = Some rawValue →
     resolveRef ref db = Done (transformFn ref (parse rawValue))).
Proof.
  intros Ht Hc. split.
  - by apply resolveRef_missing.
  - intros row rawValue. by apply resolveRef_found.
Qed.

Lemma C6_resolveRef_witness :
  resolveRef (ref_books 5) books_store = Done DUndefined ∧
  resolveRef (ref_books 0) books_store = Done (DNum 7).
Proof.
  assert (Ht : ∀ i, books_store !! sql_name (refTableName (ref_books i))
                    = Some stored_books)
    by (intros i; vm_compute; reflexivity).
  assert (Hc : ∀ i, refColumnName (ref_books i) ∈ columns stored_books)
    by (intros i; apply list_elem_of_here).
  split.
  - apply (proj1 (C6_resolveRef_undefined_or_transformed _ _ _ (Ht 5) (Hc 5))).
    vm_compute; reflexivity.
  - apply (proj2 (C6_resolveRef_undefined_or_transformed _ _ _ (Ht 0) (Hc 0))
             [("id", Encoded (DNum 7))] (Encoded (DNum 7)));
      vm_compute; reflexivity.
Defined.

(** C6 as stated fails: row 5 of [books] was never stored, and resolution
    hands back [undefined] instead of failing. *)
Lemma C6_missing_row_is_not_an_error :
  rows stored_books !! refRowIndex (ref_books 5) = None ∧
  resolveRef (ref_books 5) books_store = Done DUndefined ∧
  ¬ ∃ e, resolveRef (ref_books 5) books_store = Throw e.
Proof.
  split; [by vm_compute|]. split; [by vm_compute|].
  intros [e He]. vm_compute in He. discriminate.
Qed.

(** ** Draining the queues *)

Lemma set_queue_id st : set_queue (queue st) st = st.
Proof. by destruct st. Qed.

Lemma set_tableStates_id f w :
  f (tableStates w) = tableStates w → set_tableStates f w = w.
Proof. destruct w; unfold set_tableStates; cbn. by intros ->. Qed.

Lemma alter_assoc_id {A} (f : A → A) k l v :
  assoc k l = Some v → f v = v → alter_assoc f k l = l.
Proof.
  induction l as [|[k' v'] l IH]; cbn; [done|].
  case_decide; intros; simplify_eq; [congruence|].
  by rewrite IH.
Qed.

Lemma alter_assoc_fst {A} (f : A → A) k (l : list (string * A)) :
  (alter_assoc f k l).*1 = l.*1.
Proof.
  induction l as [|[k' v'] l IH]; cbn; [done|].
  case_decide; cbn; [done|]. by rewrite IH.
Qed.

Section Drain.
Variable db : gmap string RefTable.

(** A round over a queue that moves nothing changes nothing. *)
Lemma drain_queue_no_progress tableName queued w still w' :
  drain_queue db tableName queued w = (Done (still, false), w') →
  still = queued ∧ w' = w.
Proof.
  revert still w w'. induction queued as [|q rest IH]; intros still w w'; cbn.
  - unfold ret. by intros [= <- <-].
  - unfold bind at 1, lift.
    destruct (areAllRefsResolved (pendingRefs q) db) as [[|]| |]; try done.
    + unfold bind, modify_table, modify, ret.
      by destruct (drain_queue _ _ _ _) as [[[??]| |] ?].
    + unfold bind, ret.
      destruct (drain_queue db tableName rest w) as [[[s b]| |] w1] eqn:Hr;
        try done.
      cbn. intros [= <- -> <-]. by destruct (IH _ _ _ Hr) as [-> ->].
Qed.

Lemma drain_table_no_progress tableName w w' :
  drain_table db tableName w = (Done false, w') → w' = w.
Proof.
  unfold drain_table, bind, get_table.
  destruct (assoc tableName (tableStates w)) as [st|] eqn:Hst; [|done].
  destruct (drain_queue _ _ _ _) as [[[still b]| |] w1] eqn:Hr; try done.
  unfold modify_table, modify, ret. intros [= -> <-].
  apply drain_queue_no_progress in Hr as [-> ->].
  apply set_tableStates_id.
  eapply alter_assoc_id; [done|]. apply set_queue_id.
Qed.

Lemma drain_pass_no_progress names w w' :
  drain_pass db names w = (Done false, w') → w' = w.
Proof.
  revert w. induction names as [|n names IH]; intros w; cbn.
  - unfold ret. by intros [= <-].
  - unfold bind, ret.
    destruct (drain_table db n w) as [[moved| |] w1] eqn:Ht; try done.
    destruct (drain_pass db names w1) as [[made| |] w2] eqn:Hp; try done.
    intros [= [-> ->]%orb_false_elim <-].
    apply drain_table_no_progress in Ht as ->. by apply IH.
Qed.

(** Draining only edits table states, and keeps the set of tables. *)
Lemma same_frame_refl w : same_frame w w.
Proof. by repeat split. Qed.

Lemma same_frame_trans w1 w2 w3 :
  same_frame w1 w2 → same_frame w2 w3 → same_frame w1 w3.
Proof.
  unfold same_frame. intros (?&?&?&?) (?&?&?&?). repeat split; congruence.
Qed.

Lemma same_frame_modify_table w tableName f :
  same_frame w (set_tableStates (alter_assoc f tableName) w).
Proof. repeat split. cbn. apply alter_assoc_fst. Qed.

Lemma drain_queue_frame tableName queued w :
  wp (drain_queue db tableName queued)
     (fun _ => same_frame w) (fun _ => same_frame w) w.
Proof.
  assert (∀ w0, same_frame w w0 →
    wp (drain_queue db tableName queued)
       (fun _ => same_frame w) (fun _ => same_frame w) w0) as H;
    [|apply H, same_frame_refl].
  induction queued as [|q rest IH]; intros w0 Hw0; cbn; [done|].
  apply wp_bind. unfold lift, wp at 1.
  destruct (areAllRefsResolved _ _) as [[|]| |]; try done.
  - apply wp_bind, wp_modify, wp_bind.
    eapply wp_mono; [apply IH|by intros|done].
    eapply same_frame_trans; [exact Hw0|apply same_frame_modify_table].
  - apply wp_bind. eapply wp_mono; [by apply IH|by intros|done].
Qed.

Lemma drain_table_frame tableName w :
  wp (drain_table db tableName)
     (fun _ => same_frame w) (fun _ => same_frame w) w.
Proof.
  unfold drain_table. apply wp_bind. unfold get_table, wp at 1.
  destruct (assoc _ _); [|apply same_frame_refl].
  apply wp_bind. eapply wp_mono; [apply drain_queue_frame| |done].
  intros r w' Hw'. apply wp_bind, wp_modify, wp_ret.
  eapply same_frame_trans; [exact Hw'|apply same_frame_modify_table].
Qed.

Lemma drain_pass_frame names w :
  wp (drain_pass db names)
     (fun _ => same_frame w) (fun _ => same_frame w) w.
Proof.
  assert (∀ w0, same_frame w w0 →
    wp (drain_pass db names)
       (fun _ => same_frame w) (fun _ => same_frame w) w0) as H;
    [|apply H, same_frame_refl].
  induction names as [|n names IH]; intros w0 Hw0; cbn; [done|].
  apply wp_bind.
  eapply wp_mono; [apply drain_table_frame| |]; cbn;
    [|eauto using same_frame_trans].
  intros moved w1 Hw1. apply wp_bind.
  eapply wp_mono; [apply IH; eauto using same_frame_trans| |done].
  by intros.
Qed.

Lemma drain_loop_frame fuel any w :
  wp (drain_loop db fuel any)
     (fun _ => same_frame w) (fun _ => same_frame w) w.
Proof.
  assert (∀ w0, same_frame w w0 →
    wp (drain_loop db fuel any)
       (fun _ => same_frame w) (fun _ => same_frame w) w0) as H;
    [|apply H, same_frame_refl].
  revert any. induction fuel as [|fuel IH]; intros any w0 Hw0; cbn; [done|].
  apply wp_bind, wp_gets, wp_bind.
  eapply wp_mono; [apply drain_pass_frame| |]; cbn;
    [|eauto using same_frame_trans].
  intros [] w1 Hw1; [|by eapply same_frame_trans].
  apply IH. by eapply same_frame_trans.
Qed.

(** When the loop ends, one more pass over the state it leaves moves
    nothing. *)
Lemma drain_loop_fixpoint fuel any w b w' :
  drain_loop db fuel any w = (Done b, w') →
  drain_pass db (tableStates w').*1 w' = (Done false, w').
Proof.
  revert any w. induction fuel as [|fuel IH]; intros any w; cbn; [done|].
  unfold bind, table_names, gets.
  destruct (drain_pass _ _ w) as [[[]| |] w1] eqn:Hp; try done.
  - apply IH.
  - unfold ret. intros [= <- <-].
    pose proof (drain_pass_no_progress _ _ _ Hp) as ->. done.
Qed.
End Drain.

(** C9. Draining is idempotent: when [drainAllQueues] has returned, a second
    call right after it returns [false] and leaves the whole state (every
    batch, queue and list of row indices) as it was. *)
Theorem C9_drainAllQueues_idempotent fuel w progress w' fuel' :
  drainAllQueues fuel w = (Done progress, w') →
  (0 < fuel')%nat →
  drainAllQueues fuel' w' = (Done false, w').
Proof.
  unfold drainAllQueues, bind, the_db.
  destruct (sqliteDb w) as [db|] eqn:Hdb; [|done].
  intros Hrun Hfuel.
  pose proof (drain_loop_frame db fuel false w) as Hfr.
  unfold wp in Hfr. rewrite Hrun in Hfr. destruct Hfr as (_ & -> & _ & _).
  rewrite Hdb. destruct fuel' as [|fuel']; [lia|]. cbn.
  unfold bind, table_names, gets.
  by rewrite (drain_loop_fixpoint _ _ _ _ _ _ Hrun).
Qed.

(** ** The report of stuck chunks *)

Lemma string_app_assoc (s1 s2 s3 : string) :
  (s1 +:+ s2) +:+ s3 = s1 +:+ s2 +:+ s3.
Proof.
  induction s1 as [|a s1 IH]; [done|].
  change (String a ((s1 +:+ s2) +:+ s3) = String a (s1 +:+ s2 +:+ s3)).
  by f_equal.
Qed.

Lemma string_app_nil_r (s : string) : s +:+ EmptyString = s.
Proof.
  induction s as [|a s IH]; [done|].
  change (String a (s +:+ EmptyString) = String a s). by f_equal.
Qed.

Lemma mentions_concat sep (lines : list string) line :
  line ∈ lines → mentions (String.concat sep lines) line.
Proof.
  induction lines as [|x lines IH]; [by intros ?%not_elem_of_nil|].
  intros [->|Hin]%elem_of_cons.
  - destruct lines as [|y lines].
    + exists EmptyString, EmptyString.
      change (x = x +:+ EmptyString). by rewrite string_app_nil_r.
    + by exists EmptyString, (sep +:+ String.concat sep (y :: lines)).
  - destruct (IH Hin) as (pre & post & Heq).
    destruct lines as [|y lines]; [by apply not_elem_of_nil in Hin|].
    exists (x +:+ sep +:+ pre), post.
    change (String.concat sep (x :: y :: lines))
      with (x +:+ sep +:+ String.concat sep (y :: lines)).
    by rewrite Heq, !string_app_assoc.
Qed.

Lemma mentions_app_r pre message line :
  mentions message line → mentions (pre +:+ message) line.
Proof.
  intros (p & q & ->). exists (pre +:+ p), q. by rewrite string_app_assoc.
Qed.

Lemma unresolved_lines_complete cfg tableStates tableName st queued ref :
  (tableName, st) ∈ tableStates → queued ∈ queue st →
  ref ∈ pendingRefs queued →
  unresolved_line cfg tableName queued ref ∈ unresolved_lines cfg tableStates.
Proof.
  intros Ht Hq Hr. unfold unresolved_lines.
  apply list_elem_of_In, in_flat_map. exists (tableName, st).
  split; [by apply list_elem_of_In|].
  apply in_flat_map. exists queued. split; [by apply list_elem_of_In|].
  apply in_map_iff. exists ref. split; [done|]. by apply list_elem_of_In.
Qed.

Lemma assoc_Some_elem_of {A} k (l : list (string * A)) v :
  assoc k l = Some v → (k, v) ∈ l.
Proof.
  induction l as [|[k' v'] l IH]; cbn; [done|].
  case_decide; intros; simplify_eq; [left|right; auto].
Qed.

Lemma assoc_is_Some {A} k (l : list (string * A)) :
  k ∈ l.*1 → is_Some (assoc k l).
Proof.
  induction l as [|[k' v'] l IH]; cbn; [by intros ?%not_elem_of_nil|].
  case_decide; [by eexists|].
  intros [?|?]%elem_of_cons; [congruence|auto].
Qed.

Lemma assoc_None {A} k (l : list (string * A)) :
  k ∉ l.*1 → assoc k l = None.
Proof.
  induction l as [|[k' v'] l IH]; cbn; [done|].
  intros Hk. apply not_elem_of_cons in Hk as [??].
  case_decide; [congruence|auto].
Qed.

(** The check throws as soon as it meets a table with a waiting chunk, and
    passes, leaving the state alone, when there is none. *)
Lemma wp_get_table tableName (Q : TableState → World → Prop) E w :
  wp (get_table tableName) Q E w ↔
  match assoc tableName (tableStates w) with
  | Some st => Q st w
  | None => E (Some (TypeError "tableState is undefined")) w
  end.
Proof. unfold wp, get_table. by destruct (assoc _ _). Qed.

Lemma check_stuck_loop cfg names w :
  (∀ n, n ∈ names → is_Some (assoc n (tableStates w))) →
  wp (forM_ names (fun tableName =>
        let* tableState := get_table tableName in
        if bool_decide (0 < length (queue tableState))%nat then
          let* tableStates := gets tableStates in
          throw (JsError (getUnresolvedRefsError cfg tableStates))
        else ret tt))
     (fun _ w' => w' = w ∧ ¬ Exists (waiting w) names)
     (fun e w' => w' = w ∧ Exists (waiting w) names ∧
                  e = Some (JsError (getUnresolvedRefsError cfg (tableStates w))))
     w.
Proof.
  induction names as [|n names IH]; intros Hall.
  - apply wp_ret. split; [done|]. by intros ?%Exists_nil.
  - cbn [forM_]. apply wp_bind, wp_bind, wp_get_table.
    destruct (Hall n) as [st Hst]; [left|]. rewrite Hst.
    case_bool_decide as Hq.
    + apply wp_bind, wp_gets, wp_throw. split; [done|]. split; [|done].
      left. exists st. split; [done|].
      destruct (queue st); [cbn in Hq; lia|done].
    + assert (queue st = []) as Hnil
        by (destruct (queue st); cbn in *; [done|lia]).
      apply wp_ret. eapply wp_mono; [apply IH; intros; apply Hall; by right|..].
      * intros _ w' [-> Hno]. split; [done|].
        intros [(st' & ? & ?)|?]%Exists_cons; [congruence|done].
      * intros e w' (-> & Hex & ->). split; [done|]. split; [by right|done].
Qed.

Lemma check_stuck_throws cfg w :
  Exists (waiting w) (tableStates w).*1 →
  check_stuck cfg w
  = (Throw (JsError (getUnresolvedRefsError cfg (tableStates w))), w).
Proof.
  intros Hex.
  pose proof (check_stuck_loop cfg (tableStates w).*1 w
                (fun n => assoc_is_Some n _)) as H.
  unfold check_stuck, bind at 1, table_names, gets.
  unfold wp in H. destruct (forM_ _ _ w) as [[[]|e|] w'].
  - by destruct H as [_ []].
  - by destruct H as (-> & _ & [= ->]).
  - by destruct H as (_ & _ & ?).
Qed.

Lemma check_stuck_passes cfg w :
  ¬ Exists (waiting w) (tableStates w).*1 → check_stuck cfg w = (Done tt, w).
Proof.
  intros Hno.
  pose proof (check_stuck_loop cfg (tableStates w).*1 w
                (fun n => assoc_is_Some n _)) as H.
  unfold check_stuck, bind at 1, table_names, gets.
  unfold wp in H. destruct (forM_ _ _ w) as [[[]|e|] w'].
  - by destruct H as [-> _].
  - by destruct H as (_ & ? & _).
  - by destruct H as (_ & ? & _).
Qed.

(** ** The batch ceiling *)

(** C3 fails on the code. A [reviews] row has 500 columns, so its table's
    batch size is [floor(999 / 500) = 1]; the two reviews wait in the queue
    for the books, the final drain moves both to the batch, and the flush
    that follows hands both rows (1000 values) to one bulk insert. *)
Theorem C3_drained_batch_exceeds_ceiling :
  NoDup (wide_review 0).*1 ∧
  getBatchSizeForTable Sqlite (length (wide_review 0)) = Finite 1 ∧
  (execute wide_seeder 5 wide_stream initial).1 = Done tt ∧
  call_shape <$> target (execute wide_seeder 5 wide_stream initial).2
  = [("books", [1; 1]); ("reviews", [500; 500])]%nat.
Proof.
  split; [|split; [|split]].
  - apply (bool_decide_unpack (NoDup (wide_review 0).*1)).
    vm_compute. exact I.
  - vm_compute. reflexivity.
  - vm_compute. reflexivity.
  - vm_compute. reflexivity.
Qed.

(** ** What the scratch database records *)

Lemma resolveChunk_plain chunk col d db resolved :
  assoc col chunk = Some (Plain d) →
  resolveChunk chunk db = Done resolved →
  assoc col resolved = Some d.
Proof.
  revert resolved. induction chunk as [|[k v] rest IH]; intros resolved; [done|].
  cbn [assoc resolveChunk]. case_decide as Hk.
  - intros [= ->]. destruct (resolveChunk rest db); [|done..].
    cbn. intros [= <-]. cbn. by rewrite decide_True.
  - intros Hcol. destruct v as [d'|r|].
    + destruct (resolveChunk rest db) as [resolved'| |]; [|done..].
      cbn. intros [= <-]. cbn. rewrite decide_False by done. by apply IH.
    + destruct db as [db|]; [|done].
      destruct (resolveRef r db); [|done..]. cbn.
      destruct (resolveChunk rest (Some db)) as [resolved'| |]; [|done..].
      cbn. intros [= <-]. cbn. rewrite decide_False by done. by apply IH.
    + by apply IH.
Qed.

Lemma omapM_zip_assoc {B} (f : string → outcome B) cols values col :
  omapM f cols = Done values → col ∈ cols →
  ∃ raw, assoc col (zip cols values) = Some raw ∧ f col = Done raw.
Proof.
  revert values. induction cols as [|c cols IH]; intros values;
    [by intros _ ?%not_elem_of_nil|].
  cbn [omapM]. destruct (f c) as [y| |] eqn:Hy; [|done..]. cbn.
  destruct (omapM f cols) as [ys| |]; [|done..]. cbn.
  intros [= <-] Hin. cbn. case_decide as Hc.
  - subst. by exists y.
  - apply elem_of_cons in Hin as [?|Hin]; [congruence|]. by apply IH.
Qed.

Lemma wp_the_db (Q : gmap string RefTable → World → Prop) E w :
  wp the_db Q E w ↔
  match sqliteDb w with
  | Some db => Q db w
  | None => E (Some (TypeError "sqliteDb is null")) w
  end.
Proof. unfold wp, the_db. by destruct (sqliteDb w). Qed.

Lemma wp_lift {A} (o : outcome A) (Q : A → World → Prop) E w :
  wp (lift o) Q E w ↔
  match o with
  | Done a => Q a w
  | Throw e => E (Some e) w
  | OutOfFuel => E None w
  end.
Proof. unfold wp, lift. by destruct o. Qed.

(** C4 fails on the code. In the scenario the run ends well, the books
    being flushed before the review. The books are inserted without an
    [id], so the target generates it; the scratch database records for [id]
    of book 0 what the chunk carries, the placeholder marker, and the review
    is inserted with that marker as its [bookId]: whatever [id] the target
    generates for the book, the [bookId] of the review is not that value
    (unless the target generates the marker itself). *)
Theorem C4_review_gets_the_marker_not_the_generated_id :
  (execute scenario_seeder 5 scenario_stream initial).1 = Done tt ∧
  target (execute scenario_seeder 5 scenario_stream initial).2
  = target scenario_end ∧
  ic_table <$> target scenario_end = ["books"; "reviews"] ∧
  inserted_row scenario_end "books" 0 = Some [] ∧
  recorded scenario_end "books" 0 "id" = Some placeholder_object ∧
  inserted_row scenario_end "reviews" 0
  = Some [("bookId", placeholder_object)] ∧
  ∀ generated,
    stored_value generated [] "id" = generated ∧
    (generated ≠ placeholder_object →
     stored_value DUndefined [("bookId", placeholder_object)] "bookId"
     ≠ stored_value generated [] "id").
Proof.
  split; [by vm_compute|]. split; [by vm_compute|]. split; [by vm_compute|].
  split; [by vm_compute|]. split; [by vm_compute|]. split; [by vm_compute|].
  intros generated. split; [done|]. intros Hne Heq. apply Hne.
  vm_compute in Heq. by rewrite <- Heq.
Qed.

(** ** Numbering the rows of a stream *)

Lemma occurrences_app t l1 l2 :
  occurrences t (l1 ++ l2) = occurrences t l1 + occurrences t l2.
Proof. unfold occurrences. rewrite filter_app, length_app. lia. Qed.

Lemma occurrences_nonneg t l : 0 ≤ occurrences t l.
Proof. unfold occurrences. lia. Qed.

Lemma occurrences_singleton t c :
  occurrences t [c] = if decide (tag c = t) then 1 else 0.
Proof.
  unfold occurrences. cbn. unfold filter. cbn.
  by repeat case_decide.
Qed.

Lemma number_rows_app seen l1 l2 :
  number_rows seen (l1 ++ l2)
  = number_rows seen l1 ++ number_rows (seen ++ l1) l2.
Proof.
  revert seen. induction l1 as [|c l1 IH]; intros seen; cbn.
  - by rewrite app_nil_r.
  - by rewrite IH, <- app_assoc.
Qed.

Lemma row_ids_snoc p c :
  row_ids (p ++ [c])
  = row_ids p ++ [(tag c, occurrences (tag c) p, chunkData c)].
Proof. unfold row_ids. by rewrite number_rows_app. Qed.

Lemma number_rows_bounds seen l t i ch :
  (t, i, ch) ∈ number_rows seen l →
  occurrences t seen ≤ i < occurrences t (seen ++ l).
Proof.
  revert seen. induction l as [|c l IH]; intros seen; cbn;
    [by intros ?%not_elem_of_nil|].
  rewrite occurrences_app.
  intros [[= -> -> ->]|Hin]%elem_of_cons.
  - change (c :: l) with ([c] ++ l).
    rewrite occurrences_app, occurrences_singleton, decide_True by done.
    pose proof (occurrences_nonneg (tag c) l). lia.
  - apply IH in Hin. rewrite !occurrences_app in Hin.
    change (c :: l) with ([c] ++ l). rewrite occurrences_app.
    pose proof (occurrences_nonneg t [c]). lia.
Qed.

(** No two rows of a stream have the same table and sequence number. *)
Lemma number_rows_NoDup seen l : NoDup (row_key <$> number_rows seen l).
Proof.
  revert seen. induction l as [|c l IH]; intros seen; cbn; [constructor|].
  constructor; [|apply IH].
  intros ([[t i] ch] & [= <- <-] & Hin%number_rows_bounds)%list_elem_of_fmap.
  rewrite occurrences_app, occurrences_singleton, decide_True in Hin by done.
  lia.
Qed.

Lemma row_ids_NoDup stream : NoDup (row_key <$> row_ids stream).
Proof. apply number_rows_NoDup. Qed.

Lemma row_ids_prefix p stream x :
  p `prefix_of` stream → x ∈ row_ids p → x ∈ row_ids stream.
Proof.
  intros [rest ->]. unfold row_ids. rewrite number_rows_app, elem_of_app.
  by left.
Qed.

Lemma row_ids_length stream : length (row_ids stream) = length stream.
Proof.
  unfold row_ids. generalize (@nil StreamChunk).
  induction stream as [|c l IH]; intros seen; cbn; [done|]. by rewrite IH.
Qed.

(** ** One drain round over a table *)

Lemma assoc_alter {A} (f : A → A) k k' (l : list (string * A)) :
  assoc k' (alter_assoc f k l)
  = if decide (k' = k) then f <$> assoc k' l else assoc k' l.
Proof.
  induction l as [|[k0 v] l IH]; cbn; [by case_decide|].
  repeat (case_decide; cbn; simplify_eq); try done.
Qed.

Lemma alter_assoc_compose {A} (f g : A → A) k (l : list (string * A)) :
  alter_assoc g k (alter_assoc f k l) = alter_assoc (g ∘ f) k l.
Proof.
  induction l as [|[k0 v] l IH]; cbn; [done|].
  repeat (case_decide; cbn; simplify_eq); try done. by rewrite IH.
Qed.

Lemma alter_assoc_ext {A} (f g : A → A) k (l : list (string * A)) :
  (∀ v, assoc k l = Some v → f v = g v) →
  alter_assoc f k l = alter_assoc g k l.
Proof.
  induction l as [|[k0 v] l IH]; cbn; [done|].
  case_decide; intros Hfg; [by rewrite Hfg|]. by rewrite IH.
Qed.

Lemma alter_assoc_id' {A} (f : A → A) k (l : list (string * A)) :
  (∀ v, f v = v) → alter_assoc f k l = l.
Proof.
  intros Hf. induction l as [|[k0 v] l IH]; cbn; [done|].
  case_decide; [by rewrite Hf|by rewrite IH].
Qed.

(** The entry of a table splits the map around it. *)
Lemma assoc_split {A} k (l : list (string * A)) v :
  assoc k l = Some v →
  ∃ l1 l2, l = l1 ++ (k, v) :: l2 ∧
           ∀ f, alter_assoc f k l = l1 ++ (k, f v) :: l2.
Proof.
  induction l as [|[k0 v0] l IH]; cbn; [done|].
  case_decide as Hk.
  - intros [= ->]. subst. exists [], l. split; [done|].
    intros f. cbn. by rewrite ?decide_True.
  - intros (l1 & l2 & -> & Hf)%IH.
    exists ((k0, v0) :: l1), l2. split; [done|].
    intros f. cbn. by rewrite Hf.
Qed.

Lemma push_all_batch qs st :
  batch (push_all qs st) = batch st ++ (chunk <$> qs) ∧
  rowIndices (push_all qs st) = rowIndices st ++ (rowIndex <$> qs) ∧
  queue (push_all qs st) = queue st ∧
  seededCount (push_all qs st) = seededCount st ∧
  batchSize (push_all qs st) = batchSize st ∧
  columnCount (push_all qs st) = columnCount st.
Proof.
  revert st. unfold push_all.
  induction qs as [|q qs IH]; intros st; cbn.
  - by rewrite !app_nil_r.
  - destruct (IH (push_batch (chunk q) (rowIndex q) st))
      as (-> & -> & -> & -> & -> & ->). cbn.
    by rewrite <- !app_assoc.
Qed.

Lemma drained_push_all db st :
  drained db st
  = set_queue (filter (fun q => ¬ eligible db q) (queue st))
      (push_all (filter (eligible db) (queue st)) st).
Proof.
  unfold drained, set_queue.
  by destruct (push_all_batch (filter (eligible db) (queue st)) st)
    as (-> & -> & _ & -> & -> & ->).
Qed.

Lemma refExists_fuel ref db : refExists ref db ≠ OutOfFuel.
Proof. unfold refExists. by destruct (db !! _). Qed.

Lemma areAllRefsResolved_fuel refs db : areAllRefsResolved refs db ≠ OutOfFuel.
Proof.
  induction refs as [|r refs IH]; cbn; [done|].
  pose proof (refExists_fuel r db).
  by destruct (refExists r db) as [[]| |].
Qed.

Lemma areAllRefsResolved_throws refs db e :
  areAllRefsResolved refs db = Throw e → ∃ m, e = SqliteError m.
Proof.
  induction refs as [|r refs IH]; cbn; [done|]. unfold refExists at 1.
  destruct (db !! sql_name (refTableName r)); cbn;
    [|intros [= <-]; by eexists].
  by case_bool_decide.
Qed.

Section DrainTable.
Variable db : gmap string RefTable.
Variable tableName : string.

(** [drain_queue] pushes the eligible chunks, in order, and hands back
    the others; if a lookup fails on the way, the chunks before it have
    been pushed. *)
Lemma drain_queue_spec queued w :
  wp (drain_queue db tableName queued)
     (fun r w' =>
        r.1 = filter (fun q => ¬ eligible db q) queued ∧
        r.2 = bool_decide (filter (eligible db) queued ≠ []) ∧
        w' = set_tableStates
               (alter_assoc (push_all (filter (eligible db) queued))
                            tableName) w)
     (fun e w' =>
        (∃ m, e = Some (SqliteError m)) ∧
        ∃ pushed, w' = set_tableStates
                         (alter_assoc (push_all pushed) tableName) w)
     w.
Proof.
  revert w. induction queued as [|q rest IH]; intros w.
  - apply wp_ret. cbn. repeat split.
    symmetry. by apply set_tableStates_id, alter_assoc_id'.
  - cbn [drain_queue]. apply wp_bind, wp_lift.
    pose proof (areAllRefsResolved_fuel (pendingRefs q) db) as Hfuel.
    destruct (areAllRefsResolved (pendingRefs q) db) as [[|]|e|] eqn:Hq.
    + assert (eligible db q) as Hel by (unfold eligible; by rewrite Hq).
      rewrite (filter_cons_True (eligible db)) by done.
      rewrite filter_cons_False by (by intros []).
      apply wp_bind, wp_modify, wp_bind.
      eapply wp_mono; [apply IH|..]; cbn.
      * intros [still made] w' (H1 & H2 & ->). cbn in H1, H2. subst.
        apply wp_ret. cbn. split; [done|]. split; [done|].
        unfold set_tableStates; cbn. by rewrite alter_assoc_compose.
      * intros e w' (He & pushed & ->). split; [done|].
        exists (q :: pushed). unfold set_tableStates; cbn.
        by rewrite alter_assoc_compose.
    + assert (¬ eligible db q) as Hel
        by (unfold eligible; rewrite Hq; by intros []).
      rewrite (filter_cons_False (eligible db)) by done.
      rewrite filter_cons_True by done.
      apply wp_bind. eapply wp_mono; [apply IH|..]; cbn.
      * intros [still made] w' (H1 & H2 & ->). cbn in H1, H2. subst.
        by apply wp_ret.
      * done.
    + split; [apply areAllRefsResolved_throws in Hq as [m ->]; by exists m|].
      exists []. symmetry. by apply set_tableStates_id, alter_assoc_id'.
    + done.
Qed.
End DrainTable.

Lemma drain_table_spec db tableName w :
  wp (drain_table db tableName)
     (fun moved w' =>
        ∃ st, assoc tableName (tableStates w) = Some st ∧
              moved = bool_decide (filter (eligible db) (queue st) ≠ []) ∧
              w' = set_tableStates (alter_assoc (drained db) tableName) w)
     (fun e w' =>
        (assoc tableName (tableStates w) = None ∨
         ∃ m, e = Some (SqliteError m)) ∧
        ∃ pushed, w' = set_tableStates
                         (alter_assoc (push_all pushed) tableName) w)
     w.
Proof.
  unfold drain_table. apply wp_bind, wp_get_table.
  destruct (assoc tableName (tableStates w)) as [st|] eqn:Hst.
  - apply wp_bind. eapply wp_mono; [apply drain_queue_spec|..].
    + intros [still made] w' (H1 & H2 & ->). cbn in H1, H2. subst.
      apply wp_bind, wp_modify, wp_ret. exists st.
      split; [done|]. split; [done|].
      unfold set_tableStates; cbn. rewrite alter_assoc_compose.
      f_equal. apply alter_assoc_ext. intros v ?. simplify_eq. cbn.
      by rewrite drained_push_all.
    + intros e w' [He Hw']. split; [by right|done].
  - split; [by left|]. exists [].
    symmetry. by apply set_tableStates_id, alter_assoc_id'.
Qed.

(** ** Views of the table states under an update *)

Lemma Forall_alter_assoc {A} (P : string * A → Prop) f k l :
  Forall P l → (∀ v, assoc k l = Some v → P (k, v) → P (k, f v)) →
  Forall P (alter_assoc f k l).
Proof.
  induction l as [|[k0 v0] l IH]; cbn; [done|].
  intros [H0 Hl]%Forall_cons Hf. case_decide; subst.
  - constructor; [by apply Hf|done].
  - constructor; [done|]. by apply IH.
Qed.

Lemma zip_snoc {A B} (l1 : list A) (l2 : list B) l1' l2' :
  length l1 = length l2 →
  zip (l1 ++ l1') (l2 ++ l2') = zip l1 l2 ++ zip l1' l2'.
Proof. intros. by apply zip_with_app. Qed.

Lemma zip_fmap_same {A B C} (f : A → B) (g : A → C) (l : list A) :
  zip (f <$> l) (g <$> l) = (fun x => (f x, g x)) <$> l.
Proof. induction l; cbn; [done|]. by f_equal. Qed.

Lemma batch_rows_drained db name st :
  length (rowIndices st) = length (batch st) →
  batch_rows name (drained db st)
  = batch_rows name st ++ (queued_row name <$> filter (eligible db) (queue st)).
Proof.
  intros Hlen. unfold batch_rows. cbn.
  rewrite zip_snoc, fmap_app, zip_fmap_same by done.
  by rewrite <- list_fmap_compose.
Qed.

Lemma queue_rows_drained db name st :
  (queued_row name <$> filter (eligible db) (queue st))
  ++ queue_rows name (drained db st) ≡ₚ queue_rows name st.
Proof.
  unfold queue_rows. cbn. rewrite <- fmap_app.
  by rewrite (filter_app_complement (eligible db)).
Qed.

Lemma areAllRefsResolved_true refs db r :
  areAllRefsResolved refs db = Done true → r ∈ refs →
  has_row db (refTableName r) (refRowIndex r).
Proof.
  induction refs as [|r0 refs IH]; cbn; [by intros _ ?%not_elem_of_nil|].
  unfold refExists at 1.
  destruct (db !! sql_name (refTableName r0)) as [tb|] eqn:Htb; [|done]. cbn.
  case_bool_decide as Hrow; [|done].
  intros Hrest [->|Hin]%elem_of_cons; [by exists tb|by apply IH].
Qed.

Section Preservation.
Variable cfg : Seeder.
Variable stream : list StreamChunk.

Lemma Weak_alter w name f :
  Weak cfg stream w →
  (∀ st q, q ∈ queue (f st) → q ∈ queue st) →
  Weak cfg stream (set_tableStates (alter_assoc f name) w).
Proof.
  intros [] Hf. split; try done. cbn.
  apply Forall_alter_assoc; [done|]. cbn. intros v _ Hv q Hq.
  apply Hv, Hf, Hq.
Qed.

Lemma drained_queue_sub db st q :
  q ∈ queue (drained db st) → q ∈ queue st.
Proof. cbn. by intros [_ ?]%list_elem_of_filter. Qed.

Lemma push_all_queue_sub pushed st q :
  q ∈ queue (push_all pushed st) → q ∈ queue st.
Proof. by destruct (push_all_batch pushed st) as (_ & _ & -> & _). Qed.

(** A drain round keeps the invariant. *)
Lemma Strong_drained p w db name :
  Strong cfg stream p w → sqliteDb w = Some db →
  Strong cfg stream p (set_tableStates (alter_assoc (drained db) name) w).
Proof.
  intros HS Hdb.
  destruct (assoc name (tableStates w)) as [st|] eqn:Hst; cycle 1.
  { rewrite set_tableStates_id; [done|].
    clear HS. revert Hst. induction (tableStates w) as [|[k v] l IH]; cbn;
      [done|]. case_decide; [done|]. intros ?. by rewrite IH. }
  destruct (assoc_split _ _ _ Hst) as (l1 & l2 & Hts & Halt).
  destruct HS as [Hpre Hnd Hlen Hacc Hcnt Hopen Hready Hweak].
  assert (length (rowIndices st) = length (batch st)) as Hlen_st.
  { rewrite Hts in Hlen. by apply Forall_app in Hlen as [_ [? _]%Forall_cons]. }
  split; cbn; try done.
  - by rewrite alter_assoc_fst.
  - apply Forall_alter_assoc; [done|]. cbn. intros v _ Hv.
    rewrite !length_app, !length_fmap. lia.
  - rewrite Hacc. unfold batched, queued. cbn. rewrite Halt, Hts.
    rewrite !bind_app, !bind_cons. cbn -[drained].
    rewrite batch_rows_drained by done.
    rewrite <- (queue_rows_drained db name st). solve_Permutation.
  - intros t. specialize (Hcnt t). rewrite assoc_alter.
    case_decide; [|done]. by destruct (assoc t (tableStates w)).
  - intros db' x r Hdb' Hx Hr. simplify_eq.
    revert Hx. unfold batched. cbn. rewrite Halt.
    rewrite !bind_app, !bind_cons. cbn -[drained].
    rewrite batch_rows_drained by done.
    rewrite !elem_of_app.
    intros [?|[[?|Hx]|?]];
      [eapply Hready; [done| |done]; unfold batched; rewrite Hts,
         !bind_app, !bind_cons, !elem_of_app; cbn; tauto..| |].
    + apply list_elem_of_fmap in Hx as (q & -> & [Hel Hq]%list_elem_of_filter).
      destruct Hweak as [_ _ _ Hrefs]. rewrite Hts in Hrefs.
      apply Forall_app in Hrefs as [_ [Hrefs _]%Forall_cons].
      destruct (Hrefs q Hq) as [Hpend _].
      change (r ∈ extractRefs (chunk q)) in Hr. rewrite <- Hpend in Hr.
      eapply areAllRefsResolved_true; [|done].
      unfold eligible in Hel.
      by destruct (areAllRefsResolved (pendingRefs q) db) as [[]| |].
    + eapply Hready; [done| |done]. unfold batched.
      rewrite Hts, !bind_app, !bind_cons, !elem_of_app. tauto.
  - apply Weak_alter; [done|]. apply drained_queue_sub.
Qed.
End Preservation.

(** ** Draining keeps the invariant and shrinks the queues *)

Lemma total_queued_split w l1 name st l2 :
  tableStates w = l1 ++ (name, st) :: l2 →
  total_queued w
  = (sum_list_with (fun x => length (queue x.2)) l1
     + length (queue st)
     + sum_list_with (fun x => length (queue x.2)) l2)%nat.
Proof.
  intros Hts. unfold total_queued. rewrite Hts, sum_list_with_app. cbn. lia.
Qed.

Lemma filter_complement_length {A} (P : A → Prop) `{∀ x, Decision (P x)} l :
  (length (filter P l) + length (filter (fun x => ¬ P x) l) = length l)%nat.
Proof.
  rewrite <- length_app. by rewrite (filter_app_complement P l).
Qed.

Lemma total_queued_drained w db name st :
  assoc name (tableStates w) = Some st →
  let w' := set_tableStates (alter_assoc (drained db) name) w in
  (total_queued w' + length (filter (eligible db) (queue st))
   = total_queued w)%nat.
Proof.
  intros Hst. cbn zeta.
  destruct (assoc_split _ _ _ Hst) as (l1 & l2 & Hts & Halt).
  rewrite (total_queued_split w _ _ _ _ Hts).
  rewrite (total_queued_split _ l1 name (drained db st) l2) by apply Halt.
  cbn. pose proof (filter_complement_length (eligible db) (queue st)). lia.
Qed.

Lemma total_queued_push_all w pushed name :
  total_queued (set_tableStates (alter_assoc (push_all pushed) name) w)
  = total_queued w.
Proof.
  destruct (assoc name (tableStates w)) as [st|] eqn:Hst.
  - destruct (assoc_split _ _ _ Hst) as (l1 & l2 & Hts & Halt).
    rewrite (total_queued_split w _ _ _ _ Hts).
    rewrite (total_queued_split _ l1 name (push_all pushed st) l2)
      by apply Halt.
    by destruct (push_all_batch pushed st) as (_ & _ & -> & _).
  - rewrite set_tableStates_id; [done|].
    revert Hst. induction (tableStates w) as [|[k v] l IH]; cbn; [done|].
    case_decide; [done|]. intros ?. by rewrite IH.
Qed.

Section DrainInvariant.
Variable cfg : Seeder.
Variable stream : list StreamChunk.

Lemma Strong_hasRefs p w db :
  Strong cfg stream p w → sqliteDb w = Some db → hasRefs cfg.
Proof. intros HS Hdb. apply (db_open _ _ _ _ HS). by rewrite Hdb. Qed.

Lemma drain_table_Strong p w db name :
  Strong cfg stream p w → sqliteDb w = Some db →
  name ∈ (tableStates w).*1 →
  wp (drain_table db name)
     (fun moved w' =>
        Strong cfg stream p w' ∧ sqliteDb w' = Some db ∧
        (tableStates w').*1 = (tableStates w).*1 ∧
        (total_queued w' ≤ total_queued w)%nat ∧
        (moved = true → (total_queued w' < total_queued w)%nat))
     (aborted cfg stream) w.
Proof.
  intros HS Hdb Hname. eapply wp_mono; [apply drain_table_spec|..].
  - intros moved w' (st & Hst & -> & ->).
    split; [by apply Strong_drained|]. split; [done|].
    split; [apply alter_assoc_fst|].
    pose proof (total_queued_drained w db name st Hst) as Htq.
    cbn zeta in Htq. split; [lia|].
    intros Hne%bool_decide_eq_true.
    destruct (filter (eligible db) (queue st)); [done|].
    cbn [length] in Htq. lia.
  - intros e w' ([Hnone|[m ->]] & pushed & ->).
    { apply assoc_is_Some in Hname as [st Hst]. congruence. }
    split.
    + eexists. split; [done|]. constructor. by eapply Strong_hasRefs.
    + apply Weak_alter; [by destruct HS|]. apply push_all_queue_sub.
Qed.

Lemma drain_pass_Strong p db names w :
  Strong cfg stream p w → sqliteDb w = Some db →
  names ⊆ (tableStates w).*1 →
  wp (drain_pass db names)
     (fun made w' =>
        Strong cfg stream p w' ∧ sqliteDb w' = Some db ∧
        (tableStates w').*1 = (tableStates w).*1 ∧
        (total_queued w' ≤ total_queued w)%nat ∧
        (made = true → (total_queued w' < total_queued w)%nat))
     (aborted cfg stream) w.
Proof.
  revert w. induction names as [|n names IH]; intros w HS Hdb Hnames.
  - apply wp_ret. split; [done|]. split; [done|]. split; [done|].
    split; [lia|done].
  - cbn [drain_pass]. apply wp_bind.
    eapply wp_mono; [apply drain_table_Strong; [done..|]|..]; [|idtac|done].
    { apply Hnames. left. }
    intros moved w1 (HS1 & Hdb1 & Hn1 & Hle1 & Hlt1). apply wp_bind.
    eapply wp_mono; [apply IH; [done..|]|..]; [|idtac|done].
    { rewrite Hn1. intros x Hx. apply Hnames. by right. }
    intros made w2 (HS2 & Hdb2 & Hn2 & Hle2 & Hlt2). apply wp_ret.
    split; [done|]. split; [done|]. split; [congruence|]. split; [lia|].
    intros [->| ->]%orb_true_iff; [specialize (Hlt1 eq_refl)|
                                   specialize (Hlt2 eq_refl)]; lia.
Qed.

Lemma drain_loop_Strong p db fuel any w :
  Strong cfg stream p w → sqliteDb w = Some db → (total_queued w < fuel)%nat →
  wp (drain_loop db fuel any)
     (fun progress w' =>
        Strong cfg stream p w' ∧ sqliteDb w' = Some db ∧
        (tableStates w').*1 = (tableStates w).*1 ∧
        (total_queued w' ≤ total_queued w)%nat ∧
        (progress = any ∨
         progress = true ∧ (total_queued w' < total_queued w)%nat))
     (aborted cfg stream) w.
Proof.
  revert any w. induction fuel as [|fuel IH]; intros any w HS Hdb Hfuel;
    [lia|].
  cbn [drain_loop]. apply wp_bind, wp_gets, wp_bind.
  eapply wp_mono; [by apply drain_pass_Strong|..]; [|done].
  intros made w1 (HS1 & Hdb1 & Hn1 & Hle1 & Hlt1). destruct made.
  - specialize (Hlt1 eq_refl).
    eapply wp_mono; [apply (IH true); [done..|lia]|..]; [|done].
    intros progress w2 (HS2 & Hdb2 & Hn2 & Hle2 & Hp).
    split; [done|]. split; [done|]. split; [congruence|]. split; [lia|].
    right. split; [by destruct Hp as [->|[-> _]]|lia].
  - apply wp_ret. split; [done|]. split; [done|]. split; [done|].
    split; [lia|]. by left.
Qed.

Lemma drainAllQueues_Strong p fuel w :
  Strong cfg stream p w → hasRefs cfg → (total_queued w < fuel)%nat →
  wp (drainAllQueues fuel)
     (fun progress w' =>
        Strong cfg stream p w' ∧ sqliteDb w' = sqliteDb w ∧
        (tableStates w').*1 = (tableStates w).*1 ∧
        (total_queued w' ≤ total_queued w)%nat ∧
        (progress = true → (total_queued w' < total_queued w)%nat))
     (aborted cfg stream) w.
Proof.
  intros HS Hrefs Hfuel. unfold drainAllQueues. apply wp_bind, wp_the_db.
  destruct (proj2 (db_open _ _ _ _ HS) Hrefs) as [db Hdb]. rewrite Hdb.
  eapply wp_mono; [by apply drain_loop_Strong|..]; [|done].
  intros progress w' (HS' & Hdb' & Hn & Hle & Hp).
  split; [done|]. split; [done|]. split; [done|]. split; [done|].
  intros ->. by destruct Hp as [|[_ ?]].
Qed.
End DrainInvariant.

(** ** One flush *)

Lemma omapM_fuel {A B} (f : A → outcome B) l :
  (∀ x, f x ≠ OutOfFuel) → omapM f l ≠ OutOfFuel.
Proof.
  intros Hf. induction l as [|x l IH]; cbn; [done|].
  specialize (Hf x). destruct (f x); [|done..]. cbn.
  by destruct (omapM f l).
Qed.

Lemma stringify_fuel v : stringify v ≠ OutOfFuel.
Proof. by destruct v. Qed.

(** What resolving a reference can raise: an error of the database, or
    the complaint of devalue about a value that is no text. *)
Lemma resolveRef_result r db :
  (∃ v, resolveRef r db = Done v) ∨
  (∃ m, resolveRef r db = Throw (SqliteError m)) ∨
  resolveRef r db = Throw (JsError "Invalid input").
Proof.
  unfold resolveRef. destruct (db !! _) as [t|]; [|right; left; by eexists].
  destruct (find_column t _) as [[|name]|]; [| |right; left; by eexists];
    (destruct (rows t !! _) as [row|]; [|left; by eexists]).
  - case_decide; [|left; by eexists]. unfold parse_number.
    case_decide; cbn; [left; by eexists|by right; right].
  - case_decide; [|left; by eexists].
    destruct (assoc name row); [left; by eexists|by right; right].
Qed.

Lemma resolveRef_fuel r db : resolveRef r db ≠ OutOfFuel.
Proof.
  by destruct (resolveRef_result r db) as [[? ->]|[[? ->]| ->]].
Qed.

Lemma resolveChunk_fuel ch db : resolveChunk ch db ≠ OutOfFuel.
Proof.
  induction ch as [|[k [d|r|]] ch IH]; cbn; [done| | |done].
  - by destruct (resolveChunk ch db).
  - destruct db as [db|]; [|done].
    pose proof (resolveRef_fuel r db). destruct (resolveRef r db); [|done..].
    cbn. by destruct (resolveChunk ch (Some db)).
Qed.

Lemma store_ext_refl db : store_ext db db.
Proof. destruct db; cbn; [|done]. auto. Qed.

Lemma store_ext_trans db0 db1 db2 :
  store_ext db0 db1 → store_ext db1 db2 → store_ext db0 db2.
Proof. destruct db0, db1, db2; cbn; try done. auto. Qed.

Lemma has_row_insert db name t rowIndex row tb i :
  db !! sql_name name = Some tb →
  has_row (<[sql_name name :=
             {| created_as := created_as tb; columns := columns tb;
                rows := <[rowIndex := row]> (rows tb) |}]> db) t i
  ↔ has_row db t i ∨ (sql_name t = sql_name name ∧ i = rowIndex).
Proof.
  intros Htb. unfold has_row.
  destruct (decide (sql_name t = sql_name name)) as [->|Hne].
  - rewrite lookup_insert_eq. split.
    + intros (tb' & [= <-] & Hrow). cbn in Hrow.
      destruct (decide (i = rowIndex)) as [->|]; [by right|].
      rewrite lookup_insert_ne in Hrow by done. left. by exists tb.
    + intros [(tb' & ? & Hrow)|[_ ->]]; simplify_eq.
      * eexists. split; [done|]. cbn.
        destruct (decide (i = rowIndex)) as [->|];
          [by rewrite lookup_insert_eq|by rewrite lookup_insert_ne].
      * eexists. split; [done|]. cbn. by rewrite lookup_insert_eq.
  - rewrite lookup_insert_ne by done. naive_solver.
Qed.

Lemma omapM_stringify_throws (f : string → cell) cols e :
  omapM (fun col => stringify (f col)) cols = Throw e → e = DevalueError.
Proof.
  induction cols as [|c cols IH]; cbn; [done|].
  destruct (f c); cbn; [|by intros [= <-]|];
    by destruct (omapM _ cols) eqn:Hcols; cbn; [| |]; auto.
Qed.

(** Preparing the insert statement raises nothing but an error of the
    database. *)
Lemma prepare_insert_result db name cols :
  (∃ t columns, prepare_insert db name cols = Done (t, columns) ∧
                db !! sql_name name = Some t) ∨
  (∃ m, prepare_insert db name cols = Throw (SqliteError m)).
Proof.
  unfold prepare_insert. destruct (db !! sql_name name) as [t|];
    [|right; by eexists].
  assert ((∃ columns,
             omapM (fun c =>
                      match find_column t c with
                      | Some column => Done column
                      | None =>
                          Throw (SqliteError ("table " +:+ name
                                   +:+ " has no column named " +:+ c))
                      end) cols = Done columns) ∨
          (∃ m, omapM (fun c =>
                         match find_column t c with
                         | Some column => Done column
                         | None =>
                             Throw (SqliteError ("table " +:+ name
                                      +:+ " has no column named " +:+ c))
                         end) cols = Throw (SqliteError m))) as [[l ->]|[m ->]].
  { induction cols as [|c cols IH]; [left; by eexists|]. cbn.
    destruct (find_column t c); cbn; [|right; by eexists].
    destruct IH as [[l ->]|[m ->]]; cbn; [left|right]; by eexists. }
  - left. by exists t, l.
  - right. by eexists.
Qed.

Lemma key_value_result rowIndex assigned :
  (∃ key, key_value rowIndex assigned = Done key) ∨
  (∃ m, key_value rowIndex assigned = Throw (SqliteError m)).
Proof.
  unfold key_value. destruct (last _) as [[c v]|]; [|left; by eexists].
  destruct (as_integer v); [left|right]; by eexists.
Qed.

Section Flush.
Variable cfg : Seeder.

Lemma store_insert_recording name cols rowIndex values w0 w :
  recording w0 w →
  is_Some (sqliteDb w0) →
  wp (store_insert name cols rowIndex values)
     (fun _ => recording w0)
     (fun e w' => (∃ m, e = Some (SqliteError m)) ∧ recording w0 w') w.
Proof.
  intros (Ht & Hts & Hri & Hext) [db0 Hdb0]. unfold store_insert.
  apply wp_bind, wp_the_db. destruct (sqliteDb w) as [db|] eqn:Hdb;
    [|by rewrite Hdb0 in Hext].
  assert (recording w0 w) as Hrec by (by rewrite <- Hdb in Hext).
  apply wp_bind, wp_lift.
  destruct (prepare_insert_result db name cols)
    as [(tb & columns & -> & Htb)|[m ->]]; [|split; [by eexists|done]].
  cbn [fst snd]. apply wp_bind, wp_lift.
  destruct (key_value_result rowIndex (zip columns values))
    as [[key ->]|[m ->]]; [|split; [by eexists|done]].
  destruct (rows tb !! _);
    [apply wp_throw; split; [by eexists|done]|].
  apply wp_modify. split; [done|]. split; [done|]. split; [done|]. cbn.
  eapply store_ext_trans; [done|]. cbn.
  intros t i. rewrite has_row_insert by done. by left.
Qed.

Lemma prepare_store_recording name cols w0 w :
  recording w0 w →
  is_Some (sqliteDb w0) →
  wp (prepare_store cfg name cols)
     (fun _ w' => w' = w)
     (fun e w' => (∃ m, e = Some (SqliteError m)) ∧ w' = w) w.
Proof.
  intros (Ht & Hts & Hri & Hext) [db0 Hdb0]. unfold prepare_store.
  destruct (dialect cfg); [|by apply wp_ret].
  apply wp_bind, wp_the_db. destruct (sqliteDb w) as [db|] eqn:Hdb;
    [|by rewrite Hdb0 in Hext].
  apply wp_bind, wp_lift.
  destruct (prepare_insert_result db name cols)
    as [(tb & columns & -> & Htb)|[m ->]]; [|split; [by eexists|done]].
  by apply wp_ret.
Qed.

Lemma record_row_recording name cols st i w0 w :
  recording w0 w → is_Some (sqliteDb w0) →
  wp (record_row cfg name cols st i)
     (fun _ => recording w0)
     (fun e w' =>
        (∃ err, e = Some err ∧
           (err = DevalueError ∨ ∃ m, err = SqliteError m)) ∧
        recording w0 w') w.
Proof.
  intros Hrec Hdb. unfold record_row.
  destruct (batch st !! i) as [ch|] eqn:Hch; [|by apply wp_ret].
  assert (omapM (fun col => stringify (chunk_get ch col)) cols ≠ OutOfFuel)
    as Hfuel by (apply omapM_fuel; intros; apply stringify_fuel).
  assert (wp (let* values :=
                lift (omapM (fun col => stringify (chunk_get ch col))
                            cols) in
              store_insert name cols (rowIndices st !! i) values)
             (fun _ => recording w0)
             (fun e w' =>
                (∃ err, e = Some err ∧
                   (err = DevalueError ∨ ∃ m, err = SqliteError m)) ∧
                recording w0 w') w) as Hrun.
  { apply wp_bind, wp_lift.
    destruct (omapM _ cols) as [values|e|] eqn:Hvalues; [| |done].
    - eapply wp_mono; [apply store_insert_recording; [done|done]|..];
        [done|].
      intros e w' [[m ->] Hw']. split; [|done].
      eexists. split; [done|]. right. by eexists.
    - apply omapM_stringify_throws in Hvalues as ->.
      split; [|done]. eexists. split; [done|]. by left. }
  destruct (rowIndices st !! i) as [ri|] eqn:Hri; [done|].
  destruct (dialect cfg); [done|by apply wp_ret].
Qed.

Lemma flush_spec name w :
  wp (flush cfg name) (fun _ => flushed name w)
     (fun e w' => (∃ err, e = Some err ∧ flush_error cfg name w err) ∧
                  flush_aborted name w w') w.
Proof.
  unfold flush. apply wp_bind, wp_get_table.
  destruct (assoc name (tableStates w)) as [st|] eqn:Hst;
    [|split; [eexists; split; [done|by left]|by left]].
  case_bool_decide as Hlen.
  { apply wp_ret. exists st. split; [done|]. left.
    split; [by destruct (batch st)|done]. }
  assert (batch st ≠ []) as Hne by (by intros Hb; rewrite Hb in Hlen).
  case_bool_decide;
    [|apply wp_throw; split;
      [eexists; split; [done|right; left; by split]|by left]].
  apply wp_bind, wp_gets, wp_bind, wp_lift.
  pose proof (omapM_fuel (fun ch => resolveChunk ch (sqliteDb w)) (batch st)
                (fun ch => resolveChunk_fuel ch _)) as Hfuel.
  destruct (omapM _ (batch st)) as [values|e|] eqn:Hvalues;
    [|split; [eexists; split; [done|]; right; right; left; by exists st
             |by left]|done].
  apply wp_bind. unfold insert_values, wp at 1.
  destruct (accepts cfg (target w) name values);
    [|split; [eexists; split; [done|]; by right; right; right; left
             |by left]].
  set (w1 := set_target _ w).
  assert (recording w1 w1) as Hrec
    by (repeat split; apply store_ext_refl).
  assert (∀ w2, recording w1 w2 → inserted_batch name st w w2) as Hins.
  { intros w2 (Ht & Hts & Hri & Hext). exists values.
    split; [done|]. by rewrite Ht, Hts, Hri. }
  apply wp_bind.
  eapply (wp_mono _ (fun _ => recording w1)
            _ (fun e w' =>
                 (∃ err, e = Some err ∧ flush_error cfg name w err) ∧
                 recording w1 w')).
  - destruct (sqliteDb w) as [db|] eqn:Hdb; [|by apply wp_ret].
    destruct (assoc name (refsConfig cfg)) as [cols|]; [|by apply wp_ret].
    case_bool_decide; [|by apply wp_ret].
    apply wp_bind.
    eapply wp_mono;
      [apply (prepare_store_recording name cols w1 w1); [done|by eexists]|..].
    2: { intros e w' [[m ->] ->]. split; [|done]. eexists. split; [done|].
         do 4 right. split; [by eexists|right; by eexists]. }
    intros [] w' ->.
    eapply wp_mono; [apply wp_forM_ with
      (I := recording w1)
      (E := fun e w' =>
              (∃ err, e = Some err ∧ flush_error cfg name w err) ∧
              recording w1 w')|..];
      [|done..].
    intros i w2 _ Hw2.
    eapply wp_mono; [apply record_row_recording; [done|by eexists]|done|].
    intros e w' [He Hw']. split; [|done].
    destruct He as (err & -> & [->|[m ->]]); eexists;
      (split; [done|]).
    + do 4 right. split; [by eexists|by left].
    + do 4 right. split; [by eexists|right; by eexists].
  - intros [] w2 Hw2. apply wp_modify. exists st. split; [done|]. right.
    split; [done|]. exists w2. split; [by apply Hins|done].
  - intros e w2 [He Hw2]. split; [done|]. right. exists st.
    split; [done|]. by apply Hins.
Qed.
End Flush.

(** ** A flush keeps the invariant *)

Lemma elem_of_zip_r_ex {A B} (l1 : list A) (l2 : list B) y :
  length l1 = length l2 → y ∈ l2 → ∃ x, (x, y) ∈ zip l1 l2.
Proof.
  revert l2. induction l1 as [|a l1 IH]; intros [|b l2] Hlen Hy;
    simplify_eq/=; [by apply not_elem_of_nil in Hy|].
  apply elem_of_cons in Hy as [->|Hy].
  - exists a. left.
  - destruct (IH l2 Hlen Hy) as [x Hx]. exists x. by right.
Qed.

Lemma elem_of_zip_l_ex {A B} (l1 : list A) (l2 : list B) x :
  length l1 = length l2 → x ∈ l1 → ∃ y, (x, y) ∈ zip l1 l2.
Proof.
  revert l2. induction l1 as [|a l1 IH]; intros [|b l2] Hlen Hx;
    simplify_eq/=; [by apply not_elem_of_nil in Hx|].
  apply elem_of_cons in Hx as [->|Hx].
  - exists b. left.
  - destruct (IH l2 Hlen Hx) as [y Hy]. exists y. by right.
Qed.

Lemma elem_of_zip_fst {A B} (l1 : list A) (l2 : list B) x y :
  (x, y) ∈ zip l1 l2 → x ∈ l1 ∧ y ∈ l2.
Proof.
  intros H. split; [by eapply elem_of_zip_l|by eapply elem_of_zip_r].
Qed.

Lemma batch_rows_batched w name st x :
  assoc name (tableStates w) = Some st → x ∈ batch_rows name st →
  x ∈ batched w.
Proof.
  intros Hst%assoc_Some_elem_of Hx. unfold batched.
  apply list_elem_of_bind. by exists (name, st).
Qed.

Lemma omapM_each {A B} (f : A → outcome B) l ys x :
  omapM f l = Done ys → x ∈ l → ∃ y, f x = Done y.
Proof.
  revert ys. induction l as [|a l IH]; intros ys;
    [by intros _ ?%not_elem_of_nil|].
  cbn. destruct (f a) as [y| |] eqn:Hy; [|done..]. cbn.
  destruct (omapM f l) as [ys'| |]; [|done..].
  intros _ [->|Hx]%elem_of_cons; [by exists y|by eapply IH].
Qed.

Lemma resolveChunk_None ch row :
  resolveChunk ch None = Done row → extractRefs ch = [].
Proof.
  revert row. induction ch as [|[k [d|r|]] ch IH]; intros row; cbn;
    [done| |done|by apply IH].
  destruct (resolveChunk ch None) as [row'| |]; [|done..].
  intros _. by eapply IH.
Qed.

Lemma resolveChunk_throws ch db e :
  resolveChunk ch db = Throw e →
  (db = None ∧ ∃ r, r ∈ extractRefs ch ∧
     e = JsError ("Cannot resolve ref without SQLite database: "
                  +:+ ref_path r)) ∨
  (is_Some db ∧ ((∃ m, e = SqliteError m) ∨ e = JsError "Invalid input")).
Proof.
  induction ch as [|[k [d|r|]] ch IH]; cbn; [done| | |].
  - destruct (resolveChunk ch db); cbn; [done| |done].
    intros [= <-]. destruct IH as [(-> & r & Hr & ->)|?]; [done| |by right].
    left. split; [done|]. by exists r.
  - destruct db as [db|]; cycle 1.
    { intros [= <-]. left. split; [done|]. exists r. split; [left|done]. }
    destruct (resolveRef_result r db) as [[v ->]|[[m ->]| ->]]; cbn;
      [|intros [= <-]; right; split; [by eexists|left; by eexists]
       |intros [= <-]; right; split; [by eexists|by right]].
    destruct (resolveChunk ch (Some db)); cbn; [done| |done].
    intros [= <-]. by destruct IH as [[? _]|?]; [| |right].
  - intros Hch. destruct (IH Hch) as [(-> & r & Hr & ->)|?]; [|by right].
    left. split; [done|]. by exists r.
Qed.

Lemma omapM_resolve_throws chunks db e :
  omapM (fun ch => resolveChunk ch db) chunks = Throw e →
  (db = None ∧ ∃ ch r, ch ∈ chunks ∧ r ∈ extractRefs ch ∧
     e = JsError ("Cannot resolve ref without SQLite database: "
                  +:+ ref_path r)) ∨
  (is_Some db ∧ ((∃ m, e = SqliteError m) ∨ e = JsError "Invalid input")).
Proof.
  induction chunks as [|ch chunks IH]; cbn; [done|].
  destruct (resolveChunk ch db) as [row|e'|] eqn:Hch; cbn; [| |done].
  - destruct (omapM _ chunks); cbn; [done| |done].
    intros [= <-]. destruct IH as [(-> & ch' & r & ? & ? & ->)|?];
      [done| |by right].
    left. split; [done|]. exists ch', r. split; [by right|done].
  - intros [= <-].
    destruct (resolveChunk_throws _ _ _ Hch) as [(-> & r & ? & ->)|?];
      [|by right].
    left. split; [done|]. exists ch, r. split; [left|done].
Qed.

Lemma row_ids_chunk stream t i ch :
  (t, i, ch) ∈ row_ids stream → ∃ c, c ∈ stream ∧ chunkData c = ch.
Proof.
  unfold row_ids. generalize (@nil StreamChunk).
  induction stream as [|c stream IH]; intros seen; cbn;
    [by intros ?%not_elem_of_nil|].
  intros [[= _ _ ->]|Hin]%elem_of_cons.
  - exists c. split; [left|done].
  - destruct (IH _ Hin) as (c' & ? & ?). exists c'. split; [by right|done].
Qed.

Section FlushInvariant.
Variable cfg : Seeder.
Variable stream : list StreamChunk.

(** The trace stays as it should when a batch goes to the target. *)
Lemma Weak_new_call p w name st values w1 :
  Strong cfg stream p w → assoc name (tableStates w) = Some st →
  omapM (fun ch => resolveChunk ch (sqliteDb w)) (batch st) = Done values →
  target w1 = target w ++ [flush_call name st values] →
  Forall (fun x => ∀ q, q ∈ queue x.2 →
            pendingRefs q = extractRefs (chunk q) ∧ pendingRefs q ≠ [] ∧
            hasRefs cfg)
         (tableStates w1) →
  Weak cfg stream w1.
Proof.
  intros [Hpre Hnd Hlen Hacc Hcnt Hopen Hready
            [Hsound Hlens Hres Hrefs]] Hst Hvalues Htarget Hrefs1.
  assert (length (rowIndices st) = length (batch st)) as Hlen_st.
  { apply assoc_Some_elem_of in Hst.
    by apply (proj1 (Forall_forall _ _) Hlen (name, st)). }
  split; [| | |done].
  - intros x. unfold logged. rewrite Htarget, bind_app, elem_of_app.
    intros [Hx|Hx]; [by apply Hsound|].
    cbn in Hx. rewrite app_nil_r in Hx.
    eapply row_ids_prefix; [done|]. rewrite Hacc, !elem_of_app.
    right; left. by eapply batch_rows_batched.
  - rewrite Htarget. apply Forall_app. split; [done|].
    by constructor.
  - rewrite Htarget. apply Forall_app. split; [done|].
    constructor; [|done]. by exists (sqliteDb w).
Qed.

Lemma Weak_inserted p w name st w1 :
  Strong cfg stream p w → assoc name (tableStates w) = Some st →
  inserted_batch name st w w1 → Weak cfg stream w1.
Proof.
  intros HS Hst (values & Hvalues & Htarget & Hts & _).
  eapply Weak_new_call; [done..|]. rewrite Hts.
  by destruct HS as [? ? ? ? ? ? ? []].
Qed.

Lemma Strong_flushed p w name w' :
  Strong cfg stream p w → flushed name w w' → Strong cfg stream p w'.
Proof.
  intros HS (st & Hst & [[_ ->]|(Hne & w1 & Hins & ->)]); [done|].
  pose proof (Weak_inserted _ _ _ _ _ HS Hst Hins) as Hweak1.
  destruct Hins as (values & Hvalues & Htarget & Hts & Hri & Hext).
  destruct (assoc_split _ _ _ Hst) as (l1 & l2 & Hsplit & Halt).
  destruct HS as [Hpre Hnd Hlen Hacc Hcnt Hopen Hready Hweak].
  split; cbn; try done.
  - by rewrite alter_assoc_fst, Hts.
  - rewrite Hts. apply Forall_alter_assoc; [done|]. done.
  - rewrite Hacc. unfold logged, batched, queued. cbn.
    rewrite Htarget, Hts, Halt, Hsplit.
    rewrite !bind_app, !bind_cons. cbn.
    rewrite app_nil_r.
    change (call_rows (flush_call name st values)) with (batch_rows name st).
    change (batch_rows name (clear_batch st)) with (@nil RowId).
    change (queue_rows name (clear_batch st)) with (queue_rows name st).
    solve_Permutation.
  - intros t. specialize (Hcnt t). rewrite Hts, Hri, assoc_alter.
    case_decide; [|done]. by destruct (assoc t (tableStates w)).
  - rewrite <- Hopen. unfold store_ext in Hext.
    destruct (sqliteDb w), (sqliteDb w1); try done;
      split; intros []; by eexists.
  - intros db1 x r Hdb1 Hx Hr.
    unfold store_ext in Hext. rewrite Hdb1 in Hext.
    destruct (sqliteDb w) as [db|] eqn:Hdb; [|done].
    apply Hext. eapply Hready; [done| |done].
    revert Hx. unfold batched; cbn. rewrite Hts, Halt, Hsplit.
    rewrite !bind_app, !bind_cons, !elem_of_app. cbn.
    change (batch_rows name (clear_batch st)) with (@nil RowId).
    rewrite elem_of_nil. tauto.
  - destruct Hweak1 as [? ? ? Hq]. split; try done. cbn.
    apply Forall_alter_assoc; [done|]. done.
Qed.

(** A flush of a table that exists raises only what [Raised] lists. *)
Lemma flush_error_Raised p name w e :
  Strong cfg stream p w → is_Some (assoc name (tableStates w)) →
  flush_error cfg name w e → Raised cfg stream e.
Proof.
  intros HS [st Hst] Herr.
  assert (is_Some (sqliteDb w) → hasRefs cfg) as Hrefs
    by apply (db_open _ _ _ _ HS).
  destruct Herr as [?|[[? ->]|[(st' & ? & Hthrow)|[->|[Hdb He]]]]].
  - congruence.
  - by constructor.
  - simplify_eq. apply omapM_resolve_throws in Hthrow
      as [(Hdb & ch & r & Hch & Hr & ->)|[Hdb [[m ->]| ->]]].
    + constructor.
      * intros Hh. apply (db_open _ _ _ _ HS) in Hh as [? ?]. congruence.
      * assert (length (rowIndices st) = length (batch st)) as Hlen.
        { apply assoc_Some_elem_of in Hst.
          by apply (proj1 (Forall_forall _ _)
                      (batch_lengths _ _ _ _ HS) (name, st)). }
        destruct (elem_of_zip_r_ex (rowIndices st) (batch st) ch Hlen Hch)
          as [i Hi].
        assert ((name, i, ch) ∈ row_ids stream) as Hin.
        { eapply row_ids_prefix; [apply (consumed _ _ _ _ HS)|].
          rewrite (accounted _ _ _ _ HS), !elem_of_app. right; left.
          eapply batch_rows_batched; [done|]. unfold batch_rows.
          apply list_elem_of_fmap. by exists (i, ch). }
        apply row_ids_chunk in Hin as (c & Hc & <-).
        unfold stream_refs. apply list_elem_of_bind. by exists c.
    + constructor. by apply Hrefs.
    + constructor. by apply Hrefs.
  - constructor.
  - destruct He as [->|[m ->]]; constructor; by apply Hrefs.
Qed.

Lemma flush_Strong p name w :
  Strong cfg stream p w → is_Some (assoc name (tableStates w)) →
  wp (flush cfg name)
     (fun _ w' => Strong cfg stream p w' ∧ flushed name w w')
     (aborted cfg stream) w.
Proof.
  intros HS Hname. eapply wp_mono; [apply flush_spec|..].
  - intros [] w' Hfl. split; [by eapply Strong_flushed|done].
  - intros e w' ((err & -> & Herr) & Hab). split.
    + exists err. split; [done|]. by eapply flush_error_Raised.
    + destruct Hab as [->|(st & Hst & Hins)];
        [by destruct HS|by eapply Weak_inserted].
Qed.
End FlushInvariant.

(** ** Taking a chunk from the stream *)

Lemma assoc_app {A} k (l1 l2 : list (string * A)) :
  assoc k (l1 ++ l2)
  = match assoc k l1 with Some v => Some v | None => assoc k l2 end.
Proof.
  induction l1 as [|[k0 v0] l1 IH]; cbn; [done|]. by case_decide.
Qed.

Lemma assoc_None_not_elem {A} k (l : list (string * A)) :
  assoc k l = None → k ∉ l.*1.
Proof.
  intros Hk Hin. apply assoc_is_Some in Hin as [v Hv]. congruence.
Qed.

Lemma batch_rows_push name c i st :
  length (rowIndices st) = length (batch st) →
  batch_rows name (push_batch c i st) = batch_rows name st ++ [(name, i, c)].
Proof.
  intros Hlen. unfold batch_rows. cbn. by rewrite zip_snoc, fmap_app.
Qed.

Lemma total_queued_alter w name st f :
  assoc name (tableStates w) = Some st →
  (total_queued (set_tableStates (alter_assoc f name) w) + length (queue st)
   = total_queued w + length (queue (f st)))%nat.
Proof.
  intros Hst. destruct (assoc_split _ _ _ Hst) as (l1 & l2 & Hts & Halt).
  rewrite (total_queued_split w _ _ _ _ Hts).
  rewrite (total_queued_split _ l1 name (f st) l2) by apply Halt. lia.
Qed.

Section Enqueue.
Variable cfg : Seeder.
Variable stream : list StreamChunk.

Lemma Weak_set_rowIndexByTable f w :
  Weak cfg stream w → Weak cfg stream (set_rowIndexByTable f w).
Proof. by intros []. Qed.

Lemma Strong_init p w name chunkData :
  Strong cfg stream p w → assoc name (tableStates w) = None →
  wp (init_table cfg name chunkData)
     (fun _ w' => Strong cfg stream p w' ∧
                  is_Some (assoc name (tableStates w')) ∧
                  total_queued w' = total_queued w)
     (aborted cfg stream) w.
Proof.
  intros [Hpre Hnd Hlen Hacc Hcnt Hopen Hready
            [Hsound Hlens Hres Hrefs]] Hname.
  unfold init_table. apply wp_bind, wp_modify, wp_modify.
  split; [|split; [cbn; rewrite assoc_app, Hname; cbn;
                   rewrite decide_True by done; by eexists|
                   unfold total_queued; cbn;
                   rewrite sum_list_with_app; cbn; lia]].
  split; cbn.
  - done.
  - rewrite fmap_app. apply NoDup_app. split; [done|]. split.
    + intros x Hx [->|[]%not_elem_of_nil]%elem_of_cons.
      by apply assoc_None_not_elem in Hname.
    + apply NoDup_singleton.
  - apply Forall_app. split; [done|]. by constructor.
  - rewrite Hacc. unfold batched, queued. cbn.
    rewrite !bind_app. cbn. by rewrite !app_nil_r.
  - intros t. specialize (Hcnt t). rewrite assoc_app.
    destruct (assoc t (tableStates w)) eqn:Ht.
    + rewrite lookup_insert_ne; [done|]. intros ->. congruence.
    + cbn. case_decide as Heq; [|by rewrite Hcnt].
      subst. by rewrite lookup_insert_eq, Hcnt.
  - done.
  - intros db x r Hdb Hx. apply (Hready db x r Hdb).
    revert Hx. unfold batched. cbn. rewrite bind_app. cbn.
    by rewrite app_nil_r.
  - split; try done. cbn. apply Forall_app. split; [done|].
    constructor; [|done]. cbn. by intros q ?%not_elem_of_nil.
Qed.

(** The state once the row counter of [c]'s table has been read and
    incremented and [f] has put the chunk on the batch ([bnew]) or on the
    queue ([qnew]). *)
Lemma Strong_placed p w c st i f bnew qnew :
  Strong cfg stream p w → (p ++ [c]) `prefix_of` stream →
  assoc (tag c) (tableStates w) = Some st →
  rowIndexByTable w !! tag c = Some i →
  length (rowIndices (f st)) = length (batch (f st)) →
  batch_rows (tag c) (f st) = batch_rows (tag c) st ++ bnew →
  queue (f st) = queue st ++ qnew →
  bnew ++ (queued_row (tag c) <$> qnew) = [(tag c, i, chunkData c)] →
  (∀ db r, sqliteDb w = Some db → bnew ≠ [] →
           r ∈ extractRefs (chunkData c) →
           has_row db (refTableName r) (refRowIndex r)) →
  (∀ q, q ∈ qnew →
        pendingRefs q = extractRefs (chunk q) ∧ pendingRefs q ≠ [] ∧
        hasRefs cfg) →
  Strong cfg stream (p ++ [c])
    (set_tableStates (alter_assoc f (tag c))
       (set_rowIndexByTable <[tag c := i + 1]> w)).
Proof.
  intros [Hpre Hnd Hlen Hacc Hcnt Hopen Hready
            [Hsound Hlens Hres Hrefs]] Hpre' Hst Hi Hflen Hb Hq Hnew
         Hfready Hfq.
  destruct (assoc_split _ _ _ Hst) as (l1 & l2 & Hts & Halt).
  assert (i = occurrences (tag c) p) as Hocc.
  { specialize (Hcnt (tag c)). rewrite Hst in Hcnt. congruence. }
  split; cbn.
  - done.
  - by rewrite alter_assoc_fst.
  - apply Forall_alter_assoc; [done|]. intros v Hv _. cbn. by simplify_eq.
  - rewrite row_ids_snoc, Hacc, <- Hocc, <- Hnew.
    unfold batched, queued. cbn.
    rewrite Halt, Hts, !bind_app, !bind_cons. cbn.
    assert (queue_rows (tag c) (f st)
            = queue_rows (tag c) st ++ (queued_row (tag c) <$> qnew)) as ->
      by (unfold queue_rows; by rewrite Hq, fmap_app).
    rewrite Hb. solve_Permutation.
  - intros t. specialize (Hcnt t). rewrite assoc_alter.
    rewrite occurrences_app, occurrences_singleton.
    destruct (decide (t = tag c)) as [->|Hne].
    + rewrite Hst. cbn. rewrite lookup_insert_eq, decide_True by done.
      by rewrite Hocc.
    + rewrite decide_False by done.
      destruct (assoc t (tableStates w));
        [rewrite lookup_insert_ne by done|]; rewrite Hcnt; f_equal; lia.
  - done.
  - intros db x r Hdb Hx Hr. revert Hx. unfold batched. cbn.
    rewrite Halt, !bind_app, !bind_cons, !elem_of_app. cbn.
    rewrite Hb, elem_of_app.
    assert (∀ y, y ∈ tableStates w ≫= (fun x => batch_rows x.1 x.2) →
                 r ∈ extractRefs y.2 →
                 has_row db (refTableName r) (refRowIndex r)) as Hold
      by (intros y Hy; by apply Hready).
    rewrite Hts, !bind_app, !bind_cons in Hold. cbn in Hold.
    intros [Hx|[[Hx|Hx]|Hx]].
    + apply (Hold x); [|done]. rewrite !elem_of_app. tauto.
    + apply (Hold x); [|done]. rewrite !elem_of_app. tauto.
    + destruct bnew as [|b [|]]; [by apply not_elem_of_nil in Hx| |done].
      destruct qnew; [|done]. cbn in Hnew. simplify_eq.
      apply list_elem_of_singleton in Hx as ->. by eapply Hfready.
    + apply (Hold x); [|done]. rewrite !elem_of_app. tauto.
  - split; try done. cbn. apply Forall_alter_assoc; [done|].
    cbn. intros v Hv Hold q. simplify_eq. rewrite Hq, elem_of_app.
    intros [?|?]; [by apply Hold|by apply Hfq].
Qed.

Lemma next_row_index_run name (Q : Z → World → Prop) E w :
  wp (next_row_index name) Q E w ↔
  match rowIndexByTable w !! name with
  | Some i => Q i (set_rowIndexByTable <[name := i + 1]> w)
  | None => E (Some (TypeError "rowIndex is undefined")) w
  end.
Proof. unfold wp, next_row_index. by destruct (_ !! _). Qed.

(** Taking chunk [c] keeps the invariant, one chunk further. *)
Lemma enqueue_Strong p c w :
  Strong cfg stream p w → (p ++ [c]) `prefix_of` stream →
  wp (enqueue cfg c)
     (fun _ w' => Strong cfg stream (p ++ [c]) w' ∧
                  is_Some (assoc (tag c) (tableStates w')) ∧
                  (total_queued w' ≤ S (total_queued w))%nat)
     (aborted cfg stream) w.
Proof.
  intros HS Hpre. unfold enqueue.
  apply wp_bind, wp_gets, wp_bind.
  eapply (wp_mono _ (fun _ w1 => Strong cfg stream p w1 ∧
                       is_Some (assoc (tag c) (tableStates w1)) ∧
                       total_queued w1 = total_queued w)).
  { case_bool_decide as Hknown.
    - by apply wp_ret.
    - eapply wp_mono; [apply Strong_init; [done|]|..]; [|done..].
      by apply eq_None_not_Some. }
  2: done.
  intros [] w1 (HS1 & [st Hst] & Htq).
  apply wp_bind, wp_get_table. rewrite Hst.
  apply wp_bind, next_row_index_run.
  pose proof (counters _ _ _ _ HS1 (tag c)) as Hcnt. rewrite Hst in Hcnt.
  rewrite Hcnt.
  pose proof (batch_lengths _ _ _ _ HS1) as Hlen.
  assert (length (rowIndices st) = length (batch st)) as Hlen_st.
  { apply assoc_Some_elem_of in Hst.
    by apply (proj1 (Forall_forall _ _) Hlen (tag c, st)). }
  set (i := occurrences (tag c) p).
  assert (∀ w2, w2 = set_rowIndexByTable <[tag c := i + 1]> w1 →
            (∀ db r, sqliteDb w1 = Some db →
                     r ∈ extractRefs (chunkData c) →
                     has_row db (refTableName r) (refRowIndex r)) →
            wp (modify_table (tag c) (push_batch (chunkData c) i))
               (fun _ w' => Strong cfg stream (p ++ [c]) w' ∧
                  is_Some (assoc (tag c) (tableStates w')) ∧
                  (total_queued w' ≤ S (total_queued w))%nat)
               (aborted cfg stream) w2) as Hpush.
  { intros w2 -> Href. apply wp_modify. split; [|split].
    - eapply (Strong_placed p w1 c st i _ [(tag c, i, chunkData c)] []);
        try done.
      + cbn. rewrite !length_app. cbn. lia.
      + by apply batch_rows_push.
      + cbn. by rewrite app_nil_r.
      + intros db r Hdb _. by apply Href.
      + by intros q ?%not_elem_of_nil.
    - cbn. rewrite assoc_alter, decide_True, Hst by done. by eexists.
    - pose proof (total_queued_alter
                    (set_rowIndexByTable <[tag c := i + 1]> w1) (tag c) st
                    (push_batch (chunkData c) i) Hst) as Hq.
      change (queue (push_batch _ _ st)) with (queue st) in Hq.
      change (total_queued (set_rowIndexByTable _ w1))
        with (total_queued w1) in Hq. lia. }
  destruct (negb (hasRefs cfg)) eqn:Hrefs; cbn [orb].
  { apply Hpush; [done|]. intros db r Hdb.
    pose proof (proj1 (db_open _ _ _ _ HS1)) as Hopen.
    rewrite Hdb in Hopen. destruct (hasRefs cfg); [done|].
    by destruct Hopen. }
  case_bool_decide as Hnorefs.
  { apply Hpush; [done|]. intros db r Hdb.
    destruct (extractRefs (chunkData c)); [|done].
    by intros ?%not_elem_of_nil. }
  assert (hasRefs cfg) as Hhas by (by destruct (hasRefs cfg)).
  apply wp_bind, wp_the_db. cbn.
  destruct (proj2 (db_open _ _ _ _ HS1) Hhas) as [db Hdb]. rewrite Hdb.
  apply wp_bind, wp_lift.
  pose proof (areAllRefsResolved_fuel (extractRefs (chunkData c)) db).
  destruct (areAllRefsResolved _ db) as [[|]|e|] eqn:Hres; [| | |done].
  - apply Hpush; [done|]. intros db' r Hdb'. rewrite Hdb in Hdb'.
    injection Hdb' as <-. by apply areAllRefsResolved_true.
  - apply wp_modify. split; [|split].
    + eapply (Strong_placed p w1 c st i _ []
                [{| chunk := chunkData c; rowIndex := i;
                    pendingRefs := extractRefs (chunkData c) |}]);
        try done.
      * by rewrite app_nil_r.
      * intros q ->%list_elem_of_singleton. cbn. split; [done|].
        split; [by destruct (extractRefs (chunkData c))|done].
    + cbn. rewrite assoc_alter, decide_True, Hst by done. by eexists.
    + pose proof (total_queued_alter
                    (set_rowIndexByTable <[tag c := i + 1]> w1) (tag c) st
                    (push_queue {| chunk := chunkData c; rowIndex := i;
                       pendingRefs := extractRefs (chunkData c) |}) Hst)
        as Hq.
      change (queue (push_queue ?q st)) with (queue st ++ [q]) in Hq.
      rewrite length_app in Hq. cbn [length] in Hq.
      change (total_queued (set_rowIndexByTable _ w1))
        with (total_queued w1) in Hq. lia.
  - apply areAllRefsResolved_throws in Hres as [m ->]. split.
    + eexists. split; [done|]. by constructor.
    + apply Weak_set_rowIndexByTable. by destruct HS1.
Qed.
End Enqueue.

(** ** The loops of [execute] *)

Lemma total_queued_length w : total_queued w = length (queued w).
Proof.
  unfold total_queued, queued.
  induction (tableStates w) as [|[n st] l IH]; [done|].
  cbn. rewrite length_app, IH. unfold queue_rows. by rewrite length_fmap.
Qed.

Lemma flushed_effect name w w' :
  flushed name w w' →
  flush_effect name w w' ∧ total_queued w' = total_queued w.
Proof.
  intros (st & Hst & [[Hb ->]|(Hne & w1 & Hins & ->)]).
  - split; [|done]. split; [done|]. intros n st' Hst'. exists st'.
    split; [done|]. split; [done|]. case_decide; [|done]. by simplify_eq.
  - destruct Hins as (values & _ & _ & Hts & _). split; [split|].
    + cbn. by rewrite alter_assoc_fst, Hts.
    + intros n st'. cbn. rewrite Hts, assoc_alter.
      case_decide; subst.
      * rewrite Hst. cbn. intros [= <-]. by exists st.
      * intros Hn. by exists st'.
    + assert (assoc name (tableStates w1) = Some st) as Hst1
        by (by rewrite Hts).
      pose proof (total_queued_alter w1 name st clear_batch Hst1) as Hq.
      change (queue (clear_batch st)) with (queue st) in Hq.
      unfold total_queued at 2 in Hq. rewrite Hts in Hq.
      fold (total_queued w) in Hq. lia.
Qed.

Lemma elem_of_assoc {A} k (v : A) (l : list (string * A)) :
  NoDup l.*1 → (k, v) ∈ l → assoc k l = Some v.
Proof.
  induction l as [|[k0 v0] l IH]; [by intros _ ?%not_elem_of_nil|].
  cbn. intros [Hk0 Hnd]%NoDup_cons [[= -> ->]|Hin]%elem_of_cons.
  - by rewrite decide_True.
  - rewrite decide_False; [by apply IH|].
    intros ->. apply Hk0, list_elem_of_fmap. by exists (k, v).
Qed.

Section Loops.
Variable cfg : Seeder.
Variable stream : list StreamChunk.
Variable fuel : nat.
Hypothesis enough_fuel : (length stream < fuel)%nat.

Lemma Strong_total_queued p w :
  Strong cfg stream p w → (total_queued w < fuel)%nat.
Proof.
  intros [[rest ->] _ _ Hacc _ _ _ _].
  apply Permutation_length in Hacc.
  rewrite row_ids_length, !length_app in Hacc.
  rewrite total_queued_length. rewrite length_app in enough_fuel. lia.
Qed.

Lemma flush_drain_Strong p name w :
  Strong cfg stream p w → is_Some (assoc name (tableStates w)) →
  wp (flush cfg name ;;
      let* sqliteDb := gets sqliteDb in
      match sqliteDb with
      | Some _ => drainAllQueues fuel ;; ret tt
      | None => ret tt
      end)
     (fun _ w' => Strong cfg stream p w' ∧
                  (tableStates w').*1 = (tableStates w).*1)
     (aborted cfg stream) w.
Proof.
  intros HS Hname. apply wp_bind.
  eapply wp_mono; [by apply flush_Strong|..]; [|done].
  intros [] w1 [HS1 [[Hn1 _] _]%flushed_effect]. apply wp_bind, wp_gets.
  destruct (sqliteDb w1) as [db|] eqn:Hdb; [|by apply wp_ret].
  apply wp_bind.
  eapply wp_mono;
    [apply (drainAllQueues_Strong cfg stream p);
     [done|by eapply Strong_hasRefs|by eapply Strong_total_queued]|..];
    [|done].
  intros progress w2 (HS2 & _ & Hn2 & _). apply wp_ret.
  split; [done|congruence].
Qed.

Lemma flushAllQueuesAfterDrain_Strong p w :
  Strong cfg stream p w →
  wp (flushAllQueuesAfterDrain cfg fuel)
     (fun _ w' => Strong cfg stream p w' ∧
                  (tableStates w').*1 = (tableStates w).*1)
     (aborted cfg stream) w.
Proof.
  intros HS. unfold flushAllQueuesAfterDrain. apply wp_bind, wp_gets.
  apply (wp_forM_ (fun w' => Strong cfg stream p w' ∧
                             (tableStates w').*1 = (tableStates w).*1));
    [|done].
  intros name w1 Hname [HS1 Hn1]. apply wp_bind, wp_get_table.
  rewrite <- Hn1 in Hname. pose proof (assoc_is_Some _ _ Hname) as Hsome.
  destruct (assoc name (tableStates w1)) as [st|] eqn:Hst;
    [|by destruct Hsome].
  destruct (reaches _ _); [|by apply wp_ret].
  eapply wp_mono; [apply flush_drain_Strong; [done|by rewrite Hst]|..];
    [|done].
  intros [] w2 [HS2 Hn2]. split; [done|congruence].
Qed.

Lemma flush_if_full_Strong p name w :
  Strong cfg stream p w → is_Some (assoc name (tableStates w)) →
  wp (flush_if_full cfg fuel name)
     (fun _ w' => Strong cfg stream p w')
     (aborted cfg stream) w.
Proof.
  intros HS Hname. unfold flush_if_full. apply wp_bind, wp_get_table.
  destruct (assoc name (tableStates w)) as [st|] eqn:Hst;
    [|by destruct Hname].
  destruct (reaches _ _); [|by apply wp_ret].
  apply wp_bind.
  eapply wp_mono; [apply flush_Strong; [done|by rewrite Hst]|..]; [|done].
  intros [] w1 [HS1 _]. apply wp_bind, wp_gets.
  destruct (hasRefs cfg) eqn:Hrefs; cbn [andb]; [|by apply wp_ret].
  destruct (bool_decide _); [|by apply wp_ret].
  apply wp_bind.
  eapply wp_mono;
    [apply (drainAllQueues_Strong cfg stream p);
     [done|by rewrite Hrefs|by eapply Strong_total_queued]|..]; [|done].
  intros progress w2 (HS2 & _).
  eapply wp_mono; [by apply flushAllQueuesAfterDrain_Strong|..]; [|done].
  by intros [] w3 [HS3 _].
Qed.

Lemma process_chunk_Strong p c w :
  Strong cfg stream p w → (p ++ [c]) `prefix_of` stream →
  wp (process_chunk cfg fuel c)
     (fun _ w' => Strong cfg stream (p ++ [c]) w')
     (aborted cfg stream) w.
Proof.
  intros HS Hpre. unfold process_chunk. apply wp_bind.
  eapply wp_mono; [by apply enqueue_Strong|..]; [|done].
  intros [] w1 (HS1 & Hname & _). by apply flush_if_full_Strong.
Qed.

Lemma stream_loop_Strong p rest w :
  Strong cfg stream p w → p ++ rest = stream →
  wp (forM_ rest (process_chunk cfg fuel))
     (fun _ w' => Strong cfg stream stream w')
     (aborted cfg stream) w.
Proof.
  revert p w. induction rest as [|c rest IH]; intros p w HS Hstream.
  - apply wp_ret. by rewrite app_nil_r in Hstream; subst.
  - cbn [forM_]. apply wp_bind.
    eapply wp_mono; [apply (process_chunk_Strong p c); [done|]|..];
      [|idtac|done].
    + exists rest. by rewrite <- app_assoc.
    + intros [] w1 HS1. apply (IH (p ++ [c])); [done|].
      by rewrite <- app_assoc.
Qed.

(** Flushing every table leaves every batch empty. *)
Lemma flush_names_Strong p names w :
  Strong cfg stream p w → names ⊆ (tableStates w).*1 →
  wp (forM_ names (flush cfg))
     (fun _ w' =>
        Strong cfg stream p w' ∧
        (tableStates w').*1 = (tableStates w).*1 ∧
        total_queued w' = total_queued w ∧
        ∀ n st', assoc n (tableStates w') = Some st' →
          ∃ st, assoc n (tableStates w) = Some st ∧
                (n ∈ names ∨ batch st = [] → batch st' = []))
     (aborted cfg stream) w.
Proof.
  revert w. induction names as [|name names IH]; intros w HS Hsub.
  - apply wp_ret. split; [done|]. split; [done|]. split; [done|].
    intros n st' Hst'. exists st'. split; [done|].
    by intros [?%not_elem_of_nil|?].
  - cbn [forM_]. apply wp_bind.
    eapply wp_mono; [apply flush_Strong; [done|]|..]; [|idtac|done].
    { apply assoc_is_Some, Hsub. left. }
    intros [] w1 [HS1 [[Hnames Heff] Htq]%flushed_effect].
    eapply wp_mono; [apply IH; [done|]|..]; [|idtac|done].
    { rewrite Hnames. intros x Hx. apply Hsub. by right. }
    intros [] w2 (HS2 & Hnames2 & Htq2 & Hb2).
    split; [done|]. split; [congruence|]. split; [congruence|].
    intros n st2 Hst2. destruct (Hb2 n st2 Hst2) as (st1 & Hst1 & Hb1).
    destruct (Heff n st1 Hst1) as (st & Hst & _ & Hb).
    exists st. split; [done|]. intros Hor. apply Hb1.
    case_decide; subst; [by right|]. rewrite Hb.
    destruct Hor as [[?|?]%elem_of_cons|?]; [done|by left|by right].
Qed.

Lemma flush_all_Strong p w :
  Strong cfg stream p w →
  wp (flush_all cfg)
     (fun _ w' => Strong cfg stream p w' ∧ batches_empty w' ∧
                  total_queued w' = total_queued w)
     (aborted cfg stream) w.
Proof.
  intros HS. unfold flush_all. apply wp_bind, wp_gets.
  eapply wp_mono; [by apply flush_names_Strong|..]; [|done].
  intros [] w' (HS' & Hnames & Htq & Hb). split; [done|].
  split; [|done].
  apply Forall_forall. intros [n st'] Hin.
  assert (assoc n (tableStates w') = Some st') as Hst'.
  { apply elem_of_assoc; [by destruct HS'|done]. }
  destruct (Hb n st' Hst') as (st & Hst & Hempty). apply Hempty. left.
  rewrite <- Hnames. apply list_elem_of_fmap. by exists (n, st').
Qed.
End Loops.

(** ** The finalizer and the whole run *)

(** Creating the tables fails with an error of the database, if it fails;
    the tables it makes are empty. *)
Lemma create_table_result db name cols :
  (∃ db', create_table db name cols = Done db') ∨
  (∃ m, create_table db name cols = Throw (SqliteError m)).
Proof.
  unfold create_table. destruct (reserved name); [right; by eexists|].
  destruct (db !! sql_name name); [left; by eexists|].
  destruct (existsb _ _); [right; by eexists|].
  destruct (duplicate_column _ cols); [right; by eexists|].
  case_bool_decide; [right|left]; by eexists.
Qed.

Lemma create_tables_result db refsConfig :
  (∃ db', create_tables db refsConfig = Done db') ∨
  (∃ m, create_tables db refsConfig = Throw (SqliteError m)).
Proof.
  revert db. induction refsConfig as [|[name cols] l IH]; intros db;
    [left; by eexists|].
  cbn. destruct (create_table_result db name cols) as [[db' ->]|[m ->]];
    [apply IH|right; by eexists].
Qed.

Lemma create_table_empty db name cols db' :
  create_table db name cols = Done db' →
  (∀ t i, ¬ has_row db t i) → ∀ t i, ¬ has_row db' t i.
Proof.
  unfold create_table. destruct (reserved name); [done|].
  destruct (db !! sql_name name) eqn:Hn; [by intros [= <-]|].
  destruct (existsb _ _); [done|].
  destruct (duplicate_column _ cols); [done|].
  case_bool_decide; [done|]. intros [= <-] Hdb t i (tb & Htb & Hrow).
  destruct (decide (sql_name t = sql_name name)) as [Heq|Hne].
  - rewrite Heq, lookup_insert_eq in Htb. simplify_eq. cbn in Hrow.
    rewrite lookup_empty in Hrow. by destruct Hrow.
  - rewrite lookup_insert_ne in Htb by done. apply (Hdb t i). by exists tb.
Qed.

Lemma createRefDatabase_empty refsConfig db t i :
  createRefDatabase refsConfig = Done db → ¬ has_row db t i.
Proof.
  unfold createRefDatabase.
  assert (∀ db0 : gmap string RefTable,
             (∀ t i, ¬ has_row db0 t i) →
             create_tables db0 refsConfig = Done db →
             ∀ t i, ¬ has_row db t i) as H.
  { induction refsConfig as [|[n cols] l IH]; intros db0 Hdb0;
      [by intros [= <-]|].
    cbn. destruct (create_table db0 n cols) as [db1| |] eqn:Hn; [|done..].
    cbn. apply IH. by eapply create_table_empty. }
  intros Hrun. eapply H; [|done].
  intros t' i' (tb & Htb & _). by rewrite lookup_empty in Htb.
Qed.

Lemma open_store_result cfg :
  opens cfg ∨
  (hasRefs cfg ∧ ∃ m, open_store cfg = Throw (SqliteError m)).
Proof.
  unfold opens, open_store. destruct (hasRefs cfg) eqn:Hrefs;
    [|left; by eexists].
  destruct (create_tables_result ∅ (refsConfig cfg)) as [[db Hdb]|[m Hm]];
    unfold createRefDatabase.
  - left. rewrite Hdb. by eexists.
  - right. split; [done|]. rewrite Hm. by eexists.
Qed.

Lemma open_store_hasRefs cfg db :
  open_store cfg = Done db → is_Some db ↔ hasRefs cfg.
Proof.
  unfold open_store. destruct (hasRefs cfg).
  - destruct (createRefDatabase _); [|done..]. cbn. intros [= <-].
    split; [done|]. by eexists.
  - intros [= <-]. split; [by intros []|done].
Qed.

(** What [execute] does once the scratch database is there. *)
Lemma execute_opened cfg fuel stream db :
  open_store cfg = Done db →
  execute cfg fuel stream initial
  = ((execute_body cfg fuel stream (start cfg)).1,
     set_sqliteDb None (execute_body cfg fuel stream (start cfg)).2).
Proof.
  intros Hopen. unfold execute, start. rewrite Hopen. cbn [target initial].
  by destruct (execute_body _ _ _ _).
Qed.

Lemma execute_not_opened cfg fuel stream e :
  open_store cfg = Throw e →
  execute cfg fuel stream initial = (Throw e, initial).
Proof. intros Hopen. unfold execute. by rewrite Hopen. Qed.

Lemma waiting_dec w names :
  Exists (waiting w) names ∨ ¬ Exists (waiting w) names.
Proof.
  induction names as [|n names [IH|IH]].
  - right. by intros ?%Exists_nil.
  - left. by right.
  - destruct (assoc n (tableStates w)) as [st|] eqn:Hst.
    + destruct (queue st) as [|q qs] eqn:Hq.
      * right. intros [(st' & ? & ?)|?]%Exists_cons; [|done].
        by simplify_eq.
      * left. left. exists st. by rewrite Hq.
    + right. intros [(st' & ? & ?)|?]%Exists_cons; [congruence|done].
Qed.

Section Run.
Variable cfg : Seeder.
Variable stream : list StreamChunk.
Variable fuel : nat.
Hypothesis enough_fuel : (length stream < fuel)%nat.

Lemma final_drain_Strong p n w :
  Strong cfg stream p w → hasRefs cfg → (total_queued w < n)%nat →
  wp (final_drain cfg fuel n)
     (fun _ w' => Strong cfg stream p w' ∧ batches_empty w')
     (aborted cfg stream) w.
Proof.
  revert w. induction n as [|n IH]; intros w HS Hrefs Hn; [lia|].
  cbn [final_drain]. apply wp_bind.
  eapply wp_mono;
    [apply (drainAllQueues_Strong cfg stream p);
     [done|done|by eapply Strong_total_queued]|..]; [|done].
  intros progress w1 (HS1 & _ & _ & Hle & Hlt). apply wp_bind.
  eapply wp_mono; [by apply flush_all_Strong|..]; [|done].
  intros [] w2 (HS2 & Hb2 & Htq2). destruct progress.
  - apply IH; [done..|]. specialize (Hlt eq_refl). lia.
  - by apply wp_ret.
Qed.

Lemma finalize_Strong p w :
  Strong cfg stream p w →
  wp (finalize cfg fuel)
     (fun _ w' => Strong cfg stream p w' ∧ batches_empty w')
     (aborted cfg stream) w.
Proof.
  intros HS. unfold finalize. apply wp_bind.
  eapply wp_mono; [by apply flush_all_Strong|..]; [|done].
  intros [] w1 (HS1 & Hb1 & _). apply wp_bind, wp_gets.
  destruct (hasRefs cfg) eqn:Hrefs; cbn [andb]; [|by apply wp_ret].
  destruct (bool_decide _); [|by apply wp_ret].
  apply final_drain_Strong; [done|by rewrite Hrefs|].
  by eapply Strong_total_queued.
Qed.

Lemma check_stuck_Strong p w :
  Strong cfg stream p w → batches_empty w →
  wp (check_stuck cfg)
     (fun _ w' => Strong cfg stream p w' ∧ batches_empty w' ∧
                  queues_empty w')
     (aborted cfg stream) w.
Proof.
  intros HS Hb. unfold wp.
  destruct (waiting_dec w (tableStates w).*1) as [Hex|Hno].
  - rewrite check_stuck_throws by done. split; [|by destruct HS].
    eexists. split; [done|]. constructor.
    apply Exists_exists in Hex as (n & Hn & st & Hst & Hq).
    destruct (queue st) as [|q qs] eqn:Hqs; [done|].
    destruct HS as [_ _ _ _ _ _ _ [_ _ _ Hrefs]].
    apply assoc_Some_elem_of in Hst.
    apply (proj1 (Forall_forall _ _) Hrefs (n, st) Hst q).
    cbn. rewrite Hqs. left.
  - rewrite check_stuck_passes by done.
    split; [done|]. split; [done|].
    apply Forall_forall. intros [n st] Hin.
    destruct (queue st) as [|q qs] eqn:Hq; [done|].
    destruct Hno. apply Exists_exists. exists n.
    split; [apply list_elem_of_fmap; by exists (n, st)|].
    exists st. split; [|by rewrite Hq].
    apply elem_of_assoc; [by destruct HS|done].
Qed.

Lemma execute_body_Strong w :
  Strong cfg stream [] w →
  wp (execute_body cfg fuel stream)
     (fun _ w' => Strong cfg stream stream w' ∧ batches_empty w' ∧
                  queues_empty w')
     (aborted cfg stream) w.
Proof.
  intros HS. unfold execute_body. apply wp_bind.
  eapply wp_mono; [by apply (stream_loop_Strong cfg stream fuel
                               enough_fuel [])|..]; [|done].
  intros [] w1 HS1. apply wp_bind.
  eapply wp_mono; [by apply finalize_Strong|..]; [|done].
  intros [] w2 [HS2 Hb2]. by apply check_stuck_Strong.
Qed.

(** The state in which [execute] enters its [try] block. *)
Lemma Strong_start : opens cfg → Strong cfg stream [] (start cfg).
Proof.
  intros [db Hdb]. unfold start. rewrite Hdb. split; cbn.
  - apply prefix_nil.
  - constructor.
  - constructor.
  - done.
  - done.
  - by apply open_store_hasRefs.
  - by intros db' x r _ ?%not_elem_of_nil.
  - split; cbn; [by intros x ?%not_elem_of_nil|done..].
Qed.

Lemma Weak_set_sqliteDb db w :
  Weak cfg stream w → Weak cfg stream (set_sqliteDb db w).
Proof. by intros []. Qed.

(** A whole run: it ends, with every row of the stream accounted for in
    the trace, or it aborts with an error and a trace as it should be. *)
Lemma execute_run :
  wp (execute cfg fuel stream)
     (fun _ w' => Weak cfg stream w' ∧ row_ids stream ≡ₚ logged w' ∧
                  batches_empty w' ∧ queues_empty w')
     (aborted cfg stream) initial.
Proof.
  destruct (open_store_result cfg) as [Hopen|(Hrefs & m & Hm)]; cycle 1.
  { unfold wp. rewrite (execute_not_opened _ _ _ _ Hm). split.
    - eexists. split; [done|]. by constructor.
    - split; cbn; [by intros x ?%not_elem_of_nil|done..]. }
  pose proof (execute_body_Strong _ (Strong_start Hopen)) as H.
  destruct Hopen as [db Hdb].
  unfold wp. rewrite (execute_opened _ _ _ _ Hdb). unfold wp in H.
  destruct (execute_body cfg fuel stream _) as [[[]|e|] w']; cbn [fst snd].
  - destruct H as ([_ _ _ Hacc _ _ _ Hweak] & Hb & Hq).
    split; [by apply Weak_set_sqliteDb|]. split; [|done].
    rewrite Hacc. unfold logged, batched, queued. cbn.
    assert (∀ B (f : string * TableState → list B),
               Forall (fun x => f x = []) (tableStates w') →
               tableStates w' ≫= f = []) as Hnil.
    { intros B f. induction 1 as [|x l Hx _ IH]; [done|].
      cbn. by rewrite Hx, IH. }
    rewrite !Hnil, !app_nil_r; [done|..].
    + eapply Forall_impl; [exact Hq|]. intros [n st] Hst. cbn in *.
      unfold queue_rows. by rewrite Hst.
    + eapply Forall_impl; [exact Hb|]. intros [n st] Hst. cbn in *.
      unfold batch_rows. rewrite Hst. by rewrite zip_with_nil_r.
  - destruct H as [He Hweak]. split; [done|]. by apply Weak_set_sqliteDb.
  - by destruct H as [(err & ? & _) _].
Qed.
End Run.

(** ** Every row of the stream is inserted once, after what it refers to *)

Lemma NoDup_fmap_eq {A B} (f : A → B) (l : list A) x y :
  NoDup (f <$> l) → x ∈ l → y ∈ l → f x = f y → x = y.
Proof.
  induction l as [|a l IH]; [by intros _ ?%not_elem_of_nil|].
  cbn. intros [Ha Hnd]%NoDup_cons [->|Hx]%elem_of_cons [->|Hy]%elem_of_cons Hf.
  - done.
  - destruct Ha. rewrite Hf. apply list_elem_of_fmap. by exists y.
  - destruct Ha. rewrite <- Hf. apply list_elem_of_fmap. by exists x.
  - by apply IH.
Qed.

(** In every run, finished or aborted, the trace and the queues are as
    they should be. *)
Lemma execute_Weak cfg fuel stream :
  (length stream < fuel)%nat →
  Weak cfg stream (execute cfg fuel stream initial).2.
Proof.
  intros Hfuel. pose proof (execute_run cfg stream fuel Hfuel) as H.
  unfold wp in H.
  destruct (execute cfg fuel stream initial) as [[[]|e|] w']; cbn;
    by destruct H.
Qed.

(** The errors of a run are the ones the code raises on purpose or passes
    on from the target, the scratch database or devalue; in particular no
    table state is ever missing where the code takes it for granted. *)
Lemma execute_Raised cfg fuel stream e :
  (length stream < fuel)%nat →
  (execute cfg fuel stream initial).1 = Throw e → Raised cfg stream e.
Proof.
  intros Hfuel. pose proof (execute_run cfg stream fuel Hfuel) as H.
  unfold wp in H.
  destruct (execute cfg fuel stream initial) as [[[]|e'|] w']; cbn;
    [done| |done].
  intros [= ->]. by destruct H as [(err & [= <-] & ?) _].
Qed.

Lemma execute_no_TypeError cfg fuel stream message :
  (length stream < fuel)%nat →
  (execute cfg fuel stream initial).1 ≠ Throw (TypeError message).
Proof. intros Hfuel Hrun%execute_Raised; [|done]. inversion Hrun. Qed.

(** C1. When [execute] returns without an error, the rows handed to the
    bulk insert are the rows of the stream, each exactly once; every batch
    and every queue is empty; and the values of each call are the resolved
    chunks of its batch, resolved against the scratch database when there is
    one. *)
Theorem C1_every_chunk_inserted_exactly_once cfg fuel stream w' :
  (length stream < fuel)%nat →
  execute cfg fuel stream initial = (Done tt, w') →
  logged w' ≡ₚ row_ids stream ∧
  NoDup (row_key <$> logged w') ∧
  batches_empty w' ∧ queues_empty w' ∧
  Forall (fun c =>
            length (ic_rowIndices c) = length (ic_batch c) ∧
            ∃ db, (is_Some db ↔ hasRefs cfg) ∧
                  omapM (fun ch => resolveChunk ch db) (ic_batch c)
                  = Done (ic_values c))
         (target w').
Proof.
  intros Hfuel Hrun. pose proof (execute_run cfg stream fuel Hfuel) as H.
  unfold wp in H. rewrite Hrun in H.
  destruct H as ([_ Hlens Hres _] & Hperm & Hb & Hq).
  split; [done|]. split; [|split; [done|split; [done|]]].
  - rewrite <- Hperm. apply row_ids_NoDup.
  - apply Forall_forall. intros c Hc. split.
    + by apply (proj1 (Forall_forall _ _) Hlens).
    + by apply (proj1 (Forall_forall _ _) Hres).
Qed.

Lemma C1_scenario_witness :
  logged (execute scenario_seeder 5 scenario_stream initial).2
    ≡ₚ row_ids scenario_stream ∧
  batches_empty (execute scenario_seeder 5 scenario_stream initial).2.
Proof.
  destruct (C1_every_chunk_inserted_exactly_once scenario_seeder 5
              scenario_stream
              (execute scenario_seeder 5 scenario_stream initial).2)
    as (H1 & _ & H2 & _).
  - vm_compute. lia.
  - vm_compute. reflexivity.
  - split; [exact H1|exact H2].
Defined.

(** C2 fails on the code. [Books] and [books] are one table to the scratch
    database, which compares names without regard to case. Row 0 of [Books]
    is generated first and waits in its batch; row 0 of [books] is flushed
    on arrival and stored; the review, which refers to row 0 of [Books],
    finds a row 0 in that one table, goes to its batch and is inserted, with
    the [id] of the row of [books]; row 0 of [Books] is inserted last, when
    the stream has ended, and storing it fails on the key row 0 has
    already. *)
Theorem C2_twin_tables_break_the_order :
  row_key <$> row_ids twin_stream
  = [("Books", 0); ("books", 0); ("reviews", 0)] ∧
  (∃ r, r ∈ extractRefs twin_review ∧
        refTableName r = "Books" ∧ refRowIndex r = 0 ∧
        refColumnName r = "id" ∧
        assoc (refTableName r) (refsConfig twin_seeder)
        = Some [refColumnName r]) ∧
  call_keys <$> target (execute twin_seeder 5 twin_stream initial).2
  = [("books", [0]); ("reviews", [0]); ("Books", [0])] ∧
  (assoc "bookId" <$>
   inserted_row (execute twin_seeder 5 twin_stream initial).2 "reviews" 0)
  = Some (Some (DNum 10)) ∧
  (assoc "id" <$>
   inserted_row (execute twin_seeder 5 twin_stream initial).2 "Books" 0)
  = Some (Some (DNum 20)) ∧
  (execute twin_seeder 5 twin_stream initial).1
  = Throw (SqliteError "UNIQUE constraint failed: Books._rowIndex").
Proof.
  split; [by vm_compute|]. split.
  { exists (ref_Books 0). split; [left|]. by vm_compute. }
  split; [by vm_compute|]. split; [by vm_compute|].
  split; by vm_compute.
Qed.

(** ** Termination *)

Section Decrease.
Variable db : gmap string RefTable.

Lemma drain_table_decreases name w :
  wp (drain_table db name)
     (fun moved w' =>
        (total_queued w' ≤ total_queued w)%nat ∧
        (moved = true → (total_queued w' < total_queued w)%nat))
     (fun _ _ => True) w.
Proof.
  eapply wp_mono; [apply drain_table_spec|..]; [|done].
  intros moved w' (st & Hst & -> & ->).
  pose proof (total_queued_drained w db name st Hst) as Htq.
  cbn zeta in Htq. split; [lia|].
  intros Hne%bool_decide_eq_true.
  destruct (filter (eligible db) (queue st)); [done|].
  cbn [length] in Htq. lia.
Qed.

Lemma drain_pass_decreases names w :
  wp (drain_pass db names)
     (fun made w' =>
        (total_queued w' ≤ total_queued w)%nat ∧
        (made = true → (total_queued w' < total_queued w)%nat))
     (fun _ _ => True) w.
Proof.
  revert w. induction names as [|n names IH]; intros w.
  - apply wp_ret. split; [lia|done].
  - cbn [drain_pass]. apply wp_bind.
    eapply wp_mono; [apply drain_table_decreases|..]; [|done].
    intros moved w1 (Hle1 & Hlt1). apply wp_bind.
    eapply wp_mono; [apply IH|..]; [|done].
    intros made w2 (Hle2 & Hlt2). apply wp_ret. split; [lia|].
    intros [->| ->]%orb_true_iff; [specialize (Hlt1 eq_refl)|
                                   specialize (Hlt2 eq_refl)]; lia.
Qed.

Lemma drain_loop_decreases fuel any w :
  wp (drain_loop db fuel any)
     (fun progress w' =>
        (total_queued w' ≤ total_queued w)%nat ∧
        (progress = any ∨
         progress = true ∧ (total_queued w' < total_queued w)%nat))
     (fun _ _ => True) w.
Proof.
  revert any w. induction fuel as [|fuel IH]; intros any w; [done|].
  cbn [drain_loop]. apply wp_bind, wp_gets, wp_bind.
  eapply wp_mono; [apply drain_pass_decreases|..]; [|done].
  intros made w1 (Hle1 & Hlt1). destruct made.
  - specialize (Hlt1 eq_refl).
    eapply wp_mono; [apply (IH true)|..]; [|done].
    intros progress w2 (Hle2 & Hp). split; [lia|]. right.
    split; [by destruct Hp as [->|[-> _]]|lia].
  - apply wp_ret. split; [lia|]. by left.
Qed.
End Decrease.

(** A call of [drainAllQueues] that reports progress has strictly fewer
    chunks in the queues when it returns. *)
Lemma drainAllQueues_decreases fuel w progress w' :
  drainAllQueues fuel w = (Done progress, w') →
  (total_queued w' ≤ total_queued w)%nat ∧
  (progress = true → (total_queued w' < total_queued w)%nat).
Proof.
  unfold drainAllQueues, bind, the_db.
  destruct (sqliteDb w) as [db|]; [|done]. intros Hrun.
  pose proof (drain_loop_decreases db fuel false w) as H.
  unfold wp in H. rewrite Hrun in H. destruct H as [Hle Hp].
  split; [done|]. intros ->. by destruct Hp as [|[_ ?]].
Qed.

Lemma flush_all_total_queued cfg w w' :
  flush_all cfg w = (Done tt, w') → total_queued w' = total_queued w.
Proof.
  unfold flush_all, bind at 1, table_names, gets.
  generalize (tableStates w).*1. intros names. revert w.
  induction names as [|n names IH]; intros w; cbn [forM_].
  - unfold ret. by intros [= <-].
  - unfold bind at 1.
    pose proof (flush_spec cfg n w) as Hfl. unfold wp in Hfl.
    destruct (flush cfg n w) as [[[]| |] w1]; [|done..].
    apply flushed_effect in Hfl as [_ Htq].
    intros ->%IH. done.
Qed.

(** ** Chunks that go straight to the batch *)

Lemma queue_of_alter w name f n :
  (∀ st, queue (f st) = queue st) →
  queue_of (set_tableStates (alter_assoc f name) w) n = queue_of w n.
Proof.
  intros Hf. unfold queue_of. cbn. rewrite assoc_alter.
  case_decide; [|done]. destruct (assoc n (tableStates w)); [|done].
  cbn. by rewrite Hf.
Qed.

(** A chunk without a reference, or any chunk when no column is declared
    referenceable, is pushed on the batch of its table; no queue changes. *)
Lemma enqueue_batches cfg c w w' :
  negb (hasRefs cfg)
  || bool_decide (length (extractRefs (chunkData c)) = 0%nat) = true →
  enqueue cfg c w = (Done tt, w') →
  batch_of w' (tag c) = batch_of w (tag c) ++ [chunkData c] ∧
  ∀ n, queue_of w' n = queue_of w n.
Proof.
  intros Hcond Hrun.
  assert (wp (enqueue cfg c)
            (fun _ w' =>
               batch_of w' (tag c) = batch_of w (tag c) ++ [chunkData c] ∧
               ∀ n, queue_of w' n = queue_of w n)
            (fun _ _ => True) w) as H;
    [|unfold wp in H; by rewrite Hrun in H].
  clear Hrun. unfold enqueue. rewrite Hcond. clear Hcond.
  apply wp_bind, wp_gets, wp_bind.
  eapply (wp_mono _ (fun _ w1 =>
            is_Some (assoc (tag c) (tableStates w1)) ∧
            batch_of w1 (tag c) = batch_of w (tag c) ∧
            ∀ n, queue_of w1 n = queue_of w n) _ (fun _ _ => True)).
  { case_bool_decide as Hknown;
      [apply wp_ret; cbn beta; split; [done|]; split; [done|]; by intros|].
    apply eq_None_not_Some in Hknown.
    unfold init_table. apply wp_bind, wp_modify, wp_modify.
    unfold batch_of, queue_of. cbn. rewrite !assoc_app, Hknown. cbn.
    rewrite decide_True by done. split; [by eexists|]. split; [done|].
    intros n. rewrite assoc_app. destruct (assoc n (tableStates w)); [done|].
    cbn. by case_decide. }
  2: done.
  intros [] w1 ([st Hst] & Hb & Hq).
  apply wp_bind, wp_get_table. rewrite Hst.
  apply wp_bind, next_row_index_run.
  destruct (rowIndexByTable w1 !! tag c) as [i|]; [|done].
  apply wp_modify. split.
  - rewrite <- Hb. unfold batch_of. cbn.
    rewrite assoc_alter, decide_True, Hst by done. done.
  - intros n. rewrite <- Hq.
    by rewrite (queue_of_alter (set_rowIndexByTable _ w1)).
Qed.

(** A completed flush hands the whole batch to the target in one call and
    empties the batch. *)
Lemma flush_inserts_batch cfg name w w' st :
  assoc name (tableStates w) = Some st → batch st ≠ [] →
  flush cfg name w = (Done tt, w') →
  ∃ values,
    target w' = target w ++ [flush_call name st values] ∧
    batch_of w' name = [].
Proof.
  intros Hst Hne Hrun. pose proof (flush_spec cfg name w) as H.
  unfold wp in H. rewrite Hrun in H.
  destruct H as (st' & Hst' & [[Hb _]|(_ & w1 & Hins & ->)]); simplify_eq.
  destruct Hins as (values & _ & Htarget & Hts & _).
  exists values. split; [done|]. unfold batch_of. cbn.
  by rewrite assoc_alter, decide_True, Hts, Hst.
Qed.

Lemma Strong_queues_hold_references cfg stream p w :
  Strong cfg stream p w → queues_hold_references w.
Proof.
  intros [_ _ _ _ _ _ _ [_ _ _ Hrefs]] name st q Hin Hq.
  destruct (proj1 (Forall_forall _ _) Hrefs (name, st) Hin q Hq)
    as (<- & ? & _).
  done.
Qed.

(** ** Without a scratch database *)

(** With no scratch database, nothing goes to a queue: a chunk that would
    have to wait makes the run fail. *)
Section Closed.
Variable cfg : Seeder.
Variable fuel : nat.

Lemma total_queued_nil w name st :
  total_queued w = 0%nat → (name, st) ∈ tableStates w → queue st = [].
Proof.
  unfold total_queued. intros Hq Hin.
  apply list_elem_of_split in Hin as (l1 & l2 & Hts).
  rewrite Hts, sum_list_with_app in Hq. cbn in Hq.
  destruct (queue st); [done|]. cbn in Hq. lia.
Qed.

Lemma enqueue_closed c w :
  closed w → wp (enqueue cfg c) (fun _ => closed) (fun _ _ => True) w.
Proof.
  intros [Hdb Hq]. unfold enqueue. apply wp_bind, wp_gets, wp_bind.
  eapply (wp_mono _ (fun _ w1 => closed w1) _ (fun _ _ => True)).
  { case_bool_decide; [by apply wp_ret|].
    unfold init_table. apply wp_bind, wp_modify, wp_modify.
    split; [done|]. unfold total_queued in *. cbn.
    rewrite sum_list_with_app. cbn. lia. }
  2: done.
  intros [] w1 [Hdb1 Hq1]. apply wp_bind, wp_get_table.
  destruct (assoc (tag c) (tableStates w1)) as [st|] eqn:Hst; [|done].
  apply wp_bind, next_row_index_run.
  destruct (rowIndexByTable w1 !! tag c) as [i|]; [|done].
  assert (∀ f, queue (f st) = queue st →
               closed (set_tableStates (alter_assoc f (tag c))
                         (set_rowIndexByTable <[tag c := i + 1]> w1)))
    as Hpush.
  { intros f Hf. split; [done|].
    pose proof (total_queued_alter (set_rowIndexByTable <[tag c := i + 1]> w1)
                  (tag c) st f Hst) as Halt.
    rewrite Hf in Halt. unfold total_queued in *. cbn in *. lia. }
  destruct (negb (hasRefs cfg) || _); [apply wp_modify; by apply Hpush|].
  apply wp_bind, wp_the_db. cbn. by rewrite Hdb1.
Qed.

Lemma flush_closed name w :
  closed w → wp (flush cfg name) (fun _ => closed) (fun _ _ => True) w.
Proof.
  intros [Hdb Hq]. eapply wp_mono; [apply flush_spec|..]; [|done].
  intros [] w' Hfl. pose proof (flushed_effect _ _ _ Hfl) as [_ Htq].
  split; [|lia].
  destruct Hfl as (st & Hst & [[_ ->]|(_ & w1 & Hins & ->)]); [done|].
  destruct Hins as (values & _ & _ & _ & _ & Hext). cbn.
  rewrite Hdb in Hext. by destruct (sqliteDb w1).
Qed.

Lemma process_chunk_closed c w :
  closed w →
  wp (process_chunk cfg fuel c) (fun _ => closed) (fun _ _ => True) w.
Proof.
  intros Hw. unfold process_chunk. apply wp_bind.
  eapply wp_mono; [by apply enqueue_closed|..]; [|done].
  intros [] w1 Hw1. unfold flush_if_full. apply wp_bind, wp_get_table.
  destruct (assoc (tag c) (tableStates w1)); [|done].
  destruct (reaches _ _); [|by apply wp_ret]. apply wp_bind.
  eapply wp_mono; [by apply flush_closed|..]; [|done].
  intros [] w2 [Hdb2 Hq2]. apply wp_bind, wp_gets. rewrite Hdb2.
  rewrite andb_false_r. by apply wp_ret.
Qed.

Lemma finalize_closed w :
  closed w → wp (finalize cfg fuel) (fun _ => closed) (fun _ _ => True) w.
Proof.
  intros Hw. unfold finalize, flush_all. apply wp_bind, wp_bind, wp_gets.
  eapply wp_mono;
    [apply (wp_forM_ closed (fun _ _ => True)); [|done]|..]; [| |done].
  { intros name w1 _ Hw1. by apply flush_closed. }
  intros [] w1 [Hdb1 Hq1]. apply wp_bind, wp_gets. rewrite Hdb1.
  rewrite andb_false_r. by apply wp_ret.
Qed.

(** When the scratch database could not be created, a run from [start]
    that gets through the stream and the finalizer has every queue
    empty. *)
Lemma closed_run stream w1 w :
  ¬ opens cfg →
  forM_ stream (process_chunk cfg fuel) (start cfg) = (Done tt, w1) →
  finalize cfg fuel w1 = (Done tt, w) →
  ∀ name st, (name, st) ∈ tableStates w → queue st = [].
Proof.
  intros Hno Hloop Hfin.
  assert (closed (start cfg)) as Hstart.
  { split; [|done]. unfold start. cbn.
    destruct (open_store cfg) as [db| |] eqn:Hdb; [|done..].
    destruct Hno. by exists db. }
  pose proof (wp_forM_ closed (fun _ _ => True) (process_chunk cfg fuel)
                stream (start cfg)
                (fun c w' _ Hw' => process_chunk_closed c w' Hw') Hstart)
    as H1.
  unfold wp in H1. rewrite Hloop in H1.
  pose proof (finalize_closed w1 H1) as H2. unfold wp in H2.
  rewrite Hfin in H2. destruct H2 as [_ Hq].
  intros name st. by apply total_queued_nil.
Qed.

Lemma opens_dec : opens cfg ∨ ¬ opens cfg.
Proof.
  unfold opens. destruct (open_store cfg) as [db| |];
    [left; by eexists|right; by intros [? ?]..].
Qed.
End Closed.

Lemma Strong_start' cfg stream :
  opens cfg → Strong cfg stream [] (start cfg).
Proof. apply Strong_start. Qed.

Lemma resolveChunk_plain_row ch db :
  extractRefs ch = [] → resolveChunk ch db = Done (plain_row ch).
Proof.
  induction ch as [|[k [d|r|]] ch IH]; cbn; [done| |done|done].
  intros ->%IH. done.
Qed.

Lemma omapM_lookup {A B} (f : A → outcome B) l ys i x :
  omapM f l = Done ys → l !! i = Some x →
  ∃ y, ys !! i = Some y ∧ f x = Done y.
Proof.
  revert ys i. induction l as [|a l IH]; intros ys i; [done|].
  cbn [omapM]. destruct (f a) as [y| |] eqn:Hy; [|done..]. cbn.
  destruct (omapM f l) as [ys'| |]; [|done..]. cbn. intros [= <-].
  destruct i as [|i]; cbn; [intros [= <-]; by exists y|by apply IH].
Qed.

Lemma omapM_length' {A B} (f : A → outcome B) l ys :
  omapM f l = Done ys → length ys = length l.
Proof.
  revert ys. induction l as [|a l IH]; intros ys; [by intros [= <-]|].
  cbn [omapM]. destruct (f a); [|done..]. cbn.
  destruct (omapM f l) as [ys'| |]; [|done..]. cbn. intros [= <-]. cbn.
  by rewrite (IH ys').
Qed.

(** C8. A chunk with no reference is appended to the batch of its table on
    arrival and no queue changes; no chunk without a reference is ever in a
    queue, whether between two chunks of the stream or when [execute] ends;
    a flush of a table hands its whole batch to the target in one call and
    empties the batch, and the row it hands over for a chunk with no
    reference is the chunk's own: its values, the generated columns left
    out; and when [execute] ends well, every row of the stream that holds
    no reference has been inserted, as that row. *)
Theorem C8_chunk_without_reference_is_batched cfg :
  (∀ c w w',
     extractRefs (chunkData c) = [] →
     enqueue cfg c w = (Done tt, w') →
     batch_of w' (tag c) = batch_of w (tag c) ++ [chunkData c] ∧
     ∀ n, queue_of w' n = queue_of w n) ∧
  (∀ fuel stream,
     (length stream < fuel)%nat →
     (∀ w', forM_ stream (process_chunk cfg fuel) (start cfg) = (Done tt, w') →
            queues_hold_references w') ∧
     queues_hold_references (execute cfg fuel stream initial).2) ∧
  (∀ name w w' st,
     assoc name (tableStates w) = Some st → batch st ≠ [] →
     flush cfg name w = (Done tt, w') →
     ∃ call, target w' = target w ++ [call] ∧ ic_table call = name ∧
             ic_batch call = batch st ∧
             ic_rowIndices call = rowIndices st ∧
             length (ic_values call) = length (batch st) ∧
             (∀ i ch, batch st !! i = Some ch → extractRefs ch = [] →
                      ic_values call !! i = Some (plain_row ch)) ∧
             batch_of w' name = []) ∧
  (∀ fuel stream w' t i ch,
     (length stream < fuel)%nat →
     execute cfg fuel stream initial = (Done tt, w') →
     (t, i, ch) ∈ row_ids stream → extractRefs ch = [] →
     ∃ call k, call ∈ target w' ∧ ic_table call = t ∧
               ic_rowIndices call !! k = Some i ∧
               ic_batch call !! k = Some ch ∧
               ic_values call !! k = Some (plain_row ch)).
Proof.
  split; [|split; [|split]].
  - intros c w w' Hrefs. apply enqueue_batches.
    rewrite Hrefs. cbn. apply orb_true_r.
  - intros fuel stream Hfuel. split.
    + intros w' Hrun. destruct (opens_dec cfg) as [Hopen|Hno].
      * pose proof (stream_loop_Strong cfg stream fuel Hfuel [] stream
                      (start cfg) (Strong_start' cfg stream Hopen) eq_refl)
          as H.
        unfold wp in H. rewrite Hrun in H.
        by eapply Strong_queues_hold_references.
      * assert (closed (start cfg)) as Hstart.
        { split; [|done]. unfold start. cbn.
          destruct (open_store cfg) as [db| |] eqn:Hdb; [|done..].
          destruct Hno. by exists db. }
        pose proof (wp_forM_ closed (fun _ _ => True)
                      (process_chunk cfg fuel) stream (start cfg)
                      (fun c w1 _ Hw1 => process_chunk_closed cfg fuel c w1 Hw1)
                      Hstart) as H.
        unfold wp in H. rewrite Hrun in H. destruct H as [_ Hq].
        intros name st q Hin Hqin.
        rewrite (total_queued_nil _ _ _ Hq Hin) in Hqin.
        by apply not_elem_of_nil in Hqin.
    + destruct (execute_Weak cfg fuel stream Hfuel) as [_ _ _ Hrefs].
      intros name st q Hin Hq.
      by destruct (proj1 (Forall_forall _ _) Hrefs (name, st) Hin q Hq)
        as (<- & ? & _).
  - intros name w w' st Hst Hne Hrun.
    pose proof (flush_spec cfg name w) as H.
    unfold wp in H. rewrite Hrun in H.
    destruct H as (st' & Hst' & Hcase).
    assert (st' = st) as -> by congruence.
    destruct Hcase as [[Hb _]|(_ & w1 & Hins & ->)]; [done|].
    destruct Hins as (values & Hvalues & Htarget & Hts & _).
    exists (flush_call name st values). split; [done|].
    split; [done|]. split; [done|]. split; [done|].
    split; [by eapply omapM_length'|]. split.
    + intros i ch Hch Hrefs. cbn.
      destruct (omapM_lookup _ _ _ _ _ Hvalues Hch) as (row & Hrow & Hres).
      rewrite (resolveChunk_plain_row ch _ Hrefs) in Hres. by simplify_eq.
    + unfold batch_of. cbn.
      by rewrite assoc_alter, decide_True, Hts, Hst.
  - intros fuel stream w' t i ch Hfuel Hrun Hrow Hrefs.
    pose proof (execute_run cfg stream fuel Hfuel) as H.
    unfold wp in H. rewrite Hrun in H.
    destruct H as ([_ Hlens Hres _] & Hperm & _).
    rewrite Hperm in Hrow. unfold logged in Hrow.
    apply list_elem_of_bind in Hrow as (call & Hin & Hcall).
    unfold call_rows in Hin.
    apply list_elem_of_fmap in Hin as ([i' ch'] & [= -> -> ->] & Hzip).
    apply list_elem_of_lookup in Hzip as [k Hk].
    apply lookup_zip_with_Some in Hk as (i0 & ch0 & [= <- <-] & Hi & Hch).
    destruct (proj1 (Forall_forall _ _) Hres call Hcall)
      as (db & _ & Hvalues).
    destruct (omapM_lookup _ _ _ _ _ Hvalues Hch) as (row & Hrow & Hdone).
    rewrite (resolveChunk_plain_row _ _ Hrefs) in Hdone. simplify_eq.
    by exists call, k.
Qed.

Lemma C8_plain_book_witness :
  batch_of (enqueue scenario_seeder
              {| tag := "books"; chunkData := [("id", Plain (DNum 7))] |}
              (start scenario_seeder)).2 "books"
  = [[("id", Plain (DNum 7))]] ∧
  (∃ call,
     target (flush scenario_seeder "books" plain_book_world).2
     = target plain_book_world ++ [call] ∧
     ic_table call = "books" ∧
     ic_values call !! 0%nat = Some [("id", DNum 7)] ∧
     batch_of (flush scenario_seeder "books" plain_book_world).2 "books" = []).
Proof.
  destruct (C8_chunk_without_reference_is_batched scenario_seeder)
    as (Henq & _ & Hflush & _).
  split.
  - refine (proj1 (Henq {| tag := "books";
                           chunkData := [("id", Plain (DNum 7))] |}
                     (start scenario_seeder) _ _ _)).
    + reflexivity.
    + vm_compute. reflexivity.
  - destruct (Hflush "books" plain_book_world
                (flush scenario_seeder "books" plain_book_world).2
                plain_book_state)
      as (call & Htarget & Htable & _ & _ & _ & Hvalues & Hb).
    + reflexivity.
    + done.
    + vm_compute. reflexivity.
    + exists call. split; [done|]. split; [done|]. split; [|done].
      by apply (Hvalues 0%nat [("id", Plain (DNum 7))]).
Defined.

(** ** A reference with no scratch database *)

Lemma resolveChunk_None_throws ch :
  extractRefs ch ≠ [] →
  ∃ r, r ∈ extractRefs ch ∧
       resolveChunk ch None
       = Throw (JsError ("Cannot resolve ref without SQLite database: "
                         +:+ ref_path r)).
Proof.
  induction ch as [|[k [d|r|]] ch IH]; cbn; [done| | |].
  - intros (r & Hr & ->)%IH. by exists r.
  - intros _. exists r. split; [left|done].
  - intros (r & Hr & ->)%IH. by exists r.
Qed.

Lemma resolveChunk_None_done ch :
  extractRefs ch = [] → ∃ row, resolveChunk ch None = Done row.
Proof.
  induction ch as [|[k [d|r|]] ch IH]; cbn; [by eexists| |done|done].
  intros [row ->]%IH. by eexists.
Qed.

Lemma omapM_resolve_None_throws chunks :
  Exists (fun ch => extractRefs ch ≠ []) chunks →
  ∃ r, r ∈ chunks ≫= extractRefs ∧
       omapM (fun ch => resolveChunk ch None) chunks
       = Throw (JsError ("Cannot resolve ref without SQLite database: "
                         +:+ ref_path r)).
Proof.
  induction chunks as [|ch chunks IH]; [by intros ?%Exists_nil|].
  intros Hex. cbn.
  destruct (extractRefs ch) as [|r0 refs] eqn:Hrefs.
  - apply Exists_cons in Hex as [?|Hex]; [done|].
    destruct (resolveChunk_None_done ch Hrefs) as [row ->].
    destruct (IH Hex) as (r & Hr & ->). by exists r.
  - destruct (resolveChunk_None_throws ch) as (r & Hr & ->);
      [by rewrite Hrefs|].
    exists r. split; [|done]. apply elem_of_app. left. by rewrite <- Hrefs.
Qed.

Lemma hasRefs_empty cfg : refsConfig cfg = [] → hasRefs cfg = false.
Proof. unfold hasRefs. intros ->. by apply bool_decide_eq_false_2; intros []. Qed.

Lemma row_ids_of_chunk stream c :
  c ∈ stream → ∃ i, (tag c, i, chunkData c) ∈ row_ids stream.
Proof.
  unfold row_ids. generalize (@nil StreamChunk).
  induction stream as [|c0 stream IH]; intros seen;
    [by intros ?%not_elem_of_nil|].
  cbn. intros [->|Hin]%elem_of_cons.
  - eexists. left.
  - destruct (IH (seen ++ [c0]) Hin) as [i Hi]. exists i. by right.
Qed.

(** A run over a stream with a reference, for a seeder with no declared
    column, does not complete: it ends with an error, and that error is a
    rejected insert, an unknown table, or the complaint about a reference
    of the stream. *)
Lemma execute_without_refs_config cfg fuel stream c :
  hasRefs cfg = false → (length stream < fuel)%nat →
  c ∈ stream → extractRefs (chunkData c) ≠ [] →
  ∃ e, (execute cfg fuel stream initial).1 = Throw e ∧
       ((∃ t, e = PersistenceFailure t) ∨
        (∃ t, (t ∉ schema cfg) ∧
              e = JsError ("Table " +:+ dquote +:+ t +:+ dquote
                           +:+ " not found in schema")) ∨
        (∃ r, r ∈ stream_refs stream ∧
              e = JsError ("Cannot resolve ref without SQLite database: "
                           +:+ ref_path r))).
Proof.
  intros Hempty Hfuel Hc Hrefs.
  pose proof (execute_run cfg stream fuel Hfuel) as H. unfold wp in H.
  destruct (execute cfg fuel stream initial) as [[[]|e|] w']; cbn.
  - exfalso. destruct H as ([_ _ Hres _] & Hperm & _).
    destruct (row_ids_of_chunk stream c Hc) as [i Hi].
    rewrite Hperm in Hi. unfold logged in Hi.
    apply list_elem_of_bind in Hi as (call & Hi & Hcall).
    unfold call_rows in Hi.
    apply list_elem_of_fmap in Hi as ([i' ch] & [= _ _ <-] & Hzip).
    apply elem_of_zip_r in Hzip.
    destruct (proj1 (Forall_forall _ _) Hres call Hcall)
      as (db & Hdb & Hdone).
    destruct db as [db|].
    { rewrite Hempty in Hdb. by destruct (proj1 Hdb (mk_is_Some _ _ eq_refl)). }
    destruct (omapM_resolve_None_throws (ic_batch call)) as (r & _ & Hthrow).
    { apply Exists_exists. by exists (chunkData c). }
    by rewrite Hthrow in Hdone.
  - exists e. split; [done|].
    destruct H as [(err & [= <-] & Hraised) _].
    destruct Hraised as [t|t Ht|r Hn Hr|ts Hh|m Hh|Hh|Hh];
      try (by rewrite Hempty in Hh).
    + left. by exists t.
    + right. left. by exists t.
    + right. right. by exists r.
  - by destruct H as [(err & ? & _) _].
Qed.

(** C10. With an empty refs configuration the scratch database is not
    created; a chunk that holds a reference is pushed on the batch of its
    table like any other, and no queue changes; the flush of a batch that
    holds such a chunk raises [Cannot resolve ref without SQLite database]
    for a reference of the batch, before anything is inserted; and a run
    over a stream with such a chunk never completes: it ends with an error,
    which is that complaint for a reference of the stream unless an earlier
    insert was rejected or a table is unknown. *)
Theorem C10_reference_without_refs_config cfg :
  refsConfig cfg = [] →
  sqliteDb (start cfg) = None ∧
  (∀ c w w',
     enqueue cfg c w = (Done tt, w') →
     batch_of w' (tag c) = batch_of w (tag c) ++ [chunkData c] ∧
     ∀ n, queue_of w' n = queue_of w n) ∧
  (∀ name w st,
     sqliteDb w = None →
     assoc name (tableStates w) = Some st → name ∈ schema cfg →
     Exists (fun ch => extractRefs ch ≠ []) (batch st) →
     ∃ r, r ∈ batch st ≫= extractRefs ∧
          flush cfg name w
          = (Throw (JsError ("Cannot resolve ref without SQLite database: "
                             +:+ refTableName r +:+ "["
                             +:+ pretty (refRowIndex r) +:+ "]."
                             +:+ refColumnName r)), w)) ∧
  (∀ fuel stream c,
     (length stream < fuel)%nat →
     c ∈ stream → extractRefs (chunkData c) ≠ [] →
     ∃ e, (execute cfg fuel stream initial).1 = Throw e ∧
          ((∃ t, e = PersistenceFailure t) ∨
           (∃ t, (t ∉ schema cfg) ∧
                 e = JsError ("Table " +:+ dquote +:+ t +:+ dquote
                              +:+ " not found in schema")) ∨
           (∃ r, r ∈ stream_refs stream ∧
                 e = JsError ("Cannot resolve ref without SQLite database: "
                              +:+ refTableName r +:+ "["
                              +:+ pretty (refRowIndex r) +:+ "]."
                              +:+ refColumnName r)))).
Proof.
  intros Hempty%hasRefs_empty. split; [|split; [|split]].
  4: { intros fuel stream c. by apply execute_without_refs_config. }
  - unfold start, open_store. by rewrite Hempty.
  - intros c w w'. apply enqueue_batches. by rewrite Hempty.
  - intros name w st Hdb Hst Hschema Hex.
    destruct (omapM_resolve_None_throws _ Hex) as (r & Hr & Hthrow).
    exists r. split; [done|].
    unfold flush, bind at 1, get_table. rewrite Hst.
    rewrite bool_decide_eq_false_2
      by (destruct (batch st); [by apply Exists_nil in Hex|done]).
    rewrite bool_decide_eq_true_2 by done.
    unfold bind at 1, gets. rewrite Hdb.
    unfold bind at 1, lift. by rewrite Hthrow.
Qed.

Lemma C10_review_witness :
  batch_of (enqueue no_refs_seeder review_chunk (start no_refs_seeder)).2
           "reviews"
  = [[("bookId", Reference (ref_books 0))]] ∧
  queue_of (enqueue no_refs_seeder review_chunk (start no_refs_seeder)).2
           "reviews" = [] ∧
  ∃ r, flush no_refs_seeder "reviews"
         (enqueue no_refs_seeder review_chunk (start no_refs_seeder)).2
       = (Throw (JsError ("Cannot resolve ref without SQLite database: "
                          +:+ refTableName r +:+ "["
                          +:+ pretty (refRowIndex r) +:+ "]."
                          +:+ refColumnName r)),
          (enqueue no_refs_seeder review_chunk (start no_refs_seeder)).2).
Proof.
  destruct (C10_reference_without_refs_config no_refs_seeder eq_refl)
    as (_ & Henq & Hflush & _).
  destruct (Henq review_chunk (start no_refs_seeder)
              (enqueue no_refs_seeder review_chunk (start no_refs_seeder)).2)
    as [Hb Hq]; [vm_compute; reflexivity|].
  split; [exact Hb|]. split; [exact (Hq "reviews")|].
  destruct (Hflush "reviews"
              (enqueue no_refs_seeder review_chunk (start no_refs_seeder)).2
              review_state) as (r & _ & Hr).
  - vm_compute. reflexivity.
  - vm_compute. reflexivity.
  - right. left.
  - left. vm_compute. discriminate.
  - by exists r.
Defined.

Lemma C9_drain_witness :
  (drainAllQueues 3 drain_world).1 = Done true ∧
  drainAllQueues 1 (drainAllQueues 3 drain_world).2
  = (Done false, (drainAllQueues 3 drain_world).2).
Proof.
  split; [vm_compute; reflexivity|].
  apply (C9_drainAllQueues_idempotent 3 drain_world true).
  - vm_compute. reflexivity.
  - lia.
Defined.

(** ** The report covers every reference of every stuck chunk *)

(** C5. When the stream loop and the finalizer's loop have run and a table is
    left with a non-empty queue, [execute] raises one error; its message is
    the header followed by the joined lines; and for every table, every chunk
    still queued and every reference that chunk holds (its pending
    references, the unresolved ones among them), the line naming the table,
    the row, and the target table, row and column is one of the lines and
    occurs in the message. (Between the row and its target the line has the
    arrow of the seeder's source file: the file of the Postgres seeder holds
    it misencoded.) *)
Theorem C5_all_stuck_chunks_reported cfg fuel stream w1 w tableName st :
  (length stream < fuel)%nat →
  forM_ stream (process_chunk cfg fuel) (start cfg) = (Done tt, w1) →
  finalize cfg fuel w1 = (Done tt, w) →
  assoc tableName (tableStates w) = Some st →
  queue st ≠ [] →
  execute cfg fuel stream initial
    = (Throw (JsError (getUnresolvedRefsError cfg (tableStates w))),
       set_sqliteDb None w) ∧
  getUnresolvedRefsError cfg (tableStates w)
    = "Failed to resolve refs (possible circular dependency):" +:+ newline
      +:+ String.concat newline (unresolved_lines cfg (tableStates w)) ∧
  ∀ name st' queued,
    (name, st') ∈ tableStates w → queued ∈ queue st' →
    pendingRefs queued = extractRefs (chunk queued) ∧
    pendingRefs queued ≠ [] ∧
    ∀ ref, ref ∈ extractRefs (chunk queued) →
      unresolved_line cfg name queued ref
      ∈ unresolved_lines cfg (tableStates w) ∧
      unresolved_line cfg name queued ref
      = name +:+ "[" +:+ pretty (rowIndex queued) +:+ "] "
        +:+ match dialect cfg with Sqlite => "→" | Postgres => "â†’" end
        +:+ " " +:+ refTableName ref +:+ "[" +:+ pretty (refRowIndex ref)
        +:+ "]." +:+ refColumnName ref ∧
      mentions (getUnresolvedRefsError cfg (tableStates w))
               (unresolved_line cfg name queued ref).
Proof.
  intros Hfuel Hloop Hfin Hst Hq.
  assert (opens cfg) as Hopen.
  { destruct (opens_dec cfg) as [?|Hno]; [done|]. destruct Hq.
    eapply (closed_run cfg fuel stream w1 w Hno Hloop Hfin).
    by apply assoc_Some_elem_of. }
  split; [|split; [done|]].
  - destruct Hopen as [db Hdb]. rewrite (execute_opened _ _ _ _ Hdb).
    unfold execute_body, bind. rewrite Hloop, Hfin.
    rewrite check_stuck_throws; [done|].
    apply Exists_exists. exists tableName. split; [|by exists st].
    apply list_elem_of_fmap. exists (tableName, st).
    split; [done|]. by apply assoc_Some_elem_of.
  - assert (Weak cfg stream w) as [_ _ _ Hrefs].
    { pose proof (stream_loop_Strong cfg stream fuel Hfuel [] stream
                    (start cfg) (Strong_start' cfg stream Hopen) eq_refl)
        as H1.
      unfold wp in H1. rewrite Hloop in H1.
      pose proof (finalize_Strong cfg stream fuel Hfuel stream w1 H1) as H2.
      unfold wp in H2. rewrite Hfin in H2. by destruct H2 as [[] _]. }
    intros name st' queued Ht Hqd.
    destruct (proj1 (Forall_forall _ _) Hrefs (name, st') Ht queued Hqd)
      as (Hpend & Hne & _).
    split; [done|]. split; [done|]. intros ref Hr. rewrite <- Hpend in Hr.
    pose proof (unresolved_lines_complete cfg _ _ _ _ _ Ht Hqd Hr) as Hin.
    split; [done|]. split; [done|].
    unfold getUnresolvedRefsError.
    by apply mentions_app_r, mentions_app_r, mentions_concat.
Qed.

Lemma C5_notes_witness :
  (execute notes_seeder 2 notes_stream initial).1
  = Throw (JsError
      ("Failed to resolve refs (possible circular dependency):" +:+ newline
       +:+ "notes[0] â†’ books[5].id")) ∧
  mentions
    ("Failed to resolve refs (possible circular dependency):" +:+ newline
     +:+ "notes[0] â†’ books[5].id")
    "notes[0] â†’ books[5].id".
Proof.
  destruct (C5_all_stuck_chunks_reported notes_seeder 2 notes_stream
              (forM_ notes_stream (process_chunk notes_seeder 2)
                     (start notes_seeder)).2
              (execute_body notes_seeder 2 notes_stream
                 (start notes_seeder)).2
              "notes" notes_stuck_state)
    as (Hrun & _ & Hlines).
  - vm_compute. lia.
  - vm_compute. reflexivity.
  - vm_compute. reflexivity.
  - vm_compute. reflexivity.
  - vm_compute. discriminate.
  - split; [by rewrite Hrun|].
    destruct (Hlines "notes" notes_stuck_state
                {| chunk := [("bookId", Reference (ref_books 5))];
                   rowIndex := 0; pendingRefs := [ref_books 5] |})
      as (_ & _ & Hline).
    + vm_compute. left.
    + left.
    + apply (Hline (ref_books 5)). left.
Defined.

(** * Construction *)

Lemma split_not_nil sep s : split sep s ≠ [].
Proof.
  destruct s as [|c s]; cbn; [done|]. case_decide; [done|].
  by destruct (split sep s).
Qed.

Lemma elem_of_set_add c s x : x ∈ set_add c s ↔ x ∈ s ∨ x = c.
Proof.
  unfold set_add. case_bool_decide as Hc.
  - split; [by left|]. by intros [?| ->].
  - rewrite elem_of_app, list_elem_of_singleton. done.
Qed.

Lemma set_add_NoDup c s : NoDup s → NoDup (set_add c s).
Proof.
  unfold set_add. case_bool_decide as Hc; [done|].
  intros Hnd. apply NoDup_app. split; [done|]. split.
  - intros x Hx ->%list_elem_of_singleton. done.
  - apply NoDup_singleton.
Qed.

(** What one reference string adds to the map. *)
Lemma add_ref_cases refsConfig ref :
  (add_ref refsConfig ref = refsConfig ∧ ∀ t c, ¬ declares ref t c) ∨
  ∃ table column,
    (∀ t c, declares ref t c ↔ t = table ∧ c = column) ∧
    table ≠ EmptyString ∧ column ≠ EmptyString ∧
    add_ref refsConfig ref
    = alter_assoc (set_add column) table
        (if bool_decide (is_Some (assoc table refsConfig)) then refsConfig
         else refsConfig ++ [(table, [])]).
Proof.
  unfold add_ref, declares.
  destruct (split dot ref) as [|p0 [|p1 rest]] eqn:Hsplit.
  - by apply split_not_nil in Hsplit.
  - left. cbn. rewrite andb_false_r. split; [done|].
    by intros t c (_ & _ & rest & ?).
  - cbn. case_bool_decide as H0; cbn; [case_bool_decide as H1; cbn|].
    + right. exists p0, p1. split; [|done].
      intros t c. split.
      * by intros (_ & _ & rest' & [= -> -> _]).
      * intros [-> ->]. split; [done|]. split; [done|]. by exists rest.
    + left. split; [done|]. intros t c (_ & Hc & rest' & [= _ -> _]).
      apply Hc. by apply dec_stable.
    + left. split; [done|]. intros t c (Ht & _ & rest' & [= -> _ _]).
      apply Ht. by apply dec_stable.
Qed.

Lemma add_ref_referenceable refsConfig ref t c :
  referenceable (add_ref refsConfig ref) t c
  ↔ referenceable refsConfig t c ∨ declares ref t c.
Proof.
  destruct (add_ref_cases refsConfig ref)
    as [[-> Hno]|(table & column & Hdecl & _ & _ & ->)].
  { split; [by left|]. intros [?|?]; [done|]. by destruct (Hno t c). }
  rewrite Hdecl. unfold referenceable. setoid_rewrite assoc_alter.
  destruct (decide (t = table)) as [->|Hne].
  - case_bool_decide as Hhas.
    + destruct Hhas as [cols Hcols]. rewrite Hcols. cbn. split.
      * intros (cols' & [= <-] & Hin%elem_of_set_add).
        destruct Hin as [?| ->]; [left; by exists cols|by right].
      * intros [(cols' & [= <-] & Hin)|[_ ->]];
          (eexists; split; [done|]); apply elem_of_set_add; auto.
    + apply eq_None_not_Some in Hhas. rewrite assoc_app, Hhas. cbn.
      rewrite decide_True by done. cbn. split.
      * intros (cols' & [= <-] & Hin%elem_of_set_add).
        destruct Hin as [Hin| ->]; [by apply not_elem_of_nil in Hin|by right].
      * intros [(cols' & ? & _)|[_ ->]]; [done|].
        eexists. split; [done|]. apply elem_of_set_add. by right.
  - assert (assoc t (if bool_decide (is_Some (assoc table refsConfig))
                     then refsConfig else refsConfig ++ [(table, [])])
            = assoc t refsConfig) as ->.
    { case_bool_decide; [done|]. rewrite assoc_app.
      destruct (assoc t refsConfig); [done|]. cbn.
      by rewrite decide_False by done. }
    split; [by left|]. by intros [?|[? _]].
Qed.


Lemma parse_refs_referenceable refs table column :
  referenceable (parse_refs (Some refs)) table column
  ↔ ∃ ref, ref ∈ refs ∧ declares ref table column.
Proof.
  cbn. induction refs as [|ref refs IH] using rev_ind.
  - cbn. split.
    + by intros (cols & ? & _).
    + by intros (ref & ?%not_elem_of_nil & _).
  - rewrite foldl_app. cbn. rewrite add_ref_referenceable, IH. split.
    + intros [(r & Hr & Hd)|Hd].
      * exists r. split; [|done]. apply elem_of_app. by left.
      * exists ref. split; [|done]. apply elem_of_app. right. left.
    + intros (r & [Hr|Hr]%elem_of_app & Hd).
      * left. by exists r.
      * apply list_elem_of_singleton in Hr as ->. by right.
Qed.

Lemma split_no_sep sep s : has_char sep s = false → split sep s = [s].
Proof.
  induction s as [|c s IH]; cbn [split has_char]; [done|].
  intros [Hc Hs]%orb_false_elim. apply bool_decide_eq_false in Hc.
  rewrite decide_False by done. by rewrite IH.
Qed.

Lemma split_app_sep sep s1 s2 :
  has_char sep s1 = false →
  split sep (s1 +:+ String sep s2) = s1 :: split sep s2.
Proof.
  induction s1 as [|c s1 IH].
  - intros _. change (split sep (String sep s2) = EmptyString :: split sep s2).
    cbn [split]. by rewrite decide_True.
  - cbn [has_char]. intros [Hc Hs]%orb_false_elim.
    apply bool_decide_eq_false in Hc.
    change (split sep (String c (s1 +:+ String sep s2))
            = String c s1 :: split sep s2).
    cbn [split]. rewrite decide_False by done. by rewrite IH.
Qed.

(** X1. The constructor declares a column of a table referenceable exactly
    when one of the strings of [refs] splits at its dots into that table,
    that column and possibly more, neither empty: a string with no dot, or
    with nothing before or after its first dot, declares nothing. In
    particular the string [table.column] declares [column] of [table] when
    both are non-empty and hold no dot. *)
Theorem X1_constructor_declares_what_refs_name d db schema refs table column :
  let this := seed d db {| gen_schema := schema; gen_refs := Some refs |} in
  (referenceable (refsConfig this) table column
   ↔ ∃ ref, ref ∈ refs ∧ declares ref table column) ∧
  (table ≠ EmptyString → column ≠ EmptyString →
   has_char dot table = false → has_char dot column = false →
   table +:+ "." +:+ column ∈ refs →
   referenceable (refsConfig this) table column).
Proof.
  cbn zeta. split; [apply parse_refs_referenceable|].
  intros Ht Hc Hdt Hdc Hin. apply parse_refs_referenceable.
  exists (table +:+ "." +:+ column). split; [done|].
  split; [done|]. split; [done|]. exists [].
  change (split dot (table +:+ String dot column) = [table; column]).
  by rewrite split_app_sep, split_no_sep.
Qed.

Lemma X1_constructor_declares_what_refs_name_witness :
  referenceable
    (refsConfig (seed Sqlite (fun _ _ _ => true)
                   {| gen_schema := ["books"; "reviews"];
                      gen_refs := Some ["books.id"; "reviews"] |}))
    "books" "id".
Proof.
  apply (X1_constructor_declares_what_refs_name Sqlite (fun _ _ _ => true)
           ["books"; "reviews"] ["books.id"; "reviews"] "books" "id");
    [done|done|reflexivity|reflexivity|left].
Defined.

Lemma Forall_alter_assoc_key {A} (P : string * A → Prop) f k l :
  NoDup l.*1 → Forall (fun x => x.1 ≠ k → P x) l →
  (∀ v, assoc k l = Some v → P (k, f v)) →
  Forall P (alter_assoc f k l).
Proof.
  induction l as [|[k0 v0] l IH]; cbn; [done|].
  intros [Hk0 Hnd]%NoDup_cons [H0 Hl]%Forall_cons Hf. case_decide; subst.
  - constructor; [by apply Hf|].
    apply Forall_forall. intros x Hx.
    apply (proj1 (Forall_forall _ _) Hl x Hx).
    intros <-. apply Hk0, list_elem_of_fmap. by exists x.
  - constructor; [by apply H0|]. by apply IH.
Qed.

Lemma set_add_not_nil c s : set_add c s ≠ [].
Proof.
  unfold set_add. case_bool_decide as Hc.
  - intros ->. by apply not_elem_of_nil in Hc.
  - by destruct s.
Qed.

Lemma add_ref_refs_map refsConfig ref :
  refs_map refsConfig → refs_map (add_ref refsConfig ref).
Proof.
  intros [Hnd Hall].
  destruct (add_ref_cases refsConfig ref)
    as [[-> _]|(table & column & _ & Ht & Hc & ->)]; [done|].
  set (cfg' := if bool_decide (is_Some (assoc table refsConfig))
               then refsConfig else refsConfig ++ [(table, [])]).
  assert (NoDup cfg'.*1) as Hnd'.
  { unfold cfg'. case_bool_decide as Hhas; [done|].
    apply eq_None_not_Some, assoc_None_not_elem in Hhas.
    rewrite fmap_app. apply NoDup_app. split; [done|]. split.
    - intros x Hx ->%list_elem_of_singleton. done.
    - apply NoDup_singleton. }
  split; [by rewrite alter_assoc_fst|].
  apply Forall_alter_assoc_key; [done|..].
  - unfold cfg'. case_bool_decide.
    + eapply Forall_impl; [exact Hall|]. by intros x Hx _.
    + apply Forall_app. split.
      * eapply Forall_impl; [exact Hall|]. by intros x Hx _.
      * constructor; [|constructor]. by intros [].
  - intros v Hv. cbn. split; [done|]. split; [apply set_add_not_nil|].
    assert (NoDup v ∧ EmptyString ∉ v) as [Hv1 Hv2].
    { unfold cfg' in Hv. case_bool_decide as Hhas.
      - apply assoc_Some_elem_of in Hv.
        by destruct (proj1 (Forall_forall _ _) Hall _ Hv) as (_ & _ & ? & ?).
      - apply eq_None_not_Some in Hhas. rewrite assoc_app, Hhas in Hv.
        cbn in Hv. rewrite decide_True in Hv by done. injection Hv as <-.
        split; [constructor|apply not_elem_of_nil]. }
    split; [by apply set_add_NoDup|].
    intros [?|?]%elem_of_set_add; congruence.
Qed.

Lemma parse_refs_refs_map refineConfig : refs_map (parse_refs refineConfig).
Proof.
  destruct refineConfig as [refs|]; cbn; [|by split; constructor].
  induction refs as [|ref refs IH] using rev_ind; [by split; constructor|].
  rewrite foldl_app. cbn. by apply add_ref_refs_map.
Qed.

(** X2. The map the constructor builds lists no table twice, and lists
    under every table a non-empty set of distinct, non-empty column names;
    so that the size test of [flush] never fails on an entry. A scratch
    database is asked for ([hasRefs]) exactly when some string of [refs]
    declares a column. *)
Theorem X2_constructor_builds_a_map d db generator :
  let this := seed d db generator in
  NoDup (refsConfig this).*1 ∧
  Forall (fun x => x.1 ≠ EmptyString ∧ (0 < length x.2)%nat ∧ NoDup x.2 ∧
                   EmptyString ∉ x.2)
         (refsConfig this) ∧
  (hasRefs this = true
   ↔ ∃ refs ref table column,
       gen_refs generator = Some refs ∧ ref ∈ refs ∧
       declares ref table column).
Proof.
  cbn zeta. destruct (parse_refs_refs_map (gen_refs generator)) as [Hnd Hall].
  split; [done|]. split.
  { eapply Forall_impl; [exact Hall|]. intros [t cols] (? & ? & ? & ?).
    split; [done|]. split; [|done]. cbn in *. destruct cols; [done|].
    cbn. lia. }
  unfold hasRefs. rewrite bool_decide_eq_true. cbn [refsConfig seed].
  split.
  - destruct (parse_refs (gen_refs generator)) as [|[t cols] rest] eqn:Hcfg;
      [done|]. intros _.
    apply Forall_cons in Hall as [(_ & Hne & _) _]. cbn in Hne.
    destruct cols as [|c cols]; [done|].
    destruct (gen_refs generator) as [refs|] eqn:Hrefs; [|done].
    assert (referenceable (parse_refs (Some refs)) t c) as Href.
    { rewrite Hcfg. exists (c :: cols). cbn. rewrite decide_True by done.
      split; [done|left]. }
    apply parse_refs_referenceable in Href as (ref & Hin & Hd).
    by exists refs, ref, t, c.
  - intros (refs & ref & t & c & Hrefs & Hin & Hd). rewrite Hrefs.
    assert (referenceable (parse_refs (Some refs)) t c) as (cols & Hcols & _).
    { apply parse_refs_referenceable. by exists ref. }
    intros Hnil. by rewrite Hnil in Hcols.
Qed.

(** ** The scratch database when it is created *)

Lemma index_name_prefix s :
  String.prefix "idx_" (sql_name (index_name s)) = true.
Proof.
  unfold index_name. unfold String.append at 1. fold String.append.
  cbn [sql_name String.prefix]. vm_compute (lower _).
  repeat (destruct (Ascii.ascii_dec _ _); [|done]). by destruct (sql_name _).
Qed.

Lemma duplicate_column_None seen cols :
  (∀ c, c ∈ cols → sql_name c ∉ seen) → NoDup (sql_name <$> cols) →
  duplicate_column seen cols = None.
Proof.
  revert seen. induction cols as [|c cols IH]; intros seen Hseen Hnd; [done|].
  cbn. apply NoDup_cons in Hnd as [Hc Hnd].
  rewrite bool_decide_eq_false_2 by (apply Hseen; left).
  apply IH; [|done]. intros c' Hc' [Heq|Hin]%elem_of_cons.
  - apply Hc. rewrite <- Heq. apply list_elem_of_fmap. by exists c'.
  - apply (Hseen c'); [by right|done].
Qed.

Lemma plain_table_spec t :
  plain_table t = true →
  reserved t = false ∧ String.prefix "idx_" (sql_name t) = false.
Proof.
  unfold plain_table. intros [[_ H1]%andb_true_iff H2]%andb_true_iff.
  split; by apply negb_true_iff.
Qed.

Lemma tables_of_keys l :
  ((fun x : string * list string => (sql_name x.1, fresh_table x.1 x.2))
     <$> l).*1 = sql_name <$> l.*1.
Proof. rewrite <- !list_fmap_compose. by apply list_fmap_ext. Qed.

Lemma tables_of_lookup l k tb :
  tables_of l !! k = Some tb →
  ∃ t cols, (t, cols) ∈ l ∧ k = sql_name t ∧ tb = fresh_table t cols.
Proof.
  intros Hin%elem_of_list_to_map_2.
  apply list_elem_of_fmap in Hin as ([t cols] & [= -> ->] & Hin).
  by exists t, cols.
Qed.

Lemma tables_of_elem l t cols :
  NoDup (sql_name <$> l.*1) → (t, cols) ∈ l →
  tables_of l !! sql_name t = Some (fresh_table t cols).
Proof.
  intros Hnd Hin. apply elem_of_list_to_map_1.
  - by rewrite tables_of_keys.
  - apply list_elem_of_fmap. by exists (t, cols).
Qed.

Lemma tables_of_snoc l t cols :
  sql_name t ∉ (sql_name <$> l.*1) →
  tables_of (l ++ [(t, cols)])
  = <[sql_name t := fresh_table t cols]> (tables_of l).
Proof.
  intros Hnew. unfold tables_of. rewrite fmap_app. cbn.
  apply list_to_map_snoc. by rewrite tables_of_keys.
Qed.

Lemma Tidy_prefix l1 l2 : Tidy (l1 ++ l2) → Tidy l1.
Proof.
  intros [Ht Hn Hc]. split.
  - rewrite fmap_app, fmap_app in Ht. by apply NoDup_app in Ht as [? _].
  - intros t cols Hin. apply (Hn t cols), elem_of_app. by left.
  - intros t cols Hin. apply (Hc t cols), elem_of_app. by left.
Qed.

Lemma create_table_tidy done t cols :
  Tidy (done ++ [(t, cols)]) →
  create_table (tables_of done) t cols
  = Done (tables_of (done ++ [(t, cols)])).
Proof.
  intros Htidy. pose proof (Tidy_prefix _ _ Htidy) as Hdone.
  destruct Htidy as [Ht Hn Hc].
  assert ((t, cols) ∈ done ++ [(t, cols)]) as Hin
    by (apply elem_of_app; right; left).
  destruct (Hn t cols Hin) as [[Hres Hidx]%plain_table_spec _].
  destruct (Hc t cols Hin) as [Hnd _].
  rewrite fmap_cons in Hnd. apply NoDup_cons in Hnd as [Hkey Hnd].
  rewrite fmap_app, fmap_app in Ht. cbn in Ht.
  apply NoDup_app in Ht as (_ & Hnew & _).
  assert (sql_name t ∉ sql_name <$> done.*1) as Hnew'.
  { intros Hold. apply (Hnew _ Hold). left. }
  unfold create_table. rewrite Hres.
  destruct (tables_of done !! sql_name t) as [tb|] eqn:Htb.
  { apply tables_of_lookup in Htb as (t0 & cols0 & Hin0 & Heq & _).
    destruct Hnew'. rewrite Heq. apply list_elem_of_fmap. exists t0.
    split; [done|]. apply list_elem_of_fmap. by exists (t0, cols0). }
  assert (existsb
            (fun x : string * RefTable =>
               bool_decide (sql_name (index_name (created_as x.2))
                            = sql_name t))
            (map_to_list (tables_of done)) = false) as ->.
  { apply not_true_iff_false. intros (x & _ & Hx)%existsb_exists.
    apply bool_decide_eq_true in Hx.
    pose proof (index_name_prefix (created_as x.2)) as Hp.
    rewrite Hx in Hp. congruence. }
  rewrite duplicate_column_None; cycle 1.
  { intros c Hc' Heq%list_elem_of_singleton. apply Hkey.
    rewrite <- Heq. apply list_elem_of_fmap. by exists c. }
  { done. }
  rewrite bool_decide_eq_false_2; cycle 1.
  { intros [tb (t0 & cols0 & Hin0 & Heq & _)%tables_of_lookup].
    destruct (tidy_names _ Hdone t0 cols0 Hin0)
      as [[_ Hidx0]%plain_table_spec _].
    pose proof (index_name_prefix t) as Hp. rewrite Heq in Hp. congruence. }
  by rewrite tables_of_snoc.
Qed.

Lemma create_tables_tidy done rest :
  Tidy (done ++ rest) →
  create_tables (tables_of done) rest = Done (tables_of (done ++ rest)).
Proof.
  revert done. induction rest as [|[t cols] rest IH]; intros done Htidy.
  - by rewrite app_nil_r.
  - cbn. rewrite create_table_tidy; cycle 1.
    { apply (Tidy_prefix _ rest). by rewrite <- app_assoc. }
    cbn. rewrite IH by (by rewrite <- app_assoc). by rewrite <- app_assoc.
Qed.

(** A tidy configuration gives the scratch database its tables, as
    declared and empty. *)
Lemma createRefDatabase_tidy refsConfig :
  Tidy refsConfig → createRefDatabase refsConfig = Done (tables_of refsConfig).
Proof. intros Htidy. by apply (create_tables_tidy []). Qed.

(** X3. When the tables and columns that [refs] declare are tidy, the
    scratch database is created, and before any row is stored: a reference
    to a declared column of a declared table is found missing without an
    error and resolves to [undefined]; a reference to a table whose name is
    that of no declared table, whatever the case of its letters, makes both
    queries fail with an error of the database. *)
Theorem X3_fresh_store_answers d db schema refs r :
  let this := seed d db {| gen_schema := schema; gen_refs := Some refs |} in
  Tidy (refsConfig this) →
  ∃ store,
    createRefDatabase (refsConfig this) = Done store ∧
    ((∃ ref, ref ∈ refs ∧ declares ref (refTableName r) (refColumnName r)) →
     refExists r store = Done false ∧ resolveRef r store = Done DUndefined) ∧
    ((∀ ref table column,
        ref ∈ refs → declares ref table column →
        sql_name table ≠ sql_name (refTableName r)) →
     has_char double_quote (refTableName r) = false →
     ∃ m1 m2, refExists r store = Throw (SqliteError m1) ∧
              resolveRef r store = Throw (SqliteError m2)).
Proof.
  cbn zeta. cbn [refsConfig seed gen_refs]. intros Htidy.
  exists (tables_of (parse_refs (Some refs))).
  split; [by apply createRefDatabase_tidy|]. split.
  - intros (cols & Hcols & Hin)%parse_refs_referenceable.
    apply assoc_Some_elem_of in Hcols.
    pose proof (tables_of_elem _ _ _ (tidy_tables _ Htidy) Hcols) as Htb.
    unfold refExists, resolveRef, find_column. rewrite Htb. cbn.
    rewrite lookup_empty.
    rewrite bool_decide_eq_false_2 by (by intros []).
    by rewrite bool_decide_eq_true_2.
  - intros Hno _.
    assert (tables_of (parse_refs (Some refs)) !! sql_name (refTableName r)
            = None) as Hnone.
    { destruct (tables_of _ !! _) as [tb|] eqn:Htb; [|done].
      apply tables_of_lookup in Htb as (t0 & cols & Hin & Heq & _).
      destruct (parse_refs_refs_map (Some refs)) as [Hnd Hall].
      destruct (proj1 (Forall_forall _ _) Hall _ Hin) as (_ & Hne & _).
      cbn in Hne. destruct cols as [|c cols]; [done|].
      assert (referenceable (parse_refs (Some refs)) t0 c)
        as (ref & Href & Hd)%parse_refs_referenceable.
      { exists (c :: cols). split; [by apply elem_of_assoc|left]. }
      by destruct (Hno ref t0 c). }
    unfold refExists, resolveRef. rewrite Hnone. by eexists _, _.
Qed.

Lemma X3_fresh_store_answers_witness :
  ∃ store,
    createRefDatabase
      (refsConfig (seed Sqlite (fun _ _ _ => true)
                     {| gen_schema := ["books"];
                        gen_refs := Some ["books.id"] |})) = Done store ∧
    resolveRef (columnValueReference "id" "books" 0 (fun v => v)) store
    = Done DUndefined ∧
    ∃ m, refExists (columnValueReference "id" "Notes" 0 (fun v => v)) store
         = Throw (SqliteError m).
Proof.
  assert (Tidy [("books", ["id"])]) as Htidy0.
  { split.
    - vm_compute. apply NoDup_singleton.
    - intros t cols [= -> ->]%list_elem_of_singleton. split; [done|].
      by intros c ->%list_elem_of_singleton.
    - intros t cols [= -> ->]%list_elem_of_singleton.
      split; [|cbn [length]; lia].
      apply (bool_decide_unpack (NoDup (sql_name <$> ["_rowIndex"; "id"]))).
      vm_compute. exact I. }
  assert (Tidy (refsConfig (seed Sqlite (fun _ _ _ => true)
                              {| gen_schema := ["books"];
                                 gen_refs := Some ["books.id"] |})))
    as Htidy by exact Htidy0.
  destruct (X3_fresh_store_answers Sqlite (fun _ _ _ => true) ["books"]
              ["books.id"]
              (columnValueReference "id" "books" 0 (fun v => v)) Htidy)
    as (store & Hstore & Hdeclared & _).
  destruct (X3_fresh_store_answers Sqlite (fun _ _ _ => true) ["books"]
              ["books.id"]
              (columnValueReference "id" "Notes" 0 (fun v => v)) Htidy)
    as (store' & Hstore' & _ & Hother).
  assert (store' = store) as -> by congruence.
  exists store. split; [done|]. split.
  - apply Hdeclared. exists "books.id". split; [left|].
    split; [done|]. split; [done|]. by exists [].
  - destruct Hother as (m1 & m2 & Hm1 & _); [|done|by exists m1].
    intros ref table column ->%list_elem_of_singleton (_ & _ & rest & Hs).
    vm_compute in Hs. injection Hs as <- _. vm_compute. discriminate.
Defined.

(** * [reset] *)

Lemma no_PgTable_omap {A} (f : SchemaEntity → option A)
  (schema : list (string * SchemaEntity)) :
  (∀ ent, (∀ name pgSchema, ent ≠ PgTable name pgSchema) → f ent = None) →
  Forall (fun x => ∀ name pgSchema, x.2 ≠ PgTable name pgSchema) schema →
  omap f schema.*2 = [].
Proof.
  intros Hf. induction 1 as [|[k ent] l Hent _ IH]; [done|].
  cbn. by rewrite (Hf ent Hent), IH.
Qed.

(** X4. On a schema that exports no Postgres table, SQLite tables included,
    the SQLite [reset] deletes from no table: whatever the database answers,
    the statements it runs are the two [PRAGMA]s, and when the database
    accepts both these are all it ran. *)
Theorem X4_sqlite_reset_deletes_nothing db schema ran :
  Forall (fun x => ∀ name pgSchema, x.2 ≠ PgTable name pgSchema) schema →
  (∀ statement, statement ∈ (sqlite_reset db schema ran).2 →
     statement ∈ ran ∨ statement = foreign_keys_off
     ∨ statement = foreign_keys_on) ∧
  (db ran foreign_keys_off = None →
   db (ran ++ [foreign_keys_off]) foreign_keys_on = None →
   sqlite_reset db schema ran
   = (Done tt, ran ++ [foreign_keys_off; foreign_keys_on])).
Proof.
  intros Hschema. unfold sqlite_reset.
  rewrite (no_PgTable_omap _ schema); [|by intros [] H; [destruct (H name pgSchema)|..]|done].
  cbn [eforM_]. unfold ebind, db_run, eret. split.
  - intros statement.
    destruct (db ran foreign_keys_off) eqn:H1; cbn; [by left|].
    destruct (db (ran ++ [foreign_keys_off]) foreign_keys_on) eqn:H2; cbn.
    + rewrite elem_of_app, list_elem_of_singleton. naive_solver.
    + rewrite !elem_of_app, !list_elem_of_singleton. naive_solver.
  - intros -> ->. by rewrite <- app_assoc.
Qed.

Lemma X4_sqlite_reset_deletes_nothing_witness :
  sqlite_reset (fun _ _ => None)
    [("books", SQLiteTable "books"); ("reviews", SQLiteTable "reviews")] []
  = (Done tt, [foreign_keys_off; foreign_keys_on]).
Proof.
  apply (X4_sqlite_reset_deletes_nothing (fun _ _ => None)
           [("books", SQLiteTable "books"); ("reviews", SQLiteTable "reviews")]
           []); [|done|done].
  repeat constructor; done.
Defined.

Lemma db_run_all db (f : string → string) names ran :
  match eforM_ names (fun name => db_run db (f name)) ran with
  | (Done _, ran') => ran' = ran ++ (f <$> names)
  | (Throw _, ran') => ∃ k, ran' = ran ++ take k (f <$> names)
  | (OutOfFuel, _) => False
  end.
Proof.
  revert ran. induction names as [|name names IH]; intros ran; cbn.
  - by rewrite app_nil_r.
  - unfold ebind, db_run at 1. destruct (db ran (f name)) eqn:Hrun.
    + exists 0%nat. by rewrite app_nil_r.
    + specialize (IH (ran ++ [f name])).
      destruct (eforM_ names _ _) as [[[]|e|] ran'].
      * by rewrite IH, <- app_assoc.
      * destruct IH as [k ->]. exists (S k). by rewrite <- app_assoc.
      * done.
Qed.

(** X5. The SQLite [reset] switches foreign keys back on only as its last
    statement, with nothing to run it when an earlier one fails: if [reset]
    raises an error, the statements it ran begin with the [PRAGMA] that
    switches foreign keys off, unless that one failed, and the [PRAGMA] that
    switches them on is not among them. *)
Theorem X5_sqlite_reset_failure_leaves_foreign_keys_off db schema ran e ran' :
  sqlite_reset db schema ran = (Throw e, ran') →
  ∃ statements,
    ran' = ran ++ statements ∧
    (foreign_keys_on ∉ statements) ∧
    (statements = [] ∨ ∃ rest, statements = foreign_keys_off :: rest).
Proof.
  unfold sqlite_reset.
  set (tables := omap _ _). unfold ebind at 1 2, db_run at 1.
  destruct (db ran foreign_keys_off) eqn:Hoff.
  { intros [= _ <-]. exists []. rewrite app_nil_r. split; [done|].
    split; [apply not_elem_of_nil|by left]. }
  pose proof (db_run_all db (fun t => "delete from `" +:+ t +:+ "`;")
                tables (ran ++ [foreign_keys_off])) as Hall.
  assert (∀ k, foreign_keys_on
               ∉ take k ((fun t => "delete from `" +:+ t +:+ "`;") <$> tables))
    as Hno.
  { intros k Hin%subseteq_take.
    apply list_elem_of_fmap in Hin as (t & Heq & _). cbv in Heq.
    discriminate. }
  destruct (eforM_ tables _ _) as [[[]|e'|] ran1].
  - subst ran1. unfold db_run. destruct (db _ foreign_keys_on); [|done].
    intros [= _ <-]. eexists. rewrite <- app_assoc. split; [done|]. split.
    + rewrite <- (firstn_all (_ <$> tables)). cbn.
      intros [Heq|Hin]%elem_of_cons; [discriminate|]. by apply Hno in Hin.
    + right. by eexists.
  - destruct Hall as [k ->]. intros [= _ <-].
    eexists. rewrite <- app_assoc. split; [done|]. split.
    + cbn. intros [Heq|Hin]%elem_of_cons; [discriminate|].
      by apply Hno in Hin.
    + right. by eexists.
  - done.
Qed.

Lemma X5_sqlite_reset_failure_leaves_foreign_keys_off_witness :
  ∃ statements,
    [foreign_keys_off] = [] ++ statements ∧
    (foreign_keys_on ∉ statements) ∧
    (statements = [] ∨ ∃ rest, statements = foreign_keys_off :: rest).
Proof.
  apply (X5_sqlite_reset_failure_leaves_foreign_keys_off
           (fun _ statement =>
              if bool_decide (statement = "delete from `books`;")
              then Some (SqliteError "no such table: books") else None)
           [("books", PgTable "books" None)] []
           (SqliteError "no such table: books")).
  vm_compute. reflexivity.
Defined.

Lemma mentions_app_l message post line :
  mentions message line → mentions (message +:+ post) line.
Proof.
  intros (p & q & ->). exists p, (q +:+ post). by rewrite !string_app_assoc.
Qed.

(** X6. The Postgres [reset] sends one statement, whatever the schema
    exports: [truncate], the Postgres tables of the schema in the order of
    the schema and separated by commas, each written as its schema, or
    [public] when it has none, and its name, both in double quotes with a
    dot between, then [cascade;]. Entities that are no Postgres table are
    left out, and with no Postgres table at all the statement sent is
    [truncate  cascade;], with no table in it. *)
Theorem X6_pg_reset_sends_one_truncate db schema ran :
  ∃ statement,
    pg_reset db schema ran
    = match db ran statement with
      | None => (Done tt, ran ++ [statement])
      | Some e => (Throw e, ran)
      end ∧
    statement
    = "truncate "
      +:+ String.concat ","
            (map (fun x => match x.2 with
                           | PgTable name pgSchema =>
                               dquote +:+ default "public" pgSchema +:+ dquote
                               +:+ "." +:+ dquote +:+ name +:+ dquote
                           | _ => EmptyString
                           end)
                 (List.filter (fun x => match x.2 with
                                        | PgTable _ _ => true
                                        | _ => false
                                        end) schema))
      +:+ " cascade;" ∧
    (∀ key name pgSchema,
       (key, PgTable name pgSchema) ∈ schema →
       mentions statement
         (dquote +:+ default "public" pgSchema +:+ dquote +:+ "."
          +:+ dquote +:+ name +:+ dquote)) ∧
    (Forall (fun x => ∀ name pgSchema, x.2 ≠ PgTable name pgSchema) schema →
     statement = "truncate  cascade;").
Proof.
  eexists. split; [reflexivity|]. split; [|split].
  - do 3 f_equal. induction schema as [|[key ent] l IH]; [done|].
    rewrite fmap_cons. cbn [omap List.filter snd].
    destruct ent; cbn [map snd]; by rewrite <- ?IH.
  - intros key name pgSchema Hin.
    apply mentions_app_r, mentions_app_l, mentions_concat.
    apply list_elem_of_omap. exists (PgTable name pgSchema). split; [|done].
    apply list_elem_of_fmap. by exists (key, PgTable name pgSchema).
  - intros Hno. rewrite (no_PgTable_omap _ schema); [done| |done].
    by intros [] H; [destruct (H name pgSchema)|..].
Qed.

Lemma X6_pg_reset_sends_one_truncate_witness :
  pg_reset (fun _ _ => None)
    [("users", PgTable "users" None); ("usersRelations", NotATable);
     ("books", SQLiteTable "books"); ("posts", PgTable "posts" (Some "blog"))]
    []
  = (Done tt,
     ["truncate " +:+ dquote +:+ "public" +:+ dquote +:+ "." +:+ dquote
      +:+ "users" +:+ dquote +:+ "," +:+ dquote +:+ "blog" +:+ dquote +:+ "."
      +:+ dquote +:+ "posts" +:+ dquote +:+ " cascade;"]).
Proof.
  destruct (X6_pg_reset_sends_one_truncate (fun _ _ => None)
              [("users", PgTable "users" None); ("usersRelations", NotATable);
               ("books", SQLiteTable "books");
               ("posts", PgTable "posts" (Some "blog"))]
              []) as (statement & Hrun & -> & _).
  rewrite Hrun. vm_compute. reflexivity.
Defined.

(** * Generators *)

Section DuplicateCheckerFacts.
Context {T : Type}.
Variable same : T → T → bool.
Hypothesis same_refl : ∀ a, same a a = true.
Hypothesis same_trans : ∀ a b c, same a b = true → same b c = true →
                                 same a c = true.

Lemma seen_has_add value this v :
  seen_has same (DuplicateChecker_add same value this).2 v
  = seen_has same this v || same v value.
Proof.
  unfold DuplicateChecker_add, seen_has.
  destruct (existsb (same value) (dc_seen this)) eqn:Hhas; cbn.
  - destruct (same v value) eqn:Hv; [|by rewrite orb_false_r].
    rewrite orb_true_r. apply existsb_exists.
    apply existsb_exists in Hhas as (x & Hx & Hsame).
    exists x. split; [done|]. by eapply same_trans.
  - rewrite existsb_app. cbn. by rewrite orb_false_r.
Qed.

Lemma add_each_spec values this :
  (∀ i v, values !! i = Some v →
     (add_each same values this).1 !! i
     = Some (negb (seen_has same this v
                   || existsb (same v) (take i values)))) ∧
  DuplicateChecker_size (add_each same values this).2
  = (DuplicateChecker_size this
     + length (filter (fun b => b = true) (add_each same values this).1))%nat ∧
  (∀ v, seen_has same (add_each same values this).2 v
        = seen_has same this v || existsb (same v) values).
Proof.
  revert this. induction values as [|value values IH]; intros this.
  { cbn. split; [done|]. split; [lia|]. intros v. by rewrite orb_false_r. }
  cbn [add_each].
  pose proof (seen_has_add value this) as Hadd.
  assert (DuplicateChecker_size (DuplicateChecker_add same value this).2
          = (DuplicateChecker_size this
             + if (DuplicateChecker_add same value this).1 then 1 else 0)%nat
          ∧ (DuplicateChecker_add same value this).1
            = negb (seen_has same this value)) as [Hsize Hfresh].
  { unfold DuplicateChecker_add, DuplicateChecker_size.
    destruct (seen_has same this value); cbn; [split; [lia|done]|].
    rewrite length_app. cbn. done. }
  destruct (DuplicateChecker_add same value this) as [fresh this1].
  cbn [fst snd] in *.
  destruct (IH this1) as (Hans & Hsz & Hhas).
  destruct (add_each same values this1) as [answers this2].
  cbn [fst snd] in *. split; [|split].
  - intros [|i] v Hv; cbn in *.
    + injection Hv as <-. by rewrite Hfresh, orb_false_r.
    + refine (eq_trans (Hans i v Hv) _). by rewrite Hadd, orb_assoc.
  - rewrite Hsz, Hsize. rewrite filter_cons.
    destruct fresh; cbn.
    + rewrite decide_True by done. cbn. lia.
    + rewrite decide_False by done. lia.
  - intros v. rewrite Hhas, Hadd. cbn. by rewrite orb_assoc.
Qed.
End DuplicateCheckerFacts.

(** X7. Values are added one by one to a new duplicate checker, the values
    being compared by a reflexive and transitive test. Then [add] answers
    [true] for a value exactly when none of the values added before it is
    the same; [size] is the number of [true] answers; and [search] finds
    every value that was added. *)
Theorem X7_DuplicateChecker_tells_first_occurrences {T} (same : T → T → bool)
  (values : list T) :
  (∀ a, same a a = true) →
  (∀ a b c, same a b = true → same b c = true → same a c = true) →
  (∀ i v, values !! i = Some v →
     (add_each same values DuplicateChecker_new).1 !! i
     = Some (negb (existsb (same v) (take i values)))) ∧
  DuplicateChecker_size (add_each same values DuplicateChecker_new).2
  = length (filter (fun b => b = true)
                   (add_each same values DuplicateChecker_new).1) ∧
  (∀ v, v ∈ values →
     DuplicateChecker_search same v
       (add_each same values DuplicateChecker_new).2 = true).
Proof.
  intros Hrefl Htrans.
  destruct (add_each_spec same Htrans values DuplicateChecker_new)
    as (Hans & Hsize & Hhas).
  split; [|split].
  - intros i v Hv. by rewrite (Hans i v Hv).
  - by rewrite Hsize.
  - intros v Hv. unfold DuplicateChecker_search. rewrite Hhas. cbn.
    apply existsb_exists. exists v. split; [|done].
    by apply list_elem_of_In.
Qed.

Lemma X7_DuplicateChecker_tells_first_occurrences_witness :
  (add_each Z.eqb [3; 5; 3] DuplicateChecker_new).1 !! 2%nat = Some false ∧
  DuplicateChecker_size (add_each Z.eqb [3; 5; 3] DuplicateChecker_new).2
  = 2%nat.
Proof.
  destruct (X7_DuplicateChecker_tells_first_occurrences Z.eqb [3; 5; 3])
    as (Hans & Hsize & _).
  - intros a. apply Z.eqb_refl.
  - intros a b c ->%Z.eqb_eq ->%Z.eqb_eq. apply Z.eqb_refl.
  - split; [exact (Hans 2%nat 3 eq_refl)|exact Hsize].
Defined.

(** ** [UniqueValueGenerator] *)

Section UniqueValue.
Context {Faker : Type}.
Variable same : cell → cell → bool.
Variable maxTries : Z.
Variable ctx : ExtendedGeneratorContext Faker.
Variable checker : string.

Lemma checker_add_run value (s : GenState Faker) :
  ∃ s',
    checker_add same checker value s
    = (Done (negb (seen_has same (duplicateCheckers s checker) value)), s') ∧
    faker s' = faker s ∧
    (∀ key, key ≠ checker →
            duplicateCheckers s' key = duplicateCheckers s key) ∧
    duplicateCheckers s' checker
    = if seen_has same (duplicateCheckers s checker) value
      then duplicateCheckers s checker
      else {| dc_seen := dc_seen (duplicateCheckers s checker) ++ [value] |}.
Proof.
  unfold checker_add, DuplicateChecker_add.
  destruct (seen_has same (duplicateCheckers s checker) value) eqn:Hhas;
    (eexists; split; [reflexivity|]; cbn; split; [done|]; split;
     [by intros key Hkey; rewrite decide_False by done
     |by rewrite decide_True by done]).
Qed.

Lemma unique_loop_new fuel tries s v s' :
  spares_checkers (super ctx) →
  unique_loop same fuel maxTries ctx checker tries s = (Done v, s') →
  seen_has same (duplicateCheckers s checker) v = false ∧
  dc_seen (duplicateCheckers s' checker)
  = dc_seen (duplicateCheckers s checker) ++ [v] ∧
  (∀ key, key ≠ checker →
          duplicateCheckers s' key = duplicateCheckers s key) ∧
  tries + 1 < maxTries.
Proof.
  intros Hsuper. revert tries s.
  induction fuel as [|fuel IH]; intros tries s; [done|].
  cbn [unique_loop]. unfold ebind at 1.
  pose proof (Hsuper s) as Hs. unfold same_checkers in Hs.
  destruct (super ctx s) as [[value| |] s1]; [|done..]. cbn in Hs.
  case_bool_decide as Hmax; [done|].
  unfold ebind.
  destruct (checker_add_run value s1) as (s2 & -> & _ & Hother & Hseen).
  rewrite (Hs checker) in Hseen |- *.
  destruct (seen_has same (duplicateCheckers s checker) value) eqn:Hhas; cbn.
  - intros Hrun. apply IH in Hrun as (Hnew & Hlast & Hkeys & Hlt).
    rewrite Hseen in Hnew, Hlast.
    split; [done|]. split; [done|]. split; [|lia].
    intros key Hkey. by rewrite Hkeys, Hother, Hs.
  - unfold eret. intros [= <- <-]. split; [done|].
    rewrite Hseen. split; [done|]. split; [|lia].
    intros key Hkey. by rewrite Hother, Hs.
Qed.

Lemma unique_loop_fuel fuel tries s :
  (∀ s0, (super ctx s0).1 ≠ OutOfFuel) →
  (Z.to_nat (maxTries - tries) ≤ fuel)%nat → (0 < fuel)%nat →
  (unique_loop same fuel maxTries ctx checker tries s).1 ≠ OutOfFuel.
Proof.
  intros Hsuper. revert tries s.
  induction fuel as [|fuel IH]; intros tries s Hfuel Hpos; [lia|].
  cbn [unique_loop]. unfold ebind at 1.
  pose proof (Hsuper s) as Hs.
  destruct (super ctx s) as [[value| |] s1]; [|done..].
  case_bool_decide as Hmax; [done|].
  unfold ebind.
  destruct (checker_add_run value s1) as (s2 & -> & _).
  destruct (negb _); [done|].
  apply IH; lia.
Qed.

Lemma unique_loop_gives_up fuel tries s s0 :
  (∀ s0, same_checkers s s0 →
     ∃ v s1, super ctx s0 = (Done v, s1) ∧ same_checkers s s1 ∧
             seen_has same (duplicateCheckers s checker) v = true) →
  same_checkers s s0 →
  (Z.to_nat (maxTries - tries) ≤ fuel)%nat → (0 < fuel)%nat →
  ∃ s',
    unique_loop same fuel maxTries ctx checker tries s0
    = (Throw (unique_error ctx (Z.max (tries + 1) maxTries)), s') ∧
    same_checkers s s'.
Proof.
  intros Hsuper. revert tries s0.
  induction fuel as [|fuel IH]; intros tries s0 Hs0 Hfuel Hpos; [lia|].
  cbn [unique_loop]. unfold ebind at 1.
  destruct (Hsuper s0 Hs0) as (v & s1 & -> & Hs1 & Hseen).
  case_bool_decide as Hmax.
  - exists s1. split; [|done]. unfold ethrow. do 3 f_equal. lia.
  - unfold ebind.
    destruct (checker_add_run v s1) as (s2 & -> & _ & Hother & Hsame).
    rewrite (Hs1 checker), Hseen in Hsame |- *. cbn.
    assert (same_checkers s s2) as Hs2.
    { intros key. destruct (decide (key = checker)) as [->|Hne].
      - by rewrite Hsame.
      - by rewrite Hother, Hs1. }
    destruct (IH (tries + 1) s2 Hs2) as (s' & -> & Hs'); [lia..|].
    exists s'. split; [|done]. do 3 f_equal. lia.
Qed.
End UniqueValue.

(** X8. A value that [UniqueValueGenerator] returns for a column with a
    duplicate checker was not in the checker and is the one value the call
    adds to it, the other checkers being left as they were; this as long as
    the rest of the chain, [ctx.super()], does not touch the checkers. *)
Theorem X8_unique_value_is_new_and_recorded {Faker} same fuel maxTries
  (ctx : ExtendedGeneratorContext Faker) checker s v s' :
  duplicateChecker ctx = Some checker →
  spares_checkers (super ctx) →
  generate same fuel (UniqueValueGenerator maxTries) ctx s = (Done v, s') →
  DuplicateChecker_search same v (duplicateCheckers s checker) = false ∧
  dc_seen (duplicateCheckers s' checker)
  = dc_seen (duplicateCheckers s checker) ++ [v] ∧
  (∀ key, key ≠ checker →
          duplicateCheckers s' key = duplicateCheckers s key).
Proof.
  intros Hchecker Hsuper. cbn [generate]. rewrite Hchecker.
  intros (? & ? & ? & _)%unique_loop_new; done.
Qed.

(** X9. When every value the rest of the chain produces is already in the
    checker, [UniqueValueGenerator] gives up: after [maxTries] calls of
    [ctx.super()], one call when [maxTries] is less than one, it raises the
    error that names the column, the number of tries and the row, and the
    checkers are as they were. *)
Theorem X9_unique_value_gives_up {Faker} same fuel maxTries
  (ctx : ExtendedGeneratorContext Faker) checker s :
  duplicateChecker ctx = Some checker →
  (∀ s0, same_checkers s s0 →
     ∃ v s1, super ctx s0 = (Done v, s1) ∧ same_checkers s s1 ∧
             DuplicateChecker_search same v (duplicateCheckers s checker)
             = true) →
  (Z.to_nat maxTries ≤ fuel)%nat → (0 < fuel)%nat →
  ∃ s',
    generate same fuel (UniqueValueGenerator maxTries) ctx s
    = (Throw (JsError
        ("Failed to generate unique value for " +:+ colName (columnDef ctx)
         +:+ " column after " +:+ pretty (Z.max 1 maxTries)
         +:+ " tries | it was " +:+ pretty (index ctx + 1)
         +:+ " value of " +:+ pretty (count ctx))), s') ∧
    same_checkers s s'.
Proof.
  intros Hchecker Hsuper Hfuel Hpos. cbn [generate]. rewrite Hchecker.
  apply (unique_loop_gives_up same maxTries ctx checker fuel 0 s s);
    [done|done|by rewrite Z.sub_0_r|done].
Qed.

(** X10. The loop of [UniqueValueGenerator] counts a try before it tests the
    value, so the last of the [maxTries] tries is never tested: with
    [maxTries] at most 1 the generator returns no value for a column that
    has a duplicate checker, whatever the chain produces; and a value it
    does return was found in fewer than [maxTries] tries. The loop needs at
    most [maxTries] rounds, one if [maxTries] is less. *)
Theorem X10_unique_value_last_try_is_lost {Faker} same fuel maxTries
  (ctx : ExtendedGeneratorContext Faker) checker s :
  duplicateChecker ctx = Some checker →
  (maxTries ≤ 1 →
   ∀ v s', generate same fuel (UniqueValueGenerator maxTries) ctx s
           ≠ (Done v, s')) ∧
  ((∀ s0, (super ctx s0).1 ≠ OutOfFuel) →
   (Z.to_nat maxTries ≤ fuel)%nat → (0 < fuel)%nat →
   (generate same fuel (UniqueValueGenerator maxTries) ctx s).1 ≠ OutOfFuel).
Proof.
  intros Hchecker. cbn [generate]. rewrite Hchecker. split.
  - intros Hmax v s'. destruct fuel as [|fuel]; [done|].
    cbn [unique_loop]. unfold ebind.
    destruct (super ctx s) as [[value| |] s1]; [|done..].
    by rewrite bool_decide_eq_true_2 by lia.
  - intros Hsuper Hfuel Hpos. apply unique_loop_fuel; [done| |done].
    by rewrite Z.sub_0_r.
Qed.

Lemma X8_unique_value_is_new_and_recorded_witness :
  dc_seen
    (duplicateCheckers
       (generate same_number 5 (UniqueValueGenerator 5)
          (email_ctx next_number) seen_zero).2 "email")
  = [Plain (DNum 0); Plain (DNum 1)].
Proof.
  apply (X8_unique_value_is_new_and_recorded same_number 5 5
           (email_ctx next_number) "email" seen_zero (Plain (DNum 1))
           (generate same_number 5 (UniqueValueGenerator 5)
              (email_ctx next_number) seen_zero).2).
  - reflexivity.
  - intros s key. reflexivity.
  - vm_compute. reflexivity.
Defined.

Lemma X9_unique_value_gives_up_witness :
  (generate same_number 3 (UniqueValueGenerator 3)
     (email_ctx (eret (Plain (DNum 0)))) seen_zero).1
  = Throw (JsError
      ("Failed to generate unique value for email column after 3 tries"
       +:+ " | it was 1 value of 3")).
Proof.
  destruct (X9_unique_value_gives_up same_number 3 3
              (email_ctx (eret (Plain (DNum 0)))) "email" seen_zero)
    as (s' & Hrun & _).
  - reflexivity.
  - intros s0 Hs0. exists (Plain (DNum 0)), s0.
    split; [reflexivity|]. split; [exact Hs0|]. vm_compute. reflexivity.
  - vm_compute. lia.
  - lia.
  - rewrite Hrun. vm_compute. reflexivity.
Defined.

Lemma X10_unique_value_last_try_is_lost_witness :
  generate same_number 5 (UniqueValueGenerator 1)
    (email_ctx (eret (Plain (DNum 7)))) seen_zero
  ≠ (Done (Plain (DNum 7)), seen_zero).
Proof.
  apply (X10_unique_value_last_try_is_lost same_number 5 1
           (email_ctx (eret (Plain (DNum 7)))) "email" seen_zero);
    [reflexivity|lia].
Defined.

(** ** Chains of generators *)

(** X11. In a chain built by extending a generator again and again, with
    generators that each do something of their own and hand over to
    [ctx.super()], all of them run, the one added last first and the first
    one last, and then the [super] of the caller's context runs: the value
    and the errors of the chain are those of that sequence. *)
Theorem X11_chain_runs_last_extension_first {Faker} same fuel
  (first : Eff (GenState Faker) unit) (others : list (Eff (GenState Faker) unit))
  (ctx : ExtendedGeneratorContext Faker) :
  generate same fuel
    (foldl (fun chain effect => extend chain (delegating effect))
           (delegating first) others) ctx
  = foldr (fun effect rest => effect ;;; rest) (super ctx)
          (rev (first :: others)).
Proof.
  induction others as [|effect others IH] using rev_ind.
  - reflexivity.
  - rewrite foldl_app. cbn [foldl extend generate].
    change (generate same fuel (delegating effect) ?c)
      with (effect ;;; super c).
    cbn [super with_super]. rewrite IH.
    rewrite app_comm_cons, rev_app_distr. reflexivity.
Qed.

Lemma X11_chain_runs_last_extension_first_witness :
  (generate same_number 0 test_chain test_ctx seen_zero).1
  = Throw (JsError "Generator chain ended") ∧
  faker (generate same_number 0 test_chain test_ctx seen_zero).2 = 3%nat.
Proof.
  change test_chain
    with (foldl (fun chain effect => extend chain (delegating effect))
                (delegating counted) [counted; counted]).
  rewrite (X11_chain_runs_last_extension_first same_number 0 counted
             [counted; counted] test_ctx).
  split; reflexivity.
Defined.

(** ** The older [Generator] class *)

Section GeneratorFacts.
Context {St V I : Type}.
Implicit Types (fns : list (ColumnGeneratorContext St V I → Eff St V)).

Lemma resolve_loop_app i fns1 fns2 (baseCtx : I) superFn :
  resolve_loop i (fns1 ++ fns2) baseCtx superFn
  = resolve_loop (i + length fns1) fns2 baseCtx
      (resolve_loop i fns1 baseCtx superFn).
Proof.
  revert i superFn. induction fns1 as [|fn fns1 IH]; intros i superFn; cbn.
  - by rewrite Nat.add_0_r.
  - rewrite IH. f_equal. lia.
Qed.

Lemma resolve_loop_Some i fns (baseCtx : I) superFn :
  fns ≠ [] → is_Some (resolve_loop i fns baseCtx superFn).
Proof.
  revert i superFn. induction fns as [|fn fns IH]; intros i superFn; [done|].
  intros _. cbn. destruct fns as [|fn' fns].
  - cbn. case_decide; by eexists.
  - by apply IH.
Qed.
End GeneratorFacts.

(** X12. [resolve] of a generator made by [create] calls the root function
    on the context as given; [resolve] of a generator extended by [fn]
    calls [fn] on the context with, as [super], the [resolve] of the
    generator before the extension. A generator made by [create] and
    [extend] has a non-empty chain, and [resolve] of such a generator
    never fails for want of a function to call. *)
Theorem X12_resolve_unfolds_the_chain {St V I : Type}
  (this : Generator St V I)
  (rootFn fn : ColumnGeneratorContext St V I → Eff St V) (baseCtx : I) :
  chain this ≠ [] →
  Generator_resolve (Generator_create rootFn) baseCtx
  = rootFn {| rootCtx := baseCtx; ctxSuper := None |} ∧
  Generator_resolve (Generator_extend this fn) baseCtx
  = fn {| rootCtx := baseCtx;
          ctxSuper := Some (Generator_resolve this baseCtx) |} ∧
  chain (Generator_extend this fn) ≠ [] ∧
  chain (Generator_create rootFn) ≠ [].
Proof.
  intros Hchain. split; [done|]. split; [|split].
  - unfold Generator_resolve, Generator_extend. cbn [chain].
    rewrite resolve_loop_app. cbn.
    destruct (resolve_loop_Some 0 (chain this) baseCtx None Hchain)
      as [superFn ->].
    rewrite decide_False; [done|]. destruct (chain this); [done|]. cbn. lia.
  - unfold Generator_extend. cbn. by destruct (chain this).
  - done.
Qed.

Lemma X12_resolve_unfolds_the_chain_witness :
  Generator_resolve
    (Generator_extend (Generator_create (fun _ => eret 1))
       (fun ctx : ColumnGeneratorContext nat Z unit =>
          match ctxSuper ctx with
          | Some superFn => let+ v := superFn in eret (v + 1)
          | None => eret 0
          end)) tt 0%nat
  = (Done 2, 0%nat).
Proof.
  destruct (X12_resolve_unfolds_the_chain
              (Generator_create (fun _ => eret 1))
              (fun _ : ColumnGeneratorContext nat Z unit => eret 1)
              (fun ctx : ColumnGeneratorContext nat Z unit =>
                 match ctxSuper ctx with
                 | Some superFn => let+ v := superFn in eret (v + 1)
                 | None => eret 0
                 end) tt) as (_ & Hextend & _); [done|].
  rewrite Hextend. reflexivity.
Defined.

(** * Streams the seeder completes *)

Lemma wp_and {A} (m : M A) Q1 Q2 E1 E2 w :
  wp m Q1 E1 w → wp m Q2 E2 w →
  wp m (fun a w' => Q1 a w' ∧ Q2 a w') (fun e w' => E1 e w' ∧ E2 e w') w.
Proof. unfold wp. by destruct (m w) as [[a|e|] w']. Qed.

(** ** A drain that has run leaves only blocked chunks *)

Lemma areAllRefsResolved_false refs db :
  areAllRefsResolved refs db = Done false →
  ∃ r, r ∈ refs ∧ ¬ has_row db (refTableName r) (refRowIndex r).
Proof.
  induction refs as [|r refs IH]; cbn; [done|].
  unfold refExists. destruct (db !! sql_name (refTableName r)) as [t|] eqn:Ht; [|done].
  cbn. case_bool_decide as Hrow.
  - intros (r' & Hin & Hno)%IH. exists r'. split; [by right|done].
  - intros _. exists r. split; [left|].
    intros (t' & Ht' & Hrow'). by simplify_eq.
Qed.

Lemma drain_queue_stuck db tableName queued w still w' :
  drain_queue db tableName queued w = (Done (still, false), w') →
  Forall (fun q => areAllRefsResolved (pendingRefs q) db = Done false) queued.
Proof.
  revert still w w'. induction queued as [|q rest IH]; intros still w w'; cbn;
    [by constructor|].
  unfold bind at 1, lift.
  destruct (areAllRefsResolved (pendingRefs q) db) as [[|]| |] eqn:Hq;
    try done.
  - unfold bind, modify_table, modify, ret.
    by destruct (drain_queue _ _ _ _) as [[[??]| |] ?].
  - unfold bind, ret.
    destruct (drain_queue db tableName rest w) as [[[s b]| |] w1] eqn:Hr;
      try done.
    cbn. intros [= <- -> <-]. constructor; [done|]. by eapply IH.
Qed.

Lemma drain_pass_stuck db names w :
  drain_pass db names w = (Done false, w) →
  ∀ name st q, name ∈ names → assoc name (tableStates w) = Some st →
               q ∈ queue st →
               areAllRefsResolved (pendingRefs q) db = Done false.
Proof.
  induction names as [|n names IH]; [by intros _ ??? ?%not_elem_of_nil|].
  cbn. unfold bind, ret.
  destruct (drain_table db n w) as [[moved| |] w1] eqn:Ht; try done.
  destruct (drain_pass db names w1) as [[made| |] w2] eqn:Hp; try done.
  intros [= [-> ->]%orb_false_elim ->].
  pose proof (drain_table_no_progress _ _ _ _ Ht) as ->.
  intros name st q [->|Hin]%elem_of_cons Hst Hq; [|by eapply IH].
  unfold drain_table, bind, get_table in Ht. rewrite Hst in Ht.
  destruct (drain_queue _ _ _ _) as [[[still b]| |] w1] eqn:Hr; try done.
  unfold modify_table, modify, ret in Ht. injection Ht as -> _.
  apply drain_queue_stuck in Hr.
  by apply (proj1 (Forall_forall _ _) Hr).
Qed.

Lemma drain_loop_true db fuel w b w' :
  drain_loop db fuel true w = (Done b, w') → b = true.
Proof.
  revert w. induction fuel as [|fuel IH]; intros w; cbn; [done|].
  unfold bind, table_names, gets.
  destruct (drain_pass _ _ w) as [[[]| |] w1]; try done.
  - apply IH.
  - unfold ret. by intros [= <- _].
Qed.

(** What [drainAllQueues] leaves: a state in which every queued chunk is
    blocked, and, when it reports no progress, the state it found. *)
Lemma drainAllQueues_settles fuel w progress w' :
  NoDup (tableStates w).*1 →
  drainAllQueues fuel w = (Done progress, w') →
  settled w' ∧ (progress = false → w' = w).
Proof.
  intros Hnd. unfold drainAllQueues, bind, the_db.
  destruct (sqliteDb w) as [db|] eqn:Hdb; [|done]. intros Hrun.
  pose proof (drain_loop_frame db fuel false w) as Hfr.
  unfold wp in Hfr. rewrite Hrun in Hfr.
  destruct Hfr as (_ & Hdb' & _ & Hnames).
  split.
  - intros db' name st q Hdb'' Hin Hq.
    assert (db' = db) as -> by congruence.
    apply drain_loop_fixpoint in Hrun as Hfix.
    apply areAllRefsResolved_false.
    eapply (drain_pass_stuck _ _ _ Hfix name st q); [|apply elem_of_assoc|done].
    + apply list_elem_of_fmap. by exists (name, st).
    + by rewrite Hnames.
    + done.
  - intros ->. destruct fuel as [|fuel]; [done|]. cbn in Hrun.
    unfold bind, table_names, gets in Hrun.
    destruct (drain_pass _ _ w) as [[[]| |] w1] eqn:Hp; try done.
    + by apply drain_loop_true in Hrun.
    + unfold ret in Hrun. injection Hrun as <-.
      by apply drain_pass_no_progress in Hp.
Qed.

Lemma flush_all_empty cfg w :
  batches_empty w → flush_all cfg w = (Done tt, w).
Proof.
  intros Hempty.
  assert (wp (flush_all cfg) (fun _ w' => w' = w) (fun _ _ => False) w) as H.
  { unfold flush_all. apply wp_bind, wp_gets.
    apply (wp_forM_ (fun w' => w' = w)); [|done].
    intros name w' Hname ->. unfold flush. apply wp_bind, wp_get_table.
    destruct (assoc_is_Some _ _ Hname) as [st Hst]. rewrite Hst.
    apply assoc_Some_elem_of in Hst.
    pose proof (proj1 (Forall_forall _ _) Hempty _ Hst) as Hb. cbn in Hb.
    rewrite Hb. by apply wp_ret. }
  unfold wp in H. by destruct (flush_all cfg w) as [[[]| |] w']; subst.
Qed.

Section Settle.
Variable cfg : Seeder.
Variable stream : list StreamChunk.
Variable fuel : nat.
Hypothesis enough_fuel : (length stream < fuel)%nat.

Lemma final_drain_settled p n w :
  Strong cfg stream p w → hasRefs cfg → (total_queued w < n)%nat →
  batches_empty w →
  wp (final_drain cfg fuel n) (fun _ w' => settled w') (fun _ _ => True) w.
Proof.
  revert w. induction n as [|n IH]; intros w HS Hrefs Hn Hempty; [lia|].
  cbn [final_drain]. apply wp_bind.
  eapply wp_mono;
    [apply wp_and;
     [apply (drainAllQueues_Strong cfg stream p);
      [done|done|by eapply (Strong_total_queued cfg stream)]
     |apply (proj2 (wp_run _ (fun progress w1 =>
               settled w1 ∧ (progress = false → w1 = w))
               (fun _ _ => True) _))]|..]; [|idtac|done].
  { split; [|by split]. intros progress w1 Hrun.
    eapply drainAllQueues_settles; [|done]. by destruct HS. }
  intros progress w1 [(HS1 & _ & _ & Hle & Hlt) [Hsettled Hsame]].
  apply wp_bind. destruct progress.
  - eapply wp_mono; [by apply (flush_all_Strong cfg stream p)|..];
      [|done].
    intros [] w2 (HS2 & Hb2 & Htq2).
    apply IH; [done|done| |done]. specialize (Hlt eq_refl). lia.
  - rewrite (Hsame eq_refl) in Hsettled |- *.
    unfold wp at 1. rewrite (flush_all_empty cfg w Hempty). by apply wp_ret.
Qed.

Lemma finalize_settled p w :
  Strong cfg stream p w →
  wp (finalize cfg fuel) (fun _ w' => settled w') (fun _ _ => True) w.
Proof.
  intros HS. unfold finalize. apply wp_bind.
  eapply wp_mono; [by apply (flush_all_Strong cfg stream p)|..]; [|done].
  intros [] w1 (HS1 & Hb1 & _). apply wp_bind, wp_gets.
  destruct (hasRefs cfg) eqn:Hrefs; cbn [andb].
  - case_bool_decide as Hdb.
    + apply final_drain_settled with p; [done|by rewrite Hrefs| |done].
      by eapply (Strong_total_queued cfg stream).
    + apply wp_ret. intros db name st q Hdb'. destruct Hdb. by eexists.
  - apply wp_ret. intros db name st q Hdb' Hin Hq.
    destruct HS1 as [_ _ _ _ _ Hopen _ _].
    assert (is_Some (sqliteDb w1)) as Hsome%Hopen by by eexists.
    by rewrite Hrefs in Hsome.
Qed.
End Settle.

Lemma batched_empty w : batches_empty w → batched w = [].
Proof.
  unfold batches_empty, batched.
  induction 1 as [|[n st] l Hst _ IH]; [done|].
  cbn in *. rewrite IH, app_nil_r. unfold batch_rows. rewrite Hst.
  by rewrite zip_with_nil_r.
Qed.

Lemma waiting_queues_empty w :
  NoDup (tableStates w).*1 →
  ¬ Exists (waiting w) (tableStates w).*1 ↔ queues_empty w.
Proof.
  intros Hnd. unfold queues_empty. rewrite Forall_forall. split.
  - intros Hno [n st] Hin. cbn.
    destruct (queue st) as [|q qs] eqn:Hq; [done|]. destruct Hno.
    apply Exists_exists. exists n. split.
    + apply list_elem_of_fmap. by exists (n, st).
    + exists st. split; [by apply elem_of_assoc|by rewrite Hq].
  - intros Hall (n & _ & st & Hst%assoc_Some_elem_of & Hq)%Exists_exists.
    by apply Hq, (Hall (n, st)).
Qed.

(** X13. When [execute] comes to its final check, every row of the stream
    has gone to the target or waits in a queue, none is left in a batch;
    every chunk that waits holds a reference to a row that is not in the
    scratch database; and the check raises its error exactly when a chunk
    waits, leaving the target as it is: rows inserted before a failed check
    stay inserted. [execute] comes to this check only when it could create
    its scratch database, which is what [opens] says: a failure there ends
    it before the first chunk is read. *)
Theorem X13_final_check_finds_the_rest_inserted cfg fuel stream w1 w :
  (length stream < fuel)%nat →
  opens cfg →
  forM_ stream (process_chunk cfg fuel) (start cfg) = (Done tt, w1) →
  finalize cfg fuel w1 = (Done tt, w) →
  row_ids stream ≡ₚ logged w ++ queued w ∧
  batches_empty w ∧
  (∀ name st q,
     (name, st) ∈ tableStates w → q ∈ queue st →
     ∃ db r, sqliteDb w = Some db ∧ r ∈ extractRefs (chunk q) ∧
             ¬ has_row db (refTableName r) (refRowIndex r)) ∧
  (execute cfg fuel stream initial).2 = set_sqliteDb None w ∧
  ((execute cfg fuel stream initial).1 = Done tt ↔ queues_empty w).
Proof.
  intros Hfuel Hopen Hloop Hfin.
  pose proof (stream_loop_Strong cfg stream fuel Hfuel [] stream
                (start cfg) (Strong_start cfg stream Hopen) eq_refl)
    as H1.
  unfold wp in H1. rewrite Hloop in H1.
  pose proof (wp_and _ _ _ _ _ _
                (finalize_Strong cfg stream fuel Hfuel stream w1 H1)
                (finalize_settled cfg stream fuel Hfuel stream w1 H1)) as H2.
  unfold wp in H2. rewrite Hfin in H2. destruct H2 as [[HS Hempty] Hsettled].
  assert (execute cfg fuel stream initial
          = ((check_stuck cfg w).1, set_sqliteDb None (check_stuck cfg w).2))
    as Hrun.
  { destruct Hopen as [db Hdb]. rewrite (execute_opened _ _ _ _ Hdb).
    unfold execute_body, bind. rewrite Hloop, Hfin.
    by destruct (check_stuck cfg w) as [[[]| |] ?]. }
  assert (NoDup (tableStates w).*1) as Hnd by by destruct HS.
  split; [|split; [done|split; [|split]]].
  - destruct HS as [_ _ _ Hacc _ _ _ _]. rewrite Hacc.
    by rewrite (batched_empty w Hempty).
  - intros name st q Hin Hq.
    destruct HS as [_ _ _ _ _ Hopen' _ [_ _ _ Hrefs]].
    destruct (proj1 (Forall_forall _ _) Hrefs (name, st) Hin q Hq)
      as (Hpend & _ & Hhas).
    apply Hopen' in Hhas as [db Hdb].
    destruct (Hsettled db name st q Hdb Hin Hq) as (r & Hr & Hno).
    exists db, r. by rewrite <- Hpend.
  - rewrite Hrun. cbn [fst snd].
    destruct (waiting_dec w (tableStates w).*1) as [Hex|Hno].
    + by rewrite check_stuck_throws.
    + by rewrite check_stuck_passes.
  - rewrite Hrun. cbn [fst snd]. rewrite <- (waiting_queues_empty w Hnd).
    destruct (waiting_dec w (tableStates w).*1) as [Hex|Hno].
    + rewrite check_stuck_throws by done. cbn. split; [done|]. by intros [].
    + by rewrite check_stuck_passes.
Qed.

Lemma X13_final_check_finds_the_rest_inserted_witness :
  row_ids notes_stream
  ≡ₚ logged (execute_body notes_seeder 2 notes_stream
               (start notes_seeder)).2
     ++ queued (execute_body notes_seeder 2 notes_stream
                  (start notes_seeder)).2.
Proof.
  apply (X13_final_check_finds_the_rest_inserted notes_seeder 2 notes_stream
           (forM_ notes_stream (process_chunk notes_seeder 2)
                  (start notes_seeder)).2
           (execute_body notes_seeder 2 notes_stream
              (start notes_seeder)).2).
  - vm_compute. lia.
  - eexists. vm_compute. reflexivity.
  - vm_compute. reflexivity.
  - vm_compute. reflexivity.
Defined.

(** ** A run on a well-formed stream raises no error *)

Lemma row_ids_tag stream t i ch :
  (t, i, ch) ∈ row_ids stream →
  ∃ c, c ∈ stream ∧ tag c = t ∧ chunkData c = ch.
Proof.
  unfold row_ids. generalize (@nil StreamChunk).
  induction stream as [|c stream IH]; intros seen; cbn;
    [by intros ?%not_elem_of_nil|].
  intros [[= -> _ ->]|Hin]%elem_of_cons.
  - exists c. split; [left|done].
  - destruct (IH _ Hin) as (c' & ? & ?). exists c'. split; [by right|done].
Qed.

Lemma omapM_stringify_Done (f : string → cell) cols :
  (∀ col, col ∈ cols → isColumnValueReference (f col) = false) →
  ∃ values, omapM (fun col => stringify (f col)) cols = Done values.
Proof.
  induction cols as [|c cols IH]; intros Hplain; [by eexists|].
  cbn. destruct IH as [values ->].
  { intros col Hcol. apply Hplain. by right. }
  pose proof (Hplain c (list_elem_of_here _ _)) as Hc.
  destruct (f c); cbn in *; [by eexists|done|by eexists].
Qed.

(** *** An insert into a table as it was declared *)

Lemma prepare_insert_declared db name tb :
  db !! sql_name name = Some tb →
  prepare_insert db name (columns tb)
  = Done (tb, DataColumn <$> columns tb).
Proof.
  intros Htb. unfold prepare_insert. rewrite Htb.
  assert (∀ cols, (∀ c, c ∈ cols → c ∈ columns tb) →
            omapM (fun c =>
                     match find_column tb c with
                     | Some column => Done column
                     | None =>
                         Throw (SqliteError ("table " +:+ name
                                  +:+ " has no column named " +:+ c))
                     end) cols = Done (DataColumn <$> cols)) as ->; [|done..].
  induction cols as [|c cols IH]; intros Hin; [done|]. cbn.
  unfold find_column at 1. rewrite bool_decide_eq_true_2 by (apply Hin; left).
  cbn. rewrite IH by (intros; apply Hin; by right). done.
Qed.

Lemma key_value_declared rowIndex cols values :
  key_value rowIndex (zip (DataColumn <$> cols) values) = Done rowIndex.
Proof.
  unfold key_value.
  assert (filter (fun x => is_key x = true) (zip (DataColumn <$> cols) values)
          = []) as ->; [|done].
  revert values. induction cols as [|c cols IH]; intros [|v values];
    try done.
  change (zip (DataColumn <$> c :: cols) (v :: values))
    with ((DataColumn c, v) :: zip (DataColumn <$> cols) values).
  rewrite filter_cons_False by (by cbn). apply IH.
Qed.

Lemma data_row_declared cols values :
  data_row (zip (DataColumn <$> cols) values) = zip cols values.
Proof.
  unfold data_row. revert values.
  induction cols as [|c cols IH]; intros [|v values]; cbn; try done.
  by rewrite IH.
Qed.

Lemma assoc_zip_is_Some {B} cols (values : list B) c :
  length values = length cols → c ∈ cols → is_Some (assoc c (zip cols values)).
Proof.
  revert values. induction cols as [|c0 cols IH]; intros [|v values] Hlen;
    try done; [by intros ?%not_elem_of_nil|].
  cbn. intros Hin. case_decide; [by eexists|].
  apply elem_of_cons in Hin as [?|Hin]; [congruence|].
  apply IH; [cbn in Hlen; lia|done].
Qed.

Section Record.
Variable cfg : Seeder.
Variable name : string.
Variable cols : list string.
Variable st : TableState.
Variable db0 : gmap string RefTable.
Variable w0 : World.
Hypothesis lengths : length (rowIndices st) = length (batch st).
Hypothesis distinct : NoDup (rowIndices st).
Hypothesis new_rows : ∀ i, i ∈ rowIndices st → ¬ has_row db0 name i.
Hypothesis table : ∃ tb, db0 !! sql_name name = Some tb ∧ columns tb = cols.
Hypothesis plain :
  Forall (fun ch => ∀ col, col ∈ cols →
                    isColumnValueReference (chunk_get ch col) = false)
         (batch st).

Lemma prepare_store_storing k w :
  storing name (rowIndices st) db0 w0 k w →
  wp (prepare_store cfg name cols)
     (fun _ => storing name (rowIndices st) db0 w0 k)
     (fun _ _ => False) w.
Proof.
  intros Hw. pose proof Hw as (_ & _ & _ & db & Hdb & Hcols & _).
  unfold prepare_store. destruct (dialect cfg); [|by apply wp_ret].
  apply wp_bind, wp_the_db. rewrite Hdb. apply wp_bind, wp_lift.
  destruct table as (tb0 & Htb0 & Hcols0).
  specialize (Hcols (sql_name name)). rewrite Htb0 in Hcols.
  destruct (db !! sql_name name) as [tb|] eqn:Htb; [|done].
  injection Hcols as Hcols. rewrite <- Hcols0, <- Hcols.
  rewrite (prepare_insert_declared db name tb Htb). by apply wp_ret.
Qed.

Lemma record_row_storing k w :
  (k < length (batch st))%nat →
  storing name (rowIndices st) db0 w0 k w →
  wp (record_row cfg name cols st k)
     (fun _ => storing name (rowIndices st) db0 w0 (S k))
     (fun _ _ => False) w.
Proof.
  intros Hk (Htarget & Hts & Hri & db & Hdb & Hcols & Hfull & Hrows).
  unfold record_row.
  destruct (lookup_lt_is_Some_2 (batch st) k Hk) as [ch Hch].
  destruct (lookup_lt_is_Some_2 (rowIndices st) k) as [ri Hrow]; [lia|].
  rewrite Hch, Hrow.
  destruct (omapM_stringify_Done (chunk_get ch) cols) as [values Hvalues].
  { apply (proj1 (Forall_forall _ _) plain). by eapply list_elem_of_lookup_2. }
  assert (wp (let* values :=
                lift (omapM (fun col => stringify (chunk_get ch col))
                            cols) in
              store_insert name cols (Some ri) values)
             (fun _ => storing name (rowIndices st) db0 w0 (S k))
             (fun _ _ => False) w) as Hrun;
    [|by destruct (dialect cfg)].
  apply wp_bind, wp_lift. rewrite Hvalues.
  unfold store_insert. apply wp_bind, wp_the_db. rewrite Hdb.
  destruct table as (tb0 & Htb0 & Hcols0).
  pose proof (Hcols (sql_name name)) as Hc. rewrite Htb0 in Hc.
  destruct (db !! sql_name name) as [tb|] eqn:Htb; [|done].
  injection Hc as Hc.
  assert (columns tb = cols) as Hctb by congruence.
  apply wp_bind, wp_lift. rewrite <- Hctb.
  rewrite (prepare_insert_declared db name tb Htb). cbn [fst snd].
  apply wp_bind, wp_lift. rewrite key_value_declared.
  change (default (next_rowid (rows tb)) (Some ri)) with ri.
  rewrite data_row_declared.
  assert (take (S k) (rowIndices st) = take k (rowIndices st) ++ [ri])
    as Htake by by apply take_S_r.
  assert (ri ∉ take k (rowIndices st)) as Hnew.
  { intros Hin. rewrite <- (take_drop (S k) (rowIndices st)), Htake in distinct.
    apply NoDup_app in distinct as [Hnd _].
    apply NoDup_app in Hnd as (_ & Hdisj & _).
    apply (Hdisj ri Hin). left. }
  destruct (rows tb !! ri) as [row|] eqn:Hri'.
  { exfalso. assert (has_row db name ri) as Hhas by by exists tb.
    apply Hrows in Hhas as [Hhas|[_ Hin]]; [|done].
    apply (new_rows ri); [|done]. by eapply list_elem_of_lookup_2. }
  apply wp_modify. split; [done|]. split; [done|]. split; [done|].
  eexists. split; [done|]. split; [|split].
  - intros t. destruct (decide (t = sql_name name)) as [->|Hne].
    + rewrite lookup_insert_eq. cbn. by rewrite <- Hcols, Htb.
    + by rewrite lookup_insert_ne.
  - intros t tb' i row c. destruct (decide (t = sql_name name)) as [->|Hne].
    + rewrite lookup_insert_eq. intros [= <-]. cbn.
      destruct (decide (i = ri)) as [->|Hi].
      * rewrite lookup_insert_eq. intros [= <-] Hin.
        apply assoc_zip_is_Some; [|done].
        rewrite Hctb. by eapply omapM_length'.
      * rewrite lookup_insert_ne by done. intros Hr Hin. by apply (Hfull (sql_name name) tb i row c).
    + rewrite lookup_insert_ne by done. apply Hfull.
  - intros t i. rewrite has_row_insert by done. rewrite Hrows, Htake.
    rewrite elem_of_app, list_elem_of_singleton. naive_solver.
Qed.

Lemma record_loop_storing m k w :
  (k + m = length (batch st))%nat →
  storing name (rowIndices st) db0 w0 k w →
  wp (forM_ (seq k m) (record_row cfg name cols st))
     (fun _ => storing name (rowIndices st) db0 w0 (length (batch st)))
     (fun _ _ => False) w.
Proof.
  revert k w. induction m as [|m IH]; intros k w Hkm Hw.
  - apply wp_ret. by replace (length (batch st)) with k by lia.
  - cbn [seq forM_]. apply wp_bind.
    eapply wp_mono; [apply record_row_storing; [lia|done]|..]; [|done].
    intros [] w' Hw'. apply IH; [lia|done].
Qed.
End Record.

Section Complete.
Variable cfg : Seeder.
Variable stream : list StreamChunk.
Hypothesis well_formed : WellFormed cfg stream.

Lemma referenceable_hasRefs t c :
  referenceable (refsConfig cfg) t c → hasRefs cfg = true.
Proof.
  intros (cols & Hcols & _). unfold hasRefs. apply bool_decide_eq_true.
  intros Hnil. by rewrite Hnil in Hcols.
Qed.

Lemma row_refs_declared t i ch r :
  (t, i, ch) ∈ row_ids stream → r ∈ extractRefs ch →
  referenceable (refsConfig cfg) (refTableName r) (refColumnName r).
Proof.
  intros (c & Hc & <-)%row_ids_chunk Hr. apply well_formed.
  unfold stream_refs. apply list_elem_of_bind. by exists c.
Qed.

(** Two declared tables that are one table to SQLite are one table. *)
Lemma same_table t1 t2 :
  is_Some (assoc t1 (refsConfig cfg)) → is_Some (assoc t2 (refsConfig cfg)) →
  sql_name t1 = sql_name t2 → t1 = t2.
Proof.
  intros [c1 H1%assoc_Some_elem_of] [c2 H2%assoc_Some_elem_of] Heq.
  eapply (NoDup_fmap_eq sql_name (refsConfig cfg).*1);
    [apply (tidy_tables _ (wf_tidy _ _ well_formed))| | |done];
    apply list_elem_of_fmap; by eexists (_, _).
Qed.

Lemma refExists_Done db r :
  as_declared cfg db →
  referenceable (refsConfig cfg) (refTableName r) (refColumnName r) →
  ∃ found, refExists r db = Done found.
Proof.
  intros Htables (cols & Hcols & _). unfold refExists.
  destruct (Htables _ _ Hcols) as (tb & -> & _). by eexists.
Qed.

Lemma resolveRef_Done db r :
  as_declared cfg db → full db →
  referenceable (refsConfig cfg) (refTableName r) (refColumnName r) →
  ∃ v, resolveRef r db = Done v.
Proof.
  intros Htables Hfull (cols & Hcols & Hin). unfold resolveRef, find_column.
  destruct (Htables _ _ Hcols) as (tb & Htb & Hc). rewrite Htb.
  rewrite bool_decide_eq_true_2 by (by rewrite Hc).
  destruct (rows tb !! refRowIndex r) as [row|] eqn:Hrow; [|by eexists].
  rewrite decide_True by done.
  destruct (Hfull _ tb _ row (refColumnName r) Htb Hrow) as [raw ->];
    [by rewrite Hc|].
  by eexists.
Qed.

Lemma areAllRefsResolved_Done db refs :
  as_declared cfg db →
  (∀ r, r ∈ refs →
        referenceable (refsConfig cfg) (refTableName r) (refColumnName r)) →
  ∃ resolved, areAllRefsResolved refs db = Done resolved.
Proof.
  intros Htables. induction refs as [|r refs IH]; intros Hrefs; [by eexists|].
  cbn. destruct (refExists_Done db r Htables) as [found ->];
    [apply Hrefs; left|].
  cbn. destruct found; [|by eexists]. apply IH. intros; apply Hrefs; by right.
Qed.

Lemma resolveChunk_Done db ch :
  as_declared cfg db → full db →
  (∀ r, r ∈ extractRefs ch →
        referenceable (refsConfig cfg) (refTableName r) (refColumnName r)) →
  ∃ row, resolveChunk ch (Some db) = Done row.
Proof.
  intros Htables Hfull.
  induction ch as [|[k [d|r|]] ch IH]; intros Hrefs; cbn; [by eexists|..].
  - destruct (IH Hrefs) as [row ->]. by eexists.
  - destruct (resolveRef_Done db r Htables Hfull) as [v ->];
      [apply Hrefs; left|].
    cbn. destruct IH as [row ->]; [intros; apply Hrefs; by right|].
    by eexists.
  - by apply IH.
Qed.

Lemma omapM_Done {A B} (f : A → outcome B) l :
  (∀ x, x ∈ l → ∃ y, f x = Done y) → ∃ ys, omapM f l = Done ys.
Proof.
  induction l as [|x l IH]; intros Hf; [by eexists|].
  cbn. destruct (Hf x) as [y ->]; [left|].
  destruct IH as [ys ->]; [intros; apply Hf; by right|]. by eexists.
Qed.

(** What the invariant of a run tells about a batch that [flush] takes. *)
Lemma Strong_batch p w name st :
  Strong cfg stream p w → assoc name (tableStates w) = Some st →
  length (rowIndices st) = length (batch st) ∧
  NoDup (rowIndices st) ∧
  (∀ i ch, (i, ch) ∈ zip (rowIndices st) (batch st) →
           (name, i, ch) ∈ row_ids stream).
Proof.
  intros [Hpre _ Hlens Hacc _ _ _ _] Hst.
  pose proof (row_ids_NoDup p) as Hnd. rewrite Hacc in Hnd.
  rewrite !fmap_app in Hnd.
  apply NoDup_app in Hnd as (_ & Hdisj & Hnd).
  apply NoDup_app in Hnd as (Hnd & _ & _).
  pose proof (proj1 (Forall_forall _ _) Hlens _ (assoc_Some_elem_of _ _ _ Hst))
    as Hlen. cbn in Hlen.
  destruct (assoc_split _ _ _ Hst) as (l1 & l2 & Heq & _).
  assert (batched w
          = (l1 ≫= (fun x => batch_rows x.1 x.2)) ++ batch_rows name st
            ++ (l2 ≫= (fun x => batch_rows x.1 x.2))) as Hbatched.
  { unfold batched. rewrite Heq, bind_app. by cbn. }
  split; [done|]. split.
  - rewrite Hbatched, !fmap_app in Hnd.
    apply NoDup_app in Hnd as (_ & _ & Hnd).
    apply NoDup_app in Hnd as (Hnd & _ & _).
    unfold batch_rows in Hnd. rewrite <- list_fmap_compose in Hnd.
    apply (NoDup_fmap_1 (fun i => (name, i))).
    rewrite <- (fst_zip (rowIndices st) (batch st)) by lia.
    rewrite <- list_fmap_compose.
    erewrite list_fmap_ext; [exact Hnd|]. by intros j [i ch] _.
  - intros i ch Hin. apply (row_ids_prefix p); [done|]. rewrite Hacc.
    apply elem_of_app. right. apply elem_of_app. left.
    eapply batch_rows_batched; [done|]. unfold batch_rows.
    apply list_elem_of_fmap. by exists (i, ch).
Qed.

(** The rows of a batch are not in the scratch database yet. *)
Lemma Safe_new_rows p w name st db i :
  Strong cfg stream p w → Safe cfg w →
  assoc name (tableStates w) = Some st →
  is_Some (assoc name (refsConfig cfg)) →
  sqliteDb w = Some db → i ∈ rowIndices st → ¬ has_row db name i.
Proof.
  intros HS Hsafe Hst Hdecl Hdb Hi Hhas.
  destruct (store_logged _ _ Hsafe db name i Hdb Hhas)
    as (c & Hc & Htable & Hin & Hdecl').
  apply (same_table _ _ Hdecl' Hdecl) in Htable.
  destruct HS as [Hpre _ Hlens Hacc _ _ _ [_ Hlog _ _]].
  pose proof (row_ids_NoDup p) as Hnd. rewrite Hacc in Hnd.
  rewrite !fmap_app in Hnd. apply NoDup_app in Hnd as (_ & Hdisj & _).
  pose proof (proj1 (Forall_forall _ _) Hlens _ (assoc_Some_elem_of _ _ _ Hst))
    as Hlen. cbn in Hlen.
  pose proof (proj1 (Forall_forall _ _) Hlog c Hc) as Hclen. cbn in Hclen.
  destruct (elem_of_zip_l_ex _ _ _ Hclen Hin) as [ch' Hch'].
  destruct (elem_of_zip_l_ex _ _ _ Hlen Hi) as [ch Hch].
  apply (Hdisj (name, i)).
  - apply list_elem_of_fmap. exists (name, i, ch'). split; [done|].
    unfold logged. apply list_elem_of_bind. exists c. split; [|done].
    unfold call_rows. apply list_elem_of_fmap. exists (i, ch').
    by rewrite Htable.
  - apply elem_of_app. left. apply list_elem_of_fmap.
    exists (name, i, ch). split; [done|].
    eapply batch_rows_batched; [done|]. unfold batch_rows.
    apply list_elem_of_fmap. by exists (i, ch).
Qed.

Lemma Safe_frame w w' :
  target w' = target w → sqliteDb w' = sqliteDb w →
  Safe cfg w → Safe cfg w'.
Proof.
  intros Ht Hdb [H1 H2 H3 H4 H5]. split.
  - intros db. rewrite Hdb. apply H1.
  - intros db. rewrite Hdb. apply H2.
  - intros db c i cols. rewrite Hdb, Ht. apply H3.
  - intros db t i. rewrite Hdb, Ht. apply H4.
  - intros j c ch r. rewrite Ht. apply H5.
Qed.

Lemma flush_Safe p name w :
  Strong cfg stream p w → Safe cfg w →
  is_Some (assoc name (tableStates w)) →
  wp (flush cfg name) (fun _ w' => Safe cfg w') (fun _ _ => False) w.
Proof.
  intros HS Hsafe [st Hst]. unfold flush.
  apply wp_bind, wp_get_table. rewrite Hst.
  case_bool_decide as Hempty; [by apply wp_ret|].
  destruct (Strong_batch p w name st HS Hst) as (Hlen & Hnd & Hrows).
  assert (∀ ch, ch ∈ batch st →
            ∃ i c, (name, i, ch) ∈ row_ids stream ∧
                   (i, ch) ∈ zip (rowIndices st) (batch st) ∧
                   c ∈ stream ∧ tag c = name ∧ chunkData c = ch) as Hfrom.
  { intros ch Hch. destruct (elem_of_zip_r_ex _ _ _ Hlen Hch) as [i Hi].
    pose proof (Hrows _ _ Hi) as Hrow. exists i.
    destruct (row_ids_tag _ _ _ _ Hrow) as (c & ? & ? & ?).
    by exists c. }
  rewrite bool_decide_eq_true_2; cycle 1.
  { destruct (batch st) as [|ch chs] eqn:Hb; [done|].
    destruct (Hfrom ch) as (i & c & _ & _ & Hc & <- & _); [left|].
    by apply well_formed. }
  apply wp_bind, wp_gets, wp_bind, wp_lift.
  assert (∃ values,
            omapM (fun chunk => resolveChunk chunk (sqliteDb w)) (batch st)
            = Done values) as [values Hvalues].
  { apply omapM_Done. intros ch Hch.
    destruct (Hfrom ch Hch) as (i & _ & Hi & _).
    destruct (sqliteDb w) as [db|] eqn:Hdb.
    - apply resolveChunk_Done;
        [by apply (store_tables _ _ Hsafe)|by apply (store_values _ _ Hsafe)|].
      intros r Hr. by eapply row_refs_declared.
    - apply resolveChunk_None_done.
      destruct (extractRefs ch) as [|r refs] eqn:Hrefs; [done|].
      assert (referenceable (refsConfig cfg) (refTableName r)
                (refColumnName r)) as Href%referenceable_hasRefs.
      { eapply row_refs_declared; [done|]. rewrite Hrefs. left. }
      destruct HS as [_ _ _ _ _ Hopen _ _].
      rewrite Href in Hopen. destruct (proj2 Hopen I) as [db Hdb'].
      congruence. }
  rewrite Hvalues.
  apply wp_bind. unfold insert_values, wp at 1.
  rewrite (wf_accepts _ _ well_formed).
  set (call := {| ic_table := name; ic_values := values;
                  ic_batch := batch st; ic_rowIndices := rowIndices st |}).
  set (w1 := set_target (fun calls => calls ++ [call]) w).
  apply wp_bind.
  assert (∀ ch r, ch ∈ batch st → r ∈ extractRefs ch →
            ∃ i c1, (i < length (target w))%nat ∧
                    target w !! i = Some c1 ∧
                    call_has c1 (refTableName r) (refRowIndex r)) as Horder.
  { intros ch r Hch Hr. destruct (Hfrom ch Hch) as (i & _ & Hrow & Hi & _).
    destruct (sqliteDb w) as [db|] eqn:Hdb.
    - assert ((name, i, ch) ∈ batched w) as Hb.
      { eapply batch_rows_batched; [done|]. unfold batch_rows.
        apply list_elem_of_fmap. by exists (i, ch). }
      pose proof (batch_ready _ _ _ _ HS db _ r Hdb Hb Hr) as Hhas.
      destruct (store_logged _ _ Hsafe db _ _ Hdb Hhas)
        as (c1 & [k Hk]%list_elem_of_lookup & Htable & Hin & Hdecl).
      exists k, c1. split; [by apply lookup_lt_Some in Hk|].
      split; [done|]. split; [|done].
      apply same_table; [done| |done].
      destruct (row_refs_declared _ _ _ r Hrow Hr) as (cols & -> & _).
      by eexists.
    - destruct (omapM_each _ _ _ ch Hvalues Hch) as [row Hres].
      apply resolveChunk_None in Hres. rewrite Hres in Hr.
      by apply not_elem_of_nil in Hr. }
  assert (∀ w2,
            target w2 = target w ++ [call] →
            (∀ db2, sqliteDb w2 = Some db2 → as_declared cfg db2) →
            (∀ db2, sqliteDb w2 = Some db2 → full db2) →
            (∀ db db2 t i, sqliteDb w = Some db → sqliteDb w2 = Some db2 →
                           has_row db t i → has_row db2 t i) →
            (∀ db2 i cols, sqliteDb w2 = Some db2 → i ∈ rowIndices st →
                           assoc name (refsConfig cfg) = Some cols →
                           cols ≠ [] → has_row db2 name i) →
            (∀ db2 t i, sqliteDb w2 = Some db2 → has_row db2 t i →
                        (∃ db, sqliteDb w = Some db ∧ has_row db t i) ∨
                        (sql_name t = sql_name name ∧ i ∈ rowIndices st ∧
                         is_Some (assoc name (refsConfig cfg)))) →
            (sqliteDb w = None → sqliteDb w2 = None) →
            wp (modify_table name clear_batch)
               (fun _ w' => Safe cfg w') (fun _ _ => False) w2) as Hend.
  { intros w2 Htarget Htables Hfull Hold Hnew2 Honly Hnone.
    apply wp_modify. split.
    - intros db Hdb. by apply Htables.
    - intros db Hdb. by apply Hfull.
    - intros db2 c i cols Hdb2. cbn in Hdb2. cbn [target set_tableStates].
      rewrite Htarget. intros [Hc|Hc]%elem_of_app Hi Hcols Hne.
      + destruct (sqliteDb w) as [db|] eqn:Hdb;
          [|by rewrite Hnone in Hdb2].
        eapply Hold; [done|done|]. by eapply (store_complete _ _ Hsafe).
      + apply list_elem_of_singleton in Hc as ->. by eapply Hnew2.
    - intros db2 t i Hdb2 Hhas. cbn in Hdb2. cbn [target set_tableStates].
      rewrite Htarget.
      destruct (Honly db2 t i Hdb2 Hhas)
        as [(db & Hdb & Hold')|(Ht & Hi & Hdecl)].
      + destruct (store_logged _ _ Hsafe db t i Hdb Hold')
          as (c & Hc & ?). exists c. split; [|done].
        apply elem_of_app. by left.
      + exists call. split; [apply elem_of_app; right; left|]. done.
    - intros j c ch r. cbn [target set_tableStates]. rewrite Htarget.
      destruct (decide (j < length (target w))%nat) as [Hj|Hj].
      + rewrite lookup_app_l by done. intros Hc Hch Hr.
        destruct (log_order _ _ Hsafe j c ch r Hc Hch Hr)
          as (i & c1 & Hi & Hc1 & Hhas).
        exists i, c1. split; [done|]. split; [|done].
        rewrite lookup_app_l by lia. done.
      + rewrite lookup_app_r by lia.
        destruct (j - length (target w))%nat as [|n] eqn:Hn; [|done]. cbn.
        intros [= <-] Hch Hr. cbn in Hch.
        destruct (Horder ch r Hch Hr) as (i & c1 & Hi & Hc1 & Hhas).
        exists i, c1. split; [lia|]. split; [|done].
        by apply lookup_app_l_Some. }
  assert (sqliteDb w1 = sqliteDb w) as Hdb1 by done.
  assert (target w1 = target w ++ [call]) as Htarget1 by done.
  clearbody w1.
  destruct (sqliteDb w) as [db|] eqn:Hdb; cycle 1.
  { apply wp_ret. apply Hend; [done| | | | | |done].
    - intros db. by rewrite Hdb1.
    - intros db. by rewrite Hdb1.
    - by intros db db2 t i.
    - intros db2 i cols. by rewrite Hdb1.
    - intros db2 t i. by rewrite Hdb1. }
  pose proof (store_tables _ _ Hsafe db Hdb) as Htables.
  pose proof (store_values _ _ Hsafe db Hdb) as Hfull.
  destruct (assoc name (refsConfig cfg)) as [cols|] eqn:Hcols; cycle 1.
  { apply wp_ret. apply Hend; [done| | | | | |done].
    - intros db2. rewrite Hdb1. by intros [= <-].
    - intros db2. rewrite Hdb1. by intros [= <-].
    - intros db' db2 t i [= <-]. rewrite Hdb1. by intros [= <-].
    - by intros db2 i cols _ _ [=].
    - intros db2 t i. rewrite Hdb1. intros [= <-] Hhas. left. by exists db. }
  case_bool_decide as Hsize; cycle 1.
  { apply wp_ret. apply Hend; [done| | | | | |done].
    - intros db2. rewrite Hdb1. by intros [= <-].
    - intros db2. rewrite Hdb1. by intros [= <-].
    - intros db' db2 t i [= <-]. rewrite Hdb1. by intros [= <-].
    - intros db2 i cols' _ _ [= <-] Hne. destruct cols; [done|].
      cbn in Hsize. lia.
    - intros db2 t i. rewrite Hdb1. intros [= <-] Hhas. left. by exists db. }
  assert (∃ tb, db !! sql_name name = Some tb ∧ columns tb = cols) as Htable
    by by apply Htables.
  assert (∀ i, i ∈ rowIndices st → ¬ has_row db name i) as Hnew.
  { intros i Hi. by eapply (Safe_new_rows p w name st). }
  assert (Forall (fun ch => ∀ col, col ∈ cols →
                    isColumnValueReference (chunk_get ch col) = false)
                 (batch st)) as Hplain.
  { apply Forall_forall. intros ch Hch col Hcol.
    destruct (Hfrom ch Hch) as (i & c & _ & _ & Hc & Htag & <-).
    eapply (wf_plain _ _ well_formed c cols col); [done| |done].
    by rewrite Htag. }
  assert (storing name (rowIndices st) db w1 0 w1) as Hstart.
  { split; [done|]. split; [done|]. split; [done|].
    exists db. split; [done|]. split; [done|]. split; [done|].
    intros t i. split; [by left|]. intros [?|(_ & Hin)]; [done|].
    by apply not_elem_of_nil in Hin. }
  apply wp_bind.
  eapply wp_mono;
    [apply (prepare_store_storing cfg name cols st db w1 Htable 0%nat w1
              Hstart)|..]; [|done].
  intros [] w1' Hw1'.
  eapply wp_mono;
    [apply (record_loop_storing cfg name cols st db w1
              Hlen Hnd Hnew Htable Hplain) with (k := 0%nat)|..];
    [done|done| |done].
  intros [] w2 (Ht2 & Hts2 & _ & db2 & Hdb2 & Hcols2 & Hfull2 & Hrows2).
  apply Hend.
  - by rewrite Ht2.
  - intros db' Hdb'. rewrite Hdb2 in Hdb'. injection Hdb' as <-.
    intros t cols' Ht. destruct (Htables t cols' Ht) as (tb & Htb & Hc).
    specialize (Hcols2 (sql_name t)). rewrite Htb in Hcols2.
    destruct (db2 !! sql_name t) as [tb2|]; [|done].
    exists tb2. split; [done|]. injection Hcols2 as Hcols2. congruence.
  - intros db'. rewrite Hdb2. by intros [= <-].
  - intros db' db2' t i [= <-]. rewrite Hdb2. intros [= <-] Hhas.
    apply Hrows2. by left.
  - intros db2' i cols'. rewrite Hdb2. intros [= <-] Hi _ _.
    apply Hrows2. right. split; [done|].
    by rewrite <- Hlen, firstn_all.
  - intros db2' t i. rewrite Hdb2. intros [= <-] Hhas.
    apply Hrows2 in Hhas as [Hold|[Ht Hi]].
    + left. by exists db.
    + right. split; [done|]. split; [|done].
      by apply elem_of_take in Hi as (? & ?%list_elem_of_lookup_2 & _).
  - done.
Qed.
Lemma Strong_queue_row p w name st q :
  Strong cfg stream p w → (name, st) ∈ tableStates w → q ∈ queue st →
  (name, rowIndex q, chunk q) ∈ row_ids stream ∧
  pendingRefs q = extractRefs (chunk q).
Proof.
  intros [Hpre _ _ Hacc _ _ _ [_ _ _ Hrefs]] Hin Hq. split.
  - apply (row_ids_prefix p); [done|]. rewrite Hacc.
    apply elem_of_app. right. apply elem_of_app. right.
    unfold queued. apply list_elem_of_bind. exists (name, st).
    split; [|done]. unfold queue_rows. apply list_elem_of_fmap. by exists q.
  - by destruct (proj1 (Forall_forall _ _) Hrefs (name, st) Hin q Hq).
Qed.

Lemma aborted_not_None e w : aborted cfg stream e w → e = None → False.
Proof. by intros [(err & -> & _) _]. Qed.

(** *** Draining *)

Lemma drain_queue_nothrow db name queued w :
  as_declared cfg db →
  (∀ q r, q ∈ queued → r ∈ pendingRefs q →
          referenceable (refsConfig cfg) (refTableName r) (refColumnName r)) →
  wp (drain_queue db name queued)
     (fun _ w' => target w' = target w ∧ sqliteDb w' = sqliteDb w)
     (fun _ _ => False) w.
Proof.
  intros Htables. revert w.
  induction queued as [|q rest IH]; intros w Hrefs; cbn [drain_queue];
    [by apply wp_ret|].
  apply wp_bind, wp_lift.
  destruct (areAllRefsResolved_Done db (pendingRefs q) Htables)
    as [resolved ->]; [intros r Hr; eapply Hrefs; [left|done]|].
  assert (∀ w0, target w0 = target w → sqliteDb w0 = sqliteDb w →
            wp (drain_queue db name rest)
               (fun _ w' => target w' = target w ∧ sqliteDb w' = sqliteDb w)
               (fun _ _ => False) w0) as Hrest.
  { intros w0 Ht Hd. eapply wp_mono; [apply IH|..]; [|by intros; congruence|done].
    intros q' r Hq'. apply Hrefs. by right. }
  destruct resolved.
  - apply wp_bind, wp_modify, wp_bind.
    eapply wp_mono; [by apply Hrest|..]; [|done].
    intros r w' Hw'. by apply wp_ret.
  - apply wp_bind. eapply wp_mono; [by apply Hrest|..]; [|done].
    intros r w' Hw'. by apply wp_ret.
Qed.

Lemma drain_table_nothrow p db name w :
  Strong cfg stream p w → Safe cfg w → sqliteDb w = Some db →
  name ∈ (tableStates w).*1 →
  wp (drain_table db name)
     (fun _ w' => target w' = target w ∧ sqliteDb w' = sqliteDb w)
     (fun _ _ => False) w.
Proof.
  intros HS Hsafe Hdb Hname. unfold drain_table.
  apply wp_bind, wp_get_table.
  destruct (assoc_is_Some _ _ Hname) as [st Hst]. rewrite Hst.
  apply wp_bind. eapply wp_mono; [apply drain_queue_nothrow|..].
  - by apply (store_tables _ _ Hsafe).
  - intros q r Hq Hr.
    destruct (Strong_queue_row p w name st q HS) as [Hrow Hpend];
      [by apply assoc_Some_elem_of|done|].
    rewrite Hpend in Hr. by eapply row_refs_declared.
  - intros r w' Hw'. by apply wp_bind, wp_modify, wp_ret.
  - done.
Qed.

Lemma drain_pass_nothrow p db names w :
  Strong cfg stream p w → Safe cfg w → sqliteDb w = Some db →
  names ⊆ (tableStates w).*1 →
  wp (drain_pass db names)
     (fun _ w' => target w' = target w ∧ sqliteDb w' = sqliteDb w)
     (fun _ _ => False) w.
Proof.
  revert w. induction names as [|name names IH]; intros w HS Hsafe Hdb Hsub;
    cbn [drain_pass]; [by apply wp_ret|].
  assert (name ∈ (tableStates w).*1) as Hname by (apply Hsub; left).
  apply wp_bind.
  eapply wp_mono;
    [apply wp_and;
     [by apply (drain_table_Strong cfg stream p w db name)
     |by apply (drain_table_nothrow p db name w)]|..]; [|by intros e w' [_ []]].
  intros moved w1 [(HS1 & Hdb1 & Hn1 & _) [Ht1 Hd1]]. apply wp_bind.
  eapply wp_mono; [apply (IH w1)|..]; [done| |done| | |done].
  - by apply (Safe_frame w).
  - rewrite Hn1. intros x Hx. apply Hsub. by right.
  - intros made w2 [Ht2 Hd2]. apply wp_ret. split; congruence.
Qed.

Lemma drain_loop_nothrow p db n any w :
  Strong cfg stream p w → Safe cfg w → sqliteDb w = Some db →
  wp (drain_loop db n any)
     (fun _ w' => target w' = target w ∧ sqliteDb w' = sqliteDb w)
     (fun e _ => e = None) w.
Proof.
  revert any w. induction n as [|n IH]; intros any w HS Hsafe Hdb;
    cbn [drain_loop]; [by apply wp_out_of_fuel|].
  apply wp_bind, wp_gets, wp_bind.
  eapply wp_mono;
    [apply wp_and;
     [by apply (drain_pass_Strong cfg stream p db (tableStates w).*1 w)
     |by apply (drain_pass_nothrow p db (tableStates w).*1 w)]|..];
    [|by intros e w' [_ []]].
  intros made w1 [(HS1 & Hdb1 & _) [Ht1 Hd1]]. destruct made.
  - eapply wp_mono; [apply (IH true w1)|..]; [done| |done| |done].
    + by apply (Safe_frame w).
    + intros _ w2 [Ht2 Hd2]. split; congruence.
  - by apply wp_ret.
Qed.

Lemma drainAllQueues_complete p n w :
  Strong cfg stream p w → Safe cfg w → hasRefs cfg →
  (total_queued w < n)%nat →
  wp (drainAllQueues n)
     (fun progress w' =>
        Strong cfg stream p w' ∧ Safe cfg w' ∧
        (tableStates w').*1 = (tableStates w).*1 ∧
        (total_queued w' ≤ total_queued w)%nat ∧
        (progress = true → (total_queued w' < total_queued w)%nat))
     (fun _ _ => False) w.
Proof.
  intros HS Hsafe Hrefs Hn.
  eapply wp_mono;
    [apply wp_and;
     [by apply (drainAllQueues_Strong cfg stream p n w)
     |apply (proj2 (wp_run _
               (fun _ w' => target w' = target w ∧ sqliteDb w' = sqliteDb w)
               (fun e _ => e = None) _))]|..].
  - unfold drainAllQueues, bind, the_db.
    destruct (sqliteDb w) as [db|] eqn:Hdb.
    + pose proof (drain_loop_nothrow p db n false w HS Hsafe Hdb) as H.
      apply wp_run in H. by rewrite Hdb in H.
    + destruct HS as [_ _ _ _ _ Hopen _ _].
      apply Hopen in Hrefs as [db Hdb']. congruence.
  - intros progress w' [(HS' & _ & Hn' & Hle & Hlt) [Ht Hd]].
    split; [done|]. split; [by apply (Safe_frame w)|done].
  - intros e w' [Hab He]. by eapply aborted_not_None.
Qed.

(** *** Flushing *)

Lemma flush_complete p name w :
  Strong cfg stream p w → Safe cfg w →
  is_Some (assoc name (tableStates w)) →
  wp (flush cfg name)
     (fun _ w' => Strong cfg stream p w' ∧ Safe cfg w' ∧ flushed name w w')
     (fun _ _ => False) w.
Proof.
  intros HS Hsafe Hname.
  eapply wp_mono;
    [apply wp_and; [by apply (flush_Strong cfg stream p name w)
                   |by apply (flush_Safe p name w)]|..].
  - by intros [] w' [[HS' Hfl] Hsafe'].
  - by intros e w' [_ []].
Qed.

(** *** The stream loop *)

Lemma enqueue_nothrow p c w :
  Strong cfg stream p w → Safe cfg w → (p ++ [c]) `prefix_of` stream →
  wp (enqueue cfg c)
     (fun _ w' => target w' = target w ∧ sqliteDb w' = sqliteDb w)
     (fun _ _ => False) w.
Proof.
  intros HS Hsafe [rest Hpre]. unfold enqueue.
  assert (c ∈ stream) as Hc.
  { rewrite Hpre, <- app_assoc. apply elem_of_app. right. left. }
  apply wp_bind, wp_gets, wp_bind.
  eapply (wp_mono _ (fun _ w1 =>
            target w1 = target w ∧ sqliteDb w1 = sqliteDb w ∧
            is_Some (assoc (tag c) (tableStates w1)) ∧
            is_Some (rowIndexByTable w1 !! tag c)) _ (fun _ _ => False)).
  { case_bool_decide as Hknown.
    - apply wp_ret. split; [done|]. split; [done|]. split; [done|].
      pose proof (counters _ _ _ _ HS (tag c)) as Hcnt.
      destruct Hknown as [st Hst]. rewrite Hst in Hcnt. by eexists.
    - apply eq_None_not_Some in Hknown. unfold init_table.
      apply wp_bind, wp_modify, wp_modify. cbn.
      split; [done|]. split; [done|]. split.
      + rewrite assoc_app, Hknown. cbn. rewrite decide_True by done.
        by eexists.
      + rewrite lookup_insert_eq. by eexists. }
  2: done.
  intros [] w1 (Ht1 & Hd1 & [st Hst] & [i Hi]).
  apply wp_bind, wp_get_table. rewrite Hst.
  apply wp_bind, next_row_index_run. rewrite Hi.
  destruct (negb (hasRefs cfg)) eqn:Hrefs; cbn [orb];
    [by apply wp_modify|].
  case_bool_decide as Hnorefs; [by apply wp_modify|].
  assert (hasRefs cfg) as Hhas by (by destruct (hasRefs cfg)).
  apply wp_bind, wp_the_db. cbn.
  destruct (proj2 (db_open _ _ _ _ HS) Hhas) as [db Hdb].
  rewrite Hd1, Hdb.
  apply wp_bind, wp_lift.
  destruct (areAllRefsResolved_Done db (extractRefs (chunkData c)))
    as [resolved ->].
  { apply (store_tables _ _ Hsafe). by rewrite <- Hdb. }
  { intros r Hr. apply well_formed. unfold stream_refs.
    apply list_elem_of_bind. by exists c. }
  destruct resolved; apply wp_modify; cbn; split; congruence.
Qed.

Section Budget.
Variable fuel : nat.
Hypothesis enough_fuel : (length stream < fuel)%nat.

Lemma flush_drain_complete p name w :
  Strong cfg stream p w → Safe cfg w →
  is_Some (assoc name (tableStates w)) →
  wp (flush cfg name ;;
      let* sqliteDb := gets sqliteDb in
      match sqliteDb with
      | Some _ => drainAllQueues fuel ;; ret tt
      | None => ret tt
      end)
     (fun _ w' => Strong cfg stream p w' ∧ Safe cfg w' ∧
                  (tableStates w').*1 = (tableStates w).*1)
     (fun _ _ => False) w.
Proof.
  intros HS Hsafe Hname. apply wp_bind.
  eapply wp_mono; [by apply flush_complete|..]; [|done].
  intros [] w1 (HS1 & Hsafe1 & [[Hn1 _] _]%flushed_effect).
  apply wp_bind, wp_gets.
  destruct (sqliteDb w1) as [db|] eqn:Hdb; [|by apply wp_ret].
  apply wp_bind.
  eapply wp_mono;
    [apply (drainAllQueues_complete p fuel w1);
     [done|done|by eapply Strong_hasRefs
     |by eapply (Strong_total_queued cfg stream)]|..]; [|done].
  intros progress w2 (HS2 & Hsafe2 & Hn2 & _). apply wp_ret.
  split; [done|]. split; [done|congruence].
Qed.

Lemma flushAllQueuesAfterDrain_complete p w :
  Strong cfg stream p w → Safe cfg w →
  wp (flushAllQueuesAfterDrain cfg fuel)
     (fun _ w' => Strong cfg stream p w' ∧ Safe cfg w')
     (fun _ _ => False) w.
Proof.
  intros HS Hsafe. unfold flushAllQueuesAfterDrain. apply wp_bind, wp_gets.
  eapply (wp_mono _ _ _ (fun _ _ => False));
    [apply (wp_forM_ (fun w' => Strong cfg stream p w' ∧ Safe cfg w' ∧
                                (tableStates w').*1 = (tableStates w).*1))|..];
    [|done|by intros [] w' (? & ? & _)|done].
  intros name w1 Hname (HS1 & Hsafe1 & Hn1). apply wp_bind, wp_get_table.
  rewrite <- Hn1 in Hname. pose proof (assoc_is_Some _ _ Hname) as Hsome.
  destruct (assoc name (tableStates w1)) as [st|] eqn:Hst;
    [|by destruct Hsome].
  destruct (reaches _ _); [|by apply wp_ret].
  eapply wp_mono;
    [apply (flush_drain_complete p name w1); [done|done|by rewrite Hst]|..];
    [|done].
  intros [] w2 (HS2 & Hsafe2 & Hn2). split; [done|]. split; [done|congruence].
Qed.

Lemma flush_if_full_complete p name w :
  Strong cfg stream p w → Safe cfg w →
  is_Some (assoc name (tableStates w)) →
  wp (flush_if_full cfg fuel name)
     (fun _ w' => Strong cfg stream p w' ∧ Safe cfg w')
     (fun _ _ => False) w.
Proof.
  intros HS Hsafe Hname. unfold flush_if_full. apply wp_bind, wp_get_table.
  destruct (assoc name (tableStates w)) as [st|] eqn:Hst;
    [|by destruct Hname].
  destruct (reaches _ _); [|by apply wp_ret].
  apply wp_bind.
  eapply wp_mono; [apply flush_complete; [done|done|by rewrite Hst]|..];
    [|done].
  intros [] w1 (HS1 & Hsafe1 & _). apply wp_bind, wp_gets.
  destruct (hasRefs cfg) eqn:Hrefs; cbn [andb]; [|by apply wp_ret].
  destruct (bool_decide _); [|by apply wp_ret].
  apply wp_bind.
  eapply wp_mono;
    [apply (drainAllQueues_complete p fuel w1);
     [done|done|by rewrite Hrefs
     |by eapply (Strong_total_queued cfg stream)]|..]; [|done].
  intros progress w2 (HS2 & Hsafe2 & _).
  by apply flushAllQueuesAfterDrain_complete.
Qed.

Lemma process_chunk_complete p c w :
  Strong cfg stream p w → Safe cfg w → (p ++ [c]) `prefix_of` stream →
  wp (process_chunk cfg fuel c)
     (fun _ w' => Strong cfg stream (p ++ [c]) w' ∧ Safe cfg w')
     (fun _ _ => False) w.
Proof.
  intros HS Hsafe Hpre. unfold process_chunk. apply wp_bind.
  eapply wp_mono;
    [apply wp_and; [by apply (enqueue_Strong cfg stream p c w)
                   |by apply (enqueue_nothrow p c w)]|..];
    [|by intros e w' [_ []]].
  intros [] w1 [(HS1 & Hname & _) [Ht1 Hd1]].
  apply flush_if_full_complete; [done| |done]. by apply (Safe_frame w).
Qed.

Lemma stream_loop_complete p rest w :
  Strong cfg stream p w → Safe cfg w → p ++ rest = stream →
  wp (forM_ rest (process_chunk cfg fuel))
     (fun _ w' => Strong cfg stream stream w' ∧ Safe cfg w')
     (fun _ _ => False) w.
Proof.
  revert p w. induction rest as [|c rest IH]; intros p w HS Hsafe Heq.
  - apply wp_ret. rewrite app_nil_r in Heq. by subst.
  - cbn [forM_]. apply wp_bind.
    eapply wp_mono; [apply (process_chunk_complete p c w)|..];
      [done|done| | |done].
    + exists rest. by rewrite <- app_assoc.
    + intros [] w1 [HS1 Hsafe1]. apply (IH (p ++ [c])); [done|done|].
      by rewrite <- app_assoc.
Qed.

(** *** The finalizer *)

Lemma flush_all_complete p w :
  Strong cfg stream p w → Safe cfg w →
  wp (flush_all cfg)
     (fun _ w' => Strong cfg stream p w' ∧ Safe cfg w' ∧ batches_empty w' ∧
                  total_queued w' = total_queued w)
     (fun _ _ => False) w.
Proof.
  intros HS Hsafe.
  assert (wp (flush_all cfg) (fun _ w' => Safe cfg w')
             (fun _ _ => False) w) as Hnothrow.
  { unfold flush_all. apply wp_bind, wp_gets.
    eapply (wp_mono _ _ _ (fun _ _ => False));
      [apply (wp_forM_ (fun w' => Strong cfg stream p w' ∧ Safe cfg w' ∧
                                  (tableStates w').*1 = (tableStates w).*1))|..];
      [|done|by intros [] w' (? & ? & _)|done].
    intros name w1 Hname (HS1 & Hsafe1 & Hn1). rewrite <- Hn1 in Hname.
    eapply wp_mono;
      [apply (flush_complete p name w1);
       [done|done|by apply assoc_is_Some]|..];
      [|done].
    intros [] w2 (HS2 & Hsafe2 & [[Hn2 _] _]%flushed_effect).
    split; [done|]. split; [done|congruence]. }
  eapply wp_mono;
    [apply wp_and;
     [by apply (flush_all_Strong cfg stream p w)|exact Hnothrow]|..].
  - by intros [] w' [(? & ? & ?) ?].
  - by intros e w' [_ []].
Qed.

Lemma final_drain_complete p n w :
  Strong cfg stream p w → Safe cfg w → hasRefs cfg →
  (total_queued w < n)%nat →
  wp (final_drain cfg fuel n)
     (fun _ w' => Strong cfg stream p w' ∧ Safe cfg w')
     (fun _ _ => False) w.
Proof.
  revert w. induction n as [|n IH]; intros w HS Hsafe Hrefs Hn; [lia|].
  cbn [final_drain]. apply wp_bind.
  eapply wp_mono;
    [apply (drainAllQueues_complete p fuel w);
     [done|done|done|by eapply (Strong_total_queued cfg stream)]|..];
    [|done].
  intros progress w1 (HS1 & Hsafe1 & _ & Hle & Hlt). apply wp_bind.
  eapply wp_mono; [by apply (flush_all_complete p w1)|..]; [|done].
  intros [] w2 (HS2 & Hsafe2 & _ & Htq2). destruct progress.
  - apply IH; [done..|]. specialize (Hlt eq_refl). lia.
  - by apply wp_ret.
Qed.

Lemma finalize_complete p w :
  Strong cfg stream p w → Safe cfg w →
  wp (finalize cfg fuel)
     (fun _ w' => Strong cfg stream p w' ∧ Safe cfg w')
     (fun _ _ => False) w.
Proof.
  intros HS Hsafe. unfold finalize. apply wp_bind.
  eapply wp_mono; [by apply (flush_all_complete p w)|..]; [|done].
  intros [] w1 (HS1 & Hsafe1 & _). apply wp_bind, wp_gets.
  destruct (hasRefs cfg) eqn:Hrefs; cbn [andb]; [|by apply wp_ret].
  destruct (bool_decide _); [|by apply wp_ret].
  apply final_drain_complete; [done|done|by rewrite Hrefs|].
  by eapply (Strong_total_queued cfg stream).
Qed.

(** *** The final check *)

Lemma wf_opens : opens cfg.
Proof.
  unfold opens, open_store. destruct (hasRefs cfg); [|by eexists].
  rewrite (createRefDatabase_tidy _ (wf_tidy _ _ well_formed)). by eexists.
Qed.

Lemma Safe_start : Safe cfg (start cfg).
Proof.
  pose proof (wf_tidy _ _ well_formed) as Htidy.
  unfold start, open_store. destruct (hasRefs cfg) eqn:Hrefs; cycle 1.
  { by split. }
  rewrite (createRefDatabase_tidy _ Htidy). split; cbn.
  - intros db [= <-] t cols Hcols%assoc_Some_elem_of.
    exists (fresh_table t cols). split; [|done].
    by apply tables_of_elem; [apply Htidy|].
  - intros db [= <-] k tb i row c (t & cols & _ & _ & ->)%tables_of_lookup.
    cbn. by rewrite lookup_empty.
  - intros db c i cols _ Hc. by apply not_elem_of_nil in Hc.
  - intros db t i [= <-] (tb & (t0 & cols & _ & _ & ->)%tables_of_lookup
                          & Hrow).
    cbn in Hrow. rewrite lookup_empty in Hrow. by destruct Hrow.
  - intros j c ch r Hj. by rewrite lookup_nil in Hj.
Qed.

(** A run on a well-formed stream gets through the stream and through the
    finalizer, and leaves the outcome to the final check. *)
Lemma run_complete :
  ∃ w1 w2,
    forM_ stream (process_chunk cfg fuel) (start cfg) = (Done tt, w1) ∧
    finalize cfg fuel w1 = (Done tt, w2) ∧
    Strong cfg stream stream w2 ∧ Safe cfg w2 ∧ batches_empty w2 ∧
    settled w2 ∧
    execute cfg fuel stream initial
    = ((check_stuck cfg w2).1, set_sqliteDb None w2).
Proof.
  pose proof (stream_loop_complete [] stream (start cfg)
                (Strong_start cfg stream wf_opens) Safe_start eq_refl)
    as Hloop.
  unfold wp in Hloop.
  destruct (forM_ stream (process_chunk cfg fuel) (start cfg))
    as [[[]| |] w1] eqn:Hrun1; [|done..].
  destruct Hloop as [HS1 Hsafe1].
  pose proof (wp_and _ _ _ _ _ _
                (wp_and _ _ _ _ _ _
                   (finalize_Strong cfg stream fuel enough_fuel stream w1 HS1)
                   (finalize_settled cfg stream fuel enough_fuel stream w1
                      HS1))
                (finalize_complete stream w1 HS1 Hsafe1)) as Hfin.
  unfold wp in Hfin.
  destruct (finalize cfg fuel w1) as [[[]| |] w2] eqn:Hrun2;
    [|by destruct Hfin..].
  destruct Hfin as [[[HS2 Hempty] Hsettled] [_ Hsafe2]].
  exists w1, w2. split; [done|]. split; [done|]. split; [done|].
  split; [done|]. split; [done|]. split; [done|].
  destruct wf_opens as [db Hdb]. rewrite (execute_opened _ _ _ _ Hdb).
  unfold execute_body, bind. rewrite Hrun1, Hrun2.
  destruct (waiting_dec w2 (tableStates w2).*1) as [Hex|Hno].
  - by rewrite check_stuck_throws.
  - by rewrite check_stuck_passes.
Qed.

Lemma ranked_queues_empty rank w :
  Ranked stream rank →
  Strong cfg stream stream w → Safe cfg w → batches_empty w → settled w →
  queues_empty w.
Proof.
  intros Hrank HS Hsafe Hempty Hsettled.
  assert (∀ n name st q,
            (name, st) ∈ tableStates w → q ∈ queue st →
            (rank name (rowIndex q) < n)%nat → False) as Hnone.
  { induction n as [|n IH]; intros name st q Hin Hq Hn; [lia|].
    destruct (Strong_queue_row stream w name st q HS Hin Hq) as [Hrow Hpend].
    destruct HS as [_ _ _ Hacc _ Hopen _ [_ Hlog _ Hrefs]].
    destruct (proj1 (Forall_forall _ _) Hrefs (name, st) Hin q Hq)
      as (_ & _ & Hhas).
    apply Hopen in Hhas as [db Hdb].
    destruct (Hsettled db name st q Hdb Hin Hq) as (r & Hr & Hno).
    rewrite Hpend in Hr.
    destruct (Hrank _ _ _ r Hrow Hr) as [[ch' Hch'] Hlt].
    pose proof (row_refs_declared _ _ _ r Hrow Hr) as (cols & Hcols & Hcol).
    rewrite Hacc, (batched_empty w Hempty) in Hch'. cbn in Hch'.
    apply elem_of_app in Hch' as [Hlogged|Hqueued].
    - apply Hno. unfold logged in Hlogged.
      apply list_elem_of_bind in Hlogged as (c & Hc & Hin').
      unfold call_rows in Hc.
      apply list_elem_of_fmap in Hc as ([i ch] & [= Htable <- <-] & Hzip).
      apply elem_of_zip_l in Hzip. rewrite Htable.
      apply (store_complete _ _ Hsafe db c (refRowIndex r) cols);
        [done|done|done|by rewrite <- Htable|].
      intros ->. by apply not_elem_of_nil in Hcol.
    - unfold queued in Hqueued.
      apply list_elem_of_bind in Hqueued as ([name' st'] & Hq' & Hin').
      unfold queue_rows in Hq'. cbn in Hq'.
      apply list_elem_of_fmap in Hq' as (q' & [= Ht Hi _] & Hq').
      apply (IH name' st' q' Hin' Hq'). rewrite <- Ht, <- Hi. lia. }
  apply Forall_forall. intros [name st] Hin. cbn.
  destruct (queue st) as [|q qs] eqn:Hq; [done|].
  destruct (Hnone (S (rank name (rowIndex q))) name st q Hin);
    [rewrite Hq; left|lia].
Qed.

Lemma execute_completes rank :
  Ranked stream rank →
  ∃ w, execute cfg fuel stream initial = (Done tt, w) ∧
       logged w ≡ₚ row_ids stream.
Proof.
  intros Hrank.
  destruct run_complete
    as (w1 & w2 & _ & _ & HS2 & Hsafe2 & Hempty & Hsettled & ->).
  pose proof (ranked_queues_empty rank w2 Hrank HS2 Hsafe2 Hempty Hsettled)
    as Hqueues.
  rewrite check_stuck_passes; cycle 1.
  { apply waiting_queues_empty; [by destruct HS2|done]. }
  eexists. split; [done|].
  destruct HS2 as [_ _ _ Hacc _ _ _ _]. rewrite Hacc.
  rewrite (batched_empty w2 Hempty).
  assert (queued w2 = []) as ->.
  { unfold queued. clear -Hqueues.
    induction Hqueues as [|[n st] l Hst _ IH]; [done|].
    cbn in *. rewrite IH, app_nil_r. unfold queue_rows. by rewrite Hst. }
  by rewrite !app_nil_r.
Qed.

(** *** The trace of a run on a well-formed stream *)

(** A row of the trace is a row of the stream, in one call only. *)
Lemma logged_once p w j k c c' t i ch ch' :
  Strong cfg stream p w →
  target w !! j = Some c → target w !! k = Some c' →
  (t, i, ch) ∈ call_rows c → (t, i, ch') ∈ call_rows c' → j = k.
Proof.
  intros [_ _ _ Hacc _ _ _ _] Hj Hk Hin Hin'.
  pose proof (row_ids_NoDup p) as Hnd. rewrite Hacc in Hnd.
  rewrite fmap_app in Hnd. apply NoDup_app in Hnd as [Hnd _].
  unfold logged in Hnd. clear Hacc. revert j k Hj Hk Hnd.
  induction (target w) as [|c0 l IH]; intros j k Hj Hk Hnd; [done|].
  cbn in Hnd. rewrite fmap_app in Hnd.
  apply NoDup_app in Hnd as (_ & Hdisj & Hnd).
  assert (∀ n c1 ch1, l !! n = Some c1 → (t, i, ch1) ∈ call_rows c1 →
                      (t, i) ∈ row_key <$> (l ≫= call_rows)) as Hlater.
  { intros n c1 ch1 Hn Hc1. apply list_elem_of_fmap. exists (t, i, ch1).
    split; [done|]. apply list_elem_of_bind. exists c1.
    split; [done|]. by eapply list_elem_of_lookup_2. }
  assert (∀ ch1, (t, i, ch1) ∈ call_rows c0 →
                 (t, i) ∈ row_key <$> call_rows c0) as Hhere.
  { intros ch1 Hc1. apply list_elem_of_fmap. by exists (t, i, ch1). }
  destruct j as [|j], k as [|k]; cbn in Hj, Hk; simplify_eq.
  - done.
  - destruct (Hdisj (t, i)); [by eapply Hhere|by eapply Hlater].
  - destruct (Hdisj (t, i)); [by eapply Hhere|by eapply Hlater].
  - f_equal. by apply IH.
Qed.

(** The rows a call carries for what it is said to have. *)
Lemma call_has_row p w c t i :
  Strong cfg stream p w → c ∈ target w → call_has c t i →
  ∃ ch, (t, i, ch) ∈ call_rows c ∧ (t, i, ch) ∈ row_ids stream.
Proof.
  intros [_ _ _ _ _ _ _ [Hsound Hlens _ _]] Hc [<- Hin].
  pose proof (proj1 (Forall_forall _ _) Hlens c Hc) as Hlen. cbn in Hlen.
  destruct (elem_of_zip_l_ex _ _ _ Hlen Hin) as [ch Hch].
  assert ((ic_table c, i, ch) ∈ call_rows c) as Hrow.
  { unfold call_rows. apply list_elem_of_fmap. by exists (i, ch). }
  exists ch. split; [done|]. apply Hsound. unfold logged.
  apply list_elem_of_bind. by exists c.
Qed.

(** A row that has gone to the target went after the row it refers to. *)
Lemma dependency_first p w t1 i1 c1 t2 i2 c2 r j call2 :
  Strong cfg stream p w → Safe cfg w →
  (t1, i1, c1) ∈ row_ids stream →
  r ∈ extractRefs c2 → refTableName r = t1 → refRowIndex r = i1 →
  target w !! j = Some call2 → (t2, i2, c2) ∈ call_rows call2 →
  ∃ i call1, (i < j)%nat ∧ target w !! i = Some call1 ∧
             (t1, i1, c1) ∈ call_rows call1.
Proof.
  intros HS Hsafe HR1 Hr <- <- Hj Hin2.
  assert (c2 ∈ ic_batch call2) as Hc2.
  { unfold call_rows in Hin2.
    apply list_elem_of_fmap in Hin2 as ([i ch] & [= _ _ <-] & Hz).
    by apply elem_of_zip_r in Hz. }
  destruct (log_order _ _ Hsafe j call2 c2 r Hj Hc2 Hr)
    as (i & call1 & Hi & Hcall1 & Hhas).
  destruct (call_has_row p w call1 (refTableName r) (refRowIndex r) HS) as (ch & Hrow & Hstream);
    [by eapply list_elem_of_lookup_2|done|].
  exists i, call1. split; [done|]. split; [done|].
  by rewrite (NoDup_fmap_eq row_key _ _ _ (row_ids_NoDup stream) HR1 Hstream
                eq_refl).
Qed.

(** Of two rows that refer to each other, none goes to the target. *)
Lemma cycle_not_logged p w ta ia ca tb ib cb ra rb :
  Strong cfg stream p w → Safe cfg w →
  (ta, ia, ca) ∈ row_ids stream → (tb, ib, cb) ∈ row_ids stream →
  ra ∈ extractRefs ca → refTableName ra = tb → refRowIndex ra = ib →
  rb ∈ extractRefs cb → refTableName rb = ta → refRowIndex rb = ia →
  (ta, ia, ca) ∉ logged w.
Proof.
  intros HS Hsafe Ha Hb Hra Hta Hia Hrb Htb Hib Hlogged.
  unfold logged in Hlogged.
  apply list_elem_of_bind in Hlogged as (c & Hin & [j Hj]%list_elem_of_lookup).
  destruct (dependency_first p w tb ib cb ta ia ca ra j c HS Hsafe Hb Hra
              Hta Hia Hj Hin) as (i & c1 & Hi & Hc1 & Hin1).
  destruct (dependency_first p w ta ia ca tb ib cb rb i c1 HS Hsafe Ha Hrb
              Htb Hib Hc1 Hin1) as (k & c2 & Hk & Hc2 & Hin2).
  pose proof (logged_once p w j k c c2 ta ia ca ca HS Hj Hc2 Hin Hin2). lia.
Qed.

(** A row that has not gone to the target when the final check comes
    waits in a queue, and the check reports it. *)
Lemma stuck_row_reported w t i ch r :
  Strong cfg stream stream w → batches_empty w →
  (t, i, ch) ∈ row_ids stream → (t, i, ch) ∉ logged w →
  r ∈ extractRefs ch →
  check_stuck cfg w
  = (Throw (JsError (getUnresolvedRefsError cfg (tableStates w))), w) ∧
  (t +:+ "[" +:+ pretty i +:+ "] " +:+ arrow cfg +:+ " "
   +:+ refTableName r +:+ "[" +:+ pretty (refRowIndex r) +:+ "]."
   +:+ refColumnName r) ∈ unresolved_lines cfg (tableStates w).
Proof.
  intros HS Hempty Hrow Hnot Hr.
  pose proof HS as [_ Hnd _ Hacc _ _ _ [_ _ _ Hrefs]].
  rewrite Hacc, (batched_empty w Hempty) in Hrow. cbn in Hrow.
  apply elem_of_app in Hrow as [?|Hqueued]; [done|].
  unfold queued in Hqueued.
  apply list_elem_of_bind in Hqueued as ([name st] & Hq & Hin).
  unfold queue_rows in Hq. cbn in Hq.
  apply list_elem_of_fmap in Hq as (q & [= -> -> ->] & Hq).
  destruct (proj1 (Forall_forall _ _) Hrefs (name, st) Hin q Hq)
    as (Hpend & _ & _).
  split.
  - apply check_stuck_throws. apply Exists_exists. exists name.
    split; [apply list_elem_of_fmap; by exists (name, st)|].
    exists st. split; [by apply elem_of_assoc|].
    intros Hnil. rewrite Hnil in Hq. by apply not_elem_of_nil in Hq.
  - rewrite <- Hpend in Hr.
    apply (unresolved_lines_complete cfg _ _ _ _ _ Hin Hq Hr).
Qed.

(** Two rows that refer to each other make [execute] end with the report
    of stuck chunks, which has a line for each. *)
Lemma execute_cycle ta ia ca tb ib cb ra rb :
  (ta, ia, ca) ∈ row_ids stream → (tb, ib, cb) ∈ row_ids stream →
  ra ∈ extractRefs ca → refTableName ra = tb → refRowIndex ra = ib →
  rb ∈ extractRefs cb → refTableName rb = ta → refRowIndex rb = ia →
  ∃ lines,
    (execute cfg fuel stream initial).1
    = Throw (JsError
        ("Failed to resolve refs (possible circular dependency):"
         +:+ newline +:+ String.concat newline lines)) ∧
    lines
    = unresolved_lines cfg (tableStates (execute cfg fuel stream initial).2) ∧
    (ta +:+ "[" +:+ pretty ia +:+ "] " +:+ arrow cfg +:+ " "
     +:+ tb +:+ "[" +:+ pretty ib +:+ "]." +:+ refColumnName ra) ∈ lines ∧
    (tb +:+ "[" +:+ pretty ib +:+ "] " +:+ arrow cfg +:+ " "
     +:+ ta +:+ "[" +:+ pretty ia +:+ "]." +:+ refColumnName rb) ∈ lines.
Proof.
  intros Ha Hb Hra Hta Hia Hrb Htb Hib.
  destruct run_complete
    as (w1 & w2 & _ & _ & HS2 & Hsafe2 & Hempty & _ & Hrun).
  pose proof (cycle_not_logged stream w2 ta ia ca tb ib cb ra rb HS2 Hsafe2
                Ha Hb Hra Hta Hia Hrb Htb Hib) as Hna.
  pose proof (cycle_not_logged stream w2 tb ib cb ta ia ca rb ra HS2 Hsafe2
                Hb Ha Hrb Htb Hib Hra Hta Hia) as Hnb.
  destruct (stuck_row_reported w2 ta ia ca ra HS2 Hempty Ha Hna Hra)
    as [Hcheck Hline_a].
  destruct (stuck_row_reported w2 tb ib cb rb HS2 Hempty Hb Hnb Hrb)
    as [_ Hline_b].
  rewrite Hta, Hia in Hline_a. rewrite Htb, Hib in Hline_b.
  rewrite Hrun, Hcheck. cbn [fst snd].
  exists (unresolved_lines cfg (tableStates w2)). done.
Qed.
End Budget.
End Complete.


Lemma cycle_tidy : Tidy [("a", ["id"]); ("b", ["id"])].
Proof.
  split.
  - apply (bool_decide_unpack (NoDup (sql_name <$> ["a"; "b"]))).
    vm_compute. exact I.
  - intros t cols
      [[= -> ->]|[= -> ->]%list_elem_of_singleton]%elem_of_cons;
      (split; [done|]); by intros c ->%list_elem_of_singleton.
  - intros t cols
      [[= -> ->]|[= -> ->]%list_elem_of_singleton]%elem_of_cons;
      (split; [|cbn [length]; lia]);
      apply (bool_decide_unpack (NoDup (sql_name <$> ["_rowIndex"; "id"])));
      vm_compute; exact I.
Qed.

Lemma cycle_well_formed : WellFormed cycle_seeder cycle_stream.
Proof.
  split.
  - exact cycle_tidy.
  - reflexivity.
  - intros c [->|[->|Hc%not_elem_of_nil]%elem_of_cons]%elem_of_cons;
      [vm_compute; left|vm_compute; right; left|done].
  - intros r [->|[->|Hr%not_elem_of_nil]%elem_of_cons]%elem_of_cons;
      [| |done]; exists ["id"]; (split; [reflexivity|left]).
  - intros c cols col
      [->|[->|Hc%not_elem_of_nil]%elem_of_cons]%elem_of_cons; [| |done];
      intros [= <-] ->%list_elem_of_singleton; reflexivity.
Qed.



Lemma scenario_tidy : Tidy [("books", ["id"])].
Proof.
  split.
  - vm_compute. apply NoDup_singleton.
  - intros t cols [= -> ->]%list_elem_of_singleton. split; [done|].
    by intros c ->%list_elem_of_singleton.
  - intros t cols [= -> ->]%list_elem_of_singleton.
    split; [|cbn [length]; lia].
    apply (bool_decide_unpack (NoDup (sql_name <$> ["_rowIndex"; "id"]))).
    vm_compute. exact I.
Qed.


(** ** The parameter ceiling on streams without reference *)

Lemma first_chunk_app p q name :
  first_chunk (p ++ q) name
  = match first_chunk p name with
    | Some c => Some c
    | None => first_chunk q name
    end.
Proof.
  unfold first_chunk. induction p as [|c p IH]; cbn; [done|].
  by case_bool_decide.
Qed.

Lemma omapM_length {A B} (f : A → outcome B) l ys :
  omapM f l = Done ys → length ys = length l.
Proof.
  revert ys. induction l as [|x l IH]; intros ys; cbn; [by intros [= <-]|].
  destruct (f x); cbn; [|done..].
  destruct (omapM f l); cbn; [|done..].
  intros [= <-]. cbn. by rewrite (IH _ eq_refl).
Qed.

Section Ceiling.
Variable cfg : Seeder.
Variable stream : list StreamChunk.

Lemma drain_pass_idle db names w :
  (∀ name st, assoc name (tableStates w) = Some st → queue st = []) →
  (∀ n, n ∈ names → is_Some (assoc n (tableStates w))) →
  drain_pass db names w = (Done false, w).
Proof.
  intros Hq. induction names as [|n names IH]; intros Hn; cbn; [done|].
  destruct (Hn n) as [st Hst]; [left|].
  assert (drain_table db n w = (Done false, w)) as Ht.
  { unfold drain_table, bind at 1, get_table. rewrite Hst.
    rewrite (Hq _ _ Hst). cbn. unfold bind, ret, modify_table, modify. cbn.
    f_equal. apply set_tableStates_id.
    eapply alter_assoc_id; [done|]. rewrite <-(Hq _ _ Hst) at 1.
    apply set_queue_id. }
  unfold bind at 1. rewrite Ht. unfold bind.
  rewrite IH; [done|]. intros ??. apply Hn. by right.
Qed.

Lemma drainAllQueues_idle fuel w :
  (∀ name st, assoc name (tableStates w) = Some st → queue st = []) →
  wp (drainAllQueues fuel) (fun _ w' => w' = w) (fun _ w' => w' = w) w.
Proof.
  intros Hq. unfold drainAllQueues. apply wp_bind, wp_the_db.
  destruct (sqliteDb w) as [db|]; [|done].
  destruct fuel as [|fuel]; cbn; [done|].
  unfold wp, bind at 1, table_names, gets. unfold bind.
  rewrite drain_pass_idle; [done..|]. intros n. apply assoc_is_Some.
Qed.

Lemma flush_idle name st w :
  assoc name (tableStates w) = Some st → batch st = [] →
  flush cfg name w = (Done tt, w).
Proof.
  intros Hst Hb. unfold flush, bind at 1, get_table. rewrite Hst, Hb. done.
Qed.

Lemma Calls_inserted name st w w1 :
  Calls cfg stream w →
  batchSize st = ceiling cfg stream name →
  fits (length (batch st)) (batchSize st) →
  inserted_batch name st w w1 → Calls cfg stream w1.
Proof.
  intros Hcalls Hsize Hfit (values & Hv & Ht & _) call. rewrite Ht.
  intros [?| ->%list_elem_of_singleton]%elem_of_app; [auto|].
  cbn. by rewrite (omapM_length _ _ _ Hv), <-Hsize.
Qed.

Lemma flush_Within name p hot hot' w :
  Within cfg stream p hot w →
  (∀ n, hot' ≠ Some n → hot ≠ Some n ∨ n = name) →
  wp (flush cfg name) (fun _ => Within cfg stream p hot')
     (fun _ => Calls cfg stream) w.
Proof.
  intros [Hp Hnew Hstates Hcalls] Hhot.
  eapply wp_mono; [apply (flush_spec cfg)|..]; cbn.
  - intros _ w' (st & Hst & [[Hb ->]|(Hne & w1 & Hins & ->)]).
    + split; try done.
      intros n st' Hst'. destruct (Hstates _ _ Hst') as (? & ? & ? & Hroom).
      repeat split; try done. intros Hn.
      destruct (Hhot _ Hn) as [?| ->]; [auto|]. left. congruence.
    + destruct (Hstates _ _ Hst) as (Hsize & Hq & Hfit & _).
      pose proof (Calls_inserted _ _ _ _ Hcalls Hsize Hfit Hins)
        as Hcalls1.
      destruct Hins as (values & Hv & Ht & Hts & _ & _).
      split; cbn.
      * done.
      * intros n. rewrite Hts, assoc_alter.
        case_decide; [subst; by rewrite Hst|auto].
      * intros n st'. rewrite Hts, assoc_alter. case_decide as Hn.
        -- subst n. rewrite Hst. cbn. intros [= <-]. cbn.
           repeat split; try done; [|by left].
           destruct (batchSize st); cbn; [lia|done].
        -- intros Hst'. destruct (Hstates _ _ Hst') as (? & ? & ? & Hroom).
           repeat split; try done. intros Hh.
           destruct (Hhot _ Hh); [auto|done].
      * done.
  - intros e w' [_ [->|(st & Hst & Hins)]]; [done|].
    destruct (Hstates _ _ Hst) as (Hsize & Hq & Hfit & _).
    by eapply Calls_inserted.
Qed.

Lemma flushAllQueuesAfterDrain_idle fuel p w :
  Within cfg stream p None w →
  wp (flushAllQueuesAfterDrain cfg fuel)
     (fun _ w' => w' = w) (fun _ w' => w' = w) w.
Proof.
  intros HW. unfold flushAllQueuesAfterDrain. apply wp_bind, wp_gets.
  apply wp_forM_; [|done]. intros name w' Hname ->.
  apply wp_bind, wp_get_table.
  destruct (assoc_is_Some name (tableStates w) Hname) as [st Hst]. rewrite Hst.
  destruct (within_states _ _ _ _ _ HW _ _ Hst) as (_ & _ & _ & Hroom).
  destruct (reaches _ _) eqn:Hr; [|by apply wp_ret].
  destruct Hroom as [Hb|Hb]; [done| |congruence].
  apply wp_bind. unfold wp at 1. rewrite (flush_idle _ _ _ Hst Hb).
  apply wp_bind, wp_gets. destruct (sqliteDb w); [|by apply wp_ret].
  apply wp_bind. eapply wp_mono; [apply drainAllQueues_idle|..]; cbn.
  - intros n st' Hst'. by destruct (within_states _ _ _ _ _ HW _ _ Hst') as (_ & ? & _).
  - intros _ w' ->. by apply wp_ret.
  - done.
Qed.

Lemma flush_if_full_Within fuel name p w :
  Within cfg stream p (Some name) w →
  wp (flush_if_full cfg fuel name) (fun _ => Within cfg stream p None)
     (fun _ => Calls cfg stream) w.
Proof.
  intros HW. unfold flush_if_full. apply wp_bind, wp_get_table.
  destruct (assoc name (tableStates w)) as [st|] eqn:Hst; [|apply HW].
  destruct (reaches _ _) eqn:Hr.
  - apply wp_bind.
    eapply wp_mono; [apply (flush_Within name p (Some name) None); [done|]|..];
      cbn; [|clear dependent w|done].
    { intros n _. destruct (decide (n = name)); [by right|left; congruence]. }
    intros _ w HW. apply wp_bind, wp_gets.
    destruct (hasRefs cfg && bool_decide (is_Some (sqliteDb w)));
      [|by apply wp_ret].
    apply wp_bind. eapply wp_mono; [apply drainAllQueues_idle|..]; cbn.
    + intros n st' Hst'.
      by destruct (within_states _ _ _ _ _ HW _ _ Hst') as (_ & ? & _).
    + intros _ w' ->.
      eapply wp_mono; [by eapply flushAllQueuesAfterDrain_idle|..]; cbn.
      * by intros _ ? ->.
      * intros _ ? ->. apply HW.
    + intros _ ? ->. apply HW.
  - apply wp_ret. destruct HW as [Hp Hnew Hstates Hcalls]. split; try done.
    intros n st' Hst'. destruct (Hstates _ _ Hst') as (? & ? & ? & Hroom).
    repeat split; try done. intros _.
    destruct (decide (n = name)) as [->|Hn]; [|apply Hroom; congruence].
    right. congruence.
Qed.

Hypothesis no_reference : ∀ c, c ∈ stream → extractRefs (chunkData c) = [].

Lemma first_chunk_here c p rest :
  stream = (p ++ [c]) ++ rest → first_chunk p (tag c) = None →
  ceiling cfg stream (tag c)
  = getBatchSizeForTable (dialect cfg) (length (chunkData c)).
Proof.
  intros -> Hp. unfold ceiling.
  rewrite !first_chunk_app, Hp. cbn. by rewrite bool_decide_true.
Qed.

Lemma fits_one_more st :
  has_room st → fits (S (length (batch st))) (batchSize st).
Proof.
  unfold has_room, fits, reaches. destruct (batchSize st) as [n|]; [|done].
  intros [->|Hr]; cbn; [lia|]. case_bool_decide; [done|lia].
Qed.

Lemma enqueue_Within c p w :
  (p ++ [c]) `prefix_of` stream →
  Within cfg stream p None w →
  wp (enqueue cfg c) (fun _ => Within cfg stream (p ++ [c]) (Some (tag c)))
     (fun _ => Calls cfg stream) w.
Proof.
  intros [rest Hstream] [Hp Hnew Hstates Hcalls].
  assert (∀ w1,
    target w1 = target w →
    (∀ name, name ≠ tag c → assoc name (tableStates w1) = None →
             first_chunk p name = None) →
    (∀ name st, assoc name (tableStates w1) = Some st →
       batchSize st = ceiling cfg stream name ∧ queue st = [] ∧
       fits (length (batch st)) (batchSize st) ∧ has_room st) →
    is_Some (assoc (tag c) (tableStates w1)) →
    wp (let* tableState := get_table (tag c) in
        let* rowIndex := next_row_index (tag c) in
        let refs := extractRefs (chunkData c) in
        if negb (hasRefs cfg) || bool_decide (length refs = 0%nat) then
          modify_table (tag c) (push_batch (chunkData c) rowIndex)
        else
          let* db := the_db in
          let* resolved := lift (areAllRefsResolved refs db) in
          if resolved : bool then
            modify_table (tag c) (push_batch (chunkData c) rowIndex)
          else
            modify_table (tag c)
              (push_queue {| chunk := chunkData c; rowIndex := rowIndex;
                             pendingRefs := refs |}))
       (fun _ => Within cfg stream (p ++ [c]) (Some (tag c)))
       (fun _ => Calls cfg stream) w1) as Hrest.
  { intros w1 Ht Hnew1 Hstates1 [st Hst].
    assert (Calls cfg stream w1) as Hcalls1 by (unfold Calls; by rewrite Ht).
    apply wp_bind, wp_get_table. rewrite Hst.
    apply wp_bind, next_row_index_run.
    destruct (rowIndexByTable w1 !! tag c) as [i|]; [|done].
    cbn zeta. rewrite (no_reference c), orb_true_r.
    2:{ rewrite Hstream. apply elem_of_app. left. apply elem_of_app. right.
        by left. }
    apply wp_modify. split; cbn.
    - by exists rest.
    - intros name. rewrite assoc_alter. case_decide as Hn.
      + subst. by rewrite Hst.
      + intros Hname. rewrite first_chunk_app, (Hnew1 _ Hn Hname). cbn.
        by rewrite bool_decide_false.
    - intros name st'. rewrite assoc_alter. case_decide as Hn.
      + subst. rewrite Hst. cbn. intros [= <-]. cbn.
        destruct (Hstates1 _ _ Hst) as (? & ? & ? & Hroom).
        repeat split; try done. rewrite length_app, Nat.add_1_r.
        by apply fits_one_more.
      + intros Hst'. destruct (Hstates1 _ _ Hst') as (? & ? & ? & Hroom).
        repeat split; try done.
    - done. }
  unfold enqueue. apply wp_bind, wp_gets. case_bool_decide as Hknown.
  - apply wp_bind, wp_ret. apply Hrest; try done.
    + intros name _. apply Hnew.
    + intros name st Hst. destruct (Hstates _ _ Hst) as (? & ? & ? & Hroom).
      repeat split; try done. by apply Hroom.
  - assert (assoc (tag c) (tableStates w) = None) as Hnone.
    { destruct (assoc _ _) eqn:E; [|done]. destruct Hknown. by eexists. }
    apply wp_bind. unfold init_table. apply wp_bind, wp_modify, wp_modify.
    apply Hrest; cbn.
    + done.
    + intros name Hn. rewrite assoc_app. destruct (assoc name _) eqn:E; [done|].
      intros _. by apply Hnew.
    + intros name st. rewrite assoc_app.
      destruct (assoc name (tableStates w)) as [st0|] eqn:E.
      * intros [= <-]. destruct (Hstates _ _ E) as (? & ? & ? & Hroom).
        repeat split; try done. by apply Hroom.
      * cbn. case_decide as Hn; [|done]. subst name. intros [= <-]. cbn.
        repeat split; try done.
        -- symmetry. eapply first_chunk_here; [done|by apply Hnew].
        -- destruct (getBatchSizeForTable _ _); cbn; [lia|done].
        -- by left.
    + rewrite assoc_app, Hnone. cbn. rewrite decide_True by done. by eexists.
Qed.

Lemma stream_loop_Within fuel rest p w :
  p ++ rest = stream → Within cfg stream p None w →
  wp (forM_ rest (process_chunk cfg fuel)) (fun _ => Within cfg stream stream None)
     (fun _ => Calls cfg stream) w.
Proof.
  revert p w. induction rest as [|c rest IH]; intros p w Hstream HW; cbn.
  - apply wp_ret. by rewrite app_nil_r in Hstream; subst.
  - apply wp_bind. unfold process_chunk. apply wp_bind.
    eapply wp_mono; [apply enqueue_Within; [|done]|..]; cbn; [| |done].
    { exists rest. by rewrite <-app_assoc. }
    intros _ w1 HW1.
    eapply wp_mono; [by apply flush_if_full_Within|..]; cbn; [|done].
    intros _ w2 HW2. apply (IH (p ++ [c])); [|done]. by rewrite <-app_assoc.
Qed.

Lemma flush_all_Within p w :
  Within cfg stream p None w →
  wp (flush_all cfg) (fun _ => Within cfg stream p None)
     (fun _ => Calls cfg stream) w.
Proof.
  intros HW. unfold flush_all. apply wp_bind, wp_gets.
  apply wp_forM_; [|done]. intros name w' _ HW'.
  apply (flush_Within name p None None); [done|]. intros n ?. by left.
Qed.

Lemma final_drain_Within inner fuel p w :
  Within cfg stream p None w →
  wp (final_drain cfg inner fuel) (fun _ => Within cfg stream p None)
     (fun _ => Calls cfg stream) w.
Proof.
  revert w. induction fuel as [|fuel IH]; intros w HW; cbn; [apply HW|].
  apply wp_bind. eapply wp_mono; [apply drainAllQueues_idle|..]; cbn.
  - intros n st' Hst'.
    by destruct (within_states _ _ _ _ _ HW _ _ Hst') as (_ & ? & _).
  - intros madeProgress ? ->. apply wp_bind.
    eapply wp_mono; [by apply flush_all_Within|..]; cbn; [|done].
    intros _ w1 HW1. destruct madeProgress; [by apply IH|by apply wp_ret].
  - intros _ ? ->. apply HW.
Qed.

Lemma finalize_Within fuel p w :
  Within cfg stream p None w →
  wp (finalize cfg fuel) (fun _ => Within cfg stream p None)
     (fun _ => Calls cfg stream) w.
Proof.
  intros HW. unfold finalize. apply wp_bind.
  eapply wp_mono; [by apply flush_all_Within|..]; cbn; [|done].
  intros _ w1 HW1. apply wp_bind, wp_gets.
  destruct (hasRefs cfg && _); [by apply final_drain_Within|by apply wp_ret].
Qed.

Lemma check_stuck_Calls w :
  Calls cfg stream w →
  wp (check_stuck cfg) (fun _ => Calls cfg stream) (fun _ => Calls cfg stream) w.
Proof.
  intros Hcalls. unfold check_stuck. apply wp_bind, wp_gets.
  eapply wp_mono; [apply check_stuck_loop|..]; cbn.
  - intros n. apply assoc_is_Some.
  - by intros _ ? [-> _].
  - by intros _ ? [-> _].
Qed.

Lemma execute_Calls fuel : Calls cfg stream (execute cfg fuel stream initial).2.
Proof.
  unfold execute.
  destruct (open_store cfg) as [db|e|]; [|by intros ? ?%not_elem_of_nil..].
  set (w0 := {| target := target initial; sqliteDb := db |}).
  assert (Within cfg stream [] None w0) as HW.
  { split; cbn; [apply prefix_nil|done|done|]. by intros ? ?%not_elem_of_nil. }
  assert (wp (execute_body cfg fuel stream) (fun _ => Calls cfg stream)
             (fun _ => Calls cfg stream) w0) as Hbody.
  { unfold execute_body. apply wp_bind.
    eapply wp_mono; [by apply (stream_loop_Within fuel stream [])|..]; cbn;
      [|done].
    intros _ w1 HW1. apply wp_bind.
    eapply wp_mono; [by apply finalize_Within|..]; cbn; [|done].
    intros _ w2 HW2. apply check_stuck_Calls, HW2. }
  unfold wp in Hbody. by destruct (execute_body _ _ _ _) as [[[]|e|] w'].
Qed.
End Ceiling.

(** X15. On a stream in which no chunk holds a reference, no bulk insert of
    [execute] is above the parameter ceiling, whether the run ends well or
    not: with [C] the number of columns of the first chunk of a table, every
    call for this table carries at most [floor(MAX_PARAMETERS / C)] rows,
    or one row when a single row is already above the ceiling. *)
Theorem X15_batch_ceiling_holds_without_references cfg fuel stream call first :
  (∀ c, c ∈ stream → extractRefs (chunkData c) = []) →
  call ∈ target (execute cfg fuel stream initial).2 →
  first_chunk stream (ic_table call) = Some first →
  chunkData first ≠ [] →
  Z.of_nat (length (ic_values call))
  ≤ Z.max 1 (MAX_PARAMETERS (dialect cfg)
             / Z.of_nat (length (chunkData first))).
Proof.
  intros Hplain Hcall Hfirst Hcols.
  pose proof (execute_Calls cfg stream Hplain fuel call Hcall) as Hfits.
  unfold ceiling in Hfits. rewrite Hfirst in Hfits.
  unfold getBatchSizeForTable in Hfits.
  by destruct (chunkData first).
Qed.

Lemma X15_batch_ceiling_holds_without_references_witness :
  (length <$> (ic_values <$>
     target (execute wide_seeder 3 tall_stream initial).2)) = [2; 1]%nat ∧
  Forall (fun call => Z.of_nat (length (ic_values call)) ≤ 2)
         (target (execute wide_seeder 3 tall_stream initial).2).
Proof.
  split; [vm_compute; reflexivity|].
  assert (Forall (fun call => ic_table call = "books")
            (target (execute wide_seeder 3 tall_stream initial).2)) as Hbooks
    by (vm_compute; repeat constructor).
  apply Forall_forall. intros call Hcall.
  apply (X15_batch_ceiling_holds_without_references wide_seeder 3 tall_stream
           call (tall_book 0)).
  - intros c Hc. repeat (apply elem_of_cons in Hc as [->|Hc]; [reflexivity|]).
    by apply not_elem_of_nil in Hc.
  - exact Hcall.
  - rewrite (proj1 (Forall_forall _ _) Hbooks call Hcall). reflexivity.
  - discriminate.
Defined.

(** ** The generator stream *)

Lemma assoc_set_prop {A} k k' (v : A) obj :
  assoc k' (set_prop k v obj)
  = if decide (k' = k) then Some v else assoc k' obj.
Proof.
  unfold set_prop. case_bool_decide as Hk.
  - rewrite assoc_alter. case_decide; [subst|done].
    destruct Hk as [v' ->]. done.
  - rewrite assoc_app. cbn. destruct (assoc k' obj) eqn:E.
    + case_decide; [subst|done]. destruct Hk. by eexists.
    + repeat case_decide; congruence.
Qed.

Lemma elem_of_alter_assoc {A} (f : A → A) k l x :
  x ∈ alter_assoc f k l → x ∈ l ∨ ∃ v, x = (k, f v).
Proof.
  induction l as [|[k0 v0] l IH]; cbn; [by left|].
  case_decide; subst.
  - intros [->|?]%elem_of_cons; [right; by eexists|left; by right].
  - intros [->|[?|?]%IH]%elem_of_cons; [left; by left|left; by right|by right].
Qed.

Lemma elem_of_set_prop {A} k (v : A) obj x :
  x ∈ set_prop k v obj → x ∈ obj ∨ x = (k, v).
Proof.
  unfold set_prop. case_bool_decide.
  - intros [?|[? ->]]%elem_of_alter_assoc; auto.
  - intros [?| ->%list_elem_of_singleton]%elem_of_app; auto.
Qed.

Lemma new_Set_spec values :
  NoDup (new_Set values) ∧ ∀ x, x ∈ new_Set values ↔ x ∈ values.
Proof.
  unfold new_Set.
  assert (∀ acc, NoDup acc →
    NoDup (foldl (fun s c => set_add c s) acc values) ∧
    ∀ x, x ∈ foldl (fun s c => set_add c s) acc values
         ↔ x ∈ acc ∨ x ∈ values) as H.
  { induction values as [|c values IH]; intros acc Hacc; cbn.
    - split; [done|]. intros x. split; [by left|].
      by intros [?|?%not_elem_of_nil].
    - destruct (IH (set_add c acc)) as [Hnd Hin]; [by apply set_add_NoDup|].
      split; [done|]. intros x. rewrite Hin, elem_of_set_add, elem_of_cons.
      naive_solver. }
  destruct (H [] (NoDup_nil_2)) as [Hnd Hin]. split; [done|].
  intros x. rewrite Hin. split; [by intros [?%not_elem_of_nil|?]|by right].
Qed.

Lemma getColumnNameToTsKeyMap_keys table columnName tsKey :
  assoc columnName (getColumnNameToTsKeyMap table) = Some tsKey →
  tsKey ∈ (tsColumns table).*1.
Proof.
  unfold getColumnNameToTsKeyMap.
  assert (∀ cols acc,
    (∀ n k, assoc n acc = Some k → k ∈ (tsColumns table).*1) →
    (∀ x, x ∈ cols → x.1 ∈ (tsColumns table).*1) →
    ∀ n k, assoc n (foldl (fun acc '(tsKey, col) =>
                             set_prop (colName col) tsKey acc) acc cols)
           = Some k → k ∈ (tsColumns table).*1) as H.
  { induction cols as [|[k0 col] cols IH]; intros acc Hacc Hcols; cbn;
      [done|].
    apply IH; [|intros x Hx; apply Hcols; by right].
    intros n k. rewrite assoc_set_prop. case_decide; [|apply Hacc].
    intros [= <-]. apply (Hcols (k0, col)). by left. }
  apply H; [done|]. intros x Hx. by apply list_elem_of_fmap_2.
Qed.

Section Numbering.
Context {Faker : Type}.
Variable sameValueZero : cell → cell → bool.
Variable fuel : nat.
Variable generator : BaseGenerator Faker.
Variable P : ExtendedGeneratorContext Faker → cell → Prop.
Hypothesis generator_returns : ∀ ctx s v s',
  generate sameValueZero fuel generator ctx s = (Done v, s') → P ctx v.

Lemma row_ok_set_prop t i k v obj :
  row_ok P t i obj → k ≠ "_tag" → generated_by P t i k v →
  row_ok P t i (set_prop k v obj).
Proof.
  intros [Htag Hvals] Hk Hv. split.
  - rewrite assoc_set_prop. by case_decide.
  - intros k' v' [?|[= -> ->]]%elem_of_set_prop ?; [by apply Hvals|done].
Qed.

Lemma fill_columns_ok table map t count i columnOrder self s self' s' :
  (∀ n k, assoc n map = Some k → k ≠ "_tag") →
  row_ok P t i self →
  fill_columns sameValueZero fuel generator table map t count i columnOrder
               self s = (Done self', s') →
  row_ok P t i self' ∧ yielded s' = yielded s.
Proof.
  intros Hmap. revert self s.
  induction columnOrder as [|columnName rest IH]; intros self s Hself;
    cbn [fill_columns].
  { by intros [= <- <-]. }
  set (columnTsKey := default "undefined" (assoc columnName map)).
  assert (columnTsKey ≠ "_tag") as Hkey.
  { unfold columnTsKey. destruct (assoc columnName map) eqn:E; [|done].
    by eapply Hmap. }
  destruct (find _ _) as [columnConfig|]; [|done].
  destruct (generated columnConfig).
  - apply IH. apply row_ok_set_prop; [done..|by left].
  - unfold ebind at 1, lift_gen.
    destruct (generate _ _ _ _ _) as [[v| |] g] eqn:Hgen; [|done..].
    intros Hrest. apply IH in Hrest as [? ->]; [done|].
    apply row_ok_set_prop; [done..|]. right.
    eexists. split; [|split; [|split]];
      [| | |eapply generator_returns, Hgen]; done.
Qed.

Lemma as_chunk_row_ok t i obj :
  row_ok P t i obj →
  ∃ c, as_chunk obj = Some c ∧ tag c = t ∧
       ∀ k v, (k, v) ∈ chunkData c → generated_by P t i k v.
Proof.
  intros [Htag Hvals]. unfold as_chunk. rewrite Htag.
  eexists. split; [done|]. split; [done|]. cbn.
  intros k v [Hk Hin]%list_elem_of_filter. by apply Hvals.
Qed.

Lemma Numbered_ext occ occ' objs :
  (∀ t, occ t = occ' t) → Numbered P occ objs → Numbered P occ' objs.
Proof.
  intros Hext (stream & Hstream & Hocc & Hvals).
  exists stream. split; [done|]. split; [|done].
  intros t. by rewrite Hocc.
Qed.

Lemma Numbered_yield occ objs t obj :
  Numbered P occ objs → row_ok P t (occ t) obj →
  Numbered P (fun t' => if decide (t' = t) then occ t + 1 else occ t')
           (objs ++ [obj]).
Proof.
  intros (stream & Hstream & Hocc & Hvals) (c & Hc & Htag & Hdata)%as_chunk_row_ok.
  exists (stream ++ [c]). split; [|split].
  - apply Forall2_app; [done|]. by repeat constructor.
  - intros t'. rewrite occurrences_app, occurrences_singleton, Hocc, Htag.
    repeat case_decide; subst; try done; lia.
  - intros t' i data k v. rewrite row_ids_snoc.
    intros [?|[= -> -> ->]%list_elem_of_singleton]%elem_of_app; [eauto|].
    rewrite Htag, Hocc. apply Hdata.
Qed.

Lemma rows_loop_ok table map t count columnOrder indices s s' occ :
  (∀ n k, assoc n map = Some k → k ≠ "_tag") →
  Numbered P occ (yielded s) →
  (∀ j idx, indices !! j = Some idx → idx = occ t + Z.of_nat j) →
  eforM_ indices (fun index =>
    let+ self :=
      fill_columns sameValueZero fuel generator table map t count index
                   columnOrder [("_tag", Plain (DStr t))] in
    yield self) s = (Done tt, s') →
  Numbered P (fun t' => if decide (t' = t)
                        then occ t + Z.of_nat (length indices) else occ t')
           (yielded s').
Proof.
  intros Hmap. revert s occ.
  induction indices as [|idx indices IH]; intros s occ Hnum Hidx; cbn.
  { intros [= <-]. eapply Numbered_ext; [|done].
    intros t'. case_decide; subst; lia. }
  unfold ebind at 1. unfold ebind at 1.
  destruct (fill_columns _ _ _ _ _ _ _ _ _ _ _) as [[self| |] s1] eqn:Hfill;
    [|done..].
  apply fill_columns_ok in Hfill as [Hself Hy]; [|done|].
  2:{ split; [done|]. by intros k v [= -> ->]%list_elem_of_singleton. }
  cbn. intros Hrest.
  apply (IH _ (fun t' => if decide (t' = t) then occ t + 1 else occ t'))
    in Hrest.
  - eapply Numbered_ext; [|exact Hrest]. cbn. intros t'.
    repeat case_decide; subst; try done; lia.
  - cbn. rewrite Hy. apply Numbered_yield; [done|].
    rewrite (Hidx 0%nat idx eq_refl), Z.add_0_r in Hself. done.
  - intros j idx' Hj. rewrite (Hidx (S j) idx' Hj).
    case_decide; [lia|done].
Qed.

Variable this : SqliteGenerator Faker.
Hypothesis no_tag_column : ∀ t table,
  assoc t (inputSchema this) = Some table → "_tag" ∉ (tsColumns table).*1.

Lemma iterate_table_ok t done s s' :
  t ∉ done →
  Numbered P (occ_after this done) (yielded s) →
  iterate_table sameValueZero fuel generator this t s = (Done tt, s') →
  Numbered P (occ_after this (done ++ [t])) (yielded s').
Proof.
  intros Ht Hnum. unfold iterate_table.
  destruct (assoc t (inputSchema this)) as [table|] eqn:Htable; [|done].
  destruct (refineConfig this) as [config|] eqn:Hconfig; [|done].
  unfold ebind at 1. destruct (refined_names _ _) as [refinedOrder| |]; [|done..].
  unfold ebind at 1, lift_gen, emodify. cbn [gen yielded fst snd].
  intros Hloop. apply (rows_loop_ok _ _ _ _ _ _ _ _ (occ_after this done))
    in Hloop.
  - eapply Numbered_ext; [|exact Hloop]. intros t'. cbn.
    unfold occ_after. rewrite length_seqZ.
    unfold row_count. rewrite Hconfig. cbn.
    repeat case_decide; subst; set_solver by lia.
  - intros n k Hk%getColumnNameToTsKeyMap_keys ->.
    by eapply no_tag_column.
  - done.
  - intros j idx [-> _]%lookup_seqZ. unfold occ_after.
    rewrite decide_False by done. lia.
Qed.

Lemma tables_loop_ok tables done s s' :
  NoDup (done ++ tables) →
  Numbered P (occ_after this done) (yielded s) →
  eforM_ tables (iterate_table sameValueZero fuel generator this) s
  = (Done tt, s') →
  Numbered P (occ_after this (done ++ tables)) (yielded s').
Proof.
  revert done s. induction tables as [|t tables IH]; intros done s Hnd Hnum;
    cbn.
  { intros [= <-]. by rewrite app_nil_r. }
  unfold ebind at 1.
  destruct (iterate_table _ _ _ _ _ _) as [[[]| |] s1] eqn:Htable; [|done..].
  intros Hrest. rewrite (cons_middle t done tables), app_assoc in Hnd |- *.
  apply (IH (done ++ [t])) in Hrest; [done..|].
  eapply iterate_table_ok; [|done..].
  apply NoDup_app in Hnd as (Hnd & _ & _).
  apply NoDup_app in Hnd as (_ & Hnd & _).
  intros Hin. apply (Hnd _ Hin). by left.
Qed.
End Numbering.

(** *** Every column of the table is filled *)

Lemma assoc_filter_ne {A} k k0 (l : list (string * A)) :
  k ≠ k0 → assoc k (filter (fun x => x.1 ≠ k0) l) = assoc k l.
Proof.
  intros Hk. induction l as [|[k' v] l IH]; [done|].
  destruct (decide (k' = k0)) as [->|Hne].
  - rewrite filter_cons_False by (cbn; auto). cbn.
    by rewrite decide_False.
  - rewrite filter_cons_True by done. cbn. by rewrite IH.
Qed.

Section Filled.
Context {Faker : Type}.
Variable sameValueZero : cell → cell → bool.
Variable fuel : nat.
Variable generator : BaseGenerator Faker.

Lemma fill_columns_filled table map t count i columnOrder self s self' s' :
  fill_columns sameValueZero fuel generator table map t count i columnOrder
               self s = (Done self', s') →
  (∀ k, is_Some (assoc k self) → is_Some (assoc k self')) ∧
  ∀ c, c ∈ columnOrder →
       is_Some (assoc (default "undefined" (assoc c map)) self').
Proof.
  revert self s. induction columnOrder as [|columnName rest IH];
    intros self s; cbn [fill_columns].
  { intros [= <- <-]. split; [done|]. by intros c ?%not_elem_of_nil. }
  set (columnTsKey := default "undefined" (assoc columnName map)).
  assert (∀ v s1,
    fill_columns sameValueZero fuel generator table map t count i rest
      (set_prop columnTsKey v self) s1 = (Done self', s') →
    (∀ k, is_Some (assoc k self) → is_Some (assoc k self')) ∧
    ∀ c, c ∈ columnName :: rest →
         is_Some (assoc (default "undefined" (assoc c map)) self')) as Hstep.
  { intros v s1 [Hkeep Hin]%IH. split.
    - intros k Hk. apply Hkeep. rewrite assoc_set_prop. by case_decide.
    - intros c [->|Hc]%elem_of_cons; [|by apply Hin].
      apply Hkeep. rewrite assoc_set_prop. by rewrite decide_True. }
  destruct (find _ _) as [columnConfig|]; [|done].
  destruct (generated columnConfig); [apply Hstep|].
  unfold ebind at 1, lift_gen.
  destruct (generate _ _ _ _ _) as [[v| |] g]; [|done..]. apply Hstep.
Qed.

Variable this : SqliteGenerator Faker.
Hypothesis no_tag_column : ∀ t table,
  assoc t (inputSchema this) = Some table → "_tag" ∉ (tsColumns table).*1.

Lemma rows_loop_filled table t count columnOrder indices s s' :
  assoc t (inputSchema this) = Some table →
  (∀ col, col ∈ configColumns table → colName col ∈ columnOrder) →
  Forall (filled this) (yielded s) →
  eforM_ indices (fun index =>
    let+ self :=
      fill_columns sameValueZero fuel generator table
                   (getColumnNameToTsKeyMap table) t count index
                   columnOrder [("_tag", Plain (DStr t))] in
    yield self) s = (Done tt, s') →
  Forall (filled this) (yielded s').
Proof.
  intros Htable Hcols. revert s.
  induction indices as [|idx indices IH]; intros s Hall; cbn.
  { by intros [= <-]. }
  unfold ebind at 1. unfold ebind at 1.
  destruct (fill_columns _ _ _ _ _ _ _ _ _ _ _) as [[self| |] s1] eqn:Hfill;
    [|done..].
  pose proof Hfill as [Hkeep Hin]%fill_columns_filled.
  apply (fill_columns_ok _ _ _ (fun _ _ => True)) in Hfill
    as [[Htag _] Hy]; [|done| |].
  2:{ intros n k Hk%getColumnNameToTsKeyMap_keys ->.
      by eapply no_tag_column. }
  2:{ split; [done|]. by intros k v [= -> ->]%list_elem_of_singleton. }
  cbn. apply IH. cbn. rewrite Hy. apply Forall_app. split; [done|].
  apply Forall_singleton. intros t' table' col. rewrite Htag.
  intros [= <-]. rewrite Htable. intros [= <-] Hcol.
  apply Hin, Hcols, Hcol.
Qed.

Lemma iterate_table_filled t s s' :
  Forall (filled this) (yielded s) →
  iterate_table sameValueZero fuel generator this t s = (Done tt, s') →
  Forall (filled this) (yielded s').
Proof.
  intros Hall. unfold iterate_table.
  destruct (assoc t (inputSchema this)) as [table|] eqn:Htable; [|done].
  destruct (refineConfig this) as [config|] eqn:Hconfig; [|done].
  unfold ebind at 1.
  destruct (refined_names _ _) as [refinedOrder| |]; [|done..].
  unfold ebind at 1, lift_gen, emodify. cbn [gen yielded fst snd].
  apply rows_loop_filled; [done| |done].
  intros col Hcol. apply new_Set_spec, elem_of_app. right.
  by apply list_elem_of_fmap_2.
Qed.

Lemma tables_loop_filled tables s s' :
  Forall (filled this) (yielded s) →
  eforM_ tables (iterate_table sameValueZero fuel generator this) s
  = (Done tt, s') →
  Forall (filled this) (yielded s').
Proof.
  revert s. induction tables as [|t tables IH]; intros s Hall; cbn.
  { by intros [= <-]. }
  unfold ebind at 1.
  destruct (iterate_table _ _ _ _ _ _) as [[[]| |] s1] eqn:Htable; [|done..].
  apply IH. by eapply iterate_table_filled.
Qed.
End Filled.



Lemma new_Set_head c values : ∃ rest, new_Set (c :: values) = c :: rest.
Proof.
  unfold new_Set. cbn.
  assert (∀ acc, ∃ rest,
    foldl (fun s c => set_add c s) (c :: acc) values = c :: rest) as H;
    [|apply H].
  induction values as [|c' values IH]; intros acc; cbn; [by eexists|].
  unfold set_add at 2. case_bool_decide; [apply IH|apply (IH (acc ++ [c']))].
Qed.

(** X17. A generator that was never refined cannot be iterated: unless
    [tableOrder] is empty, the iterator raises a [TypeError] at the first
    table, before any chunk is handed over, whatever the schema, the seed
    and the generator are. *)
Theorem X17_iterating_before_refine_fails {Faker} sameValueZero faker_seed
  DefaultGenerator fuel schema (options : GenerateOptions Faker) s :
  tableOrder options ≠ [] →
  ∃ message s',
    iterator sameValueZero faker_seed DefaultGenerator fuel
             (new_SqliteGenerator schema options) s
    = (Throw (TypeError message), s') ∧
    yielded s' = yielded s.
Proof.
  intros Horder. unfold iterator, ebind at 1, lift_gen, emodify. cbn.
  destruct (tableOrder options) as [|t order]; [done|].
  destruct (new_Set_head t order) as [rest ->]. cbn.
  unfold ebind at 1, iterate_table. cbn.
  destruct (assoc t schema); by do 2 eexists.
Qed.

Lemma X17_iterating_before_refine_fails_witness :
  ∃ message s',
    iterator same_number Z.to_nat index_generator 0
             (new_SqliteGenerator [("books", books_table)] books_options)
             iterator_start
    = (Throw (TypeError message), s') ∧
    yielded s' = [].
Proof.
  apply (X17_iterating_before_refine_fails same_number Z.to_nat index_generator
           0 [("books", books_table)] books_options iterator_start).
  discriminate.
Defined.

(** ** Unique columns *)

Lemma unique_loop_keeps {Faker} same fuel maxTries
  (ctx : ExtendedGeneratorContext Faker) checker tries key :
  key ≠ checker → keeps key (super ctx) →
  keeps key (unique_loop same fuel maxTries ctx checker tries).
Proof.
  intros Hkey Hsuper. revert tries.
  induction fuel as [|fuel IH]; intros tries s; [done|].
  cbn [unique_loop]. unfold ebind at 1.
  pose proof (Hsuper s) as Hs.
  destruct (super ctx s) as [[value| |] s1]; cbn in Hs; [|done..].
  case_bool_decide; [done|]. unfold ebind.
  destruct (checker_add_run same checker value s1)
    as (s2 & -> & _ & Hother & _).
  destruct (negb _); cbn.
  - by rewrite Hother, Hs.
  - by rewrite IH, Hother, Hs.
Qed.

Lemma fill_columns_app {Faker} same fuel generator table map t count i
  pre rest self (s : IterState Faker) :
  fill_columns same fuel generator table map t count i (pre ++ rest) self s
  = (let+ self1 :=
       fill_columns same fuel generator table map t count i pre self in
     fill_columns same fuel generator table map t count i rest self1) s.
Proof.
  revert self s. induction pre as [|c pre IH]; intros self s; [done|].
  cbn [app fill_columns].
  destruct (find _ _) as [col|]; [|done].
  destruct (generated col); [apply IH|].
  unfold ebind. destruct (lift_gen _ s) as [[v| |] s1]; [|done..].
  rewrite IH. done.
Qed.

Section Unique.
Context {Faker : Type}.
Variable same : cell → cell → bool.
Variable fuel : nat.
Variable base : BaseGenerator Faker.
Variable maxTries : Z.
Variable config : RefineConfig Faker.
Variable t c : string.
Variable table : Table.

Hypothesis base_spares : ∀ ctx, spares_checkers (generate same fuel base ctx).
Hypothesis refined_keep : ∀ cols key f ctx,
  assoc t (refine_tables config) ≫= refine_columns = Some cols →
  assoc key cols = Some f →
  keeps c (super ctx) → keeps c (f ctx).
Hypothesis not_refined :
  (assoc t (refine_tables config) ≫= refine_columns)
    ≫= assoc (ts_key table c) = None.
Hypothesis column_unique : unique_column table c.

Lemma unique_part_keeps ctx :
  duplicateChecker ctx ≠ Some c →
  keeps c (generate same fuel (extend base (UniqueValueGenerator maxTries))
                    ctx).
Proof.
  intros Hchecker. cbn [extend generate with_super duplicateChecker super].
  destruct (duplicateChecker ctx) as [checker|] eqn:E.
  - apply unique_loop_keeps; [congruence|]. intros s. apply base_spares.
  - intros s. apply base_spares.
Qed.

Lemma unique_chain_keeps ctx :
  tableKey ctx = t → duplicateChecker ctx ≠ Some c →
  keeps c (generate same fuel (unique_chain base maxTries config) ctx).
Proof.
  intros Ht Hchecker. unfold unique_chain.
  cbn [extend generate]. cbn [with_super tableKey columnKey super].
  rewrite Ht.
  destruct (assoc t (refine_tables config) ≫= refine_columns)
    as [cols|] eqn:Hcols; cbn [mbind option_bind].
  - destruct (assoc (columnKey ctx) cols) as [f|] eqn:Hf.
    + eapply refined_keep; [done..|]. cbn [super with_super].
      by apply unique_part_keeps.
    + by apply unique_part_keeps.
  - by apply unique_part_keeps.
Qed.

Lemma unique_chain_new ctx s v s' :
  tableKey ctx = t → columnKey ctx = ts_key table c →
  duplicateChecker ctx = Some c →
  generate same fuel (unique_chain base maxTries config) ctx s = (Done v, s') →
  seen_has same (duplicateCheckers s c) v = false ∧
  dc_seen (duplicateCheckers s' c) = dc_seen (duplicateCheckers s c) ++ [v].
Proof.
  intros Ht Hk Hchecker. unfold unique_chain.
  cbn [extend generate]. cbn [with_super tableKey columnKey super].
  rewrite Ht, Hk, not_refined. cbn. rewrite Hchecker.
  intros (? & ? & _)%unique_loop_new; [done|]. apply base_spares.
Qed.

Lemma fill_other count i cols self (s : IterState Faker) self' s' :
  c ∉ cols →
  (∀ c', c' ∈ cols → ts_key table c' ≠ ts_key table c) →
  fill_columns same fuel (unique_chain base maxTries config) table
    (getColumnNameToTsKeyMap table) t count i cols self s = (Done self', s') →
  duplicateCheckers (gen s') c = duplicateCheckers (gen s) c ∧
  assoc (ts_key table c) self' = assoc (ts_key table c) self ∧
  yielded s' = yielded s.
Proof.
  revert self s. induction cols as [|c' cols IH]; intros self s Hc Hkeys;
    cbn [fill_columns].
  { by intros [= <- <-]. }
  apply not_elem_of_cons in Hc as [Hne Hc].
  assert (ts_key table c' ≠ ts_key table c) as Hkey by (apply Hkeys; by left).
  assert (∀ c'', c'' ∈ cols → ts_key table c'' ≠ ts_key table c) as Hkeys'
    by (intros ??; apply Hkeys; by right).
  fold (ts_key table c').
  destruct (find _ _) as [col|]; [|done].
  destruct (generated col).
  - intros (-> & -> & ->)%IH; [|done..].
    rewrite assoc_set_prop. by rewrite decide_False by done.
  - unfold ebind at 1, lift_gen.
    match goal with
    | |- context [generate same fuel _ ?x (gen s)] => set (ctx := x)
    end.
    pose proof (unique_chain_keeps ctx eq_refl) as Hkeep.
    specialize (Hkeep ltac:(cbn; destruct (has_checker _ _); congruence)
                      (gen s)).
    destruct (generate _ _ _ _ _) as [[v| |] g1]; [|done..]. cbn in Hkeep.
    intros (-> & -> & ->)%IH; [|done..]. cbn.
    rewrite assoc_set_prop. by rewrite decide_False by done.
Qed.

Lemma fill_unique count i columnOrder self (s : IterState Faker) self' s' :
  NoDup columnOrder → c ∈ columnOrder →
  (∀ c', c' ∈ columnOrder → c' ≠ c → ts_key table c' ≠ ts_key table c) →
  fill_columns same fuel (unique_chain base maxTries config) table
    (getColumnNameToTsKeyMap table) t count i columnOrder self s
  = (Done self', s') →
  ∃ v, assoc (ts_key table c) self' = Some v ∧
       seen_has same (duplicateCheckers (gen s) c) v = false ∧
       dc_seen (duplicateCheckers (gen s') c)
       = dc_seen (duplicateCheckers (gen s) c) ++ [v] ∧
       yielded s' = yielded s.
Proof.
  intros Hnd (pre & post & ->)%list_elem_of_split Hkeys.
  apply NoDup_app in Hnd as (_ & Hpre & [Hpost _]%NoDup_cons).
  rewrite fill_columns_app. unfold ebind at 1.
  destruct (fill_columns _ _ _ _ _ _ _ _ pre _ _) as [[self1| |] s1] eqn:Hfill;
    [|done..].
  apply fill_other in Hfill as (Hc1 & _ & Hy1).
  2:{ intros Hin. apply (Hpre _ Hin). by left. }
  2:{ intros c' Hin. apply Hkeys; [apply elem_of_app; by left|].
      intros ->. apply (Hpre _ Hin). by left. }
  cbn [fill_columns]. fold (ts_key table c).
  destruct (uc_column _ _ column_unique) as (col & -> & ->).
  unfold ebind at 1, lift_gen.
  match goal with
  | |- context [generate same fuel _ ?x (gen s1)] => set (ctx := x)
  end.
  destruct (generate _ _ _ _ _) as [[v| |] g1] eqn:Hgen; [|done..].
  apply unique_chain_new in Hgen as [Hnew Hseen]; [|done..|].
  2:{ cbn. by rewrite (uc_unique _ _ column_unique). }
  intros (Hc2 & Hk2 & Hy2)%fill_other; [|done|].
  2:{ intros c' Hin. apply Hkeys; [apply elem_of_app; right; by right|].
      by intros ->. }
  exists v. cbn in Hc2, Hy2. rewrite Hk2, assoc_set_prop, decide_True by done.
  rewrite Hc2, Hseen, Hy2, Hy1, <-Hc1. done.
Qed.

Hypothesis no_tag : "_tag" ∉ (tsColumns table).*1.

Lemma ts_key_not_tag c' : ts_key table c' ≠ "_tag".
Proof.
  unfold ts_key.
  destruct (assoc c' _) as [k|] eqn:Hk; [|done].
  apply getColumnNameToTsKeyMap_keys in Hk. cbn. intros ->. by apply no_tag.
Qed.

Lemma all_new_snoc seen v :
  all_new same seen → existsb (same v) seen = false →
  all_new same (seen ++ [v]).
Proof.
  intros Hseen Hv a b va vb Hab Ha Hb.
  destruct (decide (b < length seen)%nat) as [Hlt|Hge].
  - rewrite lookup_app_l in Ha, Hb by lia. exact (Hseen a b va vb Hab Ha Hb).
  - rewrite lookup_app_l in Ha.
    2:{ apply lookup_lt_Some in Hb. rewrite length_app in Hb. cbn in Hb. lia. }
    rewrite lookup_app_r in Hb by lia.
    apply list_lookup_singleton_Some in Hb as [_ <-].
    destruct (same v va) eqn:Hsame; [|done].
    assert (existsb (same v) seen = true) as Hex; [|congruence].
    apply existsb_exists. exists va. split; [|done].
    apply list_elem_of_In. by eapply list_elem_of_lookup_2.
Qed.

Lemma rows_unique count columnOrder indices (s : IterState Faker) s' :
  NoDup columnOrder → c ∈ columnOrder →
  (∀ c', c' ∈ columnOrder → c' ≠ c → ts_key table c' ≠ ts_key table c) →
  all_new same (dc_seen (duplicateCheckers (gen s) c)) →
  eforM_ indices (fun index =>
    let+ self :=
      fill_columns same fuel (unique_chain base maxTries config) table
        (getColumnNameToTsKeyMap table) t count index columnOrder
        [("_tag", Plain (DStr t))] in
    yield self) s = (Done tt, s') →
  ∃ news vals,
    yielded s' = yielded s ++ news ∧
    dc_seen (duplicateCheckers (gen s') c)
    = dc_seen (duplicateCheckers (gen s) c) ++ vals ∧
    all_new same (dc_seen (duplicateCheckers (gen s') c)) ∧
    Forall2 (fun obj v => assoc "_tag" obj = Some (Plain (DStr t)) ∧
                          assoc (ts_key table c) obj = Some v) news vals.
Proof.
  intros Hnd Hc Hkeys. revert s.
  induction indices as [|idx indices IH]; intros s Hseen; cbn.
  { intros [= <-]. exists [], []. by rewrite !app_nil_r. }
  unfold ebind at 1. unfold ebind at 1.
  destruct (fill_columns _ _ _ _ _ _ _ _ _ _ _) as [[self| |] s1] eqn:Hfill;
    [|done..].
  pose proof Hfill as Htag.
  apply (fill_columns_ok same fuel _ (fun _ _ => True)) in Htag as [[Htag _] _];
    [|done| |].
  2:{ intros n k Hk ->. by apply getColumnNameToTsKeyMap_keys in Hk. }
  2:{ split; [done|]. by intros k v [= -> ->]%list_elem_of_singleton. }
  apply fill_unique in Hfill as (v & Hv & Hnew & Hseen1 & Hy); [|done..].
  cbn. intros Hrest. apply IH in Hrest as (news & vals & Hy' & Hs' & Hall & Hvals).
  - cbn in Hy', Hs'. exists (self :: news), (v :: vals).
    rewrite Hy', Hs', Hseen1, Hy, <-!app_assoc. repeat split; try done.
    + by rewrite Hs', Hseen1, <-app_assoc in Hall.
    + by constructor.
  - cbn. rewrite Hseen1. by apply all_new_snoc.
Qed.

Lemma refined_names_sub keys names c' :
  refined_names table keys = Done names → c' ∈ names →
  c' ∈ colName <$> (tsColumns table).*2.
Proof.
  unfold refined_names. revert names.
  induction keys as [|key keys IH]; intros names; cbn.
  { by intros [= <-] ?%not_elem_of_nil. }
  destruct (assoc key (tsColumns table)) as [col|] eqn:Hcol; [|done]. cbn.
  destruct (omapM _ keys) as [names'| |]; [|done..]. cbn.
  intros [= <-] [->|Hin]%elem_of_cons; [|by eapply IH].
  apply list_elem_of_fmap_2.
  apply assoc_Some_elem_of in Hcol.
  by apply (list_elem_of_fmap_2 snd) in Hcol.
Qed.

Variable this : SqliteGenerator Faker.
Hypothesis table_of_t : assoc t (inputSchema this) = Some table.
Hypothesis config_of_this : refineConfig this = Some config.

Lemma iterate_table_unique (s : IterState Faker) s' :
  iterate_table same fuel (unique_chain base maxTries config) this t s
  = (Done tt, s') →
  ∃ news vals,
    yielded s' = yielded s ++ news ∧ all_new same vals ∧
    Forall2 (fun obj v => assoc "_tag" obj = Some (Plain (DStr t)) ∧
                          assoc (ts_key table c) obj = Some v) news vals.
Proof.
  unfold iterate_table. rewrite table_of_t, config_of_this.
  unfold ebind at 1.
  destruct (refined_names _ _) as [refinedOrder| |] eqn:Hnames; [|done..].
  unfold ebind at 1, lift_gen, emodify. cbn [gen yielded fst snd].
  destruct (new_Set_spec (refinedOrder ++ (colName <$> configColumns table)))
    as [Hnd Hin].
  intros Hloop. apply rows_unique in Hloop; [|done| | |done].
  - destruct Hloop as (news & vals & Hy & Hseen & Hall & Hvals).
    cbn in Hy, Hseen, Hall. rewrite Hseen in Hall. by exists news, vals.
  - apply Hin, elem_of_app. right.
    pose proof (uc_unique _ _ column_unique) as Hu. unfold has_checker in Hu.
    apply bool_decide_eq_true in Hu.
    apply list_elem_of_fmap in Hu as (col & -> & [_ Hcol]%list_elem_of_filter).
    by apply list_elem_of_fmap_2.
  - intros c' Hc' Hne Hkey. apply Hne.
    apply (uc_key _ _ column_unique); [|done].
    apply Hin, elem_of_app in Hc' as [Hc'|Hc']; apply elem_of_app;
      [left|by right].
    by eapply refined_names_sub.
Qed.
End Unique.

Lemma eforM__app {S A} (l1 l2 : list A) (f : A → Eff S unit) s :
  eforM_ (l1 ++ l2) f s = (eforM_ l1 f ;;; eforM_ l2 f) s.
Proof.
  revert s. induction l1 as [|x l1 IH]; intros s; cbn; [done|].
  unfold ebind. destruct (f x s) as [[[]| |] s1]; [|done..]. apply IH.
Qed.

Section Appends.
Context {Faker : Type}.
Variable same : cell → cell → bool.
Variable fuel : nat.
Variable generator : BaseGenerator Faker.

Lemma fill_columns_yielded table map t count i columnOrder self
  (s : IterState Faker) self' s' :
  fill_columns same fuel generator table map t count i columnOrder self s
  = (Done self', s') → yielded s' = yielded s.
Proof.
  revert self s. induction columnOrder as [|c cols IH]; intros self s;
    cbn [fill_columns].
  { by intros [= _ <-]. }
  destruct (find _ _) as [col|]; [|done].
  destruct (generated col); [apply IH|].
  unfold ebind at 1, lift_gen.
  destruct (generate _ _ _ _ _) as [[v| |] g1]; [|done..].
  intros Hrest. by apply IH in Hrest as ->.
Qed.

Lemma rows_loop_appends table map t count columnOrder indices
  (s : IterState Faker) s' :
  eforM_ indices (fun index =>
    let+ self :=
      fill_columns same fuel generator table map t count index columnOrder
                   [("_tag", Plain (DStr t))] in
    yield self) s = (Done tt, s') →
  ∃ news, yielded s' = yielded s ++ news.
Proof.
  revert s. induction indices as [|idx indices IH]; intros s; cbn.
  { intros [= <-]. exists []. by rewrite app_nil_r. }
  unfold ebind at 1. unfold ebind at 1.
  destruct (fill_columns _ _ _ _ _ _ _ _ _ _ _) as [[self| |] s1] eqn:Hfill;
    [|done..].
  apply fill_columns_yielded in Hfill. cbn.
  intros [news Hnews]%IH. cbn in Hnews. rewrite Hnews, Hfill, <-app_assoc.
  by eexists.
Qed.

Lemma iterate_table_appends this t (s : IterState Faker) s' :
  iterate_table same fuel generator this t s = (Done tt, s') →
  ∃ news, yielded s' = yielded s ++ news.
Proof.
  unfold iterate_table.
  destruct (assoc t (inputSchema this)) as [table|]; [|done].
  destruct (refineConfig this) as [config|]; [|done].
  unfold ebind at 1. destruct (refined_names _ _); [|done..].
  unfold ebind at 1, lift_gen, emodify. cbn [gen yielded fst snd].
  by intros ?%rows_loop_appends.
Qed.

Lemma tables_loop_appends this tables (s : IterState Faker) s' :
  eforM_ tables (iterate_table same fuel generator this) s = (Done tt, s') →
  ∃ news, yielded s' = yielded s ++ news.
Proof.
  revert s. induction tables as [|t tables IH]; intros s; cbn.
  { intros [= <-]. exists []. by rewrite app_nil_r. }
  unfold ebind at 1.
  destruct (iterate_table _ _ _ _ _ _) as [[[]| |] s1] eqn:Htable; [|done..].
  apply iterate_table_appends in Htable as [news1 Hy1].
  intros [news ->]%IH. rewrite Hy1, <-app_assoc. by eexists.
Qed.
End Appends.

Lemma as_chunk_stream_unique objs st1 st2 :
  Forall2 (fun obj c => as_chunk obj = Some c) objs st1 →
  Forall2 (fun obj c => as_chunk obj = Some c) objs st2 → st1 = st2.
Proof.
  intros H1. revert st2. induction H1 as [|obj c objs st1 Hc _ IH];
    intros st2 H2; inversion H2; subst; [done|].
  f_equal; [congruence|by apply IH].
Qed.

Lemma number_rows_uniform t seen block i d :
  (∀ c, c ∈ block → tag c = t) →
  (t, i, d) ∈ number_rows seen block →
  ∃ j c, block !! j = Some c ∧ chunkData c = d ∧
         i = occurrences t seen + Z.of_nat j.
Proof.
  revert seen. induction block as [|c block IH]; intros seen Htags; cbn.
  { by intros ?%not_elem_of_nil. }
  intros [[= Ht Hi Hd]|Hin]%elem_of_cons.
  - exists 0%nat, c. split; [done|]. split; [done|].
    rewrite Hi, <-Ht. lia.
  - apply IH in Hin as (j & c' & Hj & Hd & ->).
    2:{ intros ??. apply Htags. by right. }
    exists (S j), c'. split; [done|]. split; [done|].
    rewrite occurrences_app, occurrences_singleton.
    rewrite decide_True by (apply Htags; by left). lia.
Qed.

Lemma assoc_filter_tag {A} k (obj : list (string * A)) :
  k ≠ "_tag" → assoc k (filter (fun x => x.1 ≠ "_tag") obj) = assoc k obj.
Proof.
  intros Hk. induction obj as [|[k0 v0] obj IH]; [done|].
  destruct (decide (k0 = "_tag")) as [->|Hk0].
  - rewrite filter_cons_False by (cbn; auto). cbn.
    by rewrite decide_False by done.
  - rewrite filter_cons_True by done. cbn. by rewrite IH.
Qed.

Lemma block_rows t k sa sb sc news vals i d :
  occurrences t sa = 0 →
  occurrences t ((sa ++ sb) ++ sc) = occurrences t (sa ++ sb) →
  Forall2 (fun obj c => as_chunk obj = Some c) news sb →
  Forall2 (fun obj v => assoc "_tag" obj = Some (Plain (DStr t)) ∧
                        assoc k obj = Some v) news vals →
  k ≠ "_tag" →
  (t, i, d) ∈ row_ids ((sa ++ sb) ++ sc) →
  ∃ n v, i = Z.of_nat n ∧ vals !! n = Some v ∧ chunk_get d k = v.
Proof.
  intros Hsa Hsc Hsb Hvals Hk. unfold row_ids.
  rewrite !number_rows_app. cbn [app].
  intros [[Hin|Hin]%elem_of_app|Hin]%elem_of_app.
  - apply number_rows_bounds in Hin. cbn in Hin.
    pose proof (occurrences_nonneg t []). unfold occurrences in *. cbn in *. lia.
  - apply number_rows_uniform in Hin as (n & c & Hn & Hd & ->).
    + destruct (Forall2_lookup_r _ _ _ _ _ Hsb Hn) as (obj & Hobj & Hc).
      destruct (Forall2_lookup_l _ _ _ _ _ Hvals Hobj) as (v & Hv & Htag & Hkv).
      exists n, v. split; [lia|]. split; [done|].
      unfold as_chunk in Hc. rewrite Htag in Hc. injection Hc as <-.
      cbn in Hd. subst d. unfold chunk_get.
      by rewrite assoc_filter_tag, Hkv.
    + intros c [n Hn]%list_elem_of_lookup_1.
      destruct (Forall2_lookup_r _ _ _ _ _ Hsb Hn) as (obj & Hobj & Hc).
      destruct (Forall2_lookup_l _ _ _ _ _ Hvals Hobj) as (v & Hv & Htag & Hkv).
      unfold as_chunk in Hc. rewrite Htag in Hc. by injection Hc as <-.
  - apply number_rows_bounds in Hin. lia.
Qed.

(** X18. A unique column gets a different value in every row of its table.
    The generator is one that ends in a [UniqueValueGenerator], refined by
    [config], and it has run to the end of the stream; the part of the chain
    below [UniqueValueGenerator] does not touch the duplicate checkers, the
    column functions of [config] reach the checker of the column through
    [ctx.super()] only, and the column itself has no function in [config].
    Then of two rows of the table, the later one does not hold, in this
    column, the same value as the earlier one. *)
Theorem X18_unique_column_gets_distinct_values {Faker} same faker_seed
  DefaultGenerator fuel (this : SqliteGenerator Faker) config base maxTries
  t table c s s' stream :
  default DefaultGenerator (opt_generator (generateOptions this))
  = extend base (UniqueValueGenerator maxTries) →
  (∀ ctx, spares_checkers (generate same fuel base ctx)) →
  (∀ cols key f ctx,
     assoc t (refine_tables config) ≫= refine_columns = Some cols →
     assoc key cols = Some f →
     keeps c (super ctx) → keeps c (f ctx)) →
  (assoc t (refine_tables config) ≫= refine_columns)
    ≫= assoc (ts_key table c) = None →
  (∀ t' table', assoc t' (inputSchema this) = Some table' →
                "_tag" ∉ (tsColumns table').*1) →
  assoc t (inputSchema this) = Some table →
  unique_column table c →
  yielded s = [] →
  iterator same faker_seed DefaultGenerator fuel
           (refine DefaultGenerator this config) s = (Done tt, s') →
  mapM as_chunk (yielded s') = Some stream →
  ∀ i j di dj,
    (t, i, di) ∈ row_ids stream → (t, j, dj) ∈ row_ids stream → i < j →
    same (chunk_get dj (ts_key table c)) (chunk_get di (ts_key table c))
    = false.
Proof.
  intros Hgen Hbase Hrefined Hplain Htag Htable Hcol Hstart Hrun Hstream.
  apply mapM_Some in Hstream.
  set (this' := refine DefaultGenerator this config) in *.
  unfold iterator, ebind at 1, lift_gen, emodify in Hrun.
  cbn [gen yielded fst snd] in Hrun.
  assert (default DefaultGenerator (opt_generator (generateOptions this'))
          = unique_chain base maxTries config) as Hchain
    by (cbn; by rewrite Hgen).
  rewrite Hchain in Hrun.
  change (tableOrder (generateOptions this'))
    with (tableOrder (generateOptions this)) in Hrun.
  destruct (new_Set_spec (tableOrder (generateOptions this))) as [Hnd _].
  set (P := fun (_ : ExtendedGeneratorContext Faker) (_ : cell) => True).
  assert (∀ tables done s0 s1,
    NoDup (done ++ tables) →
    Numbered P (occ_after this' done) (yielded s0) →
    eforM_ tables (iterate_table same fuel (unique_chain base maxTries config)
                                 this') s0 = (Done tt, s1) →
    Numbered P (occ_after this' (done ++ tables)) (yielded s1)) as Hloop.
  { intros tables done s0 s1. by apply tables_loop_ok. }
  match type of Hrun with eforM_ _ _ ?x = _ => set (s0 := x) in * end.
  assert (Numbered P (occ_after this' []) (yielded s0)) as Hnum0.
  { cbn. rewrite Hstart. exists []. split; [constructor|]. split; [done|].
    by intros ????? ?%not_elem_of_nil. }
  destruct (decide (t ∈ new_Set (tableOrder (generateOptions this))))
    as [Ht|Ht].
  2:{ intros i j di dj Hi _ _.
      apply (Hloop _ []) in Hrun as (st & Hst & Hocc & _); [|done..].
      rewrite (as_chunk_stream_unique _ _ _ Hstream Hst) in Hi.
      apply number_rows_bounds in Hi. cbn in Hi. rewrite Hocc in Hi.
      unfold occ_after in Hi. rewrite decide_False in Hi by done.
      unfold occurrences in Hi. cbn in Hi. lia. }
  apply list_elem_of_split in Ht as (pre & post & Hsplit).
  rewrite Hsplit in Hrun, Hnd.
  pose proof Hrun as Hall.
  apply (Hloop _ []) in Hall as (st & Hst & Hocc & _);
    [|done..].
  rewrite <-(as_chunk_stream_unique _ _ _ Hstream Hst) in Hocc. clear st Hst.
  rewrite eforM__app in Hrun. unfold ebind at 1 in Hrun.
  destruct (eforM_ pre _ s0) as [[[]| |] s1] eqn:Hpre; [|done..].
  cbn [eforM_] in Hrun. unfold ebind at 1 in Hrun.
  destruct (iterate_table _ _ _ _ _ s1) as [[[]| |] s2] eqn:Htable2; [|done..].
  assert (NoDup (pre ++ [t])) as Hnd1.
  { rewrite (cons_middle t pre post), app_assoc in Hnd.
    by apply NoDup_app in Hnd as [? _]. }
  pose proof Hpre as Hnum1. apply (Hloop pre []) in Hnum1; [|cbn|done].
  2:{ by apply NoDup_app in Hnd1 as [? _]. }
  destruct Hnum1 as (sa & Hsa & Hocc1 & _). cbn [app] in Hocc1.
  assert (eforM_ (pre ++ [t])
            (iterate_table same fuel (unique_chain base maxTries config) this')
            s0 = (Done tt, s2)) as Hnum2.
  { rewrite eforM__app. unfold ebind at 1. rewrite Hpre. cbn.
    unfold ebind. by rewrite Htable2. }
  apply (Hloop _ []) in Hnum2 as (sab & Hsab & Hocc2 & _); [|done..].
  cbn [app] in Hocc2.
  apply (iterate_table_unique same fuel base maxTries config t c table)
    in Htable2 as (news & vals & Hy2 & Hvals_new & Hvals);
    [|done..|by eapply Htag|done|done].
  apply tables_loop_appends in Hrun as [more Hy3].
  rewrite Hy3, Hy2 in Hstream. rewrite Hy2 in Hsab.
  apply Forall2_app_inv_l in Hstream as (sab' & sc & Hsab' & Hsc & ->).
  rewrite (as_chunk_stream_unique _ _ _ Hsab' Hsab) in *. clear sab' Hsab'.
  apply Forall2_app_inv_l in Hsab as (sa' & sb & Hsa' & Hsb & ->).
  rewrite (as_chunk_stream_unique _ _ _ Hsa' Hsa) in *. clear sa' Hsa'.
  assert (occurrences t sa = 0) as Hzero.
  { rewrite Hocc1. unfold occ_after. rewrite decide_False; [done|].
    apply NoDup_app in Hnd1 as (_ & Hnd1 & _). intros Hin.
    apply (Hnd1 _ Hin). by left. }
  assert (occurrences t ((sa ++ sb) ++ sc) = occurrences t (sa ++ sb))
    as Hsame.
  { rewrite Hocc, Hocc2. unfold occ_after.
    rewrite !decide_True; [done|set_solver..]. }
  assert (ts_key table c ≠ "_tag") as Hk.
  { apply ts_key_not_tag. by eapply Htag. }
  intros i j di dj Hi Hj Hij.
  destruct (block_rows _ _ _ _ _ _ _ _ _ Hzero Hsame Hsb Hvals Hk Hi)
    as (a & va & -> & Ha & ->).
  destruct (block_rows _ _ _ _ _ _ _ _ _ Hzero Hsame Hsb Hvals Hk Hj)
    as (b & vb & -> & Hb & ->).
  apply (Hvals_new a b); [lia|done..].
Qed.

Lemma X18_unique_column_gets_distinct_values_witness :
  ∃ stream,
    mapM as_chunk
      (yielded (iterator same_number Z.to_nat index_generator 5
                  (refine index_generator users_generator three_users)
                  iterator_start).2) = Some stream ∧
    (fun c => chunk_get (chunkData c) "email") <$> stream
    = [Plain (DNum 0); Plain (DNum 1); Plain (DNum 2)] ∧
    ∀ i j di dj,
      ("users", i, di) ∈ row_ids stream → ("users", j, dj) ∈ row_ids stream →
      i < j →
      same_number (chunk_get dj "email") (chunk_get di "email") = false.
Proof.
  eexists. split; [vm_compute; reflexivity|]. split; [vm_compute; reflexivity|].
  apply (X18_unique_column_gets_distinct_values same_number Z.to_nat
           index_generator 5 users_generator three_users
           (createGenerator (fun _ => next_half)) 5 "users" users_table
           "email" iterator_start
           (iterator same_number Z.to_nat index_generator 5
              (refine index_generator users_generator three_users)
              iterator_start).2).
  - reflexivity.
  - intros ctx s key. reflexivity.
  - intros cols key f ctx. discriminate.
  - reflexivity.
  - intros t table. cbn. case_decide; [|done]. intros [= <-]. cbn.
    rewrite !elem_of_cons. intros [?|[?|?%not_elem_of_nil]]; done.
  - reflexivity.
  - split.
    + vm_compute. reflexivity.
    + eexists. split; reflexivity.
    + intros c'. cbn. rewrite !elem_of_cons.
      intros [->|[->|[->|[->|?%not_elem_of_nil]]]]; try done;
        vm_compute; discriminate.
  - reflexivity.
  - vm_compute. reflexivity.
  - vm_compute. reflexivity.
Defined.

(** ** Streams that come to their end *)

Section Completes.
Context {Faker : Type}.
Variable same : cell → cell → bool.
Variable fuel : nat.
Variable generator : BaseGenerator Faker.
Hypothesis generator_returns : ∀ ctx g,
  ∃ v g', generate same fuel generator ctx g = (Done v, g').

Lemma find_config_column table c :
  c ∈ colName <$> configColumns table →
  is_Some (List.find (fun col => bool_decide (colName col = c))
                     (configColumns table)).
Proof.
  induction (configColumns table) as [|col cols IH]; cbn.
  { by intros ?%not_elem_of_nil. }
  case_bool_decide; [by eexists|].
  intros [?|?]%elem_of_cons; [congruence|auto].
Qed.

Lemma fill_columns_done table map t count i columnOrder self
  (s : IterState Faker) :
  (∀ c, c ∈ columnOrder → c ∈ colName <$> configColumns table) →
  ∃ self' s',
    fill_columns same fuel generator table map t count i columnOrder self s
    = (Done self', s').
Proof.
  revert self s. induction columnOrder as [|c cols IH]; intros self s Hcols;
    cbn [fill_columns].
  { by do 2 eexists. }
  destruct (find_config_column table c) as [col ->]; [apply Hcols; by left|].
  assert (∀ c', c' ∈ cols → c' ∈ colName <$> configColumns table) as Hcols'
    by (intros ??; apply Hcols; by right).
  destruct (generated col); [by apply IH|].
  unfold ebind at 1, lift_gen.
  match goal with
  | |- context [generate same fuel generator ?ctx (gen s)] =>
      destruct (generator_returns ctx (gen s)) as (v & g' & ->)
  end.
  by apply IH.
Qed.

Lemma rows_loop_done table map t count columnOrder indices
  (s : IterState Faker) :
  (∀ c, c ∈ columnOrder → c ∈ colName <$> configColumns table) →
  ∃ s',
    eforM_ indices (fun index =>
      let+ self :=
        fill_columns same fuel generator table map t count index columnOrder
                     [("_tag", Plain (DStr t))] in
      yield self) s = (Done tt, s').
Proof.
  intros Hcols. revert s. induction indices as [|idx indices IH]; intros s; cbn.
  { by eexists. }
  unfold ebind at 1. unfold ebind at 1.
  destruct (fill_columns_done table map t count idx columnOrder
              [("_tag", Plain (DStr t))] s Hcols) as (self & s1 & ->).
  cbn. apply IH.
Qed.

Variable this : SqliteGenerator Faker.
Variable config : RefineConfig Faker.
Hypothesis refined : refineConfig this = Some config.

Lemma iterate_table_done t table (s : IterState Faker) :
  assoc t (inputSchema this) = Some table →
  (∀ key, key ∈ default [] (assoc t (refine_tables config)
                              ≫= refine_columnOrder) →
     ∃ col, assoc key (tsColumns table) = Some col ∧
            colName col ∈ colName <$> configColumns table) →
  ∃ s', iterate_table same fuel generator this t s = (Done tt, s').
Proof.
  intros Htable Horder. unfold iterate_table. rewrite Htable, refined.
  unfold ebind at 1.
  assert (∃ names,
    refined_names table
      (default [] (assoc t (refine_tables config) ≫= refine_columnOrder))
    = Done names ∧
    ∀ c, c ∈ names → c ∈ colName <$> configColumns table)
    as (names & -> & Hnames).
  { unfold refined_names.
    induction (default [] _) as [|key keys IH]; cbn.
    { exists []. split; [done|]. by intros ? ?%not_elem_of_nil. }
    destruct (Horder key) as (col & -> & Hcol); [by left|]. cbn.
    destruct IH as (names & -> & Hnames).
    { intros ??. apply Horder. by right. }
    cbn. eexists. split; [done|].
    intros c [->|?]%elem_of_cons; auto. }
  unfold ebind at 1, lift_gen, emodify. cbn [gen yielded fst snd].
  apply rows_loop_done. intros c Hc.
  apply new_Set_spec, elem_of_app in Hc as [?|?]; auto.
Qed.

Lemma tables_loop_done tables (s : IterState Faker) :
  (∀ t, t ∈ tables →
     ∃ table, assoc t (inputSchema this) = Some table ∧
       ∀ key, key ∈ default [] (assoc t (refine_tables config)
                                  ≫= refine_columnOrder) →
         ∃ col, assoc key (tsColumns table) = Some col ∧
                colName col ∈ colName <$> configColumns table) →
  ∃ s', eforM_ tables (iterate_table same fuel generator this) s
        = (Done tt, s').
Proof.
  revert s. induction tables as [|t tables IH]; intros s Htables; cbn.
  { by eexists. }
  destruct (Htables t) as (table & Htable & Horder); [by left|].
  unfold ebind at 1.
  destruct (iterate_table_done t table s Htable Horder) as [s1 ->].
  apply IH. intros ??. apply Htables. by right.
Qed.
End Completes.

(** X19. The iterator of a refined generator comes to the end of its stream
    when nothing of what it reads is missing: every table of [tableOrder] is
    in the schema; every key of a [columnOrder] is a column of its table,
    and one that [getTableConfig] lists; and the generator returns a value
    whenever it is called. *)
Theorem X19_iterator_reaches_the_end {Faker} same faker_seed DefaultGenerator
  fuel (this : SqliteGenerator Faker) config s :
  refineConfig this = Some config →
  (∀ t, t ∈ tableOrder (generateOptions this) →
     ∃ table, assoc t (inputSchema this) = Some table ∧
       ∀ key, key ∈ default [] (assoc t (refine_tables config)
                                  ≫= refine_columnOrder) →
         ∃ col, assoc key (tsColumns table) = Some col ∧
                colName col ∈ colName <$> configColumns table) →
  (∀ ctx g, ∃ v g',
     generate same fuel
       (default DefaultGenerator (opt_generator (generateOptions this)))
       ctx g = (Done v, g')) →
  ∃ s', iterator same faker_seed DefaultGenerator fuel this s = (Done tt, s').
Proof.
  intros Hconfig Htables Hgen. unfold iterator, ebind at 1, lift_gen, emodify.
  cbn [gen yielded fst snd].
  eapply tables_loop_done; [done..|].
  intros t Ht. apply Htables. by apply new_Set_spec.
Qed.

Lemma X19_iterator_reaches_the_end_witness :
  ∃ s',
    iterator same_number Z.to_nat index_generator 0 books_generator
             iterator_start = (Done tt, s').
Proof.
  apply (X19_iterator_reaches_the_end same_number Z.to_nat index_generator 0
           books_generator two_books iterator_start).
  - reflexivity.
  - intros t. cbn. rewrite !elem_of_cons.
    intros [->|[->|?%not_elem_of_nil]]; [| |done];
      (exists books_table; split; [reflexivity|];
       by intros key ?%not_elem_of_nil).
  - intros ctx g. cbn. case_decide; cbn; by do 2 eexists.
Defined.

(** ** Tables that are not in the schema *)

Section Known.
Variable cfg : Seeder.

Lemma Known_target w w' : target w' = target w → Known cfg w → Known cfg w'.
Proof. unfold Known. by intros ->. Qed.

Lemma flush_Known name w :
  Known cfg w →
  wp (flush cfg name) (fun _ => Known cfg) (fun _ => Known cfg) w.
Proof.
  intros HK. unfold flush. apply wp_bind, wp_get_table.
  destruct (assoc name (tableStates w)) as [st|]; [|done].
  case_bool_decide; [by apply wp_ret|].
  case_bool_decide as Hschema; [|by apply wp_throw].
  apply wp_bind, wp_gets, wp_bind, wp_lift.
  destruct (omapM _ _) as [values| |]; [|done..].
  apply wp_bind. unfold wp at 1, insert_values.
  destruct (accepts cfg _ _ _); [|done].
  set (w1 := set_target _ w).
  assert (Known cfg w1) as HK1.
  { intros call. cbn.
    intros [?| ->%list_elem_of_singleton]%elem_of_app; [auto|done]. }
  assert (sqliteDb w1 = sqliteDb w) as Hdb1 by done.
  clearbody w1.
  assert (∀ w2, target w2 = target w1 →
    wp (modify_table name clear_batch) (fun _ => Known cfg)
       (fun _ => Known cfg) w2) as Hend.
  { intros w2 Ht. apply wp_modify. by eapply Known_target. }
  apply wp_bind.
  destruct (sqliteDb w) as [db|] eqn:Hdb; [|by apply wp_ret; apply Hend].
  destruct (assoc name (refsConfig cfg)) as [cols|];
    [|by apply wp_ret; apply Hend].
  case_bool_decide; [|by apply wp_ret; apply Hend].
  assert (recording w1 w1) as Hrec
    by (repeat split; apply store_ext_refl).
  apply wp_bind.
  eapply wp_mono;
    [apply (prepare_store_recording cfg name cols w1 w1);
       [done|rewrite Hdb1; by eexists]|..]; cbn.
  2: { intros e w' [_ ->]. done. }
  intros [] w' ->.
  eapply wp_mono.
  - apply (wp_forM_ (recording w1) (fun _ => recording w1)); [|done].
    intros i w2 _ Hrec2.
    eapply wp_mono;
      [apply record_row_recording; [done|rewrite Hdb1; by eexists]|..];
      [done|]. by intros e w3 [_ ?].
  - intros _ w2 (Ht & _). by apply Hend.
  - intros _ w2 (Ht & _). by eapply Known_target.
Qed.

Lemma drainAllQueues_Known fuel w :
  Known cfg w →
  wp (drainAllQueues fuel) (fun _ => Known cfg) (fun _ => Known cfg) w.
Proof.
  intros HK. unfold drainAllQueues. apply wp_bind, wp_the_db.
  destruct (sqliteDb w) as [db|]; [|done].
  eapply wp_mono; [apply drain_loop_frame|..]; cbn;
    intros _ w' (Ht & _); by eapply Known_target.
Qed.

Lemma flushAllQueuesAfterDrain_Known fuel w :
  Known cfg w →
  wp (flushAllQueuesAfterDrain cfg fuel) (fun _ => Known cfg)
     (fun _ => Known cfg) w.
Proof.
  intros HK. unfold flushAllQueuesAfterDrain. apply wp_bind, wp_gets.
  apply wp_forM_; [|done]. intros name w1 _ HK1.
  apply wp_bind, wp_get_table.
  destruct (assoc name (tableStates w1)) as [st|]; [|done].
  destruct (reaches _ _); [|by apply wp_ret].
  apply wp_bind. eapply wp_mono; [by apply flush_Known|..]; cbn; [|done].
  intros _ w2 HK2. apply wp_bind, wp_gets.
  destruct (sqliteDb w2); [|by apply wp_ret].
  apply wp_bind. eapply wp_mono; [by apply drainAllQueues_Known|..]; cbn;
    [|done].
  intros _ w3 HK3. by apply wp_ret.
Qed.

Lemma enqueue_Known c w :
  Known cfg w →
  wp (enqueue cfg c) (fun _ => Known cfg) (fun _ => Known cfg) w.
Proof.
  intros HK. unfold enqueue. apply wp_bind, wp_gets, wp_bind.
  assert (∀ w1, Known cfg w1 →
    wp (let* tableState := get_table (tag c) in
        let* rowIndex := next_row_index (tag c) in
        let refs := extractRefs (chunkData c) in
        if negb (hasRefs cfg) || bool_decide (length refs = 0%nat) then
          modify_table (tag c) (push_batch (chunkData c) rowIndex)
        else
          let* db := the_db in
          let* resolved := lift (areAllRefsResolved refs db) in
          if resolved : bool then
            modify_table (tag c) (push_batch (chunkData c) rowIndex)
          else
            modify_table (tag c)
              (push_queue {| chunk := chunkData c; rowIndex := rowIndex;
                             pendingRefs := refs |}))
       (fun _ => Known cfg) (fun _ => Known cfg) w1) as Hrest.
  { intros w1 HK1. apply wp_bind, wp_get_table.
    destruct (assoc (tag c) (tableStates w1)) as [st|]; [|done].
    apply wp_bind, next_row_index_run.
    destruct (rowIndexByTable w1 !! tag c) as [i|]; [|done]. cbn zeta.
    destruct (negb (hasRefs cfg) || _); [by apply wp_modify|].
    apply wp_bind, wp_the_db. cbn.
    destruct (sqliteDb w1) as [db|]; [|done].
    apply wp_bind, wp_lift.
    destruct (areAllRefsResolved _ _) as [[]| |]; try done;
      by apply wp_modify. }
  case_bool_decide; [by apply wp_ret, Hrest|].
  unfold init_table. apply wp_bind, wp_modify, wp_modify. by apply Hrest.
Qed.

Lemma process_chunk_Known fuel c w :
  Known cfg w →
  wp (process_chunk cfg fuel c) (fun _ => Known cfg) (fun _ => Known cfg) w.
Proof.
  intros HK. unfold process_chunk. apply wp_bind.
  eapply wp_mono; [by apply enqueue_Known|..]; cbn; [|done].
  intros _ w1 HK1. unfold flush_if_full. apply wp_bind, wp_get_table.
  destruct (assoc (tag c) (tableStates w1)) as [st|]; [|done].
  destruct (reaches _ _); [|by apply wp_ret].
  apply wp_bind. eapply wp_mono; [by apply flush_Known|..]; cbn; [|done].
  intros _ w2 HK2. apply wp_bind, wp_gets.
  destruct (hasRefs cfg && _); [|by apply wp_ret].
  apply wp_bind. eapply wp_mono; [by apply drainAllQueues_Known|..]; cbn;
    [|done].
  intros _ w3 HK3. by apply flushAllQueuesAfterDrain_Known.
Qed.

Lemma flush_all_Known w :
  Known cfg w →
  wp (flush_all cfg) (fun _ => Known cfg) (fun _ => Known cfg) w.
Proof.
  intros HK. unfold flush_all. apply wp_bind, wp_gets.
  apply wp_forM_; [|done]. intros name w1 _ HK1. by apply flush_Known.
Qed.

Lemma final_drain_Known inner fuel w :
  Known cfg w →
  wp (final_drain cfg inner fuel) (fun _ => Known cfg) (fun _ => Known cfg) w.
Proof.
  revert w. induction fuel as [|fuel IH]; intros w HK; cbn; [done|].
  apply wp_bind. eapply wp_mono; [by apply drainAllQueues_Known|..]; cbn;
    [|done].
  intros madeProgress w1 HK1. apply wp_bind.
  eapply wp_mono; [by apply flush_all_Known|..]; cbn; [|done].
  intros _ w2 HK2. destruct madeProgress; [by apply IH|by apply wp_ret].
Qed.

Lemma check_stuck_Known w :
  Known cfg w →
  wp (check_stuck cfg) (fun _ => Known cfg) (fun _ => Known cfg) w.
Proof.
  intros HK. unfold check_stuck. apply wp_bind, wp_gets.
  eapply wp_mono; [apply check_stuck_loop|..]; cbn.
  - intros n. apply assoc_is_Some.
  - by intros _ ? [-> _].
  - by intros _ ? [-> _].
Qed.

Lemma execute_Known fuel stream :
  Known cfg (execute cfg fuel stream initial).2.
Proof.
  unfold execute.
  destruct (open_store cfg) as [db|e|]; [|by intros ? ?%not_elem_of_nil..].
  set (w0 := {| target := target initial; sqliteDb := db |}).
  assert (Known cfg w0) as HK by (by intros ? ?%not_elem_of_nil).
  assert (wp (execute_body cfg fuel stream) (fun _ => Known cfg)
             (fun _ => Known cfg) w0) as Hbody.
  { unfold execute_body. apply wp_bind.
    eapply (wp_mono _ (fun _ => Known cfg) _ (fun _ => Known cfg));
      [apply wp_forM_; [|exact HK]| |done].
    { intros c w1 _ HK1. by apply process_chunk_Known. }
    intros _ w1 HK1. apply wp_bind. unfold finalize. apply wp_bind.
    eapply wp_mono; [by apply flush_all_Known|..]; cbn; [|done].
    intros _ w2 HK2. apply wp_bind, wp_gets.
    destruct (hasRefs cfg && _).
    - eapply wp_mono; [by apply final_drain_Known|..]; cbn; [|done].
      intros _ w3 HK3. by apply check_stuck_Known.
    - apply wp_ret. by apply check_stuck_Known. }
  unfold wp in Hbody. by destruct (execute_body _ _ _ _) as [[[]|e|] w'].
Qed.
End Known.

(** X20. The seeder sends rows only under names the schema answers for.
    [flush] asks whether [this.schema[tableName]] is truthy, and [schema]
    lists the names for which it is: the tables of the schema and, for a
    schema written as an object literal, the names it inherits ([toString]
    is one). Whether the run ends well or not, every bulk insert of
    [execute] is for one of these names; a run that ends well had no chunk
    for another name; and the flush of a batch that is not empty, for
    another name, raises [Table "<name>" not found in schema] and changes
    nothing. *)
Theorem X20_only_tables_of_the_schema cfg fuel stream :
  (∀ call, call ∈ target (execute cfg fuel stream initial).2 →
           ic_table call ∈ schema cfg) ∧
  ((length stream < fuel)%nat →
   (execute cfg fuel stream initial).1 = Done tt →
   ∀ c, c ∈ stream → tag c ∈ schema cfg) ∧
  (∀ name w st,
     assoc name (tableStates w) = Some st → batch st ≠ [] →
     name ∉ schema cfg →
     flush cfg name w
     = (Throw (JsError ("Table " +:+ dquote +:+ name +:+ dquote
                        +:+ " not found in schema")), w)).
Proof.
  split; [apply execute_Known|]. split.
  - intros Hfuel Hdone c Hc.
    pose proof (execute_run cfg stream fuel Hfuel) as Hrun.
    pose proof (execute_Known cfg fuel stream) as HK.
    unfold wp in Hrun.
    destruct (execute cfg fuel stream initial) as [[[]|e|] w'];
      [|done..].
    destruct Hrun as (_ & Hlogged & _).
    destruct (row_ids_of_chunk stream c Hc) as [i Hi].
    rewrite Hlogged in Hi. unfold logged in Hi.
    apply list_elem_of_bind in Hi as (call & Hrow & Hcall).
    unfold call_rows in Hrow.
    apply list_elem_of_fmap in Hrow as ([i' ch] & [= -> _ _] & _).
    by apply HK.
  - intros name w st Hst Hbatch Hname.
    unfold flush, bind at 1, get_table, gets. rewrite Hst.
    rewrite bool_decide_eq_false_2 by (by destruct (batch st)).
    by rewrite bool_decide_eq_false_2.
Qed.

Lemma X20_only_tables_of_the_schema_witness :
  (execute scenario_seeder 3 stray_stream initial).1
  = Throw (JsError ("Table " +:+ dquote +:+ "authors" +:+ dquote
                    +:+ " not found in schema")) ∧
  (∀ call, call ∈ target (execute scenario_seeder 3 stray_stream initial).2 →
           ic_table call ∈ schema scenario_seeder) ∧
  (∀ c, c ∈ scenario_stream → tag c ∈ schema scenario_seeder) ∧
  (execute literal_seeder 3 inherited_stream initial).1
  = Throw (PersistenceFailure "toString") ∧
  (∀ call, call ∈ target (execute literal_seeder 3 inherited_stream initial).2 →
           ic_table call ∈ "books" :: Object_prototype_names).
Proof.
  split; [vm_compute; reflexivity|]. split; [|split; [|split]].
  - apply (proj1 (X20_only_tables_of_the_schema scenario_seeder 3
                    stray_stream)).
  - apply (proj1 (proj2 (X20_only_tables_of_the_schema scenario_seeder 4
                    scenario_stream))); [vm_compute; lia|vm_compute; reflexivity].
  - vm_compute. reflexivity.
  - apply (proj1 (X20_only_tables_of_the_schema literal_seeder 3
                    inherited_stream)).
Defined.

(** ** [RuntimeConfigAwareGenerator] *)

Lemma set_prop_keys {A} k (v : A) obj :
  NoDup obj.*1 → NoDup (set_prop k v obj).*1.
Proof.
  unfold set_prop. case_bool_decide as Hk.
  - intros Hnd. by rewrite alter_assoc_fst.
  - rewrite fmap_app. cbn. intros Hnd. apply NoDup_app. split; [done|].
    split; [|apply NoDup_singleton].
    intros k' Hk' ->%list_elem_of_singleton. apply Hk.
    by apply assoc_is_Some.
Qed.

Lemma assoc_fold_set_prop {A} k (l acc : list (string * A)) :
  NoDup l.*1 →
  assoc k (foldl (fun acc x => set_prop x.1 x.2 acc) acc l)
  = match assoc k l with Some v => Some v | None => assoc k acc end.
Proof.
  revert acc. induction l as [|[k0 v0] l IH]; intros acc Hnd; cbn; [done|].
  apply NoDup_cons in Hnd as [Hk0 Hnd]. rewrite IH by done.
  rewrite assoc_set_prop. destruct (decide (k = k0)) as [->|Hne].
  - rewrite decide_True by done. by rewrite (assoc_None k0 l).
  - by rewrite decide_False by done.
Qed.

Lemma fold_set_prop_keys {A} (l acc : list (string * A)) :
  NoDup acc.*1 →
  NoDup (foldl (fun acc x => set_prop x.1 x.2 acc) acc l).*1.
Proof.
  revert acc. induction l as [|[k0 v0] l IH]; intros acc Hnd; cbn; [done|].
  by apply IH, set_prop_keys.
Qed.

Lemma assoc_spread {A} k (a b : list (string * A)) :
  NoDup a.*1 → NoDup b.*1 →
  NoDup (spread a b).*1 ∧
  assoc k (spread a b)
  = match assoc k b with Some v => Some v | None => assoc k a end.
Proof.
  intros Ha Hb. unfold spread. rewrite foldl_app. split.
  - apply fold_set_prop_keys, fold_set_prop_keys. constructor.
  - rewrite !assoc_fold_set_prop by done. by destruct (assoc k a).
Qed.

Section RuntimeHandlers.
Context {Faker : Type}.
Variable columnClassMap : list string.
Variable is_class : Column → string → bool.
Variable ctx : ExtendedGeneratorContext Faker.
Variable K : string.
Hypothesis class_known : K ∈ columnClassMap.
Hypothesis class_of_column : is_class (columnDef ctx) K = true.
Hypothesis one_class : ∀ K',
  K' ∈ columnClassMap → is_class (columnDef ctx) K' = true → K' = K.

Lemma runtime_no_match (m : RuntimeConfigHandlersMap Faker) :
  K ∉ m.*1 → runtime_handlers columnClassMap is_class m ctx = super ctx.
Proof.
  induction m as [|[K' handler] m IH]; cbn; [done|].
  intros [Hne Hm]%not_elem_of_cons. destruct handler as [handler|]; [|auto].
  case_bool_decide as Hknown; cbn; [|auto].
  destruct (is_class (columnDef ctx) K') eqn:Hclass; [|auto].
  destruct Hne. symmetry. by apply one_class.
Qed.

Lemma runtime_single (m : RuntimeConfigHandlersMap Faker) s :
  NoDup m.*1 →
  runtime_handlers columnClassMap is_class m ctx s
  = match assoc K m with
    | Some (Some handler) => or_super handler ctx s
    | _ => super ctx s
    end.
Proof.
  induction m as [|[K' handler] m IH]; cbn; [done|].
  intros [HK' Hnd]%NoDup_cons. case_decide as HK; subst.
  - destruct handler as [handler|]; [|by rewrite runtime_no_match].
    rewrite bool_decide_true, class_of_column by done. cbn.
    unfold or_super, ebind.
    destruct (handler ctx s) as [[result| |] s1]; [|done..].
    destruct result as [d|r|]; [destruct d|..]; try done.
    by rewrite runtime_no_match.
  - destruct handler as [handler|]; [|auto].
    case_bool_decide as Hknown; cbn; [|auto].
    destruct (is_class (columnDef ctx) K') eqn:Hclass; [|auto].
    destruct HK. by apply one_class.
Qed.
End RuntimeHandlers.

(** X21. [refine] of a [RuntimeConfigAwareGenerator] replaces the handler of
    every class the refinements name and keeps the others. For a column of
    one class [K]: when the refinements have a handler for [K], the refined
    generator gives the value of this handler, and what [ctx.super()] gives,
    not the handler it replaces, when this value is [undefined]; when they
    give [undefined] for [K], it goes to [ctx.super()]; when they do not
    name [K], it does what the generator did before. *)
Theorem X21_runtime_refine_replaces_handlers {Faker} same fuel columnClassMap
  is_class (handlersMap refinements : RuntimeConfigHandlersMap Faker)
  (ctx : ExtendedGeneratorContext Faker) K s :
  NoDup handlersMap.*1 → NoDup refinements.*1 →
  K ∈ columnClassMap → is_class (columnDef ctx) K = true →
  (∀ K', K' ∈ columnClassMap → is_class (columnDef ctx) K' = true → K' = K) →
  generate same fuel
    (RuntimeConfigAwareGenerator_refine columnClassMap is_class handlersMap
                                        refinements) ctx s
  = match assoc K refinements with
    | Some (Some handler) => or_super handler ctx s
    | Some None => super ctx s
    | None =>
        generate same fuel
          (RuntimeConfigAwareGenerator columnClassMap is_class handlersMap)
          ctx s
    end.
Proof.
  intros Hh Hr HK Hclass Hone. cbn [RuntimeConfigAwareGenerator_refine
    RuntimeConfigAwareGenerator generate].
  destruct (assoc_spread K handlersMap refinements Hh Hr) as [Hnd Hassoc].
  rewrite !(runtime_single columnClassMap is_class ctx K HK Hclass Hone)
    by done.
  rewrite Hassoc. by destruct (assoc K refinements) as [[handler|]|].
Qed.

Lemma X21_runtime_refine_replaces_handlers_witness :
  (generate same_number 0
     (RuntimeConfigAwareGenerator_refine sqlite_classes is_text
        [("SQLiteText", Some (fun _ => eret (Plain (DNum 1))))]
        [("SQLiteText", Some (fun _ => eret (Plain DUndefined)))])
     (email_ctx (eret (Plain (DNum 7)))) seen_zero).1
  = Done (Plain (DNum 7)).
Proof.
  rewrite (X21_runtime_refine_replaces_handlers same_number 0 sqlite_classes
             is_text
             [("SQLiteText", Some (fun _ => eret (Plain (DNum 1))))]
             [("SQLiteText", Some (fun _ => eret (Plain DUndefined)))]
             (email_ctx (eret (Plain (DNum 7)))) "SQLiteText" seen_zero).
  - reflexivity.
  - apply NoDup_singleton.
  - apply NoDup_singleton.
  - left.
  - reflexivity.
  - intros K' _ HK'. by apply bool_decide_eq_true in HK'.
Defined.
